(* ===== verification/_CoqProject ===== *)
-Q . S2P
Prelude.v
Unicode.v
Search.v
Scanner.v
Lines.v
Tree.v
Syntax.v
Reparse.v
Source.v
SourceSpec.v
Edit.v
Width.v
Sharing.v
Snapshot.v
Stability.v
Handles.v
Refine.v
Protocol.v
Tests.v
Equation.v
Geometry.v
EquationLayout.v
MathLayout.v
