(* ===== verification/Prelude.v ===== *)
(** * Verification of typst's source-file model (crates/typst/src/syntax/source.rs)
    and of the equation element of the math library
    (crates/typst-library/src/math/mod.rs)

    ** The program

    [source.rs] keeps one source file as three coupled representations: the
    UTF-8 text, a table of line starts (each a byte offset paired with the
    UTF-16 offset of the same position) and the root of a syntax tree.  The
    table is built by [lines] / [lines_from], queried by binary search
    ([byte_to_line], [utf16_to_byte]) and by short scans inside one line
    ([byte_to_utf16], [byte_to_column], [line_column_to_byte]), and repaired
    in place by [Source::edit], which truncates the table at the edited line,
    handles a carriage return that meets a line feed, rescans the text after
    the edit and hands the tree to the external incremental reparser.
    The parser, the reparser and the spans live in other files of the
    crate; [source.rs] only calls them.  [math/mod.rs] fills the scope of
    the math module ([module]) and declares the equation element with its
    synthesis, counting, naming, referencing, outlining and layout.

    ** The files, in dependency order

    - [Prelude] (this file): the [outcome] type that separates a Rust panic
      from a returned value, its binds and notations (scope [rust_scope]),
      byte ranges, the tactics and the hint databases [rust] and [rust_rw] of the
      development, and lemmas on lists shared by all components.
    - [Unicode]: characters as Unicode scalar values, their UTF-8 and
      UTF-16 widths, strings as lists of characters, byte lengths, and the
      slicing operations of [str] (checked [get], panicking index,
      [replace_range]) with the char-boundary discipline of Rust.
    - [Search]: [slice::binary_search_by_key] as the loop the standard
      library runs, defined by well-founded recursion, with its
      specification on sorted tables, and the same loop counting the
      entries it reads ([binary_search_probes]), at most one more than
      the logarithm of the length of the table.
    - [Scanner]: the cursor of the [unscanny] crate that [lines_from] drives.
    - [Lines]: the [Line] record, [is_newline] as the class [Newlines],
      [lines_from] as the [from_fn] iterator the code builds
      ([lines_from_next] is one call of its closure, [lines_from_iter] the
      iterator), [lines], the reference list [line_starts] by structural
      recursion, and the invariant [table_ok] of a line table.  Theorems:
      the iterator equals the reference, the table is sorted on both
      offsets and holds exactly the positions after line breaks, the table
      of a concatenation ([lines_app]).
    - [Tree]: the boundary to the parser: file ids, spans, and the
      operations [parse], [reparse], [numberize], [synthesize], [errors],
      [cast_markup] and [linked_find] as the class [Parser], with the
      instance [leaf_parser] on which examples run, and what [source.rs]
      relies on of them as the class [ParserLaws]: the tree of a text
      spells the text and is a function of it, spans apart; numbering
      gives every node a span of its own in the file and in the interval
      asked for; the reparser returns the numbered tree of the new text
      and a range that holds the replacement, and leaves the nodes
      outside that range their spans; a lookup finds the spans of the
      tree and no others.
    - [Syntax]: the module [Syntax]: a syntax tree as a rose tree of
      kinds, texts and spans, with [numberize] as the pre-order counter,
      [synthesize], [find] as the descent that skips the subtrees whose
      interval of numbers does not hold the span, [find_ref] as the
      search in the pre-order list, [ranges] as the byte ranges of the
      nodes, and the reparser that parses in full.  The grammar is the
      class [Grammar] (a function from texts to trees that spell them,
      rooted in markup), and what a reparser promises is the class
      [Reparser].  Theorems: the spans of a numbered tree are
      consecutive in pre-order, [find] equals [find_ref], the
      descendants of a node are the nodes whose numbers lie in its
      interval; the instance [tree_laws] discharges [ParserLaws] for
      every grammar and reparser.
    - [Reparse]: the module [Reparse]: a reparser that patches.  [patch]
      replaces the text of the leaf in which the replaced range lies by
      the bytes of the new text at its place; [reparse] keeps the patch
      when the patched tree is the tree of the new text and falls back
      to the full parse otherwise.  Theorems: a patch keeps every span
      and the numbering, leaves the ranges of the nodes before the leaf
      and moves those after it ([patch_ranges]); the instance
      [patch_reparser] of [Reparser].
    - [Source]: the module [Source]: the record [Repr] and one definition
      per method of [impl Source], with the names of the source, and the
      [Hash], [AsRef] and [Debug] implementations.
    - [SourceSpec]: the invariant [consistent] ("the table is the table of
      the text"), the specification of every query against the text alone,
      absence of panics, bounds, the two round trips, what
      [utf16_to_byte] and [line_column_to_byte] answer for indices that
      have no position, and the number of line records [byte_to_line]
      reads ([byte_to_line_counted], [byte_to_line_logarithmic]).
    - [Edit]: [Source::new], [Source::replace] and [Source::edit]: when an
      edit panics, what it returns ([edit_spec]), and exactly when the
      repaired table equals the table built from scratch ([edit_repairs]).
    - [Width]: the arithmetic at the width of [usize].  The class [Width]
      is the number of bits; [checked_add] is the addition that panics
      when the sum exceeds [usize::MAX], [wrapping_add] the one that
      wraps, [wrapping_sub] the subtraction that wraps below zero, and
      the class [Adder] any addition and subtraction that return the sum
      when it fits and the difference when there is one, with the
      checked and the wrapping pair as instances.  The module [Usize]
      has every function of [source.rs] that adds or subtracts
      ([lines_from] with its two closures, [lines], [new],
      [synthesized], [replace], [len_utf16], [byte_to_line],
      [byte_to_column], [byte_to_utf16], [utf16_to_byte],
      [line_to_range], [line_column_to_byte], [edit]) over the [add] and
      [sub] of an [Adder].  Theorems, for every [Adder]: on consistent
      sources with texts of at most [isize::MAX] bytes each of them
      returns what the function of [Source] or [Lines] of the same name
      returns ([lines_no_overflow], [queries_no_overflow],
      [edit_no_overflow]); examples at four bits show what either build
      does on overflow.
    - [Sharing]: the module [Shared]: [Source] as a pointer to a shared
      [Repr].  The state is a [Store] of cells and of variables bound to
      them; [Arc::strong_count] is the number of variables on a cell and
      [Arc::make_mut] copies a cell that has more than one.  [new],
      [clone], [replace] and [edit] are programs in the monad [M] of the
      store, one bind per statement of the source, so that the store left
      by a panic is the store at the statement that panicked.  Theorems:
      programs over handles compute what the same programs compute over
      values ([handles_are_values]); an edit is not seen through another
      handle and writes nothing when it panics ([edit_isolated]); a
      [replace] that cannot number its tree leaves new text with the
      old tree ([replace_panic_torn]).
    - [Snapshot]: the invariant [snapshot_ok] of the three
      representations together (the table is the table of the text, the
      tree is the tree of the text, spans apart, and is numbered in the
      file), proved from [ParserLaws] alone: [new] establishes it,
      [replace] and every edit that repairs its table keep it (the
      relation [change] and its closure), and under it [ast] never
      panics and [find] answers for the spans of the tree.  Over the
      trees of [Syntax], [new_tree] says which spans [new] assigns and
      when it panics.
    - [Stability]: what an edit leaves of the spans: the nodes before
      and after the range it returns keep their spans and are found
      under them ([edit_stable]), with an edit that the reparser of
      [Reparse] patches and one that it does not; and the same over runs
      of edits (the relation [elsewhere] between a source with the range
      of a node and the next, the invariant [tracked], [edits_stable]).
    - [Handles]: [Sharing] and [Snapshot] composed: after a program over
      handles every handle holds a snapshot
      ([handles_hold_snapshots]).
    - [Refine]: the interface of a source file as requests and answers
      (one request per public method; [serve] dispatches to the method),
      the abstract document [Doc.t] (identity, text and tree, no line
      table) whose position queries are computed from the text alone, and
      the refinement: a consistent source and its document ([abs]) answer
      every request alike and stay in step over any run of requests whose
      edits leave the table repaired ([safe]).
    - [Protocol]: what a client can rely on: the type of every answer
      ([answer_ok]), that a run of requests the document accepts is
      answered to its end ([run_answered]), and that from any reachable
      source, broken tables included, a replacement of the text leads back
      to a consistent one ([step], [consistency_recoverable]).
    - [Tests]: the unit tests of [source.rs] as computations; each passes.
    - [Equation]: the module [Math]: scopes as finite maps and [module] as
      its run of [define] calls; [EquationElem] with [synthesize],
      [update], [local_name], the [Refable] methods and [outline].  What
      the other crates provide (content, counters, numberings, [Vt]) is
      the class [Typesetter].  Theorems: [module] returns exactly when the
      names it defines are pairwise distinct, and then binds them all;
      synthesis materialises the fields; when an equation counts; when
      [outline] answers [None] or panics.
    - [Geometry]: lengths as rationals, points, sizes, alignment, and the
      module [Frame]: [doc::Frame] with the methods the layout of an
      equation calls ([resize], [translate], [push_frame], [meta]), the
      equivalence [≡] of equal lengths with its [Proper] instances, and
      what each method does to the items a frame shows ([Frame.flatten]).
    - [EquationLayout]: the module [Layout]: [show], [finalize] and
      [layout] of [EquationElem]; the layout is split where the code has
      its [let]s: [find_math_font] with its closure [math_font],
      [number_width], [number_height], [number_pos] and [place_number]
      for a numbered block, [fit_inline] for an inline equation.  The
      world, the text properties of the style chain and the layout of the
      body and of the counter are the class [Layouter].  Theorems: which
      font is found and the error when none is; the size of the frame of
      a numbered equation and where it shows the body and the number; the
      gutter between them in an infinite region and their overlap in a
      narrow finite one; the edges of an inline equation; a hidden
      equation shows nothing.
    - [MathLayout]: the module [MathLayout]: [layout_math] of [impl
      LayoutMath for Content] as a function on the math context (the
      fields [local], [size] and [fragments] and the outer style chain),
      with the branches [layout_kind], [layout_children] and
      [layout_styled]; the engine it calls is the class [MathEngine].
      Theorems: a successful layout restores the local styles and the font
      size; a failure inside styled content does not; the function
      terminates on content that no show rule rewrites.

    ** Modelling conventions

    - [usize] is [nat] in every file but [Width].  The two subtractions
      that could go below zero ([i - 1] after a failed binary search) are
      modelled as checked: they yield [Panic], which is what a build with
      overflow checks does; the theorems show they never fire on a table
      that satisfies the invariant.  Additions are unbounded there.
      [Width] justifies it: it writes the functions that add or
      subtract over the arithmetic of a build at the width of [usize],
      for any number of bits, and proves that on a text of at most
      [isize::MAX] bytes, the most Rust allocates, they return what the
      unbounded ones return.  The arithmetic is a parameter (the class
      [Adder]: it returns the sum when the sum fits and the difference
      when there is one), so the theorems hold for the build that panics
      on overflow and for the build that wraps.  The bound is on the
      text alone: arguments ([byte_idx], [line_idx], [column_idx]) are
      arbitrary.  The cursor of the scanner and the offsets of
      [char_indices] are additions inside the libraries and are bounded
      by the length of the string they walk.
    - A Rust [String] is valid UTF-8, so it is determined by its sequence of
      scalar values; the model keeps that sequence and computes byte offsets
      from [len_utf8].  Slicing at an offset inside a character is absent
      ([get]) or a panic (index syntax), as in Rust.
    - [Option] is [option]; a function that can also panic returns
      [outcome (option A)].  The operator [?] is the bind [x ←? m; k].
    - The iterator of [lines_from] and the loop of the binary search are
      defined by well-founded recursion (Equations), without fuel: the
      first on the number of characters left in the scanner, which every
      call that yields a line decreases ([lines_from_next_progress]), the
      second on [hi - lo].  Both are total functions, so a theorem about
      their result is a theorem about a result that exists.
    - [layout_math] alone takes fuel, because it recurses into content
      that a show rule returns, which nothing bounds.  With no show rule
      the number of nodes of the content is enough fuel
      ([layout_math_total]), and more fuel never changes a result
      ([layout_math_fuel_mono]).
    - The hashes of [Prehashed] do not change any value computed here.
      In [Source] a source is its [Repr] and a method on [&mut self]
      returns the new [Repr]; [Sharing] models the [Arc] and proves that
      this loses nothing.  There a variable is a number, a cell address a
      positive number, a new cell takes the first address not in use, and
      a variable going out of scope is not modelled: its cell stays in
      the store, where no theorem reads it.
    - The newline test is a parameter (the class [Newlines]) of which the
      theorems use only that it accepts the line feed and the carriage
      return; examples run on the instance of the specification.
    - The parser is a parameter too.  Theorems about the text and the
      table hold for every [Parser]; theorems about the tree assume
      [ParserLaws], which two instances satisfy: the one-node trees of
      [leaf_parser] and the rose trees of [Syntax] over any [Grammar]
      and any [Reparser].
      The number of a span is a natural number below [2 ^ 48]
      ([Span_FULL] is the interval from 2 to [2 ^ 48]); [Syntax.numberize]
      is the strictly increasing pre-order counter of the specification,
      from the start of the interval, and fails when the tree has more
      nodes than the interval has numbers.  [Syntax.reparse] parses the
      new text in full and reports the whole text as reparsed: the
      fallback the specification names for an edit that cannot be
      confined to a subtree.  [Reparse.reparse] confines an edit to a
      leaf when it can; it decides whether the patched tree is the tree
      of the new text by comparing it with the tree the grammar gives,
      where a reparser written for one grammar decides it from the
      grammar.  The model says what a reparser returns, not what it
      costs.
    - Cost is counted in one place: [binary_search_counted] is the loop
      of the binary search returning, beside its result, the number of
      entries it has read, and [byte_to_line_counted] is [byte_to_line]
      over it.  Their first components are proved to be the functions
      without the count.
    - In [Equation], a field of an element is set or unset, and reading it
      looks at the element, then at the style chain, then takes the
      default, as the accessors generated by the [element] macro do.  A
      deduplicating scope panics on a second definition of a name, as
      [Scope::define] does in a build with debug assertions.
    - A length ([Abs]) is a rational number, so that the halves, sums and
      maxima of the layout are exact; [0.7] is [7/10].  Rounding, NaN and
      the infinities of [f64] are not modelled, except for the width of a
      region, which is a length or infinite ([Extent]).  Lengths are
      compared by [==], frames by the items they show up to [==] of their
      positions; a group and its inlined items show the same.
    - A run of requests is a list, served in order ([run]); fuel is not
      needed, every method being a total function.

    ** What the theorems show

    Every query of a consistent source answers for the text alone and never
    panics; the two round trips hold.  [Source::new] and [Source::replace]
    build consistent sources.  [Source::edit] panics exactly on a range
    that is not a slice of the text, and otherwise returns the spliced
    text with the tree of the reparser; the table it leaves is the table
    of the new text if and only if [edit_repairs] holds.  Consistency is
    an invariant of the relation [safe_step] (replacements, and edits
    that do not start right after a carriage return), by induction on its
    reflexive transitive closure, and a run of such edits never panics
    ([edit_all_safe]).  [edit_repairs] does not hold
    for every edit that starts right after a carriage return:
    [edit_then_query_panics] is an edit after which [byte_to_line]
    underflows.  Two answers differ from the specification of the module:
    [utf16_to_byte] rounds an index inside a surrogate pair up to the next
    character, and [line_column_to_byte] clamps a column past the end of
    the line.  [byte_to_line] reads at most one line record more than the
    binary logarithm of the number of lines.

    No addition of [source.rs] overflows and no subtraction goes below
    zero on a text that can be allocated and a table that is the table
    of the text: building the table, every query (for every argument) and
    every edit whose result can be allocated compute in [usize] what the
    model computes in natural numbers, with overflow checks or without.
    At a width of four bits a text of sixteen bytes overflows the
    counters of [lines] (a panic, or a table with two records of offset
    zero), and [line_to_range] of the sixteenth line overflows on
    [line_idx + 1] (a panic, or the reversed range [15..0]): the bound
    on the text is what rules this out at 64 bits.

    The line table is a cache and nothing more: a consistent source
    refines the document without a table ([source_refines_doc]), its
    answers have the types a client expects ([serve_well_typed]), runs of
    accepted requests are answered to the end, and a replacement of the
    text recovers consistency from any state.

    Sharing is not observable: a program of [new], [clone], [replace]
    and [edit] over handles that share cells returns and leaves what it
    does over values, by a simulation between the store and the
    environment of values ([env_of]) that every statement keeps.  An
    [edit] checks all it unwraps and the range before its first write, so
    a panic leaves every handle as it was; [replace] writes the text and
    the table before it numbers the tree, so the panic of numbering
    leaves them with the tree of the old text.

    Text, table and tree stay one snapshot: [Source::new] returns a
    source whose tree spells its text and whose nodes have pairwise
    distinct spans of the file, or panics because the tree cannot be
    numbered ([new_snapshot]; over rose trees, exactly when it has more
    nodes than [Span_FULL] has numbers, [new_tree]); an edit that
    repairs its table returns a snapshot of the spliced text
    ([edit_snapshot]), so does every run of such edits and replacements
    ([changes_snapshot]), and so does every handle of a program over
    shared sources ([handles_hold_snapshots]).  In a snapshot the
    [unwrap] of [ast] cannot fire ([ast_snapshot]).  The range an edit
    returns holds the replacement, and a node with text that lies before
    or after that range is a node of the new tree with the span it had,
    at the place the edit moved it to ([edit_stable]): a consumer that
    kept spans finds those nodes again, and still does after any run of
    edits that each leave the node outside the range they return
    ([edits_stable], by induction on the closure of [elsewhere]).  An
    edit is not refused on a synthesized source ([synthesized_edit]).

    The layout of an equation fails exactly with the error of the missing
    math font when no family has one, and otherwise uses the first that
    has.  The frame of a numbered block shows the body centred and the
    number at the end of the line, half way down; in an infinite region
    the gutter separates them, in a finite region narrower than the body
    and twice the number they overlap
    ([number_overlaps_in_narrow_region]).  An inline equation is fitted
    between the edges of the text.

    ** Not modelled

    The parser, the incremental reparser and span numbering are in other
    files of the crate: [source.rs] is verified against the interface of
    [Tree] and its laws.  [Syntax] and [Reparse] show that the laws can
    be met, with a grammar that is a parameter, a reparser that never
    reuses a subtree and one that patches a leaf; the grammar of typst
    and the policy of its reparser (which subtrees it reparses, how it
    renumbers them) are not modelled.  The path of a file id appears
    through the class [Files].
    Of the frames and the geometry
    only what the layout of an equation calls is modelled, over the
    rationals; the layout of the body ([MathContext::layout_frame], which
    runs [layout_math] and builds the frame of a row) and of the counter
    are operations of [Layouter], so [EquationLayout] and [MathLayout] are
    not composed.  The math elements of the other files, whose
    [layout_math] the dispatch calls, are one operation of [MathEngine].
    Of [Arc] only [new], [clone] and [make_mut] are modelled: no weak
    pointers, no deallocation, and one thread. *)

From stdpp Require Export base tactics option list numbers.

(** ** Outcomes: a value or a panic *)

Inductive outcome (A : Type) : Type :=
| Val (a : A)
| Panic.
Arguments Val {A} a.
Arguments Panic {A}.

#[export] Instance outcome_ret : MRet outcome := @Val.

#[export] Instance outcome_bind : MBind outcome := λ A B f m,
  match m with
  | Val a => f a
  | Panic => Panic
  end.

#[export] Instance outcome_fmap : FMap outcome := λ A B f m,
  match m with
  | Val a => Val (f a)
  | Panic => Panic
  end.

#[export] Instance outcome_eq_dec {A} `{EqDecision A} : EqDecision (outcome A).
Proof. solve_decision. Defined.

(** [Option::unwrap] and [Option::expect]. *)
Definition unwrap {A} (o : option A) : outcome A :=
  match o with
  | Some a => Val a
  | None => Panic
  end.

(** The operator [?] inside a function that returns an [Option] and may
    panic: absence and panic both leave the function. *)
Definition try_bind {A B} (m : outcome (option A))
    (k : A → outcome (option B)) : outcome (option B) :=
  match m with
  | Panic => Panic
  | Val None => Val None
  | Val (Some a) => k a
  end.

(** A pure [Option] used where panics are possible. *)
Definition lift_opt {A} (o : option A) : outcome (option A) := Val o.

(** [bool::then]. *)
Definition bool_then {A} (b : bool) (a : A) : option A :=
  if b then Some a else None.

(** Checked [usize] subtraction: the result or an overflow panic. *)
Definition checked_sub (a b : nat) : outcome nat :=
  if decide (b ≤ a) then Val (a - b) else Panic.

(** Whether an outcome is a value. *)
Definition no_panic {A} (m : outcome A) : Prop :=
  match m with
  | Val _ => True
  | Panic => False
  end.

#[export] Instance no_panic_dec {A} (m : outcome A) : Decision (no_panic m).
Proof. destruct m; simpl; apply _. Defined.

Declare Scope rust_scope.
Delimit Scope rust_scope with rust.
Notation "x ←? m ; k" := (try_bind m (λ x, k))
  (at level 20, m at level 100, k at level 200, only parsing) : rust_scope.
Open Scope rust_scope.

(** ** Byte ranges, [std::ops::Range<usize>] *)

Record Range : Type := mkRange { range_start : nat; range_end : nat }.

#[export] Instance Range_eq_dec : EqDecision Range.
Proof. solve_decision. Defined.

(** ** [Vec] operations the code uses *)

(** [Vec::pop], result dropped. *)
Definition pop {A} (l : list A) : list A := take (length l - 1) l.

(** [Vec::truncate]. *)
Definition truncate {A} (n : nat) (l : list A) : list A := take n l.

(** [Iterator::find_map]: the first result that is present. *)
Fixpoint find_map {A B} (f : A → option B) (l : list A) : option B :=
  match l with
  | [] => None
  | a :: l' =>
      match f a with
      | Some b => Some b
      | None => find_map f l'
      end
  end.

(** ** Tactics and hints *)

Create HintDb rust discriminated.
Create Rewrite HintDb rust_rw.

(** Case analysis on the outcome or option scrutinised by a bind. *)
Ltac case_outcome :=
  match goal with
  | |- context [try_bind ?m _] => destruct m as [[?|]|] eqn:?
  | |- context [mbind _ ?m] => destruct m eqn:?
  | H : context [try_bind ?m _] |- _ => destruct m as [[?|]|] eqn:?
  end; simpl in *.

(** Turns boolean tests of the code into propositions and splits them. *)
Ltac bool_to_prop :=
  repeat match goal with
  | H : (_ <=? _) = true |- _ => apply Nat.leb_le in H
  | H : (_ <=? _) = false |- _ => apply Nat.leb_gt in H
  | H : (_ <? _) = true |- _ => apply Nat.ltb_lt in H
  | H : (_ <? _) = false |- _ => apply Nat.ltb_ge in H
  | H : (_ =? _) = true |- _ => apply Nat.eqb_eq in H
  | H : (_ =? _) = false |- _ => apply Nat.eqb_neq in H
  | H : _ && _ = true |- _ => apply andb_true_iff in H; destruct H
  | H : negb _ = true |- _ => apply negb_true_iff in H
  end.

(** ** Shared lemmas *)

Section outcome_lemmas.
Context {A B : Type}.
Implicit Types (m : outcome (option A)) (k : A → outcome (option B)).

Lemma try_bind_val_some a k : try_bind (Val (Some a)) k = k a.
Proof. done. Qed.

Lemma try_bind_val_none k : try_bind (Val None) k = Val None.
Proof. done. Qed.

Lemma try_bind_lift_opt (o : option A) (f : A → option B) :
  try_bind (lift_opt o) (λ a, lift_opt (f a)) = lift_opt (o ≫= f).
Proof. by destruct o. Qed.

Lemma unwrap_val (o : option A) a : unwrap o = Val a ↔ o = Some a.
Proof. destruct o; simpl; split; congruence. Qed.

Lemma unwrap_panic (o : option A) : unwrap o = Panic ↔ o = None.
Proof. destruct o; simpl; split; congruence. Qed.

End outcome_lemmas.

Lemma checked_sub_val a b : b ≤ a → checked_sub a b = Val (a - b).
Proof. intros. unfold checked_sub. by rewrite decide_True. Qed.

Lemma checked_sub_panic a b : a < b → checked_sub a b = Panic.
Proof. intros. unfold checked_sub. rewrite decide_False; [done | lia]. Qed.

Section list_lemmas.
Context {A : Type}.
Implicit Types (l k : list A) (x : A) (f : A → nat).

Lemma pop_nil : pop (@nil A) = [].
Proof. done. Qed.

Lemma pop_snoc l x : pop (l ++ [x]) = l.
Proof.
  unfold pop. rewrite length_app. simpl.
  replace (length l + 1 - 1) with (length l) by lia.
  apply take_app_length.
Qed.

Lemma pop_length l : length (pop l) = length l - 1.
Proof. unfold pop. rewrite length_take. lia. Qed.

Lemma pop_app l k : k ≠ [] → pop (l ++ k) = l ++ pop k.
Proof.
  intros Hk. destruct (exists_last Hk) as (k' & x & ->).
  by rewrite app_assoc, !pop_snoc.
Qed.

Lemma sum_list_with_take_drop f l n :
  sum_list_with f (take n l) + sum_list_with f (drop n l) = sum_list_with f l.
Proof. by rewrite <- sum_list_with_app, take_drop. Qed.

Lemma sum_list_with_pos f l :
  (∀ x, 0 < f x) → l ≠ [] → 0 < sum_list_with f l.
Proof. intros Hf Hl. destruct l as [|x l]; [done|]. simpl. specialize (Hf x). lia. Qed.

Lemma sum_list_with_zero f l :
  (∀ x, 0 < f x) → sum_list_with f l = 0 → l = [].
Proof.
  intros Hf H0. destruct l as [|x l]; [done|].
  simpl in H0. specialize (Hf x). lia.
Qed.

Lemma sum_list_with_le f g l :
  (∀ x, f x ≤ g x) → sum_list_with f l ≤ sum_list_with g l.
Proof. intros Hfg. induction l as [|x l IH]; simpl; [done|]. specialize (Hfg x). lia. Qed.

Lemma last_snoc_inv l x : list.last l = Some x → ∃ l', l = l' ++ [x].
Proof.
  intros Hl. destruct (decide (l = [])) as [->|Hne]; [done|].
  destruct (exists_last Hne) as (l' & y & ->).
  rewrite last_snoc in Hl. exists l'. congruence.
Qed.

Lemma filter_Forall_all (P : A → Prop) `{∀ x, Decision (P x)} l :
  Forall P l → filter P l = l.
Proof.
  induction 1 as [|x l Hx _ IH]; [done|]. by rewrite filter_cons_True, IH.
Qed.

Lemma filter_Forall_none (P : A → Prop) `{∀ x, Decision (P x)} l :
  Forall (λ x, ¬ P x) l → filter P l = [].
Proof.
  induction 1 as [|x l Hx _ IH]; [done|]. by rewrite filter_cons_False.
Qed.

(** [find_map] answers with the result of the first element that has one. *)
Lemma find_map_Some {B} (f : A → option B) l b :
  find_map f l = Some b ↔
  ∃ l1 a l2, l = l1 ++ a :: l2 ∧ Forall (λ x, f x = None) l1 ∧ f a = Some b.
Proof.
  induction l as [|x l IH]; simpl.
  { split; [done|]. by intros ([|??] & ? & ? & ? & _). }
  destruct (f x) as [b'|] eqn:Hx.
  - split.
    + intros [= ->]. by exists [], x, l.
    + intros ([|y l1] & a & l2 & Hl & Hn & Ha); simplify_eq/=; [congruence|].
      apply Forall_cons_1 in Hn as [Hy _]. congruence.
  - rewrite IH. split.
    + intros (l1 & a & l2 & -> & Hn & Ha). exists (x :: l1), a, l2. by repeat constructor.
    + intros ([|y l1] & a & l2 & Hl & Hn & Ha); simplify_eq/=; try congruence.
      apply Forall_cons_1 in Hn as [_ Hn]. by exists l1, a, l2.
Qed.

Lemma find_map_None {B} (f : A → option B) l :
  find_map f l = None ↔ Forall (λ x, f x = None) l.
Proof.
  induction l as [|x l IH]; simpl; [by split; [constructor|]|].
  rewrite list.Forall_cons, <- IH. destruct (f x); naive_solver.
Qed.

End list_lemmas.

#[export] Hint Rewrite @pop_snoc @pop_nil @pop_length : rust_rw.
#[export] Hint Rewrite @try_bind_val_some @try_bind_val_none : rust_rw.
#[export] Hint Resolve checked_sub_val checked_sub_panic : rust.
