(* ===== verification/Unicode.v ===== *)
(** * Characters and strings

    Rust's [char] (a Unicode scalar value) and [str] (valid UTF-8) as the
    source file uses them: the widths [char::len_utf8] and
    [char::len_utf16], the byte length [str::len], the UTF-16 length of
    typst's [StrExt::len_utf16], and slicing by byte offsets, which is absent
    ([str::get]) or panics (index syntax, [String::replace_range]) when an
    offset is out of bounds or falls inside a character. *)

From S2P Require Import Prelude.

(** ** Characters *)

Definition char : Type := N.

Definition LF : char := 10%N.
Definition CR : char := 13%N.

(** [char::len_utf8]: the thresholds [MAX_ONE_B], [MAX_TWO_B], [MAX_THREE_B]. *)
Definition len_utf8 (c : char) : nat :=
  if (c <? 0x80)%N then 1
  else if (c <? 0x800)%N then 2
  else if (c <? 0x10000)%N then 3
  else 4.

(** [char::len_utf16]: one unit iff the code fits in sixteen bits. *)
Definition len_utf16 (c : char) : nat :=
  if (N.land c 0xFFFF =? c)%N then 1 else 2.

(** ** Strings *)

Definition str : Type := list char.

(** [str::len], in bytes. *)
Definition str_len (s : str) : nat := sum_list_with len_utf8 s.

(** [StrExt::len_utf16]: [self.chars().map(char::len_utf16).sum()]. *)
Definition str_len_utf16 (s : str) : nat := sum_list_with len_utf16 s.

(** [s.chars().count()]. *)
Definition chars_count (s : str) : nat := length s.

#[global] Arguments str_len : simpl never.
#[global] Arguments str_len_utf16 : simpl never.

(** Splits at a byte offset; absent when the offset is past the end or
    inside a character. *)
Fixpoint split_at_byte (s : str) (n : nat) {struct s} : option (str * str) :=
  match n, s with
  | 0, _ => Some ([], s)
  | _, [] => None
  | _, c :: s' =>
      if decide (len_utf8 c ≤ n)
      then '(p, r) ← split_at_byte s' (n - len_utf8 c); Some (c :: p, r)
      else None
  end.

(** [str::is_char_boundary]. *)
Definition is_char_boundary (s : str) (n : nat) : bool :=
  match split_at_byte s n with
  | Some _ => true
  | None => false
  end.

(** [str::get(a..b)]. *)
Definition str_get (s : str) (r : Range) : option str :=
  if decide (range_start r ≤ range_end r) then
    '(_, t) ← split_at_byte s (range_start r);
    '(m, _) ← split_at_byte t (range_end r - range_start r);
    Some m
  else None.

(** [&s[a..b]], [&s[..n]] and [&s[n..]]: as [get], or a panic. *)
Definition str_index (s : str) (r : Range) : outcome str := unwrap (str_get s r).

Definition str_index_to (s : str) (n : nat) : outcome str :=
  unwrap (fst <$> split_at_byte s n).

Definition str_index_from (s : str) (n : nat) : outcome str :=
  unwrap (snd <$> split_at_byte s n).

(** [String::replace_range(a..b, with)]. *)
Definition replace_range (s : str) (r : Range) (with_ : str) : outcome str :=
  if decide (range_start r ≤ range_end r) then
    '(p, t) ← unwrap (split_at_byte s (range_start r));
    '(_, q) ← unwrap (split_at_byte t (range_end r - range_start r));
    Val (p ++ with_ ++ q)
  else Panic.

(** [str::ends_with(char)] and [str::starts_with(char)]. *)
Definition ends_with (s : str) (c : char) : bool :=
  bool_decide (list.last s = Some c).

Definition starts_with (s : str) (c : char) : bool :=
  bool_decide (head s = Some c).

(** [str::char_indices]: each character with the byte offset it starts at. *)
Fixpoint char_indices_from (i : nat) (s : str) : list (nat * char) :=
  match s with
  | [] => []
  | c :: s' => (i, c) :: char_indices_from (i + len_utf8 c) s'
  end.

Definition char_indices (s : str) : list (nat * char) := char_indices_from 0 s.

(** ** Widths *)

Lemma len_utf8_pos c : 0 < len_utf8 c.
Proof. unfold len_utf8. repeat case_match; lia. Qed.

Lemma len_utf8_le_4 c : len_utf8 c ≤ 4.
Proof. unfold len_utf8. repeat case_match; lia. Qed.

Lemma land_16_bits (c : N) : (N.land c 0xFFFF = c ↔ c < 0x10000)%N.
Proof.
  change 0xFFFF%N with (N.ones 16). rewrite N.land_ones.
  change (2 ^ 16)%N with 0x10000%N. split.
  - intros <-. apply N.mod_lt. lia.
  - apply N.mod_small.
Qed.

(** The bit test of [len_utf16] is the comparison with the first code above
    the Basic Multilingual Plane. *)
Lemma len_utf16_alt c : len_utf16 c = if (c <? 0x10000)%N then 1 else 2.
Proof.
  unfold len_utf16.
  destruct (N.ltb_spec c 0x10000) as [Hlt|Hge].
  - apply land_16_bits in Hlt. by rewrite Hlt, N.eqb_refl.
  - destruct (N.eqb_spec (N.land c 65535) c) as [Heq|]; [|done].
    apply land_16_bits in Heq. lia.
Qed.

Lemma len_utf16_pos c : 0 < len_utf16 c.
Proof. rewrite len_utf16_alt. case_match; lia. Qed.

Lemma len_utf16_le_2 c : len_utf16 c ≤ 2.
Proof. rewrite len_utf16_alt. case_match; lia. Qed.

(** A character never takes more UTF-16 units than bytes. *)
Lemma len_utf16_le_utf8 c : len_utf16 c ≤ len_utf8 c.
Proof.
  rewrite len_utf16_alt. unfold len_utf8.
  repeat match goal with |- context [(?a <? ?b)%N] => destruct (N.ltb_spec a b) end; lia.
Qed.

Lemma len_utf8_LF : len_utf8 LF = 1.
Proof. done. Qed.

Lemma len_utf8_CR : len_utf8 CR = 1.
Proof. done. Qed.

Lemma len_utf16_LF : len_utf16 LF = 1.
Proof. done. Qed.

Lemma len_utf16_CR : len_utf16 CR = 1.
Proof. done. Qed.

(** ** Lengths *)

Lemma str_len_app s t : str_len (s ++ t) = str_len s + str_len t.
Proof. apply sum_list_with_app. Qed.

Lemma str_len_utf16_app s t : str_len_utf16 (s ++ t) = str_len_utf16 s + str_len_utf16 t.
Proof. apply sum_list_with_app. Qed.

Lemma str_len_nil : str_len [] = 0.
Proof. done. Qed.

Lemma str_len_utf16_nil : str_len_utf16 [] = 0.
Proof. done. Qed.

Lemma str_len_cons c s : str_len (c :: s) = len_utf8 c + str_len s.
Proof. done. Qed.

Lemma str_len_utf16_cons c s : str_len_utf16 (c :: s) = len_utf16 c + str_len_utf16 s.
Proof. done. Qed.

Lemma str_len_nil_inv s : str_len s = 0 → s = [].
Proof. apply sum_list_with_zero, len_utf8_pos. Qed.

Lemma str_len_utf16_nil_inv s : str_len_utf16 s = 0 → s = [].
Proof. apply sum_list_with_zero, len_utf16_pos. Qed.

Lemma str_len_utf16_le s : str_len_utf16 s ≤ str_len s.
Proof. apply sum_list_with_le, len_utf16_le_utf8. Qed.

Lemma chars_count_le s : chars_count s ≤ str_len s.
Proof.
  unfold chars_count. induction s as [|c s IH]; [done|].
  rewrite str_len_cons. pose proof (len_utf8_pos c). simpl. lia.
Qed.

Lemma chars_count_le_utf16 s : chars_count s ≤ str_len_utf16 s.
Proof.
  unfold chars_count. induction s as [|c s IH]; [done|].
  rewrite str_len_utf16_cons. pose proof (len_utf16_pos c). simpl. lia.
Qed.

#[export] Hint Rewrite str_len_app str_len_utf16_app str_len_cons
  str_len_utf16_cons str_len_nil str_len_utf16_nil len_utf8_LF len_utf8_CR len_utf16_LF len_utf16_CR : rust_rw.
#[export] Hint Resolve len_utf8_pos len_utf16_pos str_len_utf16_le : rust.

(** ** Splitting at a byte offset *)

(** Two decompositions of one string whose prefixes have the same byte
    length are the same decomposition. *)
Lemma str_app_inj_len (p1 r1 p2 r2 : str) :
  p1 ++ r1 = p2 ++ r2 → str_len p1 = str_len p2 → p1 = p2 ∧ r1 = r2.
Proof.
  revert p2. induction p1 as [|c p1 IH]; intros [|c2 p2] Heq Hlen;
    autorewrite with rust_rw in Hlen; simpl in *.
  - done.
  - pose proof (len_utf8_pos c2). lia.
  - pose proof (len_utf8_pos c). lia.
  - simplify_eq. destruct (IH p2) as [-> ->]; [done | lia | done].
Qed.

(** Of two prefixes of one string, the one with fewer bytes is a prefix of
    the other. *)
Lemma str_app_prefix_le (p t p' q : str) :
  p ++ t = p' ++ q → str_len p ≤ str_len p' → ∃ m, p' = p ++ m ∧ t = m ++ q.
Proof.
  revert p'. induction p as [|c p IH]; intros p' Heq Hle.
  - by exists p'.
  - destruct p' as [|c' p']; autorewrite with rust_rw in Hle.
    + pose proof (len_utf8_pos c). lia.
    + simpl in Heq. simplify_eq.
      destruct (IH p') as (m & -> & ->); [done|lia|]. by exists m.
Qed.

Lemma split_at_byte_0 s : split_at_byte s 0 = Some ([], s).
Proof. by destruct s. Qed.

Lemma split_at_byte_app p r : split_at_byte (p ++ r) (str_len p) = Some (p, r).
Proof.
  induction p as [|c p IH]; simpl; [apply split_at_byte_0|].
  pose proof (len_utf8_pos c). rewrite str_len_cons.
  destruct (len_utf8 c + str_len p) as [|n] eqn:Hn; [lia|].
  rewrite decide_True by lia.
  replace (S n - len_utf8 c) with (str_len p) by lia.
  by rewrite IH.
Qed.

Lemma split_at_byte_Some s n p r :
  split_at_byte s n = Some (p, r) → s = p ++ r ∧ str_len p = n.
Proof.
  revert n p r. induction s as [|c s IH]; intros [|n] p r Hs; simpl in *;
    simplify_eq; try done.
  case_decide; [|done]. simplify_option_eq.
  match goal with H : split_at_byte _ _ = Some ?pr |- _ =>
    destruct pr as [p' r']; apply IH in H as [-> Hlen] end.
  simplify_eq. split; [done|]. rewrite str_len_cons. lia.
Qed.

(** The characterisation used by every slicing lemma. *)
Lemma split_at_byte_spec s n p r :
  split_at_byte s n = Some (p, r) ↔ s = p ++ r ∧ str_len p = n.
Proof.
  split; [apply split_at_byte_Some|].
  intros [-> <-]. apply split_at_byte_app.
Qed.

Lemma split_at_byte_None s n :
  split_at_byte s n = None ↔ ∀ p r, s = p ++ r → str_len p ≠ n.
Proof.
  split.
  - intros Hn p r -> Hlen. by rewrite <- Hlen, split_at_byte_app in Hn.
  - intros Hall. destruct (split_at_byte s n) as [[p r]|] eqn:Hs; [|done].
    apply split_at_byte_Some in Hs as [-> Hlen]. by destruct (Hall p r).
Qed.

Lemma split_at_byte_len s : split_at_byte s (str_len s) = Some (s, []).
Proof. by rewrite <- (app_nil_r s) at 1; rewrite split_at_byte_app. Qed.

Lemma split_at_byte_gt s n : str_len s < n → split_at_byte s n = None.
Proof.
  intros Hlt. apply split_at_byte_None. intros p r -> <-.
  rewrite str_len_app in Hlt. lia.
Qed.

Lemma is_char_boundary_spec s n :
  is_char_boundary s n = true ↔ ∃ p r, s = p ++ r ∧ str_len p = n.
Proof.
  unfold is_char_boundary. split.
  - destruct (split_at_byte s n) as [[p r]|] eqn:Hs; [|done].
    intros _. exists p, r. by apply split_at_byte_Some.
  - intros (p & r & Hs). apply split_at_byte_spec in Hs. by rewrite Hs.
Qed.

Lemma is_char_boundary_le s n : is_char_boundary s n = true → n ≤ str_len s.
Proof.
  intros (p & r & -> & <-)%is_char_boundary_spec. rewrite str_len_app. lia.
Qed.

(** ** Slices *)

Lemma str_get_spec s r m :
  str_get s r = Some m ↔
  ∃ p q, s = p ++ m ++ q ∧ str_len p = range_start r ∧
         str_len p + str_len m = range_end r.
Proof.
  unfold str_get. split.
  - case_decide; [|done].
    destruct (split_at_byte s (range_start r)) as [[p t]|] eqn:Hp; [|done]. simpl.
    destruct (split_at_byte t (range_end r - range_start r)) as [[m' q]|] eqn:Hm;
      [|done]. simpl. intros [= ->].
    apply split_at_byte_Some in Hp as [-> Hp], Hm as [-> Hm].
    exists p, q. split; [done|]. lia.
  - intros (p & q & -> & Hp & Hm). rewrite decide_True by lia.
    rewrite <- Hp, split_at_byte_app. simpl.
    replace (range_end r - str_len p) with (str_len m) by lia.
    by rewrite split_at_byte_app.
Qed.

Lemma str_get_app p m q :
  str_get (p ++ m ++ q) (mkRange (str_len p) (str_len p + str_len m)) = Some m.
Proof. apply str_get_spec. by exists p, q. Qed.

Lemma str_get_prefix p q : str_get (p ++ q) (mkRange 0 (str_len p)) = Some p.
Proof. apply str_get_spec. by exists [], q. Qed.

Lemma str_get_is_Some s r :
  is_Some (str_get s r) ↔
  range_start r ≤ range_end r ∧ is_char_boundary s (range_start r) = true
  ∧ is_char_boundary s (range_end r) = true.
Proof.
  split.
  - intros [m (p & q & -> & Hp & Hm)%str_get_spec]. split; [lia|].
    split; apply is_char_boundary_spec.
    + by exists p, (m ++ q).
    + exists (p ++ m), q. by rewrite <- app_assoc, str_len_app.
  - intros (Hle & (p & t & -> & Hp)%is_char_boundary_spec
                & (p' & q & Hs & Hp')%is_char_boundary_spec).
    destruct (str_app_prefix_le p t p' q) as (m & -> & ->); [done|lia|].
    exists m. apply str_get_spec. exists p, q.
    rewrite str_len_app in Hp'. done.
Qed.

Lemma str_index_to_app p r : str_index_to (p ++ r) (str_len p) = Val p.
Proof. unfold str_index_to. by rewrite split_at_byte_app. Qed.

Lemma str_index_from_app p r : str_index_from (p ++ r) (str_len p) = Val r.
Proof. unfold str_index_from. by rewrite split_at_byte_app. Qed.

(** [replace_range] succeeds exactly on a valid range and splices there. *)
Lemma replace_range_spec s r w s' :
  replace_range s r w = Val s' ↔
  ∃ p m q, s = p ++ m ++ q ∧ str_len p = range_start r ∧
           str_len p + str_len m = range_end r ∧ s' = p ++ w ++ q.
Proof.
  unfold replace_range. split.
  - case_decide; [|done].
    destruct (split_at_byte s (range_start r)) as [[p t]|] eqn:Hp; [|done]. simpl.
    destruct (split_at_byte t (range_end r - range_start r)) as [[m q]|] eqn:Hm;
      [|done]. simpl. intros [= <-].
    apply split_at_byte_Some in Hp as [-> Hp], Hm as [-> Hm].
    exists p, m, q. repeat split; [done|lia].
  - intros (p & m & q & -> & Hp & Hm & ->). rewrite decide_True by lia.
    rewrite <- Hp, split_at_byte_app. simpl.
    replace (range_end r - str_len p) with (str_len m) by lia.
    by rewrite split_at_byte_app.
Qed.

Lemma replace_range_app p m q w :
  replace_range (p ++ m ++ q) (mkRange (str_len p) (str_len p + str_len m)) w
  = Val (p ++ w ++ q).
Proof. apply replace_range_spec. by exists p, m, q. Qed.

(** [replace_range] panics exactly when [get] on the same range is absent. *)
Lemma replace_range_panic s r w :
  replace_range s r w = Panic ↔ str_get s r = None.
Proof.
  unfold replace_range, str_get. case_decide; [|done].
  destruct (split_at_byte s (range_start r)) as [[p t]|]; [|done]. simpl.
  by destruct (split_at_byte t (range_end r - range_start r)) as [[m q]|].
Qed.

(** ** First and last characters *)

Lemma ends_with_snoc s c d : ends_with (s ++ [c]) d = bool_decide (c = d).
Proof.
  unfold ends_with. rewrite last_snoc.
  apply bool_decide_ext. split; congruence.
Qed.

Lemma ends_with_nil c : ends_with [] c = false.
Proof. done. Qed.

Lemma ends_with_true s c : ends_with s c = true ↔ ∃ s', s = s' ++ [c].
Proof.
  unfold ends_with. rewrite bool_decide_eq_true. split.
  - apply last_snoc_inv.
  - intros [s' ->]. apply last_snoc.
Qed.

Lemma starts_with_cons s c d : starts_with (c :: s) d = bool_decide (c = d).
Proof. unfold starts_with. simpl. apply bool_decide_ext. split; congruence. Qed.

Lemma starts_with_nil c : starts_with [] c = false.
Proof. done. Qed.

Lemma starts_with_true s c : starts_with s c = true ↔ ∃ s', s = c :: s'.
Proof.
  unfold starts_with. rewrite bool_decide_eq_true.
  destruct s as [|d s]; simpl; split; try done.
  - intros [s' ?]. done.
  - intros [= ->]. by exists s.
  - intros [s' [= -> ->]]. done.
Qed.

Lemma starts_with_app_l s t c : s ≠ [] → starts_with (s ++ t) c = starts_with s c.
Proof. by destruct s. Qed.

#[export] Hint Rewrite ends_with_snoc ends_with_nil starts_with_cons
  starts_with_nil split_at_byte_0 split_at_byte_app split_at_byte_len
  str_index_to_app str_index_from_app : rust_rw.

(** ** Prefixes of one string are ordered by any of their lengths *)

Lemma str_app_prefix_le_utf16 (p t p' q : str) :
  p ++ t = p' ++ q → str_len_utf16 p ≤ str_len_utf16 p' →
  ∃ m, p' = p ++ m ∧ t = m ++ q.
Proof.
  intros Heq Hle. destruct (decide (str_len p ≤ str_len p')) as [Hb|Hb].
  - by apply str_app_prefix_le.
  - destruct (str_app_prefix_le p' q p t) as (m & -> & ->); [done|lia|].
    rewrite str_len_utf16_app in Hle.
    assert (m = []) as -> by (apply str_len_utf16_nil_inv; lia).
    exists []. by rewrite !app_nil_r.
Qed.

(** Dropping a prefix of characters removes exactly its bytes. *)
Lemma str_len_drop_app (m q : str) :
  str_len (m ++ q) - str_len (drop (length m) (m ++ q)) = str_len m.
Proof. rewrite drop_app_length, str_len_app. lia. Qed.

Lemma char_indices_from_app i s t :
  char_indices_from i (s ++ t)
  = char_indices_from i s ++ char_indices_from (i + str_len s) t.
Proof.
  revert i. induction s as [|c s IH]; intros i; simpl.
  - by rewrite str_len_nil, Nat.add_0_r.
  - rewrite IH, str_len_cons, Nat.add_assoc. done.
Qed.

(** ** Slices that start at a known boundary *)

Lemma split_at_byte_app_r (pl rl : str) (b : nat) :
  str_len pl ≤ b →
  split_at_byte (pl ++ rl) b
  = (λ mr, (pl ++ mr.1, mr.2)) <$> split_at_byte rl (b - str_len pl).
Proof.
  intros Hle. destruct (split_at_byte rl (b - str_len pl)) as [[m r]|] eqn:Hs; simpl.
  - apply split_at_byte_Some in Hs as [-> Hm]. apply split_at_byte_spec.
    rewrite str_len_app, app_assoc. split; [done|lia].
  - apply split_at_byte_None. intros p r Heq Hp.
    destruct (str_app_prefix_le pl rl p r) as (m & -> & ->); [done|lia|].
    rewrite str_len_app in Hp.
    apply (proj1 (split_at_byte_None _ _) Hs m r); [done|lia].
Qed.

Lemma str_get_from (pl rl : str) (b : nat) :
  str_get (pl ++ rl) (mkRange (str_len pl) b)
  = if decide (str_len pl ≤ b) then fst <$> split_at_byte rl (b - str_len pl)
    else None.
Proof.
  unfold str_get. simpl. case_decide; [|done].
  rewrite split_at_byte_app. simpl.
  by destruct (split_at_byte rl (b - str_len pl)) as [[m r]|].
Qed.
