(* ===== verification/Search.v ===== *)
(** * Binary search in a sorted table

    [slice::binary_search_by_key], which [Source::byte_to_line] and
    [Source::utf16_to_byte] call on the line table: the loop of the standard
    library (bounds [left] and [right], probe at [left + size / 2]) defined
    by well-founded recursion on [right - left], its specification on tables
    whose keys increase strictly, its agreement with a linear scan, and
    the number of entries it reads: [binary_search_counted] is the loop
    with a counter, which returns what the loop returns after at most one
    probe more than the binary logarithm of the number of entries. *)

From Equations Require Import Equations.
From S2P Require Import Prelude.

(** [Result<usize, usize>]: [Ok(i)] is [Found i], [Err(i)] is [NotFound i]. *)
Inductive search_result : Type :=
| Found (i : nat)
| NotFound (i : nat).

#[export] Instance search_result_eq_dec : EqDecision search_result.
Proof. solve_decision. Defined.

Section binary_search.
Context {A : Type} (key : A → nat).
Implicit Types (l : list A) (b lo hi : nat).

(** The loop [while left < right].  The probe is in bounds whenever
    [hi ≤ length l]; the branch for an absent probe is never taken then. *)
Equations? binary_search_loop (l : list A) (b : nat) (lo hi : nat) : search_result
  by wf (hi - lo) lt :=
  binary_search_loop l b lo hi with decide (lo < hi) => {
    | right _ => NotFound lo
    | left Hlt with l !! (lo + (hi - lo) / 2) => {
      | None => NotFound lo
      | Some x with Nat.compare (key x) b => {
        | Lt => binary_search_loop l b (lo + (hi - lo) / 2 + 1) hi
        | Gt => binary_search_loop l b lo (lo + (hi - lo) / 2)
        | Eq => Found (lo + (hi - lo) / 2) } } }.
Proof.
  all: pose proof (Nat.div_lt (hi - lo) 2); lia.
Qed.

Definition binary_search_by_key (l : list A) (b : nat) : search_result :=
  binary_search_loop l b 0 (length l).

(** The same loop, counting the entries it reads (the calls of the key
    function). *)
Equations? binary_search_counted (l : list A) (b : nat) (lo hi : nat)
    : search_result * nat by wf (hi - lo) lt :=
  binary_search_counted l b lo hi with decide (lo < hi) => {
    | right _ => (NotFound lo, 0)
    | left Hlt with l !! (lo + (hi - lo) / 2) => {
      | None => (NotFound lo, 0)
      | Some x with Nat.compare (key x) b => {
        | Lt => let r := binary_search_counted l b (lo + (hi - lo) / 2 + 1) hi in
                (r.1, S r.2)
        | Gt => let r := binary_search_counted l b lo (lo + (hi - lo) / 2) in
                (r.1, S r.2)
        | Eq => (Found (lo + (hi - lo) / 2), 1) } } }.
Proof.
  all: pose proof (Nat.div_lt (hi - lo) 2); lia.
Qed.

Definition binary_search_probes (l : list A) (b : nat) : search_result * nat :=
  binary_search_counted l b 0 (length l).

(** The reference: scan from the left until a key is not below [b]. *)
Fixpoint linear_search (l : list A) (b : nat) (i : nat) : search_result :=
  match l with
  | [] => NotFound i
  | x :: l' =>
      match Nat.compare (key x) b with
      | Lt => linear_search l' b (S i)
      | Eq => Found i
      | Gt => NotFound i
      end
  end.

(** Keys increase strictly with the index. *)
Definition sorted_keys (l : list A) : Prop :=
  ∀ i j x y, l !! i = Some x → l !! j = Some y → i < j → key x < key y.

(** Every entry before index [i] has a key below [b]. *)
Definition below (b i : nat) (l : list A) : Prop :=
  ∀ j x, l !! j = Some x → j < i → key x < b.

(** Every entry from index [i] on has a key above [b]. *)
Definition above (b i : nat) (l : list A) : Prop :=
  ∀ j x, l !! j = Some x → i ≤ j → b < key x.

(** What a search result means. *)
Definition search_ok (l : list A) (b : nat) (r : search_result) : Prop :=
  match r with
  | Found i => ∃ x, l !! i = Some x ∧ key x = b
  | NotFound i => i ≤ length l ∧ below b i l ∧ above b i l
  end.

(** The entry that owns [b]: the last one whose key is at most [b]. *)
Definition owner (l : list A) (b : nat) (i : nat) : Prop :=
  (∃ x, l !! i = Some x ∧ key x ≤ b) ∧ above b (S i) l.

Lemma sorted_keys_nil : sorted_keys [].
Proof. intros i j x y Hx. by rewrite lookup_nil in Hx. Qed.

Lemma sorted_keys_tail x l : sorted_keys (x :: l) → sorted_keys l.
Proof. intros Hs i j y z Hy Hz Hij. apply (Hs (S i) (S j)); [done..|lia]. Qed.

Lemma sorted_keys_cons x l :
  sorted_keys (x :: l) ↔ Forall (λ y, key x < key y) l ∧ sorted_keys l.
Proof.
  split.
  - intros Hs. split; [|by eapply sorted_keys_tail].
    apply Forall_lookup. intros i y Hy. apply (Hs 0 (S i)); [done..|lia].
  - intros [Hx Hs] [|i] [|j] y z Hy Hz Hij; simplify_eq/=; try lia.
    + by eapply (proj1 (Forall_lookup _ _) Hx).
    + apply (Hs i j); [done..|lia].
Qed.

Lemma sorted_keys_singleton x : sorted_keys [x].
Proof. apply sorted_keys_cons. split; [constructor|apply sorted_keys_nil]. Qed.

(** Two sorted tables whose keys are separated by a bound concatenate to a
    sorted table. *)
Lemma sorted_keys_app l1 l2 b :
  sorted_keys l1 → sorted_keys l2 →
  Forall (λ x, key x ≤ b) l1 → Forall (λ y, b < key y) l2 →
  sorted_keys (l1 ++ l2).
Proof.
  intros Hs1 Hs2 Hb1 Hb2. induction l1 as [|x l1 IH]; [done|].
  apply (proj1 (sorted_keys_cons x l1)) in Hs1 as [Hx Hs1].
  apply Forall_cons_1 in Hb1 as [Hxb Hb1].
  simpl. apply sorted_keys_cons. split; [|by apply IH].
  apply Forall_app. split; [done|].
  eapply Forall_impl; [|exact Hb2]. simpl. intros. lia.
Qed.

Lemma sorted_keys_le l i j x y :
  sorted_keys l → l !! i = Some x → l !! j = Some y → i ≤ j → key x ≤ key y.
Proof.
  intros Hs Hx Hy Hij. destruct (decide (i = j)) as [->|].
  - simplify_eq. lia.
  - apply Nat.lt_le_incl, (Hs i j); [done..|lia].
Qed.

Lemma sorted_keys_inj l i j x y :
  sorted_keys l → l !! i = Some x → l !! j = Some y → key x = key y → i = j.
Proof.
  intros Hs Hx Hy Hk. destruct (Nat.lt_trichotomy i j) as [Hlt|[->|Hlt]]; [|done|].
  - pose proof (Hs _ _ _ _ Hx Hy Hlt). lia.
  - pose proof (Hs _ _ _ _ Hy Hx Hlt). lia.
Qed.

Lemma below_0 b l : below b 0 l.
Proof. intros j x _ ?. lia. Qed.

Lemma above_length b l : above b (length l) l.
Proof. intros j x Hx%lookup_lt_Some ?. lia. Qed.

(** A probe below [b] moves the lower bound past it. *)
Lemma below_step l b m x :
  sorted_keys l → l !! m = Some x → key x < b → below b (m + 1) l.
Proof.
  intros Hs Hm Hlt j y Hy Hj.
  pose proof (sorted_keys_le l j m y x Hs Hy Hm). lia.
Qed.

(** A probe above [b] moves the upper bound onto it. *)
Lemma above_step l b m x :
  sorted_keys l → l !! m = Some x → b < key x → above b m l.
Proof.
  intros Hs Hm Hlt j y Hy Hj.
  pose proof (sorted_keys_le l m j x y Hs Hm Hy). lia.
Qed.

(** The loop invariant of the standard library, carried to the result. *)
Lemma binary_search_loop_spec l b lo hi :
  sorted_keys l → hi ≤ length l → lo ≤ hi → below b lo l → above b hi l →
  search_ok l b (binary_search_loop l b lo hi).
Proof.
  intros Hs. funelim (binary_search_loop l b lo hi); intros Hhi Hle Hb Ha;
    try match goal with H : l !! _ = _ |- _ => rename H into Hm end;
    try match goal with H : (_ ?= _) = _ |- _ => rename H into Hc end.
  - simpl. replace lo with hi in * by lia. done.
  - apply lookup_ge_None in Hm. pose proof (Nat.div_lt (hi - lo) 2). lia.
  - apply Nat.compare_eq in Hc. simpl. eauto.
  - apply Nat.compare_lt_iff in Hc. pose proof (Nat.div_lt (hi - lo) 2).
    apply H; eauto using below_step. lia.
  - apply Nat.compare_gt_iff in Hc. pose proof (Nat.div_lt (hi - lo) 2).
    apply H; eauto using above_step. apply lookup_lt_Some in Hm. lia. lia.
Qed.

Lemma binary_search_by_key_spec l b :
  sorted_keys l → search_ok l b (binary_search_by_key l b).
Proof.
  intros Hs. apply binary_search_loop_spec;
    auto using below_0, above_length with lia.
Qed.

(** The specification determines the result on a sorted table. *)
Lemma search_ok_unique l b r1 r2 :
  sorted_keys l → search_ok l b r1 → search_ok l b r2 → r1 = r2.
Proof.
  intros Hs.
  destruct r1 as [i|i], r2 as [j|j]; simpl.
  - intros (x & Hx & Hkx) (y & Hy & Hky). f_equal.
    apply (sorted_keys_inj l i j x y); [done..|lia].
  - intros (x & Hx & Hkx) (_ & Hb & Ha). exfalso.
    destruct (decide (i < j)) as [Hlt|Hge].
    + specialize (Hb _ _ Hx Hlt). lia.
    + assert (j ≤ i) as Hji by lia. specialize (Ha _ _ Hx Hji). lia.
  - intros (_ & Hb & Ha) (x & Hx & Hkx). exfalso.
    destruct (decide (j < i)) as [Hlt|Hge].
    + specialize (Hb _ _ Hx Hlt). lia.
    + assert (i ≤ j) as Hij by lia. specialize (Ha _ _ Hx Hij). lia.
  - intros (Hi & Hb1 & Ha1) (Hj & Hb2 & Ha2). f_equal.
    destruct (Nat.lt_trichotomy i j) as [Hlt|[->|Hlt]]; [|done|]; exfalso.
    + destruct (lookup_lt_is_Some_2 l i) as [x Hx]; [lia|].
      specialize (Hb2 _ _ Hx Hlt). specialize (Ha1 _ _ Hx (Nat.le_refl i)). lia.
    + destruct (lookup_lt_is_Some_2 l j) as [x Hx]; [lia|].
      specialize (Hb1 _ _ Hx Hlt). specialize (Ha2 _ _ Hx (Nat.le_refl j)). lia.
Qed.

Lemma search_ok_shift x l b r :
  search_ok l b r →
  key x < b →
  search_ok (x :: l) b
    match r with Found i => Found (S i) | NotFound i => NotFound (S i) end.
Proof.
  destruct r as [i|i]; simpl.
  - intros (y & ? & ?) _. by exists y.
  - intros (Hi & Hb & Ha) Hx. split; [lia|]. split.
    + intros [|j] y Hy Hj; simplify_eq/=; [done|]. apply (Hb j); [done|lia].
    + intros [|j] y Hy Hj; simplify_eq/=; [lia|]. apply (Ha j); [done|lia].
Qed.

Lemma linear_search_shift l b i :
  linear_search l b (S i) =
  match linear_search l b i with
  | Found j => Found (S j)
  | NotFound j => NotFound (S j)
  end.
Proof.
  revert i. induction l as [|x l IH]; intros i; simpl; [done|].
  destruct (key x ?= b); auto.
Qed.

Lemma linear_search_spec l b :
  sorted_keys l → search_ok l b (linear_search l b 0).
Proof.
  induction l as [|x l IH]; intros Hs; simpl.
  - split; [done|]. split; intros j y Hy; by rewrite lookup_nil in Hy.
  - destruct (Nat.compare_spec (key x) b) as [Heq|Hlt|Hgt].
    + by exists x.
    + rewrite linear_search_shift.
      apply search_ok_shift; eauto using sorted_keys_tail.
    + split; [simpl; lia|]. split; [intros j y _ ?; lia|].
      intros j y Hy _.
      pose proof (sorted_keys_le (x :: l) 0 j x y Hs eq_refl Hy). lia.
Qed.

(** On a sorted table the binary search returns what the linear scan
    returns. *)
Lemma binary_search_linear l b :
  sorted_keys l → binary_search_by_key l b = linear_search l b 0.
Proof.
  intros Hs. eapply search_ok_unique;
    eauto using binary_search_by_key_spec, linear_search_spec.
Qed.

(** The owner of [b] read off a search result. *)
Lemma search_ok_owner l b r :
  sorted_keys l → search_ok l b r →
  match r with
  | Found i => owner l b i
  | NotFound (S i) => owner l b i
  | NotFound 0 => above b 0 l
  end.
Proof.
  intros Hs. destruct r as [i|[|i]]; simpl.
  - intros (x & Hx & <-). split; [exists x; eauto with lia|].
    intros j y Hy Hj. apply (Hs i j); [done..|lia].
  - tauto.
  - intros (Hi & Hb & Ha). split; [|done].
    destruct (lookup_lt_is_Some_2 l i) as [x Hx]; [lia|].
    exists x. split; [done|]. apply Nat.lt_le_incl, (Hb i); [done|lia].
Qed.

Lemma owner_unique l b i j :
  sorted_keys l → owner l b i → owner l b j → i = j.
Proof.
  intros Hs [(x & Hx & Hxb) Hai] [(y & Hy & Hyb) Haj].
  destruct (Nat.lt_trichotomy i j) as [Hlt|[->|Hlt]]; [|done|]; exfalso.
  - assert (S i ≤ j) as Hij by lia. specialize (Hai _ _ Hy Hij). lia.
  - assert (S j ≤ i) as Hji by lia. specialize (Haj _ _ Hx Hji). lia.
Qed.

(** On a sorted table whose first key is at most [b], the search finds the
    owner of [b] or the index after it, never index zero as a failure. *)
Lemma binary_search_owner l b x :
  sorted_keys l → head l = Some x → key x ≤ b →
  match binary_search_by_key l b with
  | Found i => owner l b i
  | NotFound i => 0 < i ∧ owner l b (i - 1)
  end.
Proof.
  intros Hs Hh Hx.
  pose proof (search_ok_owner l b _ Hs (binary_search_by_key_spec l b Hs)) as Ho.
  destruct (binary_search_by_key l b) as [i|[|i]]; [done| |].
  - destruct l as [|y l]; simplify_eq/=.
    specialize (Ho 0 x eq_refl (Nat.le_refl 0)). lia.
  - split; [lia|]. by rewrite Nat.sub_succ, Nat.sub_0_r.
Qed.

(** The owner splits a sorted table: entries up to it are at most [b], the
    others above. *)
Lemma owner_take_drop l b i :
  sorted_keys l → owner l b i →
  Forall (λ x, key x ≤ b) (take (S i) l) ∧ Forall (λ x, b < key x) (drop (S i) l).
Proof.
  intros Hs [(x & Hx & Hxb) Ha]. split; apply Forall_lookup; intros j y Hy.
  - apply lookup_take_Some in Hy as [Hy Hj].
    pose proof (sorted_keys_le l j i y x Hs Hy Hx). lia.
  - rewrite lookup_drop in Hy. apply (Ha _ _ Hy). lia.
Qed.

(** The owner in a table made of entries at most [b] followed by entries
    above [b] is the last entry of the first part. *)
Lemma owner_app l1 l2 b x :
  list.last l1 = Some x → key x ≤ b → Forall (λ y, b < key y) l2 →
  owner (l1 ++ l2) b (length l1 - 1).
Proof.
  intros (l & ->)%last_snoc_inv Hx Hl2. rewrite length_app. simpl.
  replace (length l + 1 - 1) with (length l) by lia. split.
  - exists x. split; [|done]. rewrite <- app_assoc. by apply list_lookup_middle.
  - intros j y Hy Hj. rewrite lookup_app_r in Hy by (rewrite length_app; simpl; lia).
    by eapply (proj1 (Forall_lookup _ _) Hl2).
Qed.

(** The owner counts the entries at most [b]: it is the last of them. *)
Lemma owner_count l b i :
  sorted_keys l → owner l b i →
  length (filter (λ x, key x ≤ b) l) = S i.
Proof.
  intros Hs Ho. destruct (owner_take_drop l b i Hs Ho) as [Hle Hgt].
  destruct Ho as [(x & Hx%lookup_lt_Some & _) _].
  rewrite <- (take_drop (S i) l) at 1. rewrite list.filter_app, length_app.
  rewrite filter_Forall_all, filter_Forall_none, length_take;
    [cbn [length]; lia| |done].
  eapply Forall_impl; [|exact Hgt]. simpl. lia.
Qed.

(** ** The number of probes *)

(** The counted loop returns what the loop returns. *)
Lemma binary_search_counted_result l b lo hi :
  (binary_search_counted l b lo hi).1 = binary_search_loop l b lo hi.
Proof.
  funelim (binary_search_counted l b lo hi); clear Heqcall;
    simp binary_search_loop;
    repeat (match goal with H : _ = _ |- _ => rewrite H end; cbn -[Nat.div]);
    done.
Qed.

(** Every probe halves what is left between the bounds. *)
Lemma binary_search_counted_pow l b lo hi :
  2 ^ (binary_search_counted l b lo hi).2 ≤ Nat.max 1 (2 * (hi - lo)).
Proof.
  funelim (binary_search_counted l b lo hi); cbn [snd];
    rewrite ?Nat.pow_succ_r', ?Nat.pow_0_r, ?Nat.pow_1_r; try lia.
  all: pose proof (Nat.div_mod_eq (hi - lo) 2) as Hd;
    pose proof (Nat.mod_upper_bound (hi - lo) 2); lia.
Qed.

(** The loop reads at most one entry more than the logarithm of the
    number of entries between its bounds. *)
Lemma binary_search_counted_log l b lo hi :
  (binary_search_counted l b lo hi).2 ≤ Nat.log2 (hi - lo) + 1.
Proof.
  destruct (decide (lo < hi)) as [Hlt|Hge].
  - pose proof (binary_search_counted_pow l b lo hi) as Hp.
    rewrite Nat.max_r in Hp by lia.
    apply Nat.log2_le_pow2 in Hp; [|lia].
    rewrite Nat.log2_double in Hp by lia. lia.
  - funelim (binary_search_counted l b lo hi); simpl; lia.
Qed.

Lemma binary_search_probes_spec l b :
  (binary_search_probes l b).1 = binary_search_by_key l b
  ∧ (binary_search_probes l b).2 ≤ Nat.log2 (length l) + 1.
Proof.
  unfold binary_search_probes, binary_search_by_key. split.
  - apply binary_search_counted_result.
  - rewrite <- (Nat.sub_0_r (length l)) at 2. apply binary_search_counted_log.
Qed.

End binary_search.

#[export] Hint Resolve below_0 above_length sorted_keys_nil : rust.
