(* ===== verification/Scanner.v ===== *)
(** * The string scanner driven by [lines_from]

    [unscanny::Scanner] holds a string and a byte cursor into it.  The model
    keeps the cursor and the part of the string after it (what [after()]
    returns); the part before the cursor is never read by the operations
    used in [source.rs].  A pattern that is an [FnMut(char) -> bool] closure
    is a function that threads the closure's captured state. *)

From S2P Require Import Prelude Unicode.

Record Scanner : Type := mkScanner { cursor : nat; after : str }.

(** [Scanner::new]. *)
Definition scanner_new (s : str) : Scanner := mkScanner 0 s.

(** [Scanner::done]: the cursor is at the end of the string. *)
Definition done_ (s : Scanner) : bool := bool_decide (after s = []).

(** [Scanner::peek]. *)
Definition peek (s : Scanner) : option char := head (after s).

(** [Scanner::eat]: consume and return the next character, if any. *)
Definition eat (s : Scanner) : option char * Scanner :=
  match after s with
  | [] => (None, s)
  | c :: rest => (Some c, mkScanner (cursor s + len_utf8 c) rest)
  end.

(** [Scanner::eat_if] with a [char] pattern. *)
Definition eat_if (c : char) (s : Scanner) : bool * Scanner :=
  match after s with
  | d :: rest =>
      if bool_decide (d = c) then (true, mkScanner (cursor s + len_utf8 d) rest)
      else (false, s)
  | [] => (false, s)
  end.

(** [Scanner::eat_until] with a closure pattern: while the scanner is not
    done, call the closure on the next character; stop before the first
    character it accepts, eat the others. *)
Fixpoint eat_until_loop {St : Type} (pat : St → char → St * bool)
    (st : St) (cur : nat) (s : str) : St * Scanner :=
  match s with
  | [] => (st, mkScanner cur [])
  | c :: rest =>
      let '(st', stop) := pat st c in
      if stop then (st', mkScanner cur (c :: rest))
      else eat_until_loop pat st' (cur + len_utf8 c) rest
  end.

Definition eat_until {St : Type} (pat : St → char → St * bool)
    (st : St) (s : Scanner) : St * Scanner :=
  eat_until_loop pat st (cursor s) (after s).

(** ** Properties *)

Lemma done_true s : done_ s = true ↔ after s = [].
Proof. unfold done_. apply bool_decide_eq_true. Qed.

Lemma eat_cons k c rest :
  eat (mkScanner k (c :: rest)) = (Some c, mkScanner (k + len_utf8 c) rest).
Proof. done. Qed.

Lemma eat_if_hit k c rest :
  eat_if c (mkScanner k (c :: rest)) = (true, mkScanner (k + len_utf8 c) rest).
Proof. unfold eat_if. simpl. by rewrite bool_decide_eq_true_2. Qed.

Lemma eat_if_miss k c d rest :
  d ≠ c → eat_if c (mkScanner k (d :: rest)) = (false, mkScanner k (d :: rest)).
Proof. intros. unfold eat_if. simpl. by rewrite bool_decide_eq_false_2. Qed.

(** The scanner never moves backwards and never grows the rest. *)
Lemma eat_until_loop_after {St} (pat : St → char → St * bool) st cur s :
  ∃ p, s = p ++ after (eat_until_loop pat st cur s).2
       ∧ cursor (eat_until_loop pat st cur s).2 = cur + str_len p.
Proof.
  revert st cur. induction s as [|c s IH]; intros st cur; simpl.
  - exists []. rewrite str_len_nil. auto with lia.
  - destruct (pat st c) as [st' [|]]; simpl.
    + exists []. rewrite str_len_nil. auto with lia.
    + destruct (IH st' (cur + len_utf8 c)) as (p & Hp & Hc).
      exists (c :: p). rewrite str_len_cons. split; [simpl; congruence|lia].
Qed.
