(* ===== verification/Lines.v ===== *)
(** * The line table

    [Line], [lines] and [lines_from] of [source.rs].  [lines_from] is the
    iterator the code builds with [std::iter::from_fn] around a scanner and
    a running UTF-16 count; its termination is the progress of the scanner.
    The reference definition [line_starts] says where lines start: after
    every newline character, except a carriage return that a line feed
    follows.  The theorems show that the iterator computes the reference,
    that a table is sorted, bounded and consistent with the text, and how
    the table of a concatenation is made of the tables of its parts, which is
    what the incremental update of [Source::edit] relies on. *)

From Equations Require Import Equations.
From S2P Require Import Prelude Unicode Search Scanner.

(** ** Data *)

(** Metadata about a line: where it starts, in bytes and in UTF-16 units. *)
Record Line : Type := mkLine { byte_idx : nat; utf16_idx : nat }.

#[export] Instance Line_eq_dec : EqDecision Line.
Proof. solve_decision. Defined.

(** What [lines_from] and [edit] assume of [syntax::is_newline]: it accepts
    the line feed and the carriage return. *)
Class Newlines : Type := {
  is_newline : char → bool;
  is_newline_LF : is_newline LF = true;
  is_newline_CR : is_newline CR = true;
}.

(** The newline characters of the specification: line feed and carriage
    return. *)
#[export, refine] Instance spec_newlines : Newlines :=
  {| is_newline c := bool_decide (c = LF) || bool_decide (c = CR) |}.
Proof. all: done. Defined.

(** The newline characters of Unicode: line feed, vertical tab, form feed,
    carriage return, next line, line separator, paragraph separator. *)
Definition unicode_newlines : Newlines.
Proof.
  refine {| is_newline c :=
    bool_decide (c ∈ [0x0A; 0x0B; 0x0C; 0x0D; 0x85; 0x2028; 0x2029]%N) |};
    done.
Defined.

Definition inspect {A} (a : A) : {b : A | a = b} := exist _ a eq_refl.

Section lines.
Context `{Newlines}.
Implicit Types (s p r text : str) (c : char) (b u k : nat) (ln : Line).

(** ** The code *)

(** The closure given to [eat_until]: it adds the width of each character
    it sees to the captured [utf16_idx], the newline that stops it
    included. *)
Definition newline_pat (utf16_idx : nat) (c : char) : nat * bool :=
  (utf16_idx + len_utf16 c, is_newline c).

(** One call of the closure given to [from_fn].  The state is the scanner
    and [utf16_idx]. *)
Definition lines_from_next (byte_offset : nat) (st : Scanner * nat)
    : option Line * (Scanner * nat) :=
  let '(utf16_idx, s) := eat_until newline_pat st.2 st.1 in
  if done_ s then (None, (s, utf16_idx))
  else
    let '(c, s) := eat s in
    let '(crlf, s) :=
      if bool_decide (c = Some CR) then eat_if LF s else (false, s) in
    let utf16_idx := if crlf then utf16_idx + 1 else utf16_idx in
    (Some (mkLine (byte_offset + cursor s) utf16_idx), (s, utf16_idx)).

(** Every call that yields a line consumes at least one character. *)
Lemma lines_from_next_progress byte_offset st ln st' :
  lines_from_next byte_offset st = (Some ln, st') →
  length (after st'.1) < length (after st.1).
Proof.
  unfold lines_from_next, eat_until.
  destruct (eat_until_loop_after newline_pat st.2 (cursor st.1) (after st.1))
    as (p & Hp & _).
  destruct (eat_until_loop _ _ _ _) as [u s]. simpl in Hp. rewrite Hp.
  rewrite length_app. unfold done_, eat, eat_if.
  destruct s as [k [|c [|d rest]]]; simpl; repeat case_bool_decide;
    intros; simplify_eq/=; lia.
Qed.

(** The iterator run to its end. *)
Equations? lines_from_iter (byte_offset : nat) (st : Scanner * nat) : list Line
  by wf (length (after st.1)) lt :=
  lines_from_iter byte_offset st with inspect (lines_from_next byte_offset st) => {
    | exist _ (None, _) _ => []
    | exist _ (Some ln, st') Heq => ln :: lines_from_iter byte_offset st' }.
Proof. by eapply lines_from_next_progress. Qed.

(** Compute a line iterator from an offset. *)
Definition lines_from (byte_offset utf16_offset : nat) (text : str) : list Line :=
  lines_from_iter byte_offset (scanner_new text, utf16_offset).

(** Create a line vector. *)
Definition lines (text : str) : list Line :=
  mkLine 0 0 :: lines_from 0 0 text.

(** ** The reference *)

(** A line starts after [c] when [c] is a newline, unless [c] is a carriage
    return and a line feed follows. *)
Definition is_break (c : char) (rest : str) : bool :=
  is_newline c && negb (bool_decide (c = CR) && starts_with rest LF).

Fixpoint line_starts (b u : nat) (s : str) : list Line :=
  match s with
  | [] => []
  | c :: rest =>
      let b' := b + len_utf8 c in
      let u' := u + len_utf16 c in
      if is_break c rest then mkLine b' u' :: line_starts b' u' rest
      else line_starts b' u' rest
  end.

(** ** Invariants of a table *)

(** The table starts with the record of offset zero and both offsets
    increase strictly. *)
Definition table_ok (l : list Line) : Prop :=
  head l = Some (mkLine 0 0) ∧ sorted_keys byte_idx l ∧ sorted_keys utf16_idx l.

(** The record of a position of [text]: its byte offset and its UTF-16
    offset are those of one prefix. *)
Definition line_at (text : str) (ln : Line) : Prop :=
  ∃ p r, text = p ++ r ∧ byte_idx ln = str_len p ∧ utf16_idx ln = str_len_utf16 p.

End lines.

(** The text of the unit tests of [source.rs]. *)
Definition TEST : str :=
  [0xE4; 0x09; 0x63; 0x64; 0x65; 0x0A; 0x66; 0x1F49B; 0x67; 0x0D; 0x0A;
   0x68; 0x69; 0x0D; 0x6A; 0x6B; 0x6C]%N.

Section lines_facts.
Context `{Newlines}.
Implicit Types (s p r text : str) (c : char) (b u k : nat) (ln : Line).

(** Closes goals that equate records or offsets up to arithmetic on
    lengths. *)
Ltac solve_line :=
  repeat match goal with |- _ ∧ _ => split end; try done;
  autorewrite with rust_rw; simpl; first [done | lia | f_equal; lia].

(** ** The iterator computes the reference *)

Lemma lines_from_next_nil bo k u :
  lines_from_next bo (mkScanner k [], u) = (None, (mkScanner k [], u)).
Proof. done. Qed.

Lemma lines_from_next_skip bo k u c s :
  is_newline c = false →
  lines_from_next bo (mkScanner k (c :: s), u)
  = lines_from_next bo (mkScanner (k + len_utf8 c) s, u + len_utf16 c).
Proof. intros Hc. unfold lines_from_next, eat_until. simpl. by rewrite Hc. Qed.

Lemma lines_from_next_crlf bo k u s :
  lines_from_next bo (mkScanner k (CR :: LF :: s), u)
  = (Some (mkLine (bo + (k + 2)) (u + 2)), (mkScanner (k + 2) s, u + 2)).
Proof.
  unfold lines_from_next, eat_until. simpl. rewrite is_newline_CR. simpl.
  autorewrite with rust_rw. by rewrite <- !Nat.add_assoc.
Qed.

Lemma lines_from_next_break bo k u c s :
  is_break c s = true →
  lines_from_next bo (mkScanner k (c :: s), u)
  = (Some (mkLine (bo + (k + len_utf8 c)) (u + len_utf16 c)),
     (mkScanner (k + len_utf8 c) s, u + len_utf16 c)).
Proof.
  unfold is_break, lines_from_next, eat_until. simpl.
  intros [-> Hn%negb_true_iff]%andb_true_iff. simpl.
  case_bool_decide as Hc; [|by rewrite bool_decide_eq_false_2 by congruence].
  subst c. rewrite bool_decide_eq_true_2 by done. simpl in Hn.
  destruct s as [|d s]; [done|]. rewrite starts_with_cons in Hn.
  apply bool_decide_eq_false in Hn. by rewrite eat_if_miss.
Qed.

Lemma is_break_CR_LF s : is_break CR (LF :: s) = false.
Proof.
  unfold is_break. rewrite is_newline_CR, starts_with_cons.
  by rewrite !bool_decide_eq_true_2.
Qed.

Lemma is_break_LF s : is_break LF s = true.
Proof. unfold is_break. by rewrite is_newline_LF. Qed.

(** A newline that does not break is the carriage return of a pair. *)
Lemma is_break_false c s :
  is_break c s = false → is_newline c = false ∨ ∃ s', c = CR ∧ s = LF :: s'.
Proof.
  unfold is_break. destruct (is_newline c); [|by left]. simpl.
  intros [->%bool_decide_eq_true Hs%starts_with_true]%negb_false_iff%andb_true_iff.
  right. destruct Hs as [s' ->]. by exists s'.
Qed.

Lemma line_starts_CR_LF b u s :
  line_starts b u (CR :: LF :: s) = mkLine (b + 2) (u + 2) :: line_starts (b + 2) (u + 2) s.
Proof.
  cbn [line_starts]. rewrite is_break_CR_LF, is_break_LF.
  autorewrite with rust_rw. by rewrite <- !Nat.add_assoc.
Qed.

(** One call of the closure produces the head of the reference list and
    leaves the scanner where the rest of the list starts. *)
Lemma lines_from_next_spec bo k u s :
  match lines_from_next bo (mkScanner k s, u) with
  | (None, _) => line_starts (bo + k) u s = []
  | (Some ln, (s', u')) =>
      line_starts (bo + k) u s = ln :: line_starts (bo + cursor s') u' (after s')
  end.
Proof.
  revert k u. induction s as [|c s IH]; intros k u; [done|].
  destruct (is_break c s) eqn:Hb.
  - rewrite lines_from_next_break by done. simpl. by rewrite Hb, !Nat.add_assoc.
  - destruct (is_break_false _ _ Hb) as [Hc|(s' & -> & ->)].
    + rewrite lines_from_next_skip by done. specialize (IH (k + len_utf8 c) (u + len_utf16 c)).
      simpl. by rewrite Hb, <- Nat.add_assoc.
    + rewrite lines_from_next_crlf, line_starts_CR_LF. simpl.
      by rewrite !Nat.add_assoc.
Qed.

Lemma lines_from_iter_spec bo st :
  lines_from_iter bo st = line_starts (bo + cursor st.1) st.2 (after st.1).
Proof.
  funelim (lines_from_iter bo st);
    match goal with
    | Hn : lines_from_next ?bo (?sc, ?u) = _ |- _ =>
        destruct sc as [k s];
        pose proof (lines_from_next_spec bo k u s) as Hs; rewrite Hn in Hs
    | Hn : lines_from_next ?bo ?st = _ |- _ =>
        destruct st as [[k s] u];
        pose proof (lines_from_next_spec bo k u s) as Hs; rewrite Hn in Hs
    end.
  - destruct st' as [s' u']. simpl in *. rewrite Hs. f_equal.
    match goal with IH : lines_from_iter _ _ = _ |- _ => apply IH end.
  - done.
Qed.

(** The iterator on a fresh scanner. *)
Lemma lines_from_iter_start b u text :
  lines_from_iter b (scanner_new text, u) = line_starts b u text.
Proof. rewrite lines_from_iter_spec. simpl. by rewrite Nat.add_0_r. Qed.

(** C4. [lines_from] is the reference list: the iterator built by the code
    ends, and yields one record after every newline of the text except a
    carriage return followed by a line feed, at the offsets of that
    position. *)
Theorem lines_from_line_starts b u text : lines_from b u text = line_starts b u text.
Proof. apply lines_from_iter_start. Qed.

Lemma lines_line_starts text : lines text = mkLine 0 0 :: line_starts 0 0 text.
Proof. unfold lines, lines_from. by rewrite lines_from_iter_start. Qed.

(** ** The reference list *)

Lemma line_starts_cons b u c s :
  line_starts b u (c :: s) =
  (if is_break c s then [mkLine (b + len_utf8 c) (u + len_utf16 c)] else [])
  ++ line_starts (b + len_utf8 c) (u + len_utf16 c) s.
Proof. simpl. by destruct (is_break c s). Qed.

(** At most one record for each character. *)
Lemma line_starts_length b u s : length (line_starts b u s) ≤ chars_count s.
Proof.
  revert b u. induction s as [|c s IH]; intros b u; [done|].
  rewrite line_starts_cons, length_app. unfold chars_count in *. simpl.
  specialize (IH (b + len_utf8 c) (u + len_utf16 c)).
  destruct (is_break c s); simpl; lia.
Qed.

(** Offsets only translate the list. *)
Lemma line_starts_shift b u b0 u0 s :
  line_starts (b + b0) (u + u0) s
  = (λ ln, mkLine (b + byte_idx ln) (u + utf16_idx ln)) <$> line_starts b0 u0 s.
Proof.
  revert b0 u0. induction s as [|c s IH]; intros b0 u0; [done|].
  rewrite !line_starts_cons, fmap_app, <- !Nat.add_assoc, <- IH.
  by destruct (is_break c s).
Qed.

(** Every record lies strictly after the offsets the scan starts from and
    at most at the end of the scanned text. *)
Lemma line_starts_bounds b u s :
  Forall (λ ln, b < byte_idx ln ≤ b + str_len s
                ∧ u < utf16_idx ln ≤ u + str_len_utf16 s) (line_starts b u s).
Proof.
  revert b u. induction s as [|c s IH]; intros b u; [constructor|].
  pose proof (len_utf8_pos c). pose proof (len_utf16_pos c).
  rewrite line_starts_cons, str_len_cons, str_len_utf16_cons.
  apply Forall_app. split.
  - destruct (is_break c s); repeat constructor; simpl; lia.
  - eapply Forall_impl; [|apply IH]. simpl. lia.
Qed.

Lemma line_starts_above b u s :
  Forall (λ ln, b < byte_idx ln) (line_starts b u s)
  ∧ Forall (λ ln, u < utf16_idx ln) (line_starts b u s).
Proof.
  split; (eapply Forall_impl; [|apply line_starts_bounds]); simpl; lia.
Qed.

(** Both offsets increase strictly along the list. *)
Lemma line_starts_sorted b u s :
  sorted_keys byte_idx (line_starts b u s)
  ∧ sorted_keys utf16_idx (line_starts b u s).
Proof.
  revert b u. induction s as [|c s IH]; intros b u;
    [split; apply sorted_keys_nil|].
  rewrite line_starts_cons.
  destruct (IH (b + len_utf8 c) (u + len_utf16 c)) as [IHb IHu].
  destruct (line_starts_above (b + len_utf8 c) (u + len_utf16 c) s).
  destruct (is_break c s); [|done].
  split; apply sorted_keys_cons; done.
Qed.

(** Every record pairs the byte length and the UTF-16 length of one
    prefix of the scanned text. *)
Lemma line_starts_prefix b u s :
  Forall (λ ln, ∃ p r, s = p ++ r ∧ byte_idx ln = b + str_len p
                       ∧ utf16_idx ln = u + str_len_utf16 p) (line_starts b u s).
Proof.
  revert b u. induction s as [|c s IH]; intros b u; [constructor|].
  rewrite line_starts_cons. apply Forall_app. split.
  - destruct (is_break c s); repeat constructor.
    exists [c], s. autorewrite with rust_rw. simpl. auto with lia.
  - eapply Forall_impl; [|apply IH]. simpl.
    intros ln (p & r & -> & Hb & Hu). exists (c :: p), r.
    autorewrite with rust_rw. split; [done|lia].
Qed.

(** Where lines start: exactly after the breaks of the text. *)
Lemma line_starts_elem b u s ln :
  ln ∈ line_starts b u s ↔
  ∃ p c r, s = p ++ c :: r ∧ is_break c r = true
           ∧ ln = mkLine (b + str_len (p ++ [c])) (u + str_len_utf16 (p ++ [c])).
Proof.
  revert b u. induction s as [|c s IH]; intros b u.
  - split; [by intros ?%elem_of_nil|]. by intros ([|??] & ? & ? & ? & _).
  - rewrite line_starts_cons, elem_of_app, IH. split.
    + intros [Hh|(p & d & r & -> & Hd & ->)].
      * destruct (is_break c s) eqn:Hc; [|by apply elem_of_nil in Hh].
        apply list_elem_of_singleton in Hh as ->. exists [], c, s. solve_line.
      * exists (c :: p), d, r. solve_line.
    + intros ([|c' p] & d & r & Hs & Hd & ->); simplify_eq/=.
      * left. rewrite Hd. apply list_elem_of_singleton. solve_line.
      * right. exists p, d, r. solve_line.
Qed.

(** ** The table of a whole text *)

Lemma lines_table_ok text : table_ok (lines text).
Proof.
  rewrite lines_line_starts.
  destruct (line_starts_sorted 0 0 text), (line_starts_above 0 0 text).
  split; [done|]. split; apply sorted_keys_cons; done.
Qed.

Lemma lines_line_at text : Forall (line_at text) (lines text).
Proof.
  rewrite lines_line_starts. constructor; [by exists [], text|].
  eapply Forall_impl; [|apply line_starts_prefix]. simpl.
  intros ln (p & r & ? & ? & ?). by exists p, r.
Qed.

Lemma lines_nonempty text : lines text ≠ [].
Proof. done. Qed.

(** Byte offsets of the table never exceed the length of the text. *)
Lemma lines_byte_idx_le text :
  Forall (λ ln, byte_idx ln ≤ str_len text) (lines text).
Proof.
  rewrite lines_line_starts. constructor; [simpl; lia|].
  eapply Forall_impl; [|apply line_starts_bounds]. simpl. lia.
Qed.

(** ** The table of a concatenation *)

Lemma is_break_app c p r : p ≠ [] → is_break c (p ++ r) = is_break c p.
Proof. intros. unfold is_break. by rewrite starts_with_app_l. Qed.

Lemma is_break_cut c r :
  bool_decide (c = CR) && starts_with r LF = false → is_break c r = is_break c [].
Proof. unfold is_break. intros ->. by rewrite starts_with_nil, andb_false_r. Qed.

(** Cutting a text anywhere but between a carriage return and a line feed
    cuts its table in two. *)
Lemma line_starts_app_safe b u p r :
  ends_with p CR && starts_with r LF = false →
  line_starts b u (p ++ r)
  = line_starts b u p ++ line_starts (b + str_len p) (u + str_len_utf16 p) r.
Proof.
  revert b u. induction p as [|c p IH]; intros b u Hsafe.
  - autorewrite with rust_rw. by rewrite !Nat.add_0_r.
  - rewrite <- app_comm_cons, (line_starts_cons b u c (p ++ r)),
      (line_starts_cons b u c p), <- app_assoc, str_len_cons,
      str_len_utf16_cons, !Nat.add_assoc.
    destruct p as [|d p].
    + rewrite (ends_with_snoc [] c) in Hsafe.
      rewrite app_nil_l, (is_break_cut c r) by done.
      by autorewrite with rust_rw; rewrite !Nat.add_0_r.
    + rewrite <- IH, is_break_app by done. done.
Qed.

(** The table of a text that ends with a carriage return ends with the
    record of its end. *)
Lemma line_starts_snoc_CR b u p :
  line_starts b u (p ++ [CR])
  = line_starts b u p
    ++ [mkLine (b + str_len p + 1) (u + str_len_utf16 p + 1)].
Proof.
  rewrite line_starts_app_safe; [|by rewrite starts_with_cons, andb_false_r].
  rewrite line_starts_cons. unfold is_break.
  by rewrite is_newline_CR, starts_with_nil, andb_false_r.
Qed.

(** Cutting a text between a carriage return and a line feed: the record
    after the carriage return is not in the table of the whole. *)
Lemma line_starts_app_crlf b u p r :
  line_starts b u ((p ++ [CR]) ++ LF :: r)
  = line_starts b u p
    ++ line_starts (b + str_len p + 1) (u + str_len_utf16 p + 1) (LF :: r).
Proof.
  rewrite <- app_assoc. simpl app.
  rewrite line_starts_app_safe; [|by rewrite starts_with_cons, andb_false_r].
  f_equal. rewrite line_starts_cons, is_break_CR_LF.
  by autorewrite with rust_rw.
Qed.

(** The general form: the table of [p ++ r] from the tables of [p] and
    [r], with the last record of [p] dropped when the cut separates a
    carriage return from a line feed. *)
Lemma line_starts_app b u p r :
  line_starts b u (p ++ r)
  = (if ends_with p CR && starts_with r LF
     then pop (line_starts b u p) else line_starts b u p)
    ++ line_starts (b + str_len p) (u + str_len_utf16 p) r.
Proof.
  destruct (ends_with p CR && starts_with r LF) eqn:Hcut;
    [|by apply line_starts_app_safe].
  apply andb_true_iff in Hcut as [[p' ->]%ends_with_true [r' ->]%starts_with_true].
  rewrite line_starts_app_crlf, line_starts_snoc_CR, pop_snoc.
  autorewrite with rust_rw. f_equal. f_equal; lia.
Qed.

(** Cut anywhere but between a carriage return and a line feed, a
    text has as many lines as its two parts together, less one. *)
Theorem lines_length_app_safe p r :
  ends_with p CR && starts_with r LF = false →
  length (lines (p ++ r)) + 1 = length (lines p) + length (lines r).
Proof.
  intros Hsafe. rewrite !lines_line_starts. simpl.
  rewrite line_starts_app_safe, length_app by done.
  pose proof (line_starts_shift (str_len p) (str_len_utf16 p) 0 0 r) as Hs.
  rewrite !Nat.add_0_r in Hs. simpl. rewrite Hs, length_fmap. lia.
Qed.

(** ** The part of a table before a position *)

(** The records of the table of [p ++ x] that lie at or before the end of
    [p]: those of [p], without the last one when [p] ends with a carriage
    return and [x] starts with a line feed. *)
Definition lines_upto (p x : str) : list Line :=
  mkLine 0 0 ::
    (if ends_with p CR && starts_with x LF
     then pop (line_starts 0 0 p) else line_starts 0 0 p).

Lemma lines_app p x :
  lines (p ++ x)
  = lines_upto p x ++ line_starts (str_len p) (str_len_utf16 p) x.
Proof. by rewrite lines_line_starts, line_starts_app. Qed.

Lemma lines_upto_le p x : Forall (λ ln, byte_idx ln ≤ str_len p) (lines_upto p x).
Proof.
  constructor; [simpl; lia|].
  assert (Forall (λ ln, byte_idx ln ≤ str_len p) (line_starts 0 0 p)) as HL.
  { eapply Forall_impl; [|apply line_starts_bounds]. simpl. lia. }
  destruct (_ && _); [|done]. by apply Forall_take.
Qed.

Lemma lines_upto_last p x : is_Some (list.last (lines_upto p x)).
Proof.
  unfold lines_upto. destruct (list.last (_ :: _)) eqn:Hl; [done|].
  by apply last_None in Hl.
Qed.

(** The line that owns the end of [p] in the table of [p ++ x] is the last
    record of [lines_upto p x]. *)
Lemma lines_app_owner p x :
  owner byte_idx (lines (p ++ x)) (str_len p) (length (lines_upto p x) - 1).
Proof.
  rewrite lines_app. destruct (lines_upto_last p x) as [ln Hln].
  eapply owner_app; [done| |by apply line_starts_above].
  apply last_Some_elem_of, list_elem_of_lookup in Hln as [i Hi].
  by apply (proj1 (Forall_lookup _ _) (lines_upto_le p x) i).
Qed.

(** Truncating the table of [p ++ x] after the owner of the end of [p]
    keeps [lines_upto p x]. *)
Lemma lines_app_truncate p x :
  truncate (length (lines_upto p x) - 1 + 1) (lines (p ++ x)) = lines_upto p x.
Proof.
  rewrite lines_app. unfold truncate.
  replace (length (lines_upto p x) - 1 + 1) with (length (lines_upto p x))
    by (simpl; lia).
  apply take_app_length.
Qed.

(** ** The table, in full *)

(** The table of a text holds the record of offset zero and, for every
    newline of the text that is not a carriage return followed by a line
    feed, the record of the position after it; it holds nothing else. *)
Lemma lines_elem text ln :
  ln ∈ lines text ↔
  ln = mkLine 0 0
  ∨ ∃ p c r, text = p ++ c :: r ∧ is_break c r = true
             ∧ ln = mkLine (str_len (p ++ [c])) (str_len_utf16 (p ++ [c])).
Proof. by rewrite lines_line_starts, elem_of_cons, line_starts_elem. Qed.

(** C21. The table of a text is well formed and complete: it starts with
    the record of offset zero, byte offsets and UTF-16 offsets strictly
    increase, every record holds the two offsets of one prefix of the
    text, and the records are that of offset zero and, for every newline
    of the text that is not a carriage return followed by a line feed,
    the record of the position after it, and no other. *)
Theorem lines_well_formed text :
  table_ok (lines text) ∧ Forall (line_at text) (lines text)
  ∧ ∀ ln, ln ∈ lines text ↔
      ln = mkLine 0 0
      ∨ ∃ p c r, text = p ++ c :: r ∧ is_break c r = true
                 ∧ ln = mkLine (str_len (p ++ [c])) (str_len_utf16 (p ++ [c])).
Proof.
  split_and!; [apply lines_table_ok | apply lines_line_at | apply lines_elem].
Qed.

End lines_facts.

#[export] Hint Resolve lines_table_ok lines_line_at lines_nonempty : rust.

Lemma lines_length_app_safe_witness :
  length (lines (take 7 TEST ++ drop 7 TEST)) + 1
  = length (lines (take 7 TEST)) + length (lines (drop 7 TEST)).
Proof.
  apply (lines_length_app_safe (take 7 TEST) (drop 7 TEST)).
  vm_compute. reflexivity.
Defined.
