(* ===== verification/Tree.v ===== *)
(** * The boundary to the parser

    [source.rs] calls the parser, the incremental reparser and span
    numbering, and never looks inside a syntax node.  This file states that
    boundary: file identities and spans as data, and the operations on
    syntax trees as an interface.  Everything [Source] proves about trees
    is proved against the interface: the operations are the class
    [Parser], what they promise is the class [ParserLaws].  [leaf_parser]
    is an implementation small enough to run in examples, with its laws
    ([leaf_laws]); the file [Syntax] has trees. *)

From S2P Require Import Prelude Unicode.

(** ** Identities and spans *)

(** [FileId]: the identity of a file, or the sentinel of sources that have
    none. *)
Inductive FileId : Type :=
| FileId_of (n : nat)
| FileId_detached.

#[export] Instance FileId_eq_dec : EqDecision FileId.
Proof. solve_decision. Defined.

(** [FileId::path] as [Path::display] shows it. *)
Class Files : Type := { path_display : FileId → str }.

(** [Span]: a file identity and a number inside that file. *)
Record Span : Type := mkSpan { span_id : FileId; span_number : N }.

#[export] Instance Span_eq_dec : EqDecision Span.
Proof. solve_decision. Defined.

(** [Span::FULL]: the numbers a freshly numbered tree may use. *)
Definition Span_FULL : N * N := (2, 2 ^ 48)%N.

(** ** The operations on syntax trees *)

Class Parser : Type := {
  SyntaxNode : Type;
  SyntaxError : Type;
  Markup : Type;
  LinkedNode : Type;
  (** [parse(text)]: the tree of a text; parse errors are nodes of it. *)
  parse : str → SyntaxNode;
  (** [SyntaxNode::numberize(id, within)]: the tree with a span for every
      node, or [Unnumberable]. *)
  numberize : SyntaxNode → FileId → N * N → option SyntaxNode;
  (** [SyntaxNode::synthesize(span)]: the tree with one span everywhere. *)
  synthesize : SyntaxNode → Span → SyntaxNode;
  (** [reparse(root, text, replaced, replacement_len)]: the tree of the
      new text and the range of it that was reparsed. *)
  reparse : SyntaxNode → str → Range → nat → SyntaxNode * Range;
  (** [SyntaxNode::errors]. *)
  errors : SyntaxNode → list SyntaxError;
  (** [SyntaxNode::cast::<Markup>]. *)
  cast_markup : SyntaxNode → option Markup;
  (** [LinkedNode::new(root).find(span)]. *)
  linked_find : SyntaxNode → Span → option LinkedNode;
}.

(** The call of the reparser an edit makes, when the text of the tree is
    [p ++ m ++ q] and [m] is replaced by [w]: the old tree, the new text,
    the range replaced and the length of the replacement. *)
Definition reparse_edit `{Parser} (root : SyntaxNode) (p m q w : str)
    : SyntaxNode * Range :=
  reparse root (p ++ w ++ q) (mkRange (str_len p) (str_len p + str_len m))
    (str_len w).

(** A range moved by the change of length of an edit that puts [w] in
    the place of [m] before it. *)
Definition range_moved (rg : Range) (m w : str) : Range :=
  mkRange (range_start rg + str_len w - str_len m)
    (range_end rg + str_len w - str_len m).

(** ** What the operations promise

    The contract of the boundary.  A tree spans a text, and its nodes
    carry spans and lie at byte ranges of the text ([node_ranges]).  The
    tree is a function of the text, spans apart: [synthesize], which
    gives every node the same span, tells whether two trees differ in
    more than spans, and neither numbering nor the reparser changes more.
    Numbering gives every node a span of the file with a number of the
    range, no two alike, in the order lookups rely on ([numbered]).  The
    reparser, called by an edit, returns the tree of the new text,
    numbered for the same file, and a range of the new text that holds
    the replacement; a node that lies before that range has kept its
    span and its range, a node that lies after it has kept its span, and
    its range has moved with the text.  A lookup in a numbered tree
    answers exactly for the spans of its nodes; the root of a parsed tree
    is markup. *)
Class ParserLaws `{Parser} : Type := {
  node_text : SyntaxNode → str;
  node_spans : SyntaxNode → list Span;
  node_ranges : SyntaxNode → list (Span * Range);
  numbered : FileId → SyntaxNode → Prop;
  parse_text text : node_text (parse text) = text;
  parse_markup text : is_Some (cast_markup (parse text));
  synthesize_text root span : node_text (synthesize root span) = node_text root;
  synthesize_spans root span :
    Forall (λ sp, sp = span) (node_spans (synthesize root span));
  synthesize_markup root span :
    is_Some (cast_markup (synthesize root span)) ↔ is_Some (cast_markup root);
  numberize_synthesize root id within root' :
    numberize root id within = Some root' →
    ∀ sp, synthesize root' sp = synthesize root sp;
  numberize_numbered root id within root' :
    numberize root id within = Some root' → numbered id root';
  numberize_within root id within root' :
    numberize root id within = Some root' →
    Forall (λ sp, within.1 ≤ span_number sp < within.2)%N (node_spans root');
  numbered_ids id root :
    numbered id root → Forall (λ sp, span_id sp = id) (node_spans root);
  numbered_NoDup id root : numbered id root → NoDup (node_spans root);
  node_ranges_spans root : (node_ranges root).*1 = node_spans root;
  node_ranges_bounds root :
    Forall (λ e, range_start e.2 ≤ range_end e.2 ≤ str_len (node_text root))
      (node_ranges root);
  reparse_parse root id p m q w :
    numbered id root → node_text root = p ++ m ++ q →
    is_Some (numberize (parse (p ++ w ++ q)) id Span_FULL) →
    ∀ sp, synthesize (reparse_edit root p m q w).1 sp
          = synthesize (parse (p ++ w ++ q)) sp;
  reparse_numbered root id p m q w :
    numbered id root → node_text root = p ++ m ++ q →
    is_Some (numberize (parse (p ++ w ++ q)) id Span_FULL) →
    numbered id (reparse_edit root p m q w).1;
  reparse_range root id p m q w :
    numbered id root → node_text root = p ++ m ++ q →
    is_Some (numberize (parse (p ++ w ++ q)) id Span_FULL) →
    range_start (reparse_edit root p m q w).2 ≤ str_len p
    ∧ str_len p + str_len w ≤ range_end (reparse_edit root p m q w).2
      ≤ str_len (p ++ w ++ q);
  reparse_before root id p m q w sp rg :
    numbered id root → node_text root = p ++ m ++ q →
    is_Some (numberize (parse (p ++ w ++ q)) id Span_FULL) →
    (sp, rg) ∈ node_ranges root → range_start rg < range_end rg →
    range_end rg ≤ range_start (reparse_edit root p m q w).2 →
    (sp, rg) ∈ node_ranges (reparse_edit root p m q w).1;
  reparse_after root id p m q w sp rg :
    numbered id root → node_text root = p ++ m ++ q →
    is_Some (numberize (parse (p ++ w ++ q)) id Span_FULL) →
    (sp, rg) ∈ node_ranges root → range_start rg < range_end rg →
    range_end (reparse_edit root p m q w).2 + str_len m
      ≤ range_start rg + str_len w →
    (sp, range_moved rg m w) ∈ node_ranges (reparse_edit root p m q w).1;
  find_numbered id root span :
    numbered id root →
    is_Some (linked_find root span) ↔ span ∈ node_spans root;
}.

(** What follows from the tree being a function of the text. *)
Section derived.
Context `{ParserLaws}.

Lemma synthesize_eq_text root root' sp :
  synthesize root' sp = synthesize root sp → node_text root' = node_text root.
Proof.
  intros Hs. by rewrite <- (synthesize_text root' sp), Hs, synthesize_text.
Qed.

Lemma synthesize_eq_markup root root' sp :
  synthesize root' sp = synthesize root sp →
  is_Some (cast_markup root') ↔ is_Some (cast_markup root).
Proof.
  intros Hs. by rewrite <- (synthesize_markup root' sp), Hs, synthesize_markup.
Qed.

Lemma numberize_text root id within root' :
  numberize root id within = Some root' → node_text root' = node_text root.
Proof.
  intros Hn. apply (synthesize_eq_text _ _ (mkSpan id 0)).
  by eapply numberize_synthesize.
Qed.

Lemma numberize_markup root id within root' :
  numberize root id within = Some root' →
  is_Some (cast_markup root') ↔ is_Some (cast_markup root).
Proof.
  intros Hn. apply (synthesize_eq_markup _ _ (mkSpan id 0)).
  by eapply numberize_synthesize.
Qed.

End derived.

(** ** A parser for examples *)

(** A tree that is one leaf holding its text and its span. *)
Record Leaf : Type := mkLeaf { leaf_text : str; leaf_span : Span }.

#[export] Instance Leaf_eq_dec : EqDecision Leaf.
Proof. solve_decision. Defined.

Definition leaf_numberize (l : Leaf) (id : FileId) (within : N * N) : option Leaf :=
  if bool_decide (within.2 ≤ within.1)%N
  then None
  else Some (mkLeaf (leaf_text l) (mkSpan id within.1)).

(** The reparser that always falls back: parse the new text, number the
    tree with the old identity, report the whole text. *)
Definition leaf_reparse (l : Leaf) (text : str) (replaced : Range)
    (replacement_len : nat) : Leaf * Range :=
  (default l (leaf_numberize (mkLeaf text (leaf_span l))
                (span_id (leaf_span l)) Span_FULL),
   mkRange 0 (str_len text)).

Definition leaf_parser : Parser := {|
  SyntaxNode := Leaf;
  SyntaxError := Empty_set;
  Markup := Leaf;
  LinkedNode := Leaf;
  parse text := mkLeaf text (mkSpan FileId_detached 1);
  numberize := leaf_numberize;
  synthesize l span := mkLeaf (leaf_text l) span;
  reparse := leaf_reparse;
  errors _ := [];
  cast_markup l := Some l;
  linked_find l span := if decide (leaf_span l = span) then Some l else None;
|}.

(** The laws, for the one-leaf parser. *)
Lemma leaf_numberize_Some l id within l' :
  leaf_numberize l id within = Some l' ↔
  (within.1 < within.2)%N ∧ l' = mkLeaf (leaf_text l) (mkSpan id within.1).
Proof. unfold leaf_numberize. case_bool_decide; naive_solver lia. Qed.

Lemma leaf_reparse_fst l text replaced len :
  (leaf_reparse l text replaced len).1
  = mkLeaf text (mkSpan (span_id (leaf_span l)) 2).
Proof. done. Qed.

#[export, refine] Instance leaf_laws : @ParserLaws leaf_parser := {|
  node_text := leaf_text : @SyntaxNode leaf_parser → str;
  node_spans := (λ l, [leaf_span l]) : @SyntaxNode leaf_parser → list Span;
  node_ranges := (λ l, [(leaf_span l, mkRange 0 (str_len (leaf_text l)))])
    : @SyntaxNode leaf_parser → list (Span * Range);
  numbered := (λ id l, span_id (leaf_span l) = id)
    : FileId → @SyntaxNode leaf_parser → Prop;
|}.
Proof.
  - done.
  - done.
  - done.
  - intros l sp. by repeat constructor.
  - done.
  - by intros l id w l' [_ ->]%leaf_numberize_Some.
  - by intros l id w l' [_ ->]%leaf_numberize_Some.
  - intros l id w l' [? ->]%leaf_numberize_Some. constructor; simpl; [lia|done].
  - intros id l <-. by repeat constructor.
  - intros id l _. apply NoDup_singleton.
  - done.
  - intros l. repeat constructor; simpl; lia.
  - done.
  - by intros l id p m q w <- _ _.
  - intros l id p m q w _ _ _. simpl. rewrite !str_len_app. lia.
  - intros l id p m q w sp rg _ _ _ [= _ ->]%list_elem_of_singleton. simpl. lia.
  - intros l id p m q w sp rg _ Ht _ [= _ ->]%list_elem_of_singleton.
    simpl in *. rewrite Ht, !str_len_app. lia.
  - intros id l sp _. simpl. rewrite list_elem_of_singleton.
    case_decide; split; intros Hs; by try destruct Hs.
Defined.
