(* ===== verification/Syntax.v ===== *)
(** * Syntax trees, span numbering and lookup by span

    The trees behind the interface of [Tree], as the specification of the
    module describes them: a node is a leaf with its text or an inner node
    with its children, of a kind from a closed enumeration, and carries a
    span.  [numberize] gives every node the identity of the file and a
    counter that increases along the pre-order of the tree; [synthesize]
    gives every node one span; [find] descends to the deepest node whose
    range of numbers holds the number looked for; an error is a node of
    kind [Error]; [ranges] lists the nodes with the byte ranges of their
    texts.  The grammar is not part of this: it is the class [Grammar], a
    function from texts to trees that keeps the text.  Nor is the policy
    of the reparser: what a reparser promises is the class [Reparser],
    and the one defined here, [reparse], always asks for a full parse.

    Theorems: the numbers of a numbered tree, read in pre-order, are
    consecutive; numbering changes nothing but spans; [find] on a numbered
    tree returns the node with the span looked for, which is the node at
    that position of the pre-order; the numbers of a subtree are those
    between the number of its root and the number after its last node;
    every node lies in the text of the tree.  The instance [tree_laws]
    discharges the laws of [ParserLaws] for every grammar and every
    reparser for it, and [full_reparser] is one. *)

From S2P Require Import Prelude Unicode Tree.

Module Syntax.

(** ** Trees *)

(** The kinds of node. *)
Inductive SyntaxKind : Type := Markup | Text | Space | Error.

#[export] Instance SyntaxKind_eq_dec : EqDecision SyntaxKind.
Proof. solve_decision. Defined.

Inductive Node : Type :=
| Leaf (kind : SyntaxKind) (text : str) (span : Span)
| Inner (kind : SyntaxKind) (span : Span) (children : list Node).

(** Induction on a tree with the hypothesis for every child. *)
Section Node_ind2.
Variable P : Node → Prop.
Hypothesis Hleaf : ∀ kind text span, P (Leaf kind text span).
Hypothesis Hinner : ∀ kind span children,
  Forall P children → P (Inner kind span children).

Fixpoint Node_ind2 (t : Node) : P t :=
  match t with
  | Leaf kind text span => Hleaf kind text span
  | Inner kind span children =>
      Hinner kind span children
        ((fix go (cs : list Node) : Forall P cs :=
            match cs with
            | [] => Forall_nil_2 P
            | c :: cs' => Forall_cons_2 P c cs' (Node_ind2 c) (go cs')
            end) children)
  end.
End Node_ind2.

Definition kind (t : Node) : SyntaxKind :=
  match t with Leaf k _ _ => k | Inner k _ _ => k end.

Definition span (t : Node) : Span :=
  match t with Leaf _ _ sp => sp | Inner _ sp _ => sp end.

Definition children (t : Node) : list Node :=
  match t with Leaf _ _ _ => [] | Inner _ _ cs => cs end.

(** The number of nodes of the tree, its root included. *)
Fixpoint descendants (t : Node) : nat :=
  match t with
  | Leaf _ _ _ => 1
  | Inner _ _ cs => S (sum_list_with descendants cs)
  end.

(** The text the tree spans. *)
Fixpoint text (t : Node) : str :=
  match t with
  | Leaf _ s _ => s
  | Inner _ _ cs => cs ≫= text
  end.

(** The nodes of the tree in pre-order. *)
Fixpoint preorder (t : Node) : list Node :=
  t :: match t with
       | Leaf _ _ _ => []
       | Inner _ _ cs => cs ≫= preorder
       end.

(** ** Spans *)

(** The numbers of the subtree of [t]: from its own to the one before
    the number after its last node. *)
Definition covers (t : Node) (target : Span) : Prop :=
  span_id (span t) = span_id target
  ∧ (span_number (span t) ≤ span_number target
     < span_number (span t) + N.of_nat (descendants t))%N.

#[export] Instance covers_dec t target : Decision (covers t target).
Proof. unfold covers. apply _. Defined.

(** The children of a node are numbered one after the other, each from
    the number after the last node of the one before. *)
Section children.
Variable number : N → Node → Node.

Fixpoint number_children (n : N) (cs : list Node) : list Node :=
  match cs with
  | [] => []
  | c :: cs' => number n c :: number_children (n + N.of_nat (descendants c)) cs'
  end.
End children.

(** Span numbering: the identity of the file and a counter that goes up
    by one from node to node in pre-order. *)
Fixpoint number (id : FileId) (n : N) (t : Node) : Node :=
  match t with
  | Leaf k s _ => Leaf k s (mkSpan id n)
  | Inner k _ cs =>
      Inner k (mkSpan id n) (number_children (number id) (N.succ n) cs)
  end.

(** [SyntaxNode::numberize(id, within)]: numbered from the start of the
    range, or [Unnumberable] when the range has fewer numbers than the
    tree has nodes. *)
Definition numberize (t : Node) (id : FileId) (within : N * N) : option Node :=
  if decide (within.1 + N.of_nat (descendants t) ≤ within.2)%N
  then Some (number id within.1 t)
  else None.

(** [SyntaxNode::synthesize(span)]: one span for every node. *)
Fixpoint synthesize (t : Node) (sp : Span) : Node :=
  match t with
  | Leaf k s _ => Leaf k s sp
  | Inner k _ cs => Inner k sp ((λ c, synthesize c sp) <$> cs)
  end.

(** [LinkedNode::find(span)]: the deepest node whose numbers hold the
    number of the span, none when the span is of another file or of no
    node of the tree. *)
Fixpoint find (t : Node) (target : Span) : option Node :=
  if decide (covers t target) then
    match t with
    | Leaf _ _ _ => Some t
    | Inner _ _ cs => Some (default t (find_map (λ c, find c target) cs))
    end
  else None.

(** The reference for [find]: the first node, in pre-order, with the
    span. *)
Definition find_ref (t : Node) (target : Span) : option Node :=
  snd <$> list_find (λ n, span n = target) (preorder t).

(** [SyntaxNode::errors]: the nodes of kind [Error]. *)
Definition errors (t : Node) : list Node :=
  filter (λ n, kind n = Error) (preorder t).

(** [SyntaxNode::cast::<Markup>]. *)
Definition cast_markup (t : Node) : option Node :=
  if decide (kind t = Markup) then Some t else None.

(** The spans of the tree in pre-order. *)
Definition spans (t : Node) : list Span := span <$> preorder t.

(** The trees numbered for a file: their spans are the ones [number]
    gives, from some number on. *)
Definition numbered (id : FileId) (t : Node) : Prop := ∃ n, number id n t = t.

(** ** Ranges *)

(** The nodes of a tree whose text starts at the byte offset [off], in
    pre-order, each as its span and the byte range of its text: what
    [LinkedNode::span] and [LinkedNode::range] give for it. *)
Section child_ranges.
Variable ranges : nat → Node → list (Span * Range).

Fixpoint ranges_children (off : nat) (cs : list Node) : list (Span * Range) :=
  match cs with
  | [] => []
  | c :: cs' => ranges off c ++ ranges_children (off + str_len (text c)) cs'
  end.
End child_ranges.

Fixpoint ranges (off : nat) (t : Node) : list (Span * Range) :=
  (span t, mkRange off (off + str_len (text t)))
  :: match t with
     | Leaf _ _ _ => []
     | Inner _ _ cs => ranges_children ranges off cs
     end.

(** A range that lies in the [len] bytes from [off] on. *)
Definition inside (off len : nat) (e : Span * Range) : Prop :=
  off ≤ range_start e.2 ∧ range_start e.2 ≤ range_end e.2
  ∧ range_end e.2 ≤ off + len.

(** Equality of trees, as a test. *)
Section eqb_children.
Variable eqb : Node → Node → bool.

Fixpoint eqb_children (l l' : list Node) : bool :=
  match l, l' with
  | [], [] => true
  | c :: l, c' :: l' => eqb c c' && eqb_children l l'
  | _, _ => false
  end.
End eqb_children.

Fixpoint node_eqb (a b : Node) : bool :=
  match a, b with
  | Leaf k s sp, Leaf k' s' sp' =>
      bool_decide (k = k') && bool_decide (s = s') && bool_decide (sp = sp')
  | Inner k sp cs, Inner k' sp' cs' =>
      bool_decide (k = k') && bool_decide (sp = sp')
      && eqb_children node_eqb cs cs'
  | _, _ => false
  end.

(** ** The parser *)

(** A grammar: a function from texts to markup that keeps the text. *)
Class Grammar : Type := {
  grammar_parse : str → Node;
  grammar_parse_text s : text (grammar_parse s) = s;
  grammar_parse_kind s : kind (grammar_parse s) = Markup;
}.

(** The call of a reparser an edit makes, as [reparse_edit] of [Tree]. *)
Definition edit_call (rp : Node → str → Range → nat → Node * Range)
    (root : Node) (p m q w : str) : Node * Range :=
  rp root (p ++ w ++ q) (mkRange (str_len p) (str_len p + str_len m)) (str_len w).

(** A reparser for a grammar, and what it promises when an edit calls it
    on a numbered tree of the old text and the new text can be numbered:
    the tree it returns is the tree of the new text, spans apart, and is
    numbered for the same file; the range it returns lies in the new text
    and holds the replacement; the nodes before that range are as they
    were, the nodes after it have their spans and have moved with the
    text. *)
Class Reparser `{Grammar} : Type := {
  reparser : Node → str → Range → nat → Node * Range;
  reparser_parse root id p m q w :
    numbered id root → text root = p ++ m ++ q →
    is_Some (numberize (grammar_parse (p ++ w ++ q)) id Span_FULL) →
    ∀ sp, synthesize (edit_call reparser root p m q w).1 sp
          = synthesize (grammar_parse (p ++ w ++ q)) sp;
  reparser_numbered root id p m q w :
    numbered id root → text root = p ++ m ++ q →
    is_Some (numberize (grammar_parse (p ++ w ++ q)) id Span_FULL) →
    numbered id (edit_call reparser root p m q w).1;
  reparser_range root id p m q w :
    numbered id root → text root = p ++ m ++ q →
    is_Some (numberize (grammar_parse (p ++ w ++ q)) id Span_FULL) →
    range_start (edit_call reparser root p m q w).2 ≤ str_len p
    ∧ str_len p + str_len w ≤ range_end (edit_call reparser root p m q w).2
      ≤ str_len (p ++ w ++ q);
  reparser_before root id p m q w sp rg :
    numbered id root → text root = p ++ m ++ q →
    is_Some (numberize (grammar_parse (p ++ w ++ q)) id Span_FULL) →
    (sp, rg) ∈ ranges 0 root → range_start rg < range_end rg →
    range_end rg ≤ range_start (edit_call reparser root p m q w).2 →
    (sp, rg) ∈ ranges 0 (edit_call reparser root p m q w).1;
  reparser_after root id p m q w sp rg :
    numbered id root → text root = p ++ m ++ q →
    is_Some (numberize (grammar_parse (p ++ w ++ q)) id Span_FULL) →
    (sp, rg) ∈ ranges 0 root → range_start rg < range_end rg →
    range_end (edit_call reparser root p m q w).2 + str_len m
      ≤ range_start rg + str_len w →
    (sp, range_moved rg m w) ∈ ranges 0 (edit_call reparser root p m q w).1;
}.

(** The reparser that never patches: the tree of the new text, numbered
    for the file of the old tree, and the whole text as the range. *)
Definition reparse `{Grammar} (root : Node) (text : str) (replaced : Range)
    (replacement_len : nat) : Node * Range :=
  let tree := grammar_parse text in
  (default tree (numberize tree (span_id (span root)) Span_FULL),
   mkRange 0 (str_len text)).

Definition tree_parser `{Reparser} : Parser := {|
  SyntaxNode := Node;
  SyntaxError := Node;
  Tree.Markup := Node;
  LinkedNode := Node;
  parse := grammar_parse;
  Tree.numberize := numberize;
  Tree.synthesize := synthesize;
  Tree.reparse := reparser;
  Tree.errors := errors;
  Tree.cast_markup := cast_markup;
  linked_find := find;
|}.

(** A grammar for examples: a leaf for every character, white space,
    the character zero as an error, and text. *)
Definition char_kind (c : char) : SyntaxKind :=
  if bool_decide (c ∈ [0x20; 0x09; LF; CR]%N) then Space
  else if bool_decide (c = 0%N) then Error
  else Text.

Definition char_parse (s : str) : Node :=
  Inner Markup (mkSpan FileId_detached 1)
    ((λ c, Leaf (char_kind c) [c] (mkSpan FileId_detached 1)) <$> s).

(** The spans [number] gives to [d] nodes from [n] on. *)
Definition span_seq (id : FileId) (n : N) (d : nat) : list Span :=
  (λ k, mkSpan id (n + N.of_nat k)) <$> seq 0 d.

(** ** Sizes and pre-order *)

Lemma descendants_pos t : 0 < descendants t.
Proof. destruct t; simpl; lia. Qed.

Lemma length_preorder t : length (preorder t) = descendants t.
Proof.
  induction t as [|k sp cs IH] using Node_ind2; [done|]. simpl. f_equal.
  induction IH as [|c cs Hc _ IHcs]; [done|].
  rewrite bind_cons, length_app. simpl. congruence.
Qed.

Lemma length_bind_preorder cs :
  length (cs ≫= preorder) = sum_list_with descendants cs.
Proof.
  induction cs as [|c cs IH]; [done|].
  rewrite bind_cons, length_app, length_preorder. simpl. congruence.
Qed.

Lemma fmap_bind_list {A B C} (f : B → C) (g : A → list B) l :
  f <$> (l ≫= g) = l ≫= λ x, f <$> g x.
Proof.
  induction l as [|a l IH]; [done|]. by rewrite !bind_cons, fmap_app, IH.
Qed.

Lemma preorder_Inner k sp cs :
  preorder (Inner k sp cs) = Inner k sp cs :: (cs ≫= preorder).
Proof. done. Qed.

Lemma spans_Inner k sp cs : spans (Inner k sp cs) = sp :: (cs ≫= spans).
Proof. unfold spans. by rewrite preorder_Inner, fmap_cons, fmap_bind_list. Qed.

Lemma length_spans t : length (spans t) = descendants t.
Proof. unfold spans. by rewrite length_fmap, length_preorder. Qed.

Lemma span_seq_app id n a b :
  span_seq id n (a + b) = span_seq id n a ++ span_seq id (n + N.of_nat a) b.
Proof.
  unfold span_seq. rewrite seq_app, fmap_app. f_equal. simpl.
  replace (seq a b) with (Nat.add a <$> seq 0 b)
    by (rewrite fmap_add_seq; f_equal; lia).
  rewrite <- list_fmap_compose.
  apply list_fmap_ext. intros _ i _. simpl. f_equal. lia.
Qed.

Lemma span_seq_S id n d :
  span_seq id n (S d) = mkSpan id n :: span_seq id (N.succ n) d.
Proof.
  change (S d) with (1 + d). rewrite span_seq_app. unfold span_seq at 1.
  simpl. do 3 f_equal; lia.
Qed.

Lemma span_seq_lookup id n d k :
  span_seq id n d !! k
  = if decide (k < d) then Some (mkSpan id (n + N.of_nat k)) else None.
Proof.
  unfold span_seq. rewrite list_lookup_fmap. case_decide.
  - by rewrite lookup_seq_lt.
  - by rewrite lookup_seq_ge by lia.
Qed.

Lemma span_seq_NoDup id n d : NoDup (span_seq id n d).
Proof.
  apply NoDup_fmap_2; [|apply NoDup_seq]. intros i j [= Hij]. lia.
Qed.

(** The nodes of a subtree follow its root in the pre-order of the
    tree. *)
Lemma preorder_subtree_children cs j a :
  Forall (λ c, ∀ i b, preorder c !! i = Some b →
               take (descendants b) (drop i (preorder c)) = preorder b) cs →
  (cs ≫= preorder) !! j = Some a →
  take (descendants a) (drop j (cs ≫= preorder)) = preorder a.
Proof.
  intros Hcs. revert j. induction Hcs as [|c cs Hc _ IH]; intros j Hj; [done|].
  rewrite bind_cons in *.
  destruct (decide (j < length (preorder c))) as [Hlt|Hge].
  - rewrite lookup_app_l in Hj by done. apply Hc in Hj as Ha.
    rewrite drop_app_le by lia. rewrite take_app_le; [done|].
    apply (f_equal length) in Ha. rewrite length_take, length_preorder in Ha. lia.
  - rewrite lookup_app_r in Hj by lia. rewrite drop_app_ge by lia. by apply IH.
Qed.

Lemma preorder_subtree t i a :
  preorder t !! i = Some a →
  take (descendants a) (drop i (preorder t)) = preorder a.
Proof.
  revert i a. induction t as [kd s sp|kd sp cs IH] using Node_ind2; intros i a Hi.
  { by destruct i; simplify_eq/=. }
  destruct i as [|j].
  - injection Hi as <-. by rewrite <- length_preorder, drop_0, firstn_all.
  - rewrite preorder_Inner in *. by apply preorder_subtree_children.
Qed.

(** ** Numbering *)

Lemma span_of_number id n t : span (number id n t) = mkSpan id n.
Proof. by destruct t. Qed.

Lemma kind_number id n t : kind (number id n t) = kind t.
Proof. by destruct t. Qed.

(** What does not look at spans is the same on the numbered children. *)
Lemma number_children_fmap {A} (f : Node → A) id n cs :
  Forall (λ c, ∀ m, f (number id m c) = f c) cs →
  f <$> number_children (number id) n cs = f <$> cs.
Proof.
  intros Hcs. revert n. induction Hcs as [|c cs Hc _ IH]; intros n; [done|].
  simpl. by rewrite Hc, IH.
Qed.

Lemma sum_list_with_fmap {A} (f : A → nat) l :
  sum_list_with f l = sum_list (f <$> l).
Proof. induction l as [|a l IH]; [done|]. simpl. by rewrite IH. Qed.

Lemma list_bind_fmap {A B} (f : A → list B) l : l ≫= f = mjoin (f <$> l).
Proof. induction l as [|a l IH]; [done|]. by rewrite bind_cons, IH. Qed.

Lemma descendants_number id n t : descendants (number id n t) = descendants t.
Proof.
  revert n. induction t as [|k sp cs IH] using Node_ind2; intros n; [done|].
  simpl. by rewrite !(sum_list_with_fmap descendants), number_children_fmap.
Qed.

Lemma text_number id n t : text (number id n t) = text t.
Proof.
  revert n. induction t as [|k sp cs IH] using Node_ind2; intros n; [done|].
  simpl. by rewrite !list_bind_fmap, number_children_fmap.
Qed.

Lemma synthesize_number id n t sp :
  synthesize (number id n t) sp = synthesize t sp.
Proof.
  revert n. induction t as [|k sp' cs IH] using Node_ind2; intros n; [done|].
  simpl. f_equal. by apply number_children_fmap.
Qed.

(** Numbering again gives the same numbers. *)
Lemma number_children_idemp id id' n n' cs :
  Forall (λ c, ∀ m m', number id m (number id' m' c) = number id m c) cs →
  number_children (number id) n (number_children (number id') n' cs)
  = number_children (number id) n cs.
Proof.
  intros Hcs. revert n n'. induction Hcs as [|c cs Hc _ IH]; intros n n'; [done|].
  simpl. by rewrite Hc, descendants_number, IH.
Qed.

Lemma number_number id id' n n' t :
  number id n (number id' n' t) = number id n t.
Proof.
  revert n n'. induction t as [|k sp cs IH] using Node_ind2; intros n n'; [done|].
  simpl. f_equal. by apply number_children_idemp.
Qed.

Lemma numbered_number id n t : numbered id (number id n t).
Proof. exists n. apply number_number. Qed.

(** The spans of the numbered children, one child after the other. *)
Lemma spans_number_children id n cs :
  Forall (λ c, ∀ m, spans (number id m c) = span_seq id m (descendants c)) cs →
  number_children (number id) n cs ≫= spans
  = span_seq id n (sum_list_with descendants cs).
Proof.
  intros Hcs. revert n. induction Hcs as [|c cs Hc _ IH]; intros n; [done|].
  cbn [number_children]. rewrite bind_cons, Hc, IH.
  change (sum_list_with descendants (c :: cs))
    with (descendants c + sum_list_with descendants cs).
  by rewrite span_seq_app.
Qed.

Lemma spans_number id n t :
  spans (number id n t) = span_seq id n (descendants t).
Proof.
  revert n. induction t as [|k sp cs IH] using Node_ind2; intros n.
  { unfold spans, span_seq. simpl. do 3 f_equal. lia. }
  simpl. by rewrite spans_Inner, span_seq_S, spans_number_children.
Qed.

(** ** Lookup *)

Lemma find_not_covers t target : ¬ covers t target → find t target = None.
Proof. intros Hn. destruct t; simpl; by rewrite decide_False. Qed.

Lemma covers_number id n t id' m :
  covers (number id n t) (mkSpan id' m)
  ↔ id = id' ∧ (n ≤ m < n + N.of_nat (descendants t))%N.
Proof. unfold covers. by rewrite span_of_number, descendants_number. Qed.

Lemma find_Inner k sp cs target :
  find (Inner k sp cs) target
  = if decide (covers (Inner k sp cs) target)
    then Some (default (Inner k sp cs) (find_map (λ c, find c target) cs))
    else None.
Proof. done. Qed.

Lemma number_Inner id n k sp cs :
  number id n (Inner k sp cs)
  = Inner k (mkSpan id n) (number_children (number id) (N.succ n) cs).
Proof. done. Qed.

Lemma length_preorder_number id n t :
  length (preorder (number id n t)) = descendants t.
Proof. by rewrite length_preorder, descendants_number. Qed.

Lemma descendants_number_children id n cs :
  sum_list_with descendants (number_children (number id) n cs)
  = sum_list_with descendants cs.
Proof.
  rewrite !(sum_list_with_fmap descendants), number_children_fmap; [done|].
  apply Forall_true. intros c m. apply descendants_number.
Qed.

(** A span of another file, or a number outside the numbers of the tree,
    is not found. *)
Lemma find_number_None id n t id' m :
  ¬ (id = id' ∧ (n ≤ m < n + N.of_nat (descendants t))%N) →
  find (number id n t) (mkSpan id' m) = None.
Proof. intros Hn. apply find_not_covers. by rewrite covers_number. Qed.

(** No child numbered from [n] on has a number below [n]. *)
Lemma find_children_below id n cs id' m :
  (m < n)%N →
  find_map (λ c, find c (mkSpan id' m)) (number_children (number id) n cs) = None.
Proof.
  intros Hm. apply find_map_None. revert n Hm.
  induction cs as [|c cs IH]; intros n Hm; constructor; [|apply IH; lia].
  apply find_not_covers. rewrite covers_number. lia.
Qed.

(** The search among the numbered children is a lookup in their
    pre-order. *)
Lemma find_number_children id n cs j :
  Forall (λ c, ∀ m k, find (number id m c) (mkSpan id (m + N.of_nat k))
                      = preorder (number id m c) !! k) cs →
  find_map (λ c, find c (mkSpan id (n + N.of_nat j)))
    (number_children (number id) n cs)
  = (number_children (number id) n cs ≫= preorder) !! j.
Proof.
  intros Hcs. revert n j. induction Hcs as [|c cs Hc _ IH]; intros n j; [done|].
  cbn [number_children find_map]. rewrite bind_cons, Hc.
  destruct (decide (j < descendants c)) as [Hj|Hj].
  - rewrite lookup_app_l by by rewrite length_preorder_number.
    by destruct (lookup_lt_is_Some_2 (preorder (number id n c)) j) as [x ->];
      [rewrite length_preorder_number|].
  - rewrite lookup_app_r, length_preorder_number
      by (rewrite length_preorder_number; lia).
    rewrite lookup_ge_None_2 by (rewrite length_preorder_number; lia).
    replace (n + N.of_nat j)%N
      with (n + N.of_nat (descendants c) + N.of_nat (j - descendants c))%N by lia.
    apply IH.
Qed.

Lemma find_number id n t k :
  find (number id n t) (mkSpan id (n + N.of_nat k))
  = preorder (number id n t) !! k.
Proof.
  revert n k. induction t as [kd s sp|kd sp cs IH] using Node_ind2; intros n k.
  { destruct k as [|k].
    - simpl. rewrite decide_True; [done|]. split; simpl; [done|lia].
    - rewrite find_number_None; [done|]. simpl. lia. }
  destruct (decide (k < descendants (Inner kd sp cs))) as [Hk|Hk]; cycle 1.
  { rewrite find_number_None by lia. symmetry.
    apply lookup_ge_None_2. rewrite length_preorder_number. lia. }
  rewrite number_Inner, find_Inner, preorder_Inner, decide_True
    by (rewrite <- (number_Inner _ _ _ sp); apply covers_number; split; [done|lia]).
  destruct k as [|j]; [by rewrite find_children_below by lia|].
  cbn [lookup list_lookup].
  replace (n + N.of_nat (S j))%N with (N.succ n + N.of_nat j)%N by lia.
  rewrite find_number_children by done.
  assert (is_Some ((number_children (number id) (N.succ n) cs ≫= preorder) !! j))
    as [x Hx]; [|by rewrite Hx].
  apply lookup_lt_is_Some_2.
  rewrite length_bind_preorder, descendants_number_children. simpl in Hk. lia.
Qed.

(** The node at a position of the pre-order has the span of that
    position. *)
Lemma lookup_preorder_number id n t k x :
  preorder (number id n t) !! k = Some x → span x = mkSpan id (n + N.of_nat k).
Proof.
  intros Hx. pose proof (spans_number id n t) as Hs.
  apply (f_equal (.!! k)) in Hs. unfold spans in Hs.
  rewrite list_lookup_fmap, Hx, span_seq_lookup in Hs. simpl in Hs.
  case_decide; congruence.
Qed.

Lemma find_ref_number id n t k :
  find_ref (number id n t) (mkSpan id (n + N.of_nat k))
  = preorder (number id n t) !! k.
Proof.
  unfold find_ref. destruct (preorder (number id n t) !! k) as [x|] eqn:Hk.
  - erewrite (proj2 (list_find_Some _ _ k x)); [done|].
    split_and!; [done|by eapply lookup_preorder_number|].
    intros j y Hy Hj Heq. apply lookup_preorder_number in Hy.
    rewrite Heq in Hy. simplify_eq. lia.
  - rewrite (proj2 (list_find_None _ _)); [done|].
    apply Forall_lookup. intros j y Hy Heq.
    apply lookup_ge_None_1 in Hk. apply lookup_lt_Some in Hy as Hlt.
    apply lookup_preorder_number in Hy. rewrite Heq in Hy. simplify_eq. lia.
Qed.

Lemma find_ref_number_None id n t id' m :
  ¬ (id = id' ∧ (n ≤ m < n + N.of_nat (descendants t))%N) →
  find_ref (number id n t) (mkSpan id' m) = None.
Proof.
  intros Hn. unfold find_ref. rewrite (proj2 (list_find_None _ _)); [done|].
  apply Forall_lookup. intros j y Hy Heq. apply lookup_lt_Some in Hy as Hlt.
  rewrite length_preorder_number in Hlt.
  apply lookup_preorder_number in Hy. rewrite Heq in Hy. simplify_eq.
  apply Hn. split; [done|lia].
Qed.

Lemma elem_of_span_seq id n d sp :
  sp ∈ span_seq id n d
  ↔ span_id sp = id ∧ (n ≤ span_number sp < n + N.of_nat d)%N.
Proof.
  rewrite list_elem_of_lookup. setoid_rewrite span_seq_lookup. split.
  - intros [k Hk]. case_decide; simplify_eq/=. split; [done|lia].
  - intros [<- Hn]. exists (N.to_nat (span_number sp - n)).
    rewrite decide_True by lia. destruct sp as [id m]. simpl in *.
    do 2 f_equal. lia.
Qed.

Lemma find_number_is_Some id n t sp :
  is_Some (find (number id n t) sp) ↔ sp ∈ spans (number id n t).
Proof.
  rewrite spans_number, elem_of_span_seq.
  destruct sp as [id' m]. simpl. split.
  - intros Hs. destruct (decide (id = id' ∧ (n ≤ m < n + N.of_nat (descendants t))%N))
      as [[-> ?]|Hn]; [done|].
    rewrite find_number_None in Hs by done. by destruct Hs.
  - intros [-> Hm].
    replace m with (n + N.of_nat (N.to_nat (m - n)))%N by lia.
    rewrite find_number. apply lookup_lt_is_Some_2.
    rewrite length_preorder_number. lia.
Qed.

(** ** Synthesized trees *)

Lemma text_synthesize t sp : text (synthesize t sp) = text t.
Proof.
  induction t as [|k sp' cs IH] using Node_ind2; [done|]. simpl.
  rewrite list_fmap_bind, !list_bind_fmap. f_equal. by apply Forall_fmap_ext_1.
Qed.

Lemma descendants_synthesize t sp : descendants (synthesize t sp) = descendants t.
Proof.
  induction t as [|k sp' cs IH] using Node_ind2; [done|]. simpl.
  rewrite !(sum_list_with_fmap descendants), <- list_fmap_compose.
  do 2 f_equal. by apply Forall_fmap_ext_1.
Qed.

Lemma spans_synthesize t sp :
  spans (synthesize t sp) = replicate (descendants t) sp.
Proof.
  induction t as [|k sp' cs IH] using Node_ind2; [done|].
  cbn [synthesize]. rewrite spans_Inner. cbn [descendants replicate]. f_equal.
  induction IH as [|c cs Hc _ IHcs]; [done|].
  rewrite fmap_cons, bind_cons, Hc, IHcs. symmetry. apply replicate_add.
Qed.

Lemma synthesize_synthesize t sp sp' :
  synthesize (synthesize t sp') sp = synthesize t sp.
Proof.
  induction t as [|k sp0 cs IH] using Node_ind2; [done|]. simpl. f_equal.
  rewrite <- list_fmap_compose. by apply Forall_fmap_ext_1.
Qed.

(** Trees that differ in spans only: it does not matter by which span
    they are compared. *)
Lemma synthesize_eq t t' sp sp' :
  synthesize t sp = synthesize t' sp → synthesize t sp' = synthesize t' sp'.
Proof.
  intros Hs. by rewrite <- (synthesize_synthesize t sp' sp), Hs, synthesize_synthesize.
Qed.

(** ** Equality *)

Lemma eqb_children_eq cs cs' :
  Forall (λ c, ∀ c', node_eqb c c' = true ↔ c = c') cs →
  eqb_children node_eqb cs cs' = true ↔ cs = cs'.
Proof.
  intros Hcs. revert cs'.
  induction Hcs as [|c cs Hc _ IH]; intros [|c' cs']; simpl; try done.
  rewrite andb_true_iff, Hc, IH. naive_solver.
Qed.

Lemma node_eqb_eq a b : node_eqb a b = true ↔ a = b.
Proof.
  revert b. induction a as [k s sp|k sp cs IH] using Node_ind2;
    intros [k' s' sp'|k' sp' cs']; simpl; try done.
  - rewrite !andb_true_iff, !bool_decide_eq_true. naive_solver.
  - rewrite !andb_true_iff, !bool_decide_eq_true, eqb_children_eq by done.
    naive_solver.
Qed.

#[export] Instance Node_eq_dec : EqDecision Node.
Proof.
  intros a b. destruct (node_eqb a b) eqn:Heq.
  - left. by apply node_eqb_eq.
  - right. intros Hab%node_eqb_eq. congruence.
Defined.

(** ** Ranges *)

Lemma text_Inner k sp c cs :
  text (Inner k sp (c :: cs)) = text c ++ text (Inner k sp cs).
Proof. done. Qed.

Lemma ranges_Inner off k sp cs :
  ranges off (Inner k sp cs)
  = (sp, mkRange off (off + str_len (text (Inner k sp cs))))
    :: ranges_children ranges off cs.
Proof. done. Qed.

Lemma ranges_children_spans off cs :
  Forall (λ c, ∀ o, (ranges o c).*1 = spans c) cs →
  (ranges_children ranges off cs).*1 = cs ≫= spans.
Proof.
  intros Hcs. revert off. induction Hcs as [|c cs Hc _ IH]; intros off; [done|].
  simpl. by rewrite fmap_app, Hc, IH.
Qed.

Lemma ranges_spans off t : (ranges off t).*1 = spans t.
Proof.
  revert off. induction t as [|k sp cs IH] using Node_ind2; intros off; [done|].
  rewrite ranges_Inner, spans_Inner, fmap_cons. f_equal.
  by apply ranges_children_spans.
Qed.

Lemma ranges_children_inside off k sp cs :
  Forall (λ c, ∀ o, Forall (inside o (str_len (text c))) (ranges o c)) cs →
  Forall (inside off (str_len (text (Inner k sp cs))))
    (ranges_children ranges off cs).
Proof.
  intros Hcs. revert off. induction Hcs as [|c cs Hc _ IH]; intros off; [done|].
  cbn [ranges_children]. rewrite text_Inner, str_len_app. apply Forall_app. split.
  - eapply list.Forall_impl; [apply Hc|]. unfold inside. intros e. lia.
  - eapply list.Forall_impl; [apply IH|]. unfold inside. intros e. lia.
Qed.

(** Every node of a tree lies in the text of the tree. *)
Lemma ranges_inside off t : Forall (inside off (str_len (text t))) (ranges off t).
Proof.
  revert off. induction t as [k s sp|k sp cs IH] using Node_ind2; intros off.
  { repeat constructor; simpl; lia. }
  rewrite ranges_Inner. constructor; [|by apply ranges_children_inside].
  unfold inside. simpl. lia.
Qed.

(** ** The contract of the boundary *)

Lemma numberize_Some t id within t' :
  numberize t id within = Some t' ↔
  (within.1 + N.of_nat (descendants t) ≤ within.2)%N ∧ t' = number id within.1 t.
Proof.
  unfold numberize. case_decide; [|by split; [|intros [? _]]].
  split; [by intros [= <-]|by intros [_ ->]].
Qed.

Lemma numbered_spans id t :
  numbered id t → ∃ n, spans t = span_seq id n (descendants t).
Proof. intros [n Hn]. exists n. by rewrite <- Hn at 1; rewrite spans_number. Qed.

Lemma numbered_span id t : numbered id t → span_id (span t) = id.
Proof. intros [n <-]. by rewrite span_of_number. Qed.

Lemma char_parse_text s : text (char_parse s) = s.
Proof.
  unfold char_parse. simpl. rewrite list_fmap_bind.
  induction s as [|c s IH]; [done|]. rewrite bind_cons. simpl. by f_equal.
Qed.

#[export] Instance char_grammar : Grammar := {|
  grammar_parse := char_parse;
  grammar_parse_text := char_parse_text;
  grammar_parse_kind _ := eq_refl;
|}.

Lemma kind_synthesize t sp : kind (synthesize t sp) = kind t.
Proof. by destruct t. Qed.

Lemma cast_markup_is_Some t : is_Some (cast_markup t) ↔ kind t = Markup.
Proof.
  unfold cast_markup. case_decide; [by split; [|eexists]|].
  by split; [intros [? ?]|].
Qed.

(** The reparser that never patches keeps its promises: it returns the
    whole text as the range, and no node lies before or after that. *)
Section full.
Context `{Grammar}.

Lemma reparse_number id root text range len :
  numbered id root → is_Some (numberize (grammar_parse text) id Span_FULL) →
  (reparse root text range len).1 = number id 2 (grammar_parse text).
Proof.
  intros Hid%numbered_span [t' Ht']. unfold reparse. simpl.
  rewrite Hid, Ht'. by apply numberize_Some in Ht' as [_ ->].
Qed.

#[export, refine] Instance full_reparser : Reparser := {| reparser := reparse |}.
Proof.
  - intros root id p m q w Hr _ Hn sp. unfold edit_call.
    rewrite (reparse_number id) by done. apply synthesize_number.
  - intros root id p m q w Hr _ Hn. unfold edit_call.
    rewrite (reparse_number id) by done. apply numbered_number.
  - intros root id p m q w _ _ _. simpl. rewrite !str_len_app. lia.
  - intros root id p m q w sp rg _ _ _ _ Hne Hle. simpl in Hle. lia.
  - intros root id p m q w sp rg _ Ht _ Hin Hne Hle. simpl in Hle.
    pose proof (proj1 (list.Forall_forall _ _) (ranges_inside 0 root) _ Hin) as Hi.
    unfold inside in Hi. rewrite Ht in Hi. simpl in Hi.
    rewrite !str_len_app in *. lia.
Defined.

End full.

(** The laws of the boundary, for the trees of a grammar and any
    reparser for it. *)
Section laws.
Context `{Reparser}.

#[export, refine] Instance tree_laws : @ParserLaws tree_parser := {|
  node_text := text : @SyntaxNode tree_parser → str;
  node_spans := spans : @SyntaxNode tree_parser → list Span;
  node_ranges := ranges 0 : @SyntaxNode tree_parser → list (Span * Range);
  Tree.numbered := numbered : FileId → @SyntaxNode tree_parser → Prop;
|}.
Proof.
  - apply grammar_parse_text.
  - intros t. apply cast_markup_is_Some, grammar_parse_kind.
  - intros t sp. apply text_synthesize.
  - intros t sp. simpl. rewrite spans_synthesize. apply list.Forall_forall.
    by intros sp' ->%elem_of_replicate_inv.
  - intros t sp. rewrite !cast_markup_is_Some. by rewrite kind_synthesize.
  - intros t id w t' [_ ->]%numberize_Some sp. apply synthesize_number.
  - intros t id w t' [_ ->]%numberize_Some. apply numbered_number.
  - intros t id w t' [Hw ->]%numberize_Some. apply list.Forall_forall.
    intros sp Hsp. rewrite spans_number in Hsp.
    apply elem_of_span_seq in Hsp. lia.
  - intros id t [n ->]%numbered_spans. apply list.Forall_forall.
    by intros sp [? _]%elem_of_span_seq.
  - intros id t [n ->]%numbered_spans. apply span_seq_NoDup.
  - intros t. apply ranges_spans.
  - intros t. eapply list.Forall_impl; [apply (ranges_inside 0)|].
    unfold inside. intros e. lia.
  - exact reparser_parse.
  - exact reparser_numbered.
  - exact reparser_range.
  - exact reparser_before.
  - exact reparser_after.
  - intros id t sp [n <-]. apply find_number_is_Some.
Defined.

End laws.

(** ** The theorems *)

(** Span numbering.  [numberize] fails exactly when the range has
    fewer numbers than the tree has nodes.  Otherwise the spans of the
    tree it returns, read in pre-order, are the identity of the file with
    the numbers of the range from its start on, one after the other: the
    counter is strictly increasing and covers every node, nested ones
    included; and nothing but spans has changed. *)
Theorem numberize_preorder t id lo hi :
  match numberize t id (lo, hi) with
  | Some t' =>
      (lo + N.of_nat (descendants t) ≤ hi)%N
      ∧ spans t' = span_seq id lo (descendants t)
      ∧ ∀ sp, synthesize t' sp = synthesize t sp
  | None => (hi < lo + N.of_nat (descendants t))%N
  end.
Proof.
  unfold numberize. simpl. case_decide; [|lia].
  split_and!; [done|apply spans_number|intros; apply synthesize_number].
Qed.

(** Lookup by span.  On a numbered tree the search that descends by
    ranges of numbers returns what the search through the whole pre-order
    returns: the node with the span, when the tree has one, and nothing
    for a span of another file or a number no node has. *)
Theorem find_numbered id t target :
  numbered id t → find t target = find_ref t target.
Proof.
  intros [n <-]. destruct target as [id' m].
  destruct (decide (id = id' ∧ (n ≤ m < n + N.of_nat (descendants t))%N))
    as [[<- Hm]|Hn].
  - replace m with (n + N.of_nat (N.to_nat (m - n)))%N by lia.
    by rewrite find_number, find_ref_number.
  - by rewrite find_number_None, find_ref_number_None.
Qed.

(** Ancestors from the order of spans.  In a numbered tree a node
    [b] lies in the subtree of a node [a] exactly when the number of [b]
    is one of the numbers of [a]: at least the number of [a] and less
    than that number plus the number of nodes under [a]. *)
Theorem covers_subtree id t a b :
  numbered id t → a ∈ preorder t → b ∈ preorder t →
  b ∈ preorder a ↔ covers a (span b).
Proof.
  intros [n <-] [i Hi]%list_elem_of_lookup [j Hj]%list_elem_of_lookup.
  pose proof (lookup_preorder_number _ _ _ _ _ Hi) as Ha.
  pose proof (lookup_preorder_number _ _ _ _ _ Hj) as Hb.
  rewrite <- (preorder_subtree _ _ _ Hi). unfold covers. rewrite Ha, Hb. simpl.
  rewrite list_elem_of_lookup. split.
  - intros [k [Hk Hlt]%lookup_take_Some]. rewrite lookup_drop in Hk.
    apply lookup_preorder_number in Hk. rewrite Hb in Hk. simplify_eq.
    split; [done|lia].
  - intros [_ Hr]. exists (j - i). apply lookup_take_Some. split; [|lia].
    rewrite lookup_drop. by replace (i + (j - i)) with j by lia.
Qed.

(** ** Examples *)

(** A tree with a nested subtree, not numbered. *)
Definition example_tree : Node :=
  let d := mkSpan FileId_detached 1 in
  Inner Markup d
    [Leaf Text [0x61]%N d;
     Inner Markup d [Leaf Text [0x62]%N d; Leaf Space [0x20]%N d];
     Leaf Text [0x63]%N d].

Definition example_numbered : Node := number (FileId_of 7) 2 example_tree.

Lemma find_numbered_witness :
  find example_numbered (mkSpan (FileId_of 7) 5)
  = find_ref example_numbered (mkSpan (FileId_of 7) 5).
Proof. apply (find_numbered (FileId_of 7)). by exists 2%N. Defined.

Lemma covers_subtree_witness :
  Leaf Space [0x20]%N (mkSpan (FileId_of 7) 6)
    ∈ preorder (Inner Markup (mkSpan (FileId_of 7) 4)
                  [Leaf Text [0x62]%N (mkSpan (FileId_of 7) 5);
                   Leaf Space [0x20]%N (mkSpan (FileId_of 7) 6)])
  ↔ covers (Inner Markup (mkSpan (FileId_of 7) 4)
              [Leaf Text [0x62]%N (mkSpan (FileId_of 7) 5);
               Leaf Space [0x20]%N (mkSpan (FileId_of 7) 6)])
      (span (Leaf Space [0x20]%N (mkSpan (FileId_of 7) 6))).
Proof.
  apply (covers_subtree (FileId_of 7) example_numbered).
  - by exists 2%N.
  - by apply (list_elem_of_lookup_2 _ 2).
  - by apply (list_elem_of_lookup_2 _ 4).
Defined.

End Syntax.
