(* ===== verification/Reparse.v ===== *)
(** * A reparser that patches leaves

    The boundary to the reparser says that it either patches the affected
    subtree in place and returns the range it recomputed, or asks for a
    full parse.  [Syntax] has the reparser that always asks.  This file
    has one that patches: when the replaced range lies in one leaf of the
    old tree, the leaf gets the bytes of the new text at its place and
    keeps its span, and so does every other node; the range returned is
    that of the leaf.  The patch is kept when the patched tree is the
    tree of the new text, spans apart, which is decided here by comparing
    it with the tree the grammar gives; otherwise the reparser falls back
    to the full parse.

    Theorems: what a patch does to the byte range of every node
    ([patch_ranges]), that it keeps the numbering ([patch_numbered]), and
    the instance [patch_reparser] of the class [Reparser], so that the
    laws of [ParserLaws] hold with this reparser as they do with the
    other. *)

From S2P Require Import Prelude Unicode Tree Syntax.

Module Reparse.
Import Syntax.

(** ** The patch *)

Section patch.
Variables (new : str) (replaced : Range) (len : nat).

(** The first child that can be patched is; the others stay. *)
Section patch_children.
Variable patch : nat → Node → option (Node * Range).

Fixpoint patch_children (off : nat) (cs : list Node)
    : option (list Node * Range) :=
  match cs with
  | [] => None
  | c :: cs' =>
      match patch off c with
      | Some (c', r) => Some (c' :: cs', r)
      | None =>
          '(cs'', r) ← patch_children (off + str_len (text c)) cs';
          Some (c :: cs'', r)
      end
  end.
End patch_children.

(** The tree whose text starts at [off], with the leaf that holds the
    replaced range patched, and the range of that leaf in the new text.
    The leaf is the one in which the range starts; the range must end in
    it, and the bytes of the new text at its place, longer or shorter by
    the change of length, must be a slice of the new text. *)
Fixpoint patch (off : nat) (t : Node) : option (Node * Range) :=
  match t with
  | Leaf k s sp =>
      if decide (off ≤ range_start replaced < off + str_len s
                 ∧ range_start replaced ≤ range_end replaced ≤ off + str_len s)
      then
        s' ← str_get new
               (mkRange off
                  (off + str_len s + len
                   - (range_end replaced - range_start replaced)));
        Some (Leaf k s' sp, mkRange off (off + str_len s'))
      else None
  | Inner k sp cs =>
      '(cs', r) ← patch_children patch off cs;
      Some (Inner k sp cs', r)
  end.

End patch.

(** [reparse(root, text, replaced, replacement_len)]: the patched tree
    when there is one and it is the tree of the new text, else the full
    parse. *)
Definition reparse `{Grammar} (root : Node) (text : str) (replaced : Range)
    (replacement_len : nat) : Node * Range :=
  match patch text replaced replacement_len 0 root with
  | Some (root', range) =>
      if decide (synthesize root' (span root)
                 = synthesize (grammar_parse text) (span root))
      then (root', range)
      else Syntax.reparse root text replaced replacement_len
  | None => Syntax.reparse root text replaced replacement_len
  end.

(** Where a byte offset goes when the [L] bytes of a text become [L']
    by a change after the offset [a]. *)
Definition move (a L L' : nat) (x : nat) : nat :=
  if decide (x ≤ a) then x else x + L' - L.

Definition move_entry (a L L' : nat) (e : Span * Range) : Span * Range :=
  (e.1, mkRange (move a L L' (range_start e.2)) (move a L L' (range_end e.2))).

(** A range moved by [d] bytes. *)
Definition shift (d : nat) (e : Span * Range) : Span * Range :=
  (e.1, mkRange (range_start e.2 + d) (range_end e.2 + d)).

(** ** Lists of children *)

Lemma text_children k sp l l' :
  text (Inner k sp (l ++ l')) = text (Inner k sp l) ++ text (Inner k sp l').
Proof. simpl. apply bind_app. Qed.

Lemma str_len_children k sp l c l' :
  str_len (text (Inner k sp (l ++ c :: l')))
  = str_len (l ≫= text) + str_len (text c) + str_len (l' ≫= text).
Proof. simpl. rewrite bind_app, bind_cons, !str_len_app. lia. Qed.

Lemma ranges_children_app off l l' :
  ranges_children ranges off (l ++ l')
  = ranges_children ranges off l
    ++ ranges_children ranges (off + str_len (l ≫= text)) l'.
Proof.
  revert off. induction l as [|c l IH]; intros off.
  { simpl. by rewrite Nat.add_0_r. }
  cbn [app ranges_children]. rewrite IH, bind_cons, str_len_app, <- app_assoc.
  do 3 f_equal. lia.
Qed.

Lemma number_children_app id n l l' :
  number_children (number id) n (l ++ l')
  = number_children (number id) n l
    ++ number_children (number id)
         (n + N.of_nat (sum_list_with descendants l)) l'.
Proof.
  revert n. induction l as [|c l IH]; intros n.
  { simpl. by rewrite N.add_0_r. }
  cbn [app number_children sum_list_with]. rewrite IH. do 3 f_equal. lia.
Qed.

Lemma length_number_children id n l :
  length (number_children (number id) n l) = length l.
Proof. revert n. induction l as [|c l IH]; intros n; simpl; by rewrite ?IH. Qed.

(** The nodes of a tree at another offset are the same nodes, moved. *)
Lemma ranges_children_shift off d cs :
  Forall (λ c, ∀ o, ranges (o + d) c = shift d <$> ranges o c) cs →
  ranges_children ranges (off + d) cs = shift d <$> ranges_children ranges off cs.
Proof.
  intros Hcs. revert off. induction Hcs as [|c cs Hc _ IH]; intros off; [done|].
  cbn [ranges_children]. rewrite fmap_app, Hc, <- IH. do 2 f_equal. lia.
Qed.

Lemma ranges_shift off d t : ranges (off + d) t = shift d <$> ranges off t.
Proof.
  revert off. induction t as [k s sp|k sp cs IH] using Node_ind2; intros off.
  { simpl. unfold shift. simpl. do 3 f_equal. lia. }
  rewrite !ranges_Inner, fmap_cons, ranges_children_shift by done.
  unfold shift at 2. simpl. do 3 f_equal. lia.
Qed.

(** ** What a patch does *)

Section patch_facts.
Context (new : str) (replaced : Range) (len : nat).
Notation "'patch'" := (patch new replaced len) (only parsing).

(** The children of a patched node: one of them is patched. *)
Lemma patch_children_Some off cs cs' r :
  patch_children patch off cs = Some (cs', r) →
  ∃ l c c' l', cs = l ++ c :: l' ∧ cs' = l ++ c' :: l'
               ∧ patch (off + str_len (l ≫= text)) c = Some (c', r).
Proof.
  revert off cs'. induction cs as [|c cs IH]; intros off cs' Hp; [done|].
  cbn [patch_children] in Hp. destruct (patch off c) as [[c' r']|] eqn:Hc.
  - injection Hp as <- <-. exists [], c, c', cs. simpl. by rewrite Nat.add_0_r.
  - destruct (patch_children patch _ cs) as [[cs'' r']|] eqn:Hcs; [|done].
    injection Hp as <- <-. destruct (IH _ _ Hcs) as (l & d & d' & l' & -> & -> & Hd).
    exists (c :: l), d, d', l'. split_and!; [done..|].
    by rewrite bind_cons, str_len_app, Nat.add_assoc.
Qed.

Lemma patch_Inner off k sp cs t' r :
  patch off (Inner k sp cs) = Some (t', r) →
  ∃ l c c' l', cs = l ++ c :: l' ∧ t' = Inner k sp (l ++ c' :: l')
               ∧ patch (off + str_len (l ≫= text)) c = Some (c', r).
Proof.
  cbn [Reparse.patch]. intros Hp.
  destruct (patch_children patch off cs) as [[cs' r']|] eqn:Hcs; [|done].
  injection Hp as <- <-.
  destruct (patch_children_Some _ _ _ _ Hcs) as (l & c & c' & l' & -> & -> & Hc).
  by exists l, c, c', l'.
Qed.

Lemma patch_Leaf off k s sp t' r :
  patch off (Leaf k s sp) = Some (t', r) →
  ∃ s', t' = Leaf k s' sp ∧ r = mkRange off (off + str_len s')
        ∧ off ≤ range_start replaced < off + str_len s
        ∧ range_start replaced ≤ range_end replaced ≤ off + str_len s
        ∧ off + str_len s' + (range_end replaced - range_start replaced)
          = off + str_len s + len
        ∧ off + str_len s' ≤ str_len new.
Proof.
  cbn [Reparse.patch]. case_decide as Hd; [|done].
  destruct (str_get new _) as [s'|] eqn:Hs; [|done]. intros [= <- <-].
  apply str_get_spec in Hs as (p & q & -> & Hp & Hq). simpl in *.
  exists s'. split_and!; [done|done|lia..| |]; rewrite ?str_len_app; lia.
Qed.

(** A patch keeps the kind, the number of nodes and the numbering. *)
Lemma patch_kind off t t' r : patch off t = Some (t', r) → kind t' = kind t.
Proof.
  destruct t as [k s sp|k sp cs]; intros Hp.
  - by apply patch_Leaf in Hp as (s' & -> & _).
  - by apply patch_Inner in Hp as (l & c & c' & l' & _ & -> & _).
Qed.

Lemma patch_descendants off t t' r :
  patch off t = Some (t', r) → descendants t' = descendants t.
Proof.
  revert off t'. induction t as [k s sp|k sp cs IH] using Node_ind2;
    intros off t' Hp.
  { by apply patch_Leaf in Hp as (s' & -> & _). }
  apply patch_Inner in Hp as (l & c & c' & l' & -> & -> & Hc).
  apply list.Forall_app in IH as [_ [IHc _]%list.Forall_cons].
  simpl. rewrite !sum_list_with_app. simpl. by rewrite (IHc _ _ Hc).
Qed.

Lemma patch_numbered off t t' r id n :
  patch off t = Some (t', r) → number id n t = t → number id n t' = t'.
Proof.
  revert off t' n. induction t as [k s sp|k sp cs IH] using Node_ind2;
    intros off t' n Hp Hn.
  { apply patch_Leaf in Hp as (s' & -> & _). simpl in *. congruence. }
  apply patch_Inner in Hp as (l & c & c' & l' & -> & -> & Hc).
  apply list.Forall_app in IH as [_ [IHc _]%list.Forall_cons].
  rewrite number_Inner in *. injection Hn as Hsp Hcs. f_equal; [done|].
  rewrite number_children_app in *. cbn [number_children] in *.
  apply app_inj_1 in Hcs as [Hl [= Hd Hl']];
    [|apply length_number_children].
  by rewrite Hl, (IHc _ _ _ Hc Hd), (patch_descendants _ _ _ _ Hc), Hl'.
Qed.

(** The range a patch returns: it starts in the tree, at or before the
    start of the replaced range; it holds the replacement and lies in
    the new text; and the leaf that was patched had text. *)
Lemma patch_range off t t' r :
  patch off t = Some (t', r) →
  (off ≤ range_start r ≤ range_start replaced
   ∧ range_start replaced < off + str_len (text t))
  ∧ range_start replaced + len ≤ range_end r ≤ str_len new
  ∧ range_start r + len
    < range_end r + (range_end replaced - range_start replaced).
Proof.
  revert off t'. induction t as [k s sp|k sp cs IH] using Node_ind2;
    intros off t' Hp.
  { apply patch_Leaf in Hp as (s' & -> & -> & ?). simpl. lia. }
  apply patch_Inner in Hp as (l & c & c' & l' & -> & -> & Hc).
  apply list.Forall_app in IH as [_ [IHc _]%list.Forall_cons].
  specialize (IHc _ _ Hc). rewrite str_len_children. lia.
Qed.

End patch_facts.

(** ** The ranges of a patched tree *)

Lemma move_ext a L1 L1' L2 L2' x :
  L1' + L2 = L2' + L1 → move a L1 L1' x = move a L2 L2' x.
Proof. unfold move. case_decide; lia. Qed.

Lemma move_entry_ext a L1 L1' L2 L2' (es : list (Span * Range)) :
  L1' + L2 = L2' + L1 → move_entry a L1 L1' <$> es = move_entry a L2 L2' <$> es.
Proof.
  intros HL. apply list_fmap_ext. intros _ e _. unfold move_entry.
  by rewrite !(move_ext a L1 L1' L2 L2').
Qed.

(** The nodes that end before the change stay where they are. *)
Lemma move_entry_before a L L' off n es :
  Forall (inside off n) es → off + n ≤ a → move_entry a L L' <$> es = es.
Proof.
  intros Hes Ha. rewrite <- (list_fmap_id es) at 2.
  apply Forall_fmap_ext_1. eapply list.Forall_impl; [done|].
  intros [sp [x y]] (? & ? & ?). unfold move_entry, move. simpl in *.
  by rewrite !decide_True by lia.
Qed.

(** The nodes that start after the change move with the text. *)
Lemma move_entry_shift a L L' off (es : list (Span * Range)) :
  a < off + L →
  move_entry a L L' <$> (shift (off + L) <$> es) = shift (off + L') <$> es.
Proof.
  intros Ha. rewrite <- list_fmap_compose. apply list_fmap_ext.
  intros _ [sp [x y]] _. unfold move_entry, shift, move. simpl.
  rewrite !decide_False by lia. do 2 f_equal; lia.
Qed.

Lemma ranges_children_at off cs :
  ranges_children ranges off cs = shift off <$> ranges_children ranges 0 cs.
Proof.
  apply (ranges_children_shift 0 off cs), Forall_true. intros c o.
  apply ranges_shift.
Qed.

Lemma ranges_children_moved a L L' off cs :
  a < off + L →
  ranges_children ranges (off + L') cs
  = move_entry a L L' <$> ranges_children ranges (off + L) cs.
Proof.
  intros Ha. rewrite (ranges_children_at (off + L')), (ranges_children_at (off + L)).
  by rewrite move_entry_shift.
Qed.

(** The ranges of a patched tree: every node has its span; the nodes
    before the patched leaf have their ranges, the nodes after it have
    moved by the change of length, and the leaf and the nodes above it
    have grown or shrunk by it. *)
Lemma patch_ranges new replaced len off t t' r :
  patch new replaced len off t = Some (t', r) →
  ranges off t'
  = move_entry (range_start r) (str_len (text t)) (str_len (text t'))
      <$> ranges off t.
Proof.
  revert off t'. induction t as [k s sp|k sp cs IH] using Node_ind2;
    intros off t' Hp.
  { apply patch_Leaf in Hp as (s' & -> & -> & ? & _). simpl.
    unfold move_entry, move. simpl.
    rewrite decide_True, decide_False by lia. do 3 f_equal. lia. }
  apply patch_Inner in Hp as (l & c & c' & l' & -> & -> & Hc).
  apply list.Forall_app in IH as [_ [IHc _]%list.Forall_cons].
  pose proof (patch_range _ _ _ _ _ _ _ Hc) as [Ha _].
  pose proof (str_len_children k sp l c l') as HL.
  pose proof (str_len_children k sp l c' l') as HL'.
  rewrite !ranges_Inner, !ranges_children_app, fmap_cons, !fmap_app.
  cbn [ranges_children]. rewrite !fmap_app. f_equal; [|f_equal; [|f_equal]].
  - unfold move_entry, move. simpl in *.
    rewrite decide_True, decide_False by lia. do 2 f_equal. lia.
  - symmetry. eapply move_entry_before; [|exact (proj1 (proj1 Ha))].
    apply (ranges_children_inside off k sp), Forall_true.
    intros d o. apply ranges_inside.
  - rewrite (IHc _ _ Hc). apply move_entry_ext. lia.
  - rewrite (move_entry_ext _ _ _ (str_len (text c)) (str_len (text c'))) by lia.
    apply ranges_children_moved. lia.
Qed.

(** ** The reparser keeps its promises *)

(** Every node of a patched tree has the span it had. *)
Lemma patch_spans new replaced len off t t' r :
  patch new replaced len off t = Some (t', r) → spans t' = spans t.
Proof.
  intros Hp. rewrite <- (ranges_spans off t'), <- (ranges_spans off t).
  rewrite (patch_ranges _ _ _ _ _ _ _ Hp), <- list_fmap_compose.
  by apply list_fmap_ext.
Qed.

(** A node with text that ends before the patched leaf is where it
    was. *)
Lemma patched_before new replaced len root root' r sp rg :
  patch new replaced len 0 root = Some (root', r) →
  (sp, rg) ∈ ranges 0 root → range_start rg < range_end rg →
  range_end rg ≤ range_start r →
  (sp, rg) ∈ ranges 0 root'.
Proof.
  intros Hp Hin Hne Hle. rewrite (patch_ranges _ _ _ _ _ _ _ Hp).
  apply (list_elem_of_fmap_2' _ _ (sp, rg)); [done|].
  unfold move_entry, move. simpl. rewrite !decide_True by lia. by destruct rg.
Qed.

(** A node that starts after the patched leaf has moved by the change
    of length. *)
Lemma patched_after p m q w root root' r sp rg :
  patch (p ++ w ++ q) (mkRange (str_len p) (str_len p + str_len m)) (str_len w)
    0 root = Some (root', r) →
  text root = p ++ m ++ q → text root' = p ++ w ++ q →
  (sp, rg) ∈ ranges 0 root → range_start rg < range_end rg →
  range_end r + str_len m ≤ range_start rg + str_len w →
  (sp, range_moved rg m w) ∈ ranges 0 root'.
Proof.
  intros Hp Ht Ht' Hin Hne Hle. rewrite (patch_ranges _ _ _ _ _ _ _ Hp).
  apply (list_elem_of_fmap_2' _ _ (sp, rg)); [done|].
  apply patch_range in Hp as (_ & _ & Hlt). simpl in Hlt.
  rewrite Ht, Ht'. unfold move_entry, move, range_moved. simpl.
  rewrite !decide_False, !str_len_app by lia. do 2 f_equal; lia.
Qed.

Section reparser.
Context `{Grammar}.

(** What holds of the full parse and of every patch that is the tree
    of the new text holds of what the reparser returns. *)
Lemma reparse_either (P : Node * Range → Prop) root text replaced len :
  P (Syntax.reparse root text replaced len) →
  (∀ root' r,
     patch text replaced len 0 root = Some (root', r) →
     (∀ sp, synthesize root' sp = synthesize (grammar_parse text) sp) →
     P (root', r)) →
  P (reparse root text replaced len).
Proof.
  intros Hfull Hpatch. unfold reparse.
  destruct (patch _ _ _ 0 root) as [[root' r]|] eqn:Hp; [|done].
  case_decide as Hs; [|done]. apply Hpatch; [done|].
  intros sp. by eapply synthesize_eq.
Qed.

(** A patched tree that is the tree of the new text spans the new
    text. *)
Lemma patched_text root' text :
  (∀ sp, synthesize root' sp = synthesize (grammar_parse text) sp) →
  Syntax.text root' = text.
Proof.
  intros Hs. rewrite <- (text_synthesize root' (mkSpan FileId_detached 0)), Hs.
  by rewrite text_synthesize, grammar_parse_text.
Qed.

Ltac reparse_either :=
  unfold edit_call;
  match goal with
  | |- context [reparse ?root ?text ?replaced ?len] =>
      pattern (reparse root text replaced len); apply reparse_either;
      [|intros root' r Hp Hs; simpl]
  end.

#[export, refine] Instance patch_reparser : Reparser := {| reparser := reparse |}.
Proof.
  - intros root id p m q w Hr Ht Hn sp. reparse_either; [|apply Hs].
    by apply (reparser_parse (Reparser := full_reparser) root id p m q w).
  - intros root id p m q w Hr Ht Hn. reparse_either.
    + by apply (reparser_numbered (Reparser := full_reparser) root id p m q w).
    + destruct Hr as [n Hr]. exists n. by eapply patch_numbered.
  - intros root id p m q w Hr Ht Hn. reparse_either.
    + by apply (reparser_range (Reparser := full_reparser) root id p m q w).
    + apply patch_range in Hp. simpl in *. lia.
  - intros root id p m q w sp rg Hr Ht Hn Hin Hne. reparse_either.
    + by apply (reparser_before (Reparser := full_reparser) root id p m q w).
    + intros Hle. by eapply patched_before.
  - intros root id p m q w sp rg Hr Ht Hn Hin Hne. reparse_either.
    + by apply (reparser_after (Reparser := full_reparser) root id p m q w).
    + intros Hle. eapply patched_after; [done..|by apply patched_text|done|done|done].
Defined.

End reparser.

End Reparse.
