(* ===== verification/Source.v ===== *)
(** * Source files

    [Repr] and every method of [impl Source] in [source.rs], each after
    the methods it calls.  [Source] is [Arc<Repr>]; sharing does not change what a
    method computes (the file [Sharing] proves it on a store of shared
    cells), so a source is modelled as its [Repr] and a method that
    takes [&mut self] returns the new [Repr].  A method that can panic
    returns an [outcome]: when it panics no new state is returned.  The
    fields are [repr_id], [repr_text], [repr_root] and [repr_lines]; the
    methods keep their names inside the module [Source].  [fmt] is
    [impl Debug]: the text it writes. *)

From S2P Require Import Prelude Unicode Search Scanner Lines Tree.

Module Source.
Section methods.
Context `{Newlines} `{Parser}.

(** The internal representation. *)
Record Repr : Type := mkRepr {
  repr_id : FileId;
  repr_text : str;
  repr_root : SyntaxNode;
  repr_lines : list Line;
}.

(** [SourceResult<Markup>]: the markup or the errors of the tree. *)
Inductive SourceResult : Type :=
| Ok (m : Markup)
| Err (errs : list SyntaxError).

(** Create a new source file. *)
Definition new (id : FileId) (text : str) : outcome Repr :=
  root ← unwrap (numberize (parse text) id Span_FULL);
  Val (mkRepr id text root (lines text)).

(** Create a source file without a real id and path, usually for testing. *)
Definition detached (text : str) : outcome Repr :=
  new FileId_detached text.

(** Create a source file with the same synthetic span for all nodes. *)
Definition synthesized (text : str) (span : Span) : Repr :=
  let root := synthesize (parse text) span in
  mkRepr FileId_detached text root (lines text).

(** The root node of the file's untyped syntax tree. *)
Definition root (s : Repr) : SyntaxNode := repr_root s.

(** The root node of the file's typed abstract syntax tree. *)
Definition ast (s : Repr) : outcome SourceResult :=
  let errs := errors (root s) in
  match errs with
  | [] => m ← unwrap (cast_markup (root s)); Val (Ok m)
  | _ => Val (Err errs)
  end.

(** The id of the source file. *)
Definition id (s : Repr) : FileId := repr_id s.

(** The whole source as a string slice. *)
Definition text (s : Repr) : str := repr_text s.

(** Slice out the part of the source code enclosed by the range. *)
Definition get (s : Repr) (range : Range) : option str :=
  str_get (text s) range.

(** Fully replace the source text. *)
Definition replace (s : Repr) (text : str) : outcome Repr :=
  let lines' := lines text in
  root ← unwrap (numberize (parse text) (repr_id s) Span_FULL);
  Val (mkRepr (repr_id s) text root lines').

(** Return the byte position at which the given line starts. *)
Definition line_to_byte (s : Repr) (line_idx : nat) : option nat :=
  byte_idx <$> repr_lines s !! line_idx.

(** Return the index of the line that contains the given byte index. *)
Definition byte_to_line (s : Repr) (byte_idx : nat) : outcome (option nat) :=
  if decide (byte_idx ≤ str_len (repr_text s)) then
    match binary_search_by_key Lines.byte_idx (repr_lines s) byte_idx with
    | Found i => Val (Some i)
    | NotFound i => i' ← checked_sub i 1; Val (Some i')
    end
  else Val None.

(** Return the index of the UTF-16 code unit at the byte index. *)
Definition byte_to_utf16 (s : Repr) (byte_idx : nat) : outcome (option nat) :=
  line_idx ←? byte_to_line s byte_idx;
  line ←? lift_opt (repr_lines s !! line_idx);
  head ←? lift_opt (str_get (repr_text s) (mkRange (Lines.byte_idx line) byte_idx));
  Val (Some (utf16_idx line + str_len_utf16 head)).

(** Return the index of the column at the byte index: the number of
    characters in the line before the byte index. *)
Definition byte_to_column (s : Repr) (byte_idx : nat) : outcome (option nat) :=
  line ←? byte_to_line s byte_idx;
  start ←? lift_opt (line_to_byte s line);
  head ←? lift_opt (get s (mkRange start byte_idx));
  Val (Some (chars_count head)).

(** The [for] loop of [utf16_to_byte] over [char_indices]: an early return
    with a byte offset, or the count reached at the end of the text. *)
Fixpoint utf16_to_byte_loop (utf16_idx line_byte k : nat)
    (cs : list (nat * char)) : nat + nat :=
  match cs with
  | [] => inr k
  | (i, c) :: cs' =>
      if decide (utf16_idx ≤ k) then inl (line_byte + i)
      else utf16_to_byte_loop utf16_idx line_byte (k + len_utf16 c) cs'
  end.

(** Return the byte index at the UTF-16 code unit. *)
Definition utf16_to_byte (s : Repr) (utf16_idx : nat) : outcome (option nat) :=
  idx ← match binary_search_by_key Lines.utf16_idx (repr_lines s) utf16_idx with
        | Found i => Val i
        | NotFound i => checked_sub i 1
        end;
  line ←? lift_opt (repr_lines s !! idx);
  tail ← str_index_from (repr_text s) (byte_idx line);
  match utf16_to_byte_loop utf16_idx (byte_idx line) (Lines.utf16_idx line)
          (char_indices tail) with
  | inl b => Val (Some b)
  | inr k => Val (bool_then (bool_decide (k = utf16_idx)) (str_len (repr_text s)))
  end.

(** Return the range which encloses the given line. *)
Definition line_to_range (s : Repr) (line_idx : nat) : option Range :=
  start ← line_to_byte s line_idx;
  let end_ := default (str_len (repr_text s)) (line_to_byte s (line_idx + 1)) in
  Some (mkRange start end_).

(** Return the byte index of the given (line, column) pair: the column is
    the number of characters to go beyond the start of the line. *)
Definition line_column_to_byte (s : Repr) (line_idx column_idx : nat) : option nat :=
  range ← line_to_range s line_idx;
  line ← get s range;
  let chars := drop column_idx line in
  Some (range_start range + (str_len line - str_len chars)).

(** Get the length of the file in UTF-8 encoded bytes. *)
Definition len_bytes (s : Repr) : nat := str_len (text s).

(** Get the length of the file in UTF-16 code units. *)
Definition len_utf16 (s : Repr) : outcome nat :=
  last ← unwrap (list.last (repr_lines s));
  tail ← str_index_from (repr_text s) (byte_idx last);
  Val (utf16_idx last + str_len_utf16 tail).

(** Get the length of the file in lines. *)
Definition len_lines (s : Repr) : nat := length (repr_lines s).

(** Find the node with the given span. *)
Definition find (s : Repr) (span : Span) : option LinkedNode :=
  linked_find (root s) span.

(** Edit the source file by replacing the given range.  Returns the new
    state and the range in the new source that was ultimately reparsed;
    panics if the range is out of bounds. *)
Definition edit (s : Repr) (replace : Range) (with_ : str) : outcome (Repr * Range) :=
  let start_byte := range_start replace in
  start_utf16 ← byte_to_utf16 s start_byte ≫= unwrap;
  line ← byte_to_line s start_byte ≫= unwrap;
  (* Update the text itself. *)
  text' ← replace_range (repr_text s) replace with_;
  (* Remove invalidated line starts. *)
  let lines1 := truncate (line + 1) (repr_lines s) in
  (* Handle adjoining of \r and \n. *)
  head ← str_index_to text' start_byte;
  let lines2 :=
    if ends_with head CR && starts_with with_ LF then pop lines1 else lines1 in
  (* Recalculate the line starts after the edit. *)
  tail ← str_index_from text' start_byte;
  let lines3 := lines2 ++ lines_from start_byte start_utf16 tail in
  (* Incrementally reparse the replaced range. *)
  let '(root', range) := reparse (repr_root s) text' replace (str_len with_) in
  Val (mkRepr (repr_id s) text' root' lines3, range).

(** [impl Hash for Source]: what is fed to the hasher, in order: the id,
    the text and the root, not the line table. *)
Definition hash (s : Repr) : FileId * str * SyntaxNode :=
  (repr_id s, repr_text s, repr_root s).

(** [impl AsRef<str> for Source]. *)
Definition as_ref (s : Repr) : str := repr_text s.

(** [impl Debug for Source]: what [fmt] writes to the formatter, after
    what the formatter holds: ["Source("], the path of the file, [")"]. *)
Definition fmt `{Files} (s : Repr) (f : str) : str :=
  f ++ [0x53; 0x6f; 0x75; 0x72; 0x63; 0x65; 0x28]%N ++ path_display (id s)
    ++ [0x29]%N.

End methods.
End Source.
