(* ===== verification/SourceSpec.v ===== *)
(** * What the queries of a source file compute

    The invariant of a source file (its line table is the table of its
    text) and, under it, the meaning of every position query in terms of
    the text alone: which line owns a byte, the UTF-16 offset and the column
    of a byte, the byte of a UTF-16 offset and of a line and column, with
    the round trips between them, the bounds of the results, the absence
    of panics, and the number of line records the search of
    [byte_to_line] reads. *)

From S2P Require Import Prelude Unicode Search Scanner Lines Tree Source.

Section spec.
Context `{Newlines} `{Parser}.
Implicit Types (s : Source.Repr) (b k i : nat) (ln : Line).

(** The line table of [s] is the table of its text. *)
Definition consistent (s : Source.Repr) : Prop :=
  Source.repr_lines s = lines (Source.repr_text s).

(** The reference for [utf16_to_byte]: the same scan, from the start of the
    text. *)
Definition utf16_to_byte_ref (text : str) (k : nat) : option nat :=
  match Source.utf16_to_byte_loop k 0 0 (char_indices text) with
  | inl b => Some b
  | inr k' => bool_then (bool_decide (k' = k)) (str_len text)
  end.

(** [byte_to_line] with the number of line records its search reads. *)
Definition byte_to_line_counted s (byte_idx : nat) : outcome (option nat) * nat :=
  if decide (byte_idx ≤ str_len (Source.repr_text s)) then
    let r := binary_search_probes Lines.byte_idx (Source.repr_lines s) byte_idx in
    (match r.1 with
     | Found i => Val (Some i)
     | NotFound i => i' ← checked_sub i 1; Val (Some i')
     end, r.2)
  else (Val None, 0).

Lemma consistent_table_ok s : consistent s → table_ok (Source.repr_lines s).
Proof. intros ->. apply lines_table_ok. Qed.

Lemma consistent_line_at s i ln :
  consistent s → Source.repr_lines s !! i = Some ln →
  line_at (Source.repr_text s) ln.
Proof.
  intros Hc Hi. rewrite Hc in Hi.
  by eapply (proj1 (Forall_lookup _ _) (lines_line_at _)).
Qed.

(** ** [byte_to_line] *)

(** A byte index past the end of the text has no line. *)
Lemma byte_to_line_out_of_bounds s b :
  str_len (Source.repr_text s) < b → Source.byte_to_line s b = Val None.
Proof. intros. unfold Source.byte_to_line. rewrite decide_False; [done|lia]. Qed.

(** On a well-formed table the search never reports index zero as a
    failure, so the subtraction does not overflow, and the line returned
    owns the byte index. *)
Lemma byte_to_line_owner s b :
  table_ok (Source.repr_lines s) → b ≤ str_len (Source.repr_text s) →
  ∃ i, Source.byte_to_line s b = Val (Some i)
       ∧ owner byte_idx (Source.repr_lines s) b i.
Proof.
  intros (Hh & Hs & _) Hb. unfold Source.byte_to_line. rewrite decide_True by done.
  pose proof (binary_search_owner byte_idx _ b _ Hs Hh (Nat.le_0_l b)) as Ho.
  destruct (binary_search_by_key _ _ _) as [i|i]; [by exists i|].
  destruct Ho as [Hi Ho]. exists (i - 1). by rewrite checked_sub_val by lia.
Qed.

(** The owner of a byte index of the text, with the prefix of the text it
    stands for: every query that starts from [byte_to_line] continues from
    here. *)
Lemma byte_to_line_prefix s b :
  consistent s → b ≤ str_len (Source.repr_text s) →
  ∃ i ln pl rl,
    Source.byte_to_line s b = Val (Some i)
    ∧ owner byte_idx (Source.repr_lines s) b i
    ∧ Source.repr_lines s !! i = Some ln
    ∧ Source.repr_text s = pl ++ rl
    ∧ byte_idx ln = str_len pl ∧ utf16_idx ln = str_len_utf16 pl
    ∧ str_len pl ≤ b.
Proof.
  intros Hc Hb.
  destruct (byte_to_line_owner s b) as (i & Hi & Ho); auto using consistent_table_ok.
  pose proof Ho as [(ln & Hln & Hle) _].
  destruct (consistent_line_at s i ln Hc Hln) as (pl & rl & Ht & Hbl & Hul).
  exists i, ln, pl, rl. split_and!; try done. lia.
Qed.

(** The start of a line is on that line. *)
Lemma byte_to_line_start s i ln :
  consistent s → Source.repr_lines s !! i = Some ln →
  Source.byte_to_line s (byte_idx ln) = Val (Some i).
Proof.
  intros Hc Hi. destruct (consistent_line_at s i ln Hc Hi) as (p & r & Ht & Hb & _).
  destruct (consistent_table_ok s Hc) as (Hh & Hs & Hu).
  destruct (byte_to_line_owner s (byte_idx ln)) as (j & Hj & Ho);
    [done|rewrite Ht, Hb, str_len_app; lia|].
  rewrite Hj. do 2 f_equal. apply (owner_unique byte_idx _ _ j i Hs Ho).
  split; [by exists ln|]. intros k x Hk Hle. apply (Hs i k ln x); [done..|lia].
Qed.

(** ** [byte_to_utf16] *)

(** The UTF-16 offset of a byte index is the UTF-16 length of the text
    before it; it is absent when the index is not the end of a prefix of the
    text, that is past the end or inside a character. *)
Lemma byte_to_utf16_spec s b :
  consistent s →
  Source.byte_to_utf16 s b
  = Val ((λ pr, str_len_utf16 pr.1) <$> split_at_byte (Source.repr_text s) b).
Proof.
  intros Hc. unfold Source.byte_to_utf16.
  destruct (decide (b ≤ str_len (Source.repr_text s))) as [Hb|Hb].
  - destruct (byte_to_line_prefix s b Hc Hb)
      as (i & ln & pl & rl & -> & _ & Hln & -> & Hbl & Hul & Hle). simpl.
    rewrite Hln. simpl.
    rewrite Hbl, Hul, str_get_from, decide_True, split_at_byte_app_r by done.
    destruct (split_at_byte rl _) as [[m r]|]; simpl; [|done].
    by rewrite str_len_utf16_app.
  - rewrite byte_to_line_out_of_bounds, split_at_byte_gt by lia. done.
Qed.

(** A prefix of the text is mapped to its UTF-16 length. *)
Lemma byte_to_utf16_prefix s p r :
  consistent s → Source.repr_text s = p ++ r →
  Source.byte_to_utf16 s (str_len p) = Val (Some (str_len_utf16 p)).
Proof. intros Hc Ht. by rewrite byte_to_utf16_spec, Ht, split_at_byte_app. Qed.

(** The UTF-16 offset of a byte index never exceeds the byte index. *)
Theorem byte_to_utf16_le s b u :
  consistent s → Source.byte_to_utf16 s b = Val (Some u) → u ≤ b.
Proof.
  intros Hc. rewrite byte_to_utf16_spec by done.
  destruct (split_at_byte _ b) as [[p r]|] eqn:Hs; [|done].
  apply split_at_byte_Some in Hs as [_ <-]. intros [= <-].
  apply str_len_utf16_le.
Qed.

(** ** [byte_to_column] *)

(** The column of a byte index is the number of characters between the
    start of its line and the index. *)
Lemma byte_to_column_spec s b :
  consistent s → b ≤ str_len (Source.repr_text s) →
  ∃ i pl rl,
    Source.byte_to_line s b = Val (Some i)
    ∧ Source.line_to_byte s i = Some (str_len pl)
    ∧ Source.repr_text s = pl ++ rl
    ∧ Source.byte_to_column s b
      = Val ((λ mr, chars_count mr.1) <$> split_at_byte rl (b - str_len pl)).
Proof.
  intros Hc Hb.
  destruct (byte_to_line_prefix s b Hc Hb)
    as (i & ln & pl & rl & Hi & _ & Hln & Ht & Hbl & _ & Hle).
  exists i, pl, rl. unfold Source.byte_to_column, Source.line_to_byte, Source.get,
    Source.text.
  rewrite Hi, Ht. simpl. rewrite Hln. simpl.
  rewrite Hbl, str_get_from, decide_True by done.
  split_and!; try done. by destruct (split_at_byte rl _) as [[m r]|].
Qed.

(** The column of a byte index never exceeds the byte index. *)
Theorem byte_to_column_le s b c :
  consistent s → Source.byte_to_column s b = Val (Some c) → c ≤ b.
Proof.
  intros Hc Hcol. destruct (decide (b ≤ str_len (Source.repr_text s))) as [Hb|Hb].
  - destruct (byte_to_column_spec s b Hc Hb) as (i & pl & rl & _ & _ & _ & Heq).
    rewrite Heq in Hcol.
    destruct (split_at_byte rl _) as [[m r]|] eqn:Hs; simplify_eq/=.
    apply split_at_byte_Some in Hs as [_ Hm]. pose proof (chars_count_le m). lia.
  - unfold Source.byte_to_column in Hcol.
    by rewrite byte_to_line_out_of_bounds in Hcol by lia.
Qed.

(** ** [utf16_to_byte] *)

(** The loop passes over a stretch of text whose UTF-16 end is at most the
    target. *)
Lemma utf16_loop_skip k base k0 i0 (m r : str) :
  k0 + str_len_utf16 m ≤ k →
  Source.utf16_to_byte_loop k base k0 (char_indices_from i0 (m ++ r))
  = Source.utf16_to_byte_loop k base (k0 + str_len_utf16 m)
      (char_indices_from (i0 + str_len m) r).
Proof.
  revert k0 i0. induction m as [|c m IH]; intros k0 i0 Hle.
  - by rewrite str_len_nil, str_len_utf16_nil, !Nat.add_0_r.
  - rewrite str_len_utf16_cons in Hle. pose proof (len_utf16_pos c). simpl.
    rewrite decide_False, IH by lia.
    by rewrite str_len_cons, str_len_utf16_cons, !Nat.add_assoc.
Qed.

(** The loop returns at the first character it meets once the count has
    reached the target. *)
Lemma utf16_loop_hit k base k0 i0 c (r : str) :
  k ≤ k0 →
  Source.utf16_to_byte_loop k base k0 (char_indices_from i0 (c :: r))
  = inl (base + i0).
Proof. intros. simpl. by rewrite decide_True. Qed.

(** Offsets of [char_indices] can be moved into the base. *)
Lemma utf16_loop_shift k base k0 i0 (t : str) :
  Source.utf16_to_byte_loop k base k0 (char_indices_from i0 t)
  = Source.utf16_to_byte_loop k (base + i0) k0 (char_indices t).
Proof.
  unfold char_indices. revert base k0 i0.
  induction t as [|c t IH]; intros base k0 i0; [done|].
  simpl. case_decide; [f_equal; lia|].
  rewrite IH, (IH (base + i0) _ (len_utf8 c)). f_equal. lia.
Qed.

(** On a well-formed table the search by UTF-16 offset finds an owner and
    the subtraction does not overflow. *)
Lemma utf16_search_owner s k :
  table_ok (Source.repr_lines s) →
  ∃ i, match binary_search_by_key utf16_idx (Source.repr_lines s) k with
       | Found i => Val i
       | NotFound i => checked_sub i 1
       end = Val i
       ∧ owner utf16_idx (Source.repr_lines s) k i.
Proof.
  intros (Hh & _ & Hs).
  pose proof (binary_search_owner utf16_idx _ k _ Hs Hh (Nat.le_0_l k)) as Ho.
  destruct (binary_search_by_key _ _ _) as [i|i]; [by exists i|].
  destruct Ho as [Hi Ho]. exists (i - 1). by rewrite checked_sub_val by lia.
Qed.

(** The binary search only chooses where the scan starts: the result is
    that of the scan from the start of the text. *)
Lemma utf16_to_byte_ref_eq s k :
  consistent s →
  Source.utf16_to_byte s k = Val (utf16_to_byte_ref (Source.repr_text s) k).
Proof.
  intros Hc. unfold Source.utf16_to_byte, utf16_to_byte_ref.
  destruct (utf16_search_owner s k) as (i & -> & [(ln & Hln & Hle) _]);
    auto using consistent_table_ok.
  simpl. rewrite Hln. simpl.
  destruct (consistent_line_at s i ln Hc Hln) as (pl & rl & Ht & Hbl & Hul).
  rewrite Ht, Hbl, Hul, str_index_from_app in *. simpl.
  unfold char_indices at 2. rewrite utf16_loop_skip by (simpl; lia).
  rewrite utf16_loop_shift. simpl.
  by destruct (Source.utf16_to_byte_loop _ _ _ _).
Qed.

(** The scan finds the end of a prefix from its UTF-16 length. *)
Lemma utf16_to_byte_ref_prefix (p r : str) :
  utf16_to_byte_ref (p ++ r) (str_len_utf16 p) = Some (str_len p).
Proof.
  unfold utf16_to_byte_ref, char_indices. rewrite utf16_loop_skip by (simpl; lia).
  destruct r as [|c r]; simpl.
  - by rewrite bool_decide_eq_true_2, app_nil_r.
  - by rewrite decide_True.
Qed.

(** A UTF-16 offset that falls between the two units of a character is
    rounded up to the next character when one follows. *)
Lemma utf16_to_byte_ref_inside (p r : str) (c d : char) :
  len_utf16 c = 2 →
  utf16_to_byte_ref (p ++ c :: d :: r) (str_len_utf16 p + 1)
  = Some (str_len p + len_utf8 c).
Proof.
  intros Hc. unfold utf16_to_byte_ref, char_indices.
  rewrite utf16_loop_skip by (simpl; lia). simpl.
  rewrite decide_False, decide_True by lia. done.
Qed.

(** The same offset is absent when the character is the last one. *)
Lemma utf16_to_byte_ref_inside_last (p : str) (c : char) :
  len_utf16 c = 2 →
  utf16_to_byte_ref (p ++ [c]) (str_len_utf16 p + 1) = None.
Proof.
  intros Hc. unfold utf16_to_byte_ref, char_indices.
  rewrite utf16_loop_skip by (simpl; lia). simpl.
  rewrite decide_False, bool_decide_eq_false_2 by lia. done.
Qed.

(** A result of the scan is at most the length of the text. *)
Lemma utf16_to_byte_ref_le (text : str) k b :
  utf16_to_byte_ref text k = Some b → b ≤ str_len text.
Proof.
  unfold utf16_to_byte_ref, char_indices.
  assert (∀ k0 i0 t b', Source.utf16_to_byte_loop k 0 k0 (char_indices_from i0 t)
            = inl b' → b' ≤ i0 + str_len t) as Hloop.
  { intros k0 i0 t. revert k0 i0. induction t as [|c t IH]; intros k0 i0 b'; [done|].
    simpl. rewrite str_len_cons. case_decide; [intros [= <-]; lia|].
    intros Hl%IH. lia. }
  destruct (Source.utf16_to_byte_loop _ _ _ _) as [b'|k'] eqn:Hl.
  - intros [= <-]. by apply Hloop in Hl.
  - unfold bool_then. case_bool_decide; [|done]. intros [= <-]. done.
Qed.

(** C7. Round trip through UTF-16: the byte index of the UTF-16 offset of a
    byte index is that byte index. *)
Theorem utf16_roundtrip s b u :
  consistent s → Source.byte_to_utf16 s b = Val (Some u) →
  Source.utf16_to_byte s u = Val (Some b).
Proof.
  intros Hc. rewrite byte_to_utf16_spec, utf16_to_byte_ref_eq by done.
  destruct (split_at_byte _ b) as [[p r]|] eqn:Hs; [|done].
  apply split_at_byte_Some in Hs as [-> <-]. intros [= <-].
  by rewrite utf16_to_byte_ref_prefix.
Qed.

(** ** Lengths *)

(** [len_utf16] returns, and the length it computes from the last line of
    the table is the number of UTF-16 code units of the text. *)
Lemma len_utf16_spec s :
  consistent s → Source.len_utf16 s = Val (str_len_utf16 (Source.repr_text s)).
Proof.
  intros Hc. unfold Source.len_utf16.
  destruct (list.last (Source.repr_lines s)) as [ln|] eqn:Hl.
  - rewrite last_lookup in Hl.
    destruct (consistent_line_at s _ ln Hc Hl) as (pl & rl & -> & Hbl & Hul).
    simpl. by rewrite Hbl, Hul, str_index_from_app, str_len_utf16_app.
  - apply last_None in Hl. rewrite Hc in Hl. by apply lines_nonempty in Hl.
Qed.

(** The number of lines is one more than the number of line breaks of the
    text. *)
Lemma len_lines_spec s :
  consistent s →
  Source.len_lines s = S (length (line_starts 0 0 (Source.repr_text s))).
Proof. intros Hc. unfold Source.len_lines. by rewrite Hc, lines_line_starts. Qed.

(** ** Lines as ranges *)

(** The range of line [i] starts at the line and ends at a position of the
    text that no byte owned by the line exceeds. *)
Lemma line_to_range_spec s i ln (pl rl : str) :
  consistent s → Source.repr_lines s !! i = Some ln →
  Source.repr_text s = pl ++ rl → byte_idx ln = str_len pl →
  ∃ mid rest,
    rl = mid ++ rest
    ∧ Source.line_to_range s i = Some (mkRange (str_len pl) (str_len pl + str_len mid))
    ∧ ∀ b, b ≤ str_len (Source.repr_text s) →
           owner byte_idx (Source.repr_lines s) b i → b ≤ str_len pl + str_len mid.
Proof.
  intros Hc Hln Ht Hbl. unfold Source.line_to_range, Source.line_to_byte.
  rewrite Hln. simpl. rewrite Hbl.
  destruct (Source.repr_lines s !! (i + 1)) as [ln2|] eqn:Hln2; simpl.
  - destruct (consistent_line_at s _ ln2 Hc Hln2) as (p2 & r2 & Ht2 & Hb2 & _).
    destruct (consistent_table_ok s Hc) as (_ & Hs & _).
    pose proof (Hs i (i + 1) ln ln2 Hln Hln2 ltac:(lia)) as Hlt.
    destruct (str_app_prefix_le pl rl p2 r2) as (mid & -> & ->); [congruence|lia|].
    exists mid, r2. rewrite Hb2, str_len_app. split_and!; try done.
    intros b _ [_ Ha]. rewrite str_len_app in Hb2.
    specialize (Ha (i + 1) ln2 Hln2 ltac:(lia)). lia.
  - exists rl, []. rewrite app_nil_r, Ht, str_len_app. by split_and!.
Qed.

(** The column computed from a known line start. *)
Lemma byte_to_column_at s b i ln (pl rl : str) :
  Source.byte_to_line s b = Val (Some i) → Source.repr_lines s !! i = Some ln →
  Source.repr_text s = pl ++ rl → byte_idx ln = str_len pl → str_len pl ≤ b →
  Source.byte_to_column s b
  = Val ((λ mr, chars_count mr.1) <$> split_at_byte rl (b - str_len pl)).
Proof.
  intros Hi Hln Ht Hbl Hle.
  unfold Source.byte_to_column, Source.line_to_byte, Source.get, Source.text.
  rewrite Hi, Ht. simpl. rewrite Hln. simpl.
  rewrite Hbl, str_get_from, decide_True by done.
  by destruct (split_at_byte rl _) as [[m r]|].
Qed.

(** C8. Round trip through line and column: the byte index of the line and
    column of a byte index is that byte index. *)
Theorem line_column_roundtrip s b l c :
  consistent s →
  Source.byte_to_line s b = Val (Some l) →
  Source.byte_to_column s b = Val (Some c) →
  Source.line_column_to_byte s l c = Some b.
Proof.
  intros Hc Hl Hcol.
  destruct (decide (b ≤ str_len (Source.repr_text s))) as [Hb|Hb];
    [|by rewrite byte_to_line_out_of_bounds in Hl by lia].
  destruct (byte_to_line_prefix s b Hc Hb)
    as (i & ln & pl & rl & Hi & Ho & Hln & Ht & Hbl & _ & Hle).
  assert (i = l) as -> by congruence.
  rewrite (byte_to_column_at s b l ln pl rl) in Hcol by done.
  destruct (split_at_byte rl _) as [[m r']|] eqn:Hs; simplify_eq/=.
  apply split_at_byte_Some in Hs as [-> Hm].
  destruct (line_to_range_spec s l ln pl _ Hc Hln Ht Hbl)
    as (mid & rest & Hmid & Hr & Hend).
  specialize (Hend b Hb Ho).
  destruct (str_app_prefix_le m r' mid rest) as (m2 & -> & ->); [done|lia|].
  unfold Source.line_column_to_byte, Source.get, Source.text.
  rewrite Hr, Ht. simpl. rewrite (app_assoc m m2 rest), str_get_app. simpl.
  unfold chars_count. rewrite str_len_drop_app. f_equal. lia.
Qed.

(** C27. A column past the end of the line is not refused: the byte index
    returned is the end of the line, which on a consistent source is the
    start of the next line when there is one: [byte_to_line] puts the
    answer on the line after the one asked for. *)
Theorem line_column_to_byte_clamp s i range (line : str) c :
  Source.line_to_range s i = Some range → Source.get s range = Some line →
  chars_count line ≤ c →
  Source.line_column_to_byte s i c = Some (range_end range)
  ∧ (consistent s → S i < Source.len_lines s →
     Source.byte_to_line s (range_end range) = Val (Some (S i))).
Proof.
  intros Hr Hg Hc. split.
  - unfold Source.line_column_to_byte. rewrite Hr. simpl.
    rewrite Hg. simpl. rewrite drop_ge, str_len_nil by done.
    apply str_get_spec in Hg as (p & q & _ & Hp & He). f_equal. lia.
  - intros Hcs Hlt.
    destruct (lookup_lt_is_Some_2 (Source.repr_lines s) (S i)) as [ln' Hln'];
      [done|].
    unfold Source.line_to_range, Source.line_to_byte in Hr.
    replace (i + 1) with (S i) in Hr by lia. rewrite Hln' in Hr.
    destruct (Source.repr_lines s !! i); simplify_eq/=.
    by apply byte_to_line_start.
Qed.

(** ** No query panics *)

(** C9. On a consistent source every position query returns: with a
    value or with the absence of one, never with a panic; the subtractions
    [i - 1] after a failed search never underflow. *)
Theorem queries_no_panic s b k :
  consistent s →
  no_panic (Source.byte_to_line s b) ∧ no_panic (Source.byte_to_utf16 s b)
  ∧ no_panic (Source.byte_to_column s b) ∧ no_panic (Source.utf16_to_byte s k).
Proof.
  intros Hc.
  rewrite byte_to_utf16_spec, utf16_to_byte_ref_eq by done.
  split_and!; try done;
    destruct (decide (b ≤ str_len (Source.repr_text s))) as [Hb|Hb].
  - by destruct (byte_to_line_prefix s b Hc Hb) as (i & ln & pl & rl & -> & _).
  - by rewrite byte_to_line_out_of_bounds by lia.
  - by destruct (byte_to_column_spec s b Hc Hb) as (i & pl & rl & _ & _ & _ & ->).
  - unfold Source.byte_to_column. by rewrite byte_to_line_out_of_bounds by lia.
Qed.

(** ** The queries, in full *)

(** A line that [byte_to_line] answers owns the byte index. *)
Lemma byte_to_line_Some s b i :
  consistent s → Source.byte_to_line s b = Val (Some i) →
  b ≤ str_len (Source.repr_text s) ∧ owner byte_idx (Source.repr_lines s) b i.
Proof.
  intros Hc. destruct (decide (b ≤ str_len (Source.repr_text s))) as [Hb|Hb].
  - destruct (byte_to_line_owner s b (consistent_table_ok s Hc) Hb) as (j & -> & Ho).
    by intros [= <-].
  - by rewrite byte_to_line_out_of_bounds by lia.
Qed.

(** C5. [byte_to_line] answers with a line exactly for the byte indices up
    to the length of the text, and the line is the last one that starts at
    or before the byte index. *)
Theorem byte_to_line_correct s b i :
  consistent s →
  Source.byte_to_line s b = Val (Some i)
  ↔ b ≤ str_len (Source.repr_text s) ∧ owner byte_idx (Source.repr_lines s) b i.
Proof.
  intros Hc. split; [by apply byte_to_line_Some|]. intros [Hb Ho'].
  pose proof (consistent_table_ok s Hc) as Hok.
  destruct (byte_to_line_owner s b Hok Hb) as (j & -> & Ho).
  do 2 f_equal. eapply owner_unique; [|exact Ho|exact Ho']. apply Hok.
Qed.

(** C6. [byte_to_utf16] answers [u] for [b] exactly when [b] is the byte
    length of a prefix of the text and [u] is the number of UTF-16 code
    units of that prefix; a byte index inside a character or past the end
    has no answer. *)
Theorem byte_to_utf16_correct s b u :
  consistent s →
  Source.byte_to_utf16 s b = Val (Some u)
  ↔ ∃ p r, Source.repr_text s = p ++ r ∧ str_len p = b ∧ str_len_utf16 p = u.
Proof.
  intros Hc. rewrite byte_to_utf16_spec by done. split.
  - destruct (split_at_byte _ b) as [[p r]|] eqn:Hs; [|done]. intros [= <-].
    apply split_at_byte_Some in Hs as [? ?]. by exists p, r.
  - intros (p & r & -> & <- & <-). by rewrite split_at_byte_app.
Qed.

(** C26. A UTF-16 index that points between the two code units of a
    character outside the basic plane is not refused when a character
    follows: [utf16_to_byte] answers with the byte index after that
    character. *)
Theorem utf16_to_byte_inside s (p r : str) (c d : char) :
  consistent s → Source.repr_text s = p ++ c :: d :: r → len_utf16 c = 2 →
  Source.utf16_to_byte s (str_len_utf16 p + 1)
  = Val (Some (str_len p + len_utf8 c)).
Proof.
  intros Hc Ht Hl. by rewrite utf16_to_byte_ref_eq, Ht, utf16_to_byte_ref_inside.
Qed.

(** Where a UTF-16 index falls in a text: at the end of a prefix, between
    the two units of a character, or past the end. *)
Lemma utf16_position (text : str) k :
  (∃ p r, text = p ++ r ∧ str_len_utf16 p = k)
  ∨ (∃ p c r, text = p ++ c :: r ∧ str_len_utf16 p + 1 = k ∧ len_utf16 c = 2)
  ∨ str_len_utf16 text < k.
Proof.
  revert k. induction text as [|c t IH]; intros k.
  { destruct k; [left; by exists [], []|right; right; rewrite str_len_utf16_nil; lia]. }
  destruct (decide (k = 0)) as [->|Hk]; [left; by exists [], (c :: t)|].
  pose proof (len_utf16_pos c). pose proof (len_utf16_le_2 c).
  destruct (decide (k < len_utf16 c)) as [Hlt|Hge].
  { right; left. exists [], c, t. rewrite str_len_utf16_nil. split_and!; [done|lia..]. }
  destruct (IH (k - len_utf16 c))
    as [(p & r & -> & Hp)|[(p & d & r & -> & Hp & Hd)|Hgt]].
  - left. exists (c :: p), r. rewrite str_len_utf16_cons. split; [done|lia].
  - right; left. exists (c :: p), d, r. rewrite str_len_utf16_cons.
    split_and!; [done|lia|done].
  - right; right. rewrite str_len_utf16_cons. lia.
Qed.

(** The scan finds nothing past the end of the text. *)
Lemma utf16_to_byte_ref_past (text : str) k :
  str_len_utf16 text < k → utf16_to_byte_ref text k = None.
Proof.
  intros Hk. unfold utf16_to_byte_ref, char_indices.
  rewrite <- (app_nil_r text), utf16_loop_skip by (simpl; lia). simpl.
  rewrite bool_decide_eq_false_2 by lia. done.
Qed.

(** What the scan from the start answers, for every index. *)
Lemma utf16_to_byte_ref_spec (text : str) k b :
  utf16_to_byte_ref text k = Some b
  ↔ ∃ p r, text = p ++ r ∧ str_len p = b
           ∧ (str_len_utf16 p = k
              ∨ r ≠ [] ∧ ∃ p' c, p = p' ++ [c] ∧ str_len_utf16 p' + 1 = k
                                 ∧ len_utf16 c = 2).
Proof.
  split.
  - destruct (utf16_position text k)
      as [(p & r & -> & <-)|[(p & c & [|d r] & -> & <- & Hc2)|Hgt]].
    + rewrite utf16_to_byte_ref_prefix. intros [= <-]. exists p, r. eauto.
    + by rewrite utf16_to_byte_ref_inside_last.
    + rewrite utf16_to_byte_ref_inside by done. intros [= <-].
      exists (p ++ [c]), (d :: r). rewrite <- app_assoc. split_and!; [done|..].
      * autorewrite with rust_rw. simpl. lia.
      * right. split; [done|]. by exists p, c.
    + by rewrite utf16_to_byte_ref_past.
  - intros (p & r & -> & <- & [<-|(Hr & p' & c & -> & <- & Hc2)]).
    + apply utf16_to_byte_ref_prefix.
    + destruct r as [|d r]; [done|]. rewrite <- app_assoc. simpl.
      rewrite utf16_to_byte_ref_inside by done. f_equal.
      autorewrite with rust_rw. simpl. lia.
Qed.

(** C36. [utf16_to_byte] answers [b] for [k] exactly when [b] is the byte
    length of a prefix of the text that has [k] UTF-16 code units, or of a
    prefix, not the whole text, whose last character has its second code
    unit at [k]. *)
Theorem utf16_to_byte_correct s k b :
  consistent s →
  Source.utf16_to_byte s k = Val (Some b)
  ↔ ∃ p r, Source.repr_text s = p ++ r ∧ str_len p = b
           ∧ (str_len_utf16 p = k
              ∨ r ≠ [] ∧ ∃ p' c, p = p' ++ [c] ∧ str_len_utf16 p' + 1 = k
                                 ∧ len_utf16 c = 2).
Proof.
  intros Hc. rewrite utf16_to_byte_ref_eq by done.
  rewrite <- utf16_to_byte_ref_spec. split; [by intros [= ->]|by intros ->].
Qed.

(** Every line of the table has a range, the range is a slice of the
    text, and it holds every byte index of the line. *)
Theorem line_to_range_slice s i :
  consistent s → i < Source.len_lines s →
  ∃ range line,
    Source.line_to_range s i = Some range ∧ Source.get s range = Some line
    ∧ ∀ b, Source.byte_to_line s b = Val (Some i) →
           range_start range ≤ b ≤ range_end range.
Proof.
  intros Hc Hi. destruct (lookup_lt_is_Some_2 (Source.repr_lines s) i Hi) as [ln Hln].
  destruct (consistent_line_at s i ln Hc Hln) as (pl & rl & Ht & Hb & _).
  destruct (line_to_range_spec s i ln pl rl Hc Hln Ht Hb)
    as (mid & rest & -> & Hr & Hown).
  eexists _, mid. split_and!; [done|..].
  - unfold Source.get, Source.text. rewrite Ht. apply str_get_app.
  - intros b [Hble Ho]%byte_to_line_Some; [|done]. simpl.
    split; [|by apply Hown]. destruct Ho as [(x & Hx & Hxb) _]. simplify_eq. lia.
Qed.

(** The hash of a source covers its whole state: two consistent
    sources that feed the hasher the same id, text and root are equal, line
    tables included. *)
Theorem hash_consistent_inj s1 s2 :
  consistent s1 → consistent s2 → Source.hash s1 = Source.hash s2 → s1 = s2.
Proof.
  destruct s1, s2. unfold consistent, Source.hash. simpl.
  intros -> -> [= -> -> ->]. done.
Qed.

(** The binary search of [byte_to_line] finds the line a scan of the
    table from its start finds. *)
Theorem byte_to_line_linear s b :
  consistent s → b ≤ str_len (Source.repr_text s) →
  Source.byte_to_line s b
  = match linear_search byte_idx (Source.repr_lines s) b 0 with
    | Found i => Val (Some i)
    | NotFound i => Val (Some (i - 1))
    end.
Proof.
  intros Hc Hb. pose proof (consistent_table_ok s Hc) as Hok.
  destruct (byte_to_line_owner s b Hok Hb) as (j & Hj & _).
  revert Hj. unfold Source.byte_to_line. rewrite decide_True by done.
  rewrite binary_search_linear by apply Hok.
  by destruct (linear_search _ _ _ _) as [i|[|i]].
Qed.


End spec.

(** ** A source to run the theorems on *)

#[local] Existing Instance leaf_parser.

(** The source of the unit tests of [source.rs], with the spans of a
    synthesized source. *)
Definition test_source : Source.Repr :=
  Source.synthesized TEST (mkSpan FileId_detached 1).

(** The bound of [byte_to_line_logarithmic] is met: in the table of four
    lines the search for byte 0 reads three records, the search for byte 8
    two. *)
Example byte_to_line_probes :
  byte_to_line_counted test_source 0 = (Val (Some 0), 3)
  ∧ byte_to_line_counted test_source 8 = (Val (Some 1), 2)
  ∧ Nat.log2 (Source.len_lines test_source) + 1 = 3.
Proof. split_and!; vm_compute; reflexivity. Qed.

Lemma byte_to_line_correct_witness :
  Source.byte_to_line test_source 8 = Val (Some 1)
  ↔ 8 ≤ str_len (Source.repr_text test_source)
    ∧ owner byte_idx (Source.repr_lines test_source) 8 1.
Proof. apply (byte_to_line_correct test_source 8 1). reflexivity. Defined.

Lemma byte_to_utf16_correct_witness :
  Source.byte_to_utf16 test_source 12 = Val (Some 9)
  ↔ ∃ p r, Source.repr_text test_source = p ++ r
           ∧ str_len p = 12 ∧ str_len_utf16 p = 9.
Proof. apply (byte_to_utf16_correct test_source 12 9). reflexivity. Defined.

Lemma utf16_roundtrip_witness : Source.utf16_to_byte test_source 9 = Val (Some 12).
Proof.
  apply (utf16_roundtrip test_source 12 9); [reflexivity | vm_compute; reflexivity].
Defined.

Lemma line_column_roundtrip_witness :
  Source.line_column_to_byte test_source 1 2 = Some 12.
Proof.
  apply (line_column_roundtrip test_source 12 1 2);
    [reflexivity | vm_compute; reflexivity..].
Defined.

Lemma queries_no_panic_witness :
  no_panic (Source.byte_to_line test_source 8)
  ∧ no_panic (Source.byte_to_utf16 test_source 8)
  ∧ no_panic (Source.byte_to_column test_source 8)
  ∧ no_panic (Source.utf16_to_byte test_source 9).
Proof. apply (queries_no_panic test_source 8 9). reflexivity. Defined.

Lemma utf16_to_byte_inside_witness :
  Source.utf16_to_byte test_source (str_len_utf16 (take 7 TEST) + 1)
  = Val (Some (str_len (take 7 TEST) + len_utf8 0x1F49B%N)).
Proof.
  apply (utf16_to_byte_inside test_source (take 7 TEST) (drop 9 TEST)
           0x1F49B%N 0x67%N); reflexivity.
Defined.

Lemma line_column_to_byte_clamp_witness :
  Source.line_column_to_byte test_source 0 10 = Some 7
  ∧ (consistent test_source → 1 < Source.len_lines test_source →
     Source.byte_to_line test_source 7 = Val (Some 1)).
Proof.
  apply (line_column_to_byte_clamp test_source 0 (mkRange 0 7) (take 6 TEST) 10);
    [vm_compute; reflexivity.. | simpl; lia].
Defined.

Lemma byte_to_utf16_le_witness : 9 ≤ 12.
Proof.
  apply (byte_to_utf16_le test_source 12 9); [reflexivity | vm_compute; reflexivity].
Defined.

Lemma byte_to_column_le_witness : 2 ≤ 12.
Proof.
  apply (byte_to_column_le test_source 12 2); [reflexivity | vm_compute; reflexivity].
Defined.

Lemma utf16_to_byte_correct_witness :
  Source.utf16_to_byte test_source 8 = Val (Some 12)
  ↔ ∃ p r, Source.repr_text test_source = p ++ r ∧ str_len p = 12
           ∧ (str_len_utf16 p = 8
              ∨ r ≠ [] ∧ ∃ p' c, p = p' ++ [c] ∧ str_len_utf16 p' + 1 = 8
                                 ∧ len_utf16 c = 2).
Proof. apply (utf16_to_byte_correct test_source 8 12). reflexivity. Defined.

Lemma line_to_range_slice_witness :
  ∃ range line,
    Source.line_to_range test_source 1 = Some range
    ∧ Source.get test_source range = Some line
    ∧ ∀ b, Source.byte_to_line test_source b = Val (Some 1) →
           range_start range ≤ b ≤ range_end range.
Proof.
  apply (line_to_range_slice test_source 1); [reflexivity | vm_compute; lia].
Defined.

Lemma hash_consistent_inj_witness : test_source = test_source.
Proof. apply (hash_consistent_inj test_source test_source); reflexivity. Defined.

Lemma byte_to_line_linear_witness :
  Source.byte_to_line test_source 8
  = match linear_search byte_idx (Source.repr_lines test_source) 8 0 with
    | Found i => Val (Some i)
    | NotFound i => Val (Some (i - 1))
    end.
Proof.
  apply (byte_to_line_linear test_source 8); [reflexivity | vm_compute; lia].
Defined.
