(* ===== verification/Edit.v ===== *)
(** * Construction, replacement and incremental edit

    [Source::new], [Source::replace] and [Source::edit]: construction and
    replacement build a consistent source; an edit panics exactly on a range
    that is not a slice of the text, splices the replacement into the text,
    hands the tree to the reparser, and repairs the line table.  The repaired
    table is the table of the new text exactly when [edit_repairs] holds:
    always when the text before the edit does not end with a carriage
    return, and otherwise only when the test the code makes on the
    replacement ("does it start with a line feed") agrees with what follows
    the carriage return before and after the edit. *)

From stdpp Require Import relations.
From S2P Require Import Prelude Unicode Search Scanner Lines Tree Source SourceSpec.

Section edit.
Context `{Newlines} `{Parser}.
Implicit Types (s : Source.Repr) (p m q w : str).
#[local] Arguments lines_upto : simpl never.

(** Whether the edit that replaces [m] by [w] between [p] and [q] leaves
    the line table consistent. *)
Definition edit_repairs (p m q w : str) : bool :=
  negb (ends_with p CR)
  || (if starts_with (m ++ q) LF
      then negb (starts_with w LF) && starts_with (w ++ q) LF
      else bool_decide (starts_with w LF = starts_with (w ++ q) LF)).

(** The table [edit] leaves for the text [p ++ w ++ q], from the table of
    [p ++ m ++ q]. *)
Definition edit_lines (p m q w : str) : list Line :=
  (if ends_with p CR && starts_with w LF
   then pop (lines_upto p (m ++ q)) else lines_upto p (m ++ q))
  ++ line_starts (str_len p) (str_len_utf16 p) (w ++ q).

(** The state and the range an edit of a slice returns. *)
Definition edit_value s p m q w : Source.Repr * Range :=
  let range := mkRange (str_len p) (str_len p + str_len m) in
  let rr := reparse (Source.repr_root s) (p ++ w ++ q) range (str_len w) in
  (Source.mkRepr (Source.repr_id s) (p ++ w ++ q) rr.1 (edit_lines p m q w), rr.2).

(** ** Construction and replacement *)

(** A source that [new] returns has the identity and the text it was
    given, and its line table is the table of its text. *)
Theorem new_consistent id text s :
  Source.new id text = Val s →
  Source.repr_id s = id ∧ Source.repr_text s = text ∧ consistent s.
Proof.
  unfold Source.new. destruct (numberize _ _ _); simpl; [|done].
  by intros [= <-].
Qed.

(** [new] panics exactly when the parsed tree cannot be numbered within
    the full span range. *)
Theorem new_panic id text :
  Source.new id text = Panic ↔ numberize (parse text) id Span_FULL = None.
Proof. unfold Source.new. by destruct (numberize _ _ _). Qed.

(** Replacing the text is constructing a source from the new text with
    the identity of the old one. *)
Lemma replace_new s text :
  Source.replace s text = Source.new (Source.repr_id s) text.
Proof. done. Qed.

Lemma synthesized_consistent text span :
  consistent (Source.synthesized text span).
Proof. done. Qed.

(** ** The edit *)

(** The line that owns the end of a prefix of the text, and the table
    truncated after it. *)
Lemma byte_to_line_prefix_end s p x :
  consistent s → Source.repr_text s = p ++ x →
  ∃ i, Source.byte_to_line s (str_len p) = Val (Some i)
       ∧ truncate (i + 1) (Source.repr_lines s) = lines_upto p x.
Proof.
  intros Hc Ht.
  destruct (byte_to_line_owner s (str_len p)) as (i & Hi & Ho);
    [by apply consistent_table_ok|rewrite Ht, str_len_app; lia|].
  exists i. split; [done|]. rewrite Hc, Ht in *.
  rewrite <- (lines_app_truncate p x). do 2 f_equal.
  eapply owner_unique; [|exact Ho|apply lines_app_owner].
  apply lines_table_ok.
Qed.

(** What an edit of a slice of the text returns. *)
Lemma edit_spec s p m q w :
  consistent s → Source.repr_text s = p ++ m ++ q →
  Source.edit s (mkRange (str_len p) (str_len p + str_len m)) w
  = Val (edit_value s p m q w).
Proof.
  intros Hc Ht. unfold Source.edit, edit_value, edit_lines, lines_from. simpl.
  destruct (byte_to_line_prefix_end s p (m ++ q) Hc Ht) as (i & -> & Htr).
  rewrite (byte_to_utf16_prefix s p (m ++ q)) by done. simpl.
  rewrite Ht, replace_range_app. simpl.
  rewrite str_index_to_app, str_index_from_app. simpl.
  rewrite Htr, lines_from_iter_start.
  by destruct (reparse _ _ _ _).
Qed.

(** An edit of a range that is not a slice of the text panics: at the
    conversion of its start, or at the replacement. *)
Lemma edit_panic s range w :
  consistent s → str_get (Source.repr_text s) range = None →
  Source.edit s range w = Panic.
Proof.
  intros Hc Hg. unfold Source.edit. rewrite byte_to_utf16_spec by done.
  destruct (split_at_byte _ (range_start range)) as [[p t]|] eqn:Hs; [|done].
  apply split_at_byte_Some in Hs as [Ht Hp]. simpl.
  destruct (byte_to_line_prefix_end s p t Hc Ht) as (i & Hi & _).
  rewrite <- Hp, Hi. simpl.
  rewrite Hp. by rewrite (proj2 (replace_range_panic _ _ w) Hg).
Qed.

(** C2. An edit panics exactly when its range is not a slice of the text:
    out of bounds, reversed, or cutting a character.  On every other range
    it returns, and what it returns is [edit_value]. *)
Theorem edit_panics_iff s range w :
  consistent s →
  (Source.edit s range w = Panic ↔ str_get (Source.repr_text s) range = None)
  ∧ ∀ p m q,
      Source.repr_text s = p ++ m ++ q →
      range = mkRange (str_len p) (str_len p + str_len m) →
      Source.edit s range w = Val (edit_value s p m q w).
Proof.
  intros Hc. split; [|intros p m q Ht ->; by apply edit_spec].
  destruct (str_get _ range) as [m|] eqn:Hg.
  - apply str_get_spec in Hg as (p & q & Ht & Hp & Hm).
    destruct range as [a b]. simpl in *. subst a b.
    by rewrite (edit_spec s p m q w Hc Ht).
  - split; [done|intros _]. by apply edit_panic.
Qed.

(** ** When the repaired table is the table of the new text *)

Lemma starts_with_app_true w q c :
  starts_with w c = true → starts_with (w ++ q) c = true.
Proof.
  intros [w' ->]%starts_with_true.
  by rewrite <- app_comm_cons, starts_with_cons, bool_decide_eq_true_2.
Qed.

(** The case of a text that ends with a carriage return: the table of
    [p' ++ [CR]] followed by [x], by cases on the first character of [x]. *)
Lemma lines_upto_CR p' x :
  lines_upto (p' ++ [CR]) x
  = mkLine 0 0 :: line_starts 0 0 p'
    ++ (if starts_with x LF then []
        else [mkLine (str_len p' + 1) (str_len_utf16 p' + 1)]).
Proof.
  unfold lines_upto. rewrite ends_with_snoc, bool_decide_eq_true_2 by done.
  rewrite line_starts_snoc_CR. simpl.
  destruct (starts_with x LF); by rewrite ?pop_snoc, ?app_nil_r.
Qed.

(** The records [edit] keeps are those of the new text exactly under
    [edit_repairs]. *)
Lemma lines_upto_repair p m q w :
  (if ends_with p CR && starts_with w LF
   then pop (lines_upto p (m ++ q)) else lines_upto p (m ++ q))
  = lines_upto p (w ++ q)
  ↔ edit_repairs p m q w = true.
Proof.
  unfold edit_repairs. destruct (ends_with p CR) eqn:He; simpl;
    [|unfold lines_upto; by rewrite He].
  apply ends_with_true in He as [p' ->]. rewrite !lines_upto_CR.
  pose proof (starts_with_app_true w q LF) as Hwn.
  destruct (starts_with (m ++ q) LF), (starts_with w LF),
    (starts_with (w ++ q) LF); simpl; rewrite ?app_nil_r;
    try (specialize (Hwn eq_refl); discriminate);
    rewrite ?app_comm_cons, ?pop_snoc;
    try (by split; [done|]);
    (split; [intros Heq%(f_equal length)|done]);
    rewrite ?pop_length in Heq; simpl in Heq; rewrite ?length_app in Heq;
    simpl in Heq; lia.
Qed.

Lemma edit_lines_consistent p m q w :
  edit_lines p m q w = lines (p ++ w ++ q) ↔ edit_repairs p m q w = true.
Proof.
  unfold edit_lines. rewrite lines_app, <- lines_upto_repair.
  split; [by intros ?%app_inv_tail|by intros ->].
Qed.

(** C1. An edit of a slice of a consistent source returns, and the line
    table it leaves is the table of the new text if and only if
    [edit_repairs] holds: the text before the edit does not end with a
    carriage return, or the line feed the code looks for at the start of
    the replacement is there exactly when a line feed follows the carriage
    return after the edit and none followed it before. *)
Theorem edit_consistent_iff s p m q w :
  consistent s → Source.repr_text s = p ++ m ++ q →
  ∃ s' range',
    Source.edit s (mkRange (str_len p) (str_len p + str_len m)) w = Val (s', range')
    ∧ (consistent s' ↔ edit_repairs p m q w = true).
Proof.
  intros Hc Ht. eexists _, _. split; [by apply edit_spec|].
  apply edit_lines_consistent.
Qed.

(** An edit that starts after a text that does not end with a carriage
    return returns a consistent source: every position query on the edited
    source answers for the new text. *)
Theorem edit_consistent s p m q w :
  consistent s → Source.repr_text s = p ++ m ++ q → ends_with p CR = false →
  ∃ s' range',
    Source.edit s (mkRange (str_len p) (str_len p + str_len m)) w = Val (s', range')
    ∧ consistent s'.
Proof.
  intros Hc Ht He. eexists _, _. split; [by apply edit_spec|].
  apply edit_lines_consistent. unfold edit_repairs. by rewrite He.
Qed.

(** C3. The text after an edit is the old text with the range replaced, the
    identity is kept, the table is [edit_lines] (the records kept from the
    old table and those of the text from the start of the edit on), and
    the tree and the range returned are those of the reparser, called
    with the old tree, the new text, the replaced range and the byte
    length of the replacement. *)
Theorem edit_result s p m q w :
  consistent s → Source.repr_text s = p ++ m ++ q →
  ∃ s' range',
    Source.edit s (mkRange (str_len p) (str_len p + str_len m)) w = Val (s', range')
    ∧ Source.repr_text s' = p ++ w ++ q
    ∧ Source.repr_id s' = Source.repr_id s
    ∧ Source.repr_lines s' = edit_lines p m q w
    ∧ (Source.repr_root s', range')
      = reparse (Source.repr_root s) (p ++ w ++ q)
          (mkRange (str_len p) (str_len p + str_len m)) (str_len w).
Proof.
  intros Hc Ht. eexists _, _. split; [by apply edit_spec|].
  simpl. split_and!; try done. by destruct (reparse _ _ _ _).
Qed.

(** ** Sequences of changes *)

(** One change of a source by a client: an edit of a slice that does not
    start right after a carriage return, or a replacement of the text. *)
Inductive safe_step : Source.Repr → Source.Repr → Prop :=
| safe_edit s p m q w s' range' :
    Source.repr_text s = p ++ m ++ q → ends_with p CR = false →
    Source.edit s (mkRange (str_len p) (str_len p + str_len m)) w = Val (s', range') →
    safe_step s s'
| safe_replace s text s' :
    Source.replace s text = Val s' → safe_step s s'.

(** A run of edits, each on the source the one before it left. *)
Fixpoint edit_all (s : Source.Repr) (edits : list (Range * str))
    : outcome Source.Repr :=
  match edits with
  | [] => Val s
  | (range, w) :: edits' => sr ← Source.edit s range w; edit_all sr.1 edits'
  end.

(** The texts of the same run. *)
Fixpoint replace_all (text : str) (edits : list (Range * str)) : outcome str :=
  match edits with
  | [] => Val text
  | (range, w) :: edits' => t ← replace_range text range w; replace_all t edits'
  end.

(** Whether an edit starts at a character boundary that does not follow a
    carriage return. *)
Definition edit_safe (text : str) (range : Range) : bool :=
  match split_at_byte text (range_start range) with
  | Some (p, _) => negb (ends_with p CR)
  | None => false
  end.

(** Whether every edit of a run replaces a slice of the text it meets and
    is safe there. *)
Fixpoint edits_safe (text : str) (edits : list (Range * str)) : bool :=
  match edits with
  | [] => true
  | (range, w) :: edits' =>
      match replace_range text range w with
      | Val text' => edit_safe text range && edits_safe text' edits'
      | Panic => false
      end
  end.

Lemma safe_step_consistent s s' :
  consistent s → safe_step s s' →
  consistent s' ∧ Source.repr_id s' = Source.repr_id s.
Proof.
  intros Hc Hs. destruct Hs as [s p m q w s' rg Ht He Hed|s text s' Hr].
  - rewrite (edit_spec _ p m q w Hc Ht) in Hed. injection Hed as <- _.
    split; [|done]. apply edit_lines_consistent. unfold edit_repairs. by rewrite He.
  - unfold Source.replace in Hr. destruct (numberize _ _ _); by simplify_eq/=.
Qed.

(** Consistency is an invariant of the changes a client can make
    without starting an edit right after a carriage return: after any
    number of such edits and replacements the table is the table of the
    text, and the identity of the source is the one it started with. *)
Theorem safe_steps_consistent s s' :
  consistent s → rtc safe_step s s' →
  consistent s' ∧ Source.repr_id s' = Source.repr_id s.
Proof.
  intros Hc Hr. induction Hr as [s|s1 s2 s3 Hs _ IH]; [done|].
  destruct (safe_step_consistent s1 s2 Hc Hs) as [Hc2 Hid].
  rewrite <- Hid. by apply IH.
Qed.

(** A run of edits that are safe on the texts they meet returns: no
    edit of it panics, every edit is a safe step, and the text of the
    source it leaves is the text the replacements alone give. *)
Theorem edit_all_safe s edits :
  consistent s → edits_safe (Source.repr_text s) edits = true →
  ∃ s', edit_all s edits = Val s' ∧ rtc safe_step s s'
        ∧ replace_all (Source.repr_text s) edits = Val (Source.repr_text s').
Proof.
  revert s. induction edits as [|[[a b] w] edits IH]; intros s Hc Hsafe; simpl in *.
  { by exists s. }
  destruct (replace_range _ _ w) as [t'|] eqn:Hrep; [|done].
  apply andb_prop in Hsafe as [Hes Hrest].
  apply replace_range_spec in Hrep as (p & m & q & Ht & Hp & Hm & ->).
  unfold edit_safe in Hes. simpl in *. subst a b.
  rewrite Ht, split_at_byte_app in Hes.
  apply negb_true_iff in Hes. rewrite (edit_spec s p m q w Hc Ht). simpl.
  assert (safe_step s (edit_value s p m q w).1) as Hstep.
  { by eapply (safe_edit s p m q w), edit_spec. }
  destruct (safe_step_consistent _ _ Hc Hstep) as [Hc1 _].
  destruct (IH _ Hc1 Hrest) as (s' & Hrun & Hrtc & Htxt).
  exists s'. split_and!; [done|by eapply rtc_l|done].
Qed.

End edit.

(** ** The theorems on concrete sources *)

#[local] Existing Instance leaf_parser.

(** The text ["a\r\nb"]: an edit between its carriage return and its line
    feed is where the repair of the table goes wrong. *)
Definition crlf_source : Source.Repr :=
  Source.synthesized [0x61; CR; LF; 0x62]%N (mkSpan FileId_detached 1).


Lemma edit_consistent_iff_witness :
  ∃ s' range',
    Source.edit crlf_source (mkRange 2 2) [LF] = Val (s', range')
    ∧ (consistent s' ↔ edit_repairs [0x61; CR]%N [] [LF; 0x62]%N [LF] = true).
Proof. apply (edit_consistent_iff crlf_source [0x61; CR]%N [] [LF; 0x62]%N [LF]); reflexivity. Defined.

Lemma edit_consistent_witness :
  ∃ s' range',
    Source.edit crlf_source (mkRange 1 3) [LF; LF] = Val (s', range')
    ∧ consistent s'.
Proof. apply (edit_consistent crlf_source [0x61]%N [CR; LF] [0x62]%N [LF; LF]); reflexivity. Defined.

Lemma edit_panics_iff_witness :
  (Source.edit test_source (mkRange 1 3) [LF] = Panic
   ↔ str_get (Source.repr_text test_source) (mkRange 1 3) = None)
  ∧ ∀ p m q,
      Source.repr_text test_source = p ++ m ++ q →
      mkRange 1 3 = mkRange (str_len p) (str_len p + str_len m) →
      Source.edit test_source (mkRange 1 3) [LF]
      = Val (edit_value test_source p m q [LF]).
Proof. apply (edit_panics_iff test_source (mkRange 1 3) [LF]). reflexivity. Defined.

Lemma edit_result_witness :
  ∃ s' range',
    Source.edit crlf_source (mkRange 1 3) [LF; LF] = Val (s', range')
    ∧ Source.repr_text s' = [0x61]%N ++ [LF; LF] ++ [0x62]%N
    ∧ Source.repr_id s' = Source.repr_id crlf_source
    ∧ Source.repr_lines s' = edit_lines [0x61]%N [CR; LF] [0x62]%N [LF; LF]
    ∧ (Source.repr_root s', range')
      = reparse (Source.repr_root crlf_source) ([0x61]%N ++ [LF; LF] ++ [0x62]%N)
          (mkRange 1 3) 2.
Proof. apply (edit_result crlf_source [0x61]%N [CR; LF] [0x62]%N [LF; LF]); reflexivity. Defined.

Lemma safe_steps_consistent_witness :
  consistent (edit_value crlf_source [0x61]%N [CR; LF] [0x62]%N [LF; LF]).1
  ∧ Source.repr_id (edit_value crlf_source [0x61]%N [CR; LF] [0x62]%N [LF; LF]).1
    = Source.repr_id crlf_source.
Proof.
  apply (safe_steps_consistent crlf_source); [reflexivity|].
  apply rtc_once.
  by eapply (safe_edit crlf_source [0x61]%N [CR; LF] [0x62]%N [LF; LF]), edit_spec.
Defined.

Lemma edit_all_safe_witness :
  ∃ s', edit_all crlf_source [(mkRange 1 3, [LF; LF]); (mkRange 0 1, [])] = Val s'
        ∧ rtc safe_step crlf_source s'
        ∧ replace_all (Source.repr_text crlf_source)
            [(mkRange 1 3, [LF; LF]); (mkRange 0 1, [])]
          = Val (Source.repr_text s').
Proof.
  apply (edit_all_safe crlf_source [(mkRange 1 3, [LF; LF]); (mkRange 0 1, [])]);
    [reflexivity | vm_compute; reflexivity].
Defined.

(** The source [new] builds from the text of the unit tests. *)
Definition new_source : Source.Repr :=
  Source.mkRepr FileId_detached TEST
    (mkLeaf TEST (mkSpan FileId_detached 2)) (lines TEST).

Lemma new_consistent_witness :
  Source.repr_id new_source = FileId_detached
  ∧ Source.repr_text new_source = TEST ∧ consistent new_source.
Proof. apply (new_consistent FileId_detached TEST new_source). reflexivity. Defined.
