(* ===== verification/Width.v ===== *)
(** * The arithmetic of [source.rs] at the width of [usize]

    The other files compute offsets in unbounded natural numbers.  The
    code computes them in [usize]: an addition whose result does not fit
    panics in a build with overflow checks ([checked_add]) and wraps in
    one without ([wrapping_add]); a subtraction below zero panics in the
    first ([checked_sub]) and wraps in the second ([wrapping_sub]).  The
    class [Adder] is the arithmetic of a build: any pair of functions
    that return the sum when the sum fits and the difference when there
    is one.  The module [Usize] writes every function of [source.rs]
    that adds or subtracts again, over the [add] and [sub] of an
    [Adder], and the theorems show that on a text within the size Rust
    allows an allocation ([isize::MAX] bytes) and a table that is the
    table of the text no addition overflows and no subtraction goes
    below zero: in either build the function returns what the unbounded
    one returns, which the other files specify.  The
    width is a parameter ([Width]): [usize64] is the one of the 64-bit
    targets, [usize4] a width small enough to see what either build does
    on overflow with a text of sixteen bytes.  The cursor of the scanner
    and the offsets of [char_indices] are computed inside the libraries
    and stay unbounded: they never exceed the length of the string. *)

From Equations Require Import Equations.
From S2P Require Import Prelude Unicode Search Scanner Lines Tree Source SourceSpec Edit.

(** ** The width *)

(** The number of bits of [usize]. *)
Class Width : Type := mkWidth { bits : N; bits_pos : (0 < bits)%N }.

(** [usize::MAX] and [isize::MAX]. *)
Definition usize_MAX `{Width} : N := (2 ^ bits - 1)%N.
Definition isize_MAX `{Width} : N := (2 ^ (bits - 1) - 1)%N.

(** A number that a [usize] holds. *)
Definition fits `{Width} (n : nat) : Prop := (N.of_nat n ≤ usize_MAX)%N.

#[export] Instance fits_dec `{Width} n : Decision (fits n).
Proof. unfold fits. apply _. Defined.

(** A text that Rust can allocate: at most [isize::MAX] bytes. *)
Definition small `{Width} (text : str) : Prop :=
  (N.of_nat (str_len text) ≤ isize_MAX)%N.

#[export] Instance small_dec `{Width} text : Decision (small text).
Proof. unfold small. apply _. Defined.

(** [a + b] on [usize] in a build with overflow checks: the sum or a
    panic. *)
Definition checked_add `{Width} (a b : nat) : outcome nat :=
  if decide (fits (a + b)) then Val (a + b) else Panic.

(** [a + b] on [usize] in a build without overflow checks: the sum
    modulo [2 ^ bits]. *)
Definition wrapping_add `{Width} (a b : nat) : outcome nat :=
  Val (N.to_nat (N.of_nat (a + b) mod 2 ^ bits)).

(** [a - b] on [usize] in a build without overflow checks: the
    difference modulo [2 ^ bits]. *)
Definition wrapping_sub `{Width} (a b : nat) : outcome nat :=
  Val (N.to_nat ((N.of_nat a + 2 ^ bits - N.of_nat b) mod 2 ^ bits)).

(** The arithmetic of a build: whatever it does on overflow, it returns
    the sum when the sum fits and the difference when there is one. *)
Class Adder `{Width} : Type := {
  add : nat → nat → outcome nat;
  sub : nat → nat → outcome nat;
  add_val a b : fits (a + b) → add a b = Val (a + b);
  sub_val a b : b ≤ a → fits a → sub a b = Val (a - b);
}.

(** The width of the 64-bit targets. *)
#[export] Instance usize64 : Width := {| bits := 64; bits_pos := eq_refl |}.

(** A width of four bits, for examples of overflow. *)
Definition usize4 : Width := {| bits := 4; bits_pos := eq_refl |}.

Section width.
Context `{Width}.
Implicit Types (a b n m : nat).

Lemma fits_le n m : m ≤ n → fits n → fits m.
Proof. unfold fits. lia. Qed.

Lemma checked_add_val a b : fits (a + b) → checked_add a b = Val (a + b).
Proof. intros. unfold checked_add. by rewrite decide_True. Qed.

Lemma checked_add_panic a b : ¬ fits (a + b) → checked_add a b = Panic.
Proof. intros. unfold checked_add. by rewrite decide_False. Qed.

Lemma wrapping_add_val a b : fits (a + b) → wrapping_add a b = Val (a + b).
Proof.
  unfold fits, usize_MAX, wrapping_add. intros Hf.
  pose proof (N.pow_nonzero 2 bits).
  rewrite N.mod_small by lia. by rewrite Nat2N.id.
Qed.

Lemma wrapping_sub_val a b : b ≤ a → fits a → wrapping_sub a b = Val (a - b).
Proof.
  unfold fits, usize_MAX, wrapping_sub. intros Hle Hf.
  pose proof (N.pow_nonzero 2 bits).
  replace (N.of_nat a + 2 ^ bits - N.of_nat b)%N
    with (N.of_nat (a - b) + 1 * 2 ^ bits)%N by lia.
  rewrite N.Div0.mod_add, N.mod_small by lia. by rewrite Nat2N.id.
Qed.

(** The two builds. *)
#[export] Instance checked : Adder :=
  {| add_val := checked_add_val; sub_val a b Hle _ := checked_sub_val a b Hle |}.

Definition wrapping : Adder :=
  {| add_val := wrapping_add_val; sub_val := wrapping_sub_val |}.

Lemma isize_lt_usize : (isize_MAX < usize_MAX)%N.
Proof.
  unfold isize_MAX, usize_MAX. pose proof bits_pos.
  replace bits with (N.succ (bits - 1)) at 2 by lia.
  rewrite N.pow_succ_r'. pose proof (N.pow_nonzero 2 (bits - 1)). lia.
Qed.

(** One more than the length of a text that can be allocated fits. *)
Lemma small_fits text n : small text → n ≤ S (str_len text) → fits n.
Proof. unfold small, fits. pose proof isize_lt_usize. lia. Qed.

End width.

(** ** The code, over the addition of a build *)

Module Usize.
Section methods.
Context `{Adder} `{Newlines} `{Parser}.
Implicit Types (s : Source.Repr) (text : str) (c : char).

(** [Scanner::eat_until] with a closure that can panic: the panic leaves
    the scanner's loop. *)
Fixpoint eat_until_loop {St : Type} (pat : St → char → outcome (St * bool))
    (st : St) (cur : nat) (text : str) : outcome (St * Scanner) :=
  match text with
  | [] => Val (st, mkScanner cur [])
  | c :: rest =>
      '(st', stop) ← pat st c;
      if stop : bool then Val (st', mkScanner cur (c :: rest))
      else eat_until_loop pat st' (cur + len_utf8 c) rest
  end.

Definition eat_until {St : Type} (pat : St → char → outcome (St * bool))
    (st : St) (sc : Scanner) : outcome (St * Scanner) :=
  eat_until_loop pat st (cursor sc) (after sc).

(** The closure given to [eat_until]. *)
Definition newline_pat (utf16_idx : nat) (c : char) : outcome (nat * bool) :=
  utf16_idx ← add utf16_idx (len_utf16 c);
  Val (utf16_idx, is_newline c).

(** One call of the closure given to [from_fn]. *)
Definition lines_from_step (byte_offset : nat) (st : Scanner * nat)
    : outcome (option Line * (Scanner * nat)) :=
  '(utf16_idx, sc) ← eat_until newline_pat st.2 st.1;
  if done_ sc then Val (None, (sc, utf16_idx))
  else
    let '(c, sc) := eat sc in
    let '(crlf, sc) :=
      if bool_decide (c = Some CR) then eat_if LF sc else (false, sc) in
    utf16_idx ← (if crlf then add utf16_idx 1 else Val utf16_idx);
    byte_idx ← add byte_offset (cursor sc);
    Val (Some (mkLine byte_idx utf16_idx), (sc, utf16_idx)).

(** The scanner never moves backwards, whatever the closure counts. *)
Lemma eat_until_loop_forward {St} (pat : St → char → outcome (St * bool))
    st cur text st' sc :
  eat_until_loop pat st cur text = Val (st', sc) →
  ∃ p, text = p ++ after sc ∧ cursor sc = cur + str_len p.
Proof.
  revert st cur. induction text as [|c text IH]; intros st cur; simpl.
  { intros [= <- <-]. exists []. rewrite str_len_nil. auto with lia. }
  destruct (pat st c) as [[st1 [|]]|]; simpl; [| |done].
  - intros [= <- <-]. exists []. rewrite str_len_nil. auto with lia.
  - intros (p & Hp & Hc)%IH. exists (c :: p). rewrite str_len_cons.
    split; [simpl; congruence|lia].
Qed.

(** Every call that yields a line consumes at least one character. *)
Lemma lines_from_step_progress byte_offset st ln st' :
  lines_from_step byte_offset st = Val (Some ln, st') →
  length (after st'.1) < length (after st.1).
Proof.
  unfold lines_from_step, eat_until.
  destruct (eat_until_loop _ _ _ _) as [[u sc]|] eqn:He; simpl; [|done].
  apply eat_until_loop_forward in He as (p & -> & _).
  rewrite length_app. unfold done_, eat, eat_if.
  destruct sc as [k [|c [|d rest]]]; simpl; repeat case_bool_decide; simpl;
    repeat (destruct (add _ _); simpl); intros; simplify_eq/=; lia.
Qed.

(** The iterator run to its end. *)
Equations? lines_from_iter (byte_offset : nat) (st : Scanner * nat)
    : outcome (list Line) by wf (length (after st.1)) lt :=
  lines_from_iter byte_offset st with inspect (lines_from_step byte_offset st) => {
    | exist _ Panic _ => Panic
    | exist _ (Val (None, _)) _ => Val []
    | exist _ (Val (Some ln, st')) Heq =>
        cons ln <$> lines_from_iter byte_offset st' }.
Proof. by eapply lines_from_step_progress. Qed.

(** Compute a line iterator from an offset. *)
Definition lines_from (byte_offset utf16_offset : nat) (text : str)
    : outcome (list Line) :=
  lines_from_iter byte_offset (scanner_new text, utf16_offset).

(** Create a line vector. *)
Definition lines (text : str) : outcome (list Line) :=
  cons (mkLine 0 0) <$> lines_from 0 0 text.

(** Create a new source file. *)
Definition new (id : FileId) (text : str) : outcome Source.Repr :=
  root ← unwrap (numberize (parse text) id Span_FULL);
  lines ← lines text;
  Val (Source.mkRepr id text root lines).

(** Create a source file with the same synthetic span for all nodes. *)
Definition synthesized (text : str) (span : Span) : outcome Source.Repr :=
  let root := synthesize (parse text) span in
  lines ← lines text;
  Val (Source.mkRepr FileId_detached text root lines).

(** Fully replace the source text. *)
Definition replace s (text : str) : outcome Source.Repr :=
  lines ← lines text;
  root ← unwrap (numberize (parse text) (Source.repr_id s) Span_FULL);
  Val (Source.mkRepr (Source.repr_id s) text root lines).

(** Get the length of the file in UTF-16 code units. *)
Definition len_utf16 s : outcome nat :=
  last ← unwrap (list.last (Source.repr_lines s));
  tail ← str_index_from (Source.repr_text s) (byte_idx last);
  add (utf16_idx last) (str_len_utf16 tail).

(** Return the index of the line that contains the given byte index. *)
Definition byte_to_line s (byte_idx : nat) : outcome (option nat) :=
  if decide (byte_idx ≤ str_len (Source.repr_text s)) then
    match binary_search_by_key Lines.byte_idx (Source.repr_lines s) byte_idx with
    | Found i => Val (Some i)
    | NotFound i => i' ← sub i 1; Val (Some i')
    end
  else Val None.

(** Return the index of the UTF-16 code unit at the byte index. *)
Definition byte_to_utf16 s (byte_idx : nat) : outcome (option nat) :=
  line_idx ←? byte_to_line s byte_idx;
  line ←? lift_opt (Source.repr_lines s !! line_idx);
  head ←? lift_opt (str_get (Source.repr_text s)
                      (mkRange (Lines.byte_idx line) byte_idx));
  u ← add (utf16_idx line) (str_len_utf16 head);
  Val (Some u).

(** Return the index of the column at the byte index. *)
Definition byte_to_column s (byte_idx : nat) : outcome (option nat) :=
  line ←? byte_to_line s byte_idx;
  start ←? lift_opt (Source.line_to_byte s line);
  head ←? lift_opt (Source.get s (mkRange start byte_idx));
  Val (Some (chars_count head)).

(** The [for] loop of [utf16_to_byte] over [char_indices]. *)
Fixpoint utf16_to_byte_loop (utf16_idx line_byte k : nat)
    (cs : list (nat * char)) : outcome (nat + nat) :=
  match cs with
  | [] => Val (inr k)
  | (i, c) :: cs' =>
      if decide (utf16_idx ≤ k) then inl <$> add line_byte i
      else k' ← add k (Unicode.len_utf16 c);
           utf16_to_byte_loop utf16_idx line_byte k' cs'
  end.

(** Return the byte index at the UTF-16 code unit. *)
Definition utf16_to_byte s (utf16_idx : nat) : outcome (option nat) :=
  idx ← match binary_search_by_key Lines.utf16_idx (Source.repr_lines s) utf16_idx with
        | Found i => Val i
        | NotFound i => sub i 1
        end;
  line ←? lift_opt (Source.repr_lines s !! idx);
  tail ← str_index_from (Source.repr_text s) (Lines.byte_idx line);
  r ← utf16_to_byte_loop utf16_idx (byte_idx line) (Lines.utf16_idx line)
         (char_indices tail);
  match r with
  | inl b => Val (Some b)
  | inr k => Val (bool_then (bool_decide (k = utf16_idx))
                    (str_len (Source.repr_text s)))
  end.

(** Return the range which encloses the given line. *)
Definition line_to_range s (line_idx : nat) : outcome (option Range) :=
  start ←? lift_opt (Source.line_to_byte s line_idx);
  next ← add line_idx 1;
  let end_ := default (str_len (Source.repr_text s)) (Source.line_to_byte s next) in
  Val (Some (mkRange start end_)).

(** Return the byte index of the given (line, column) pair. *)
Definition line_column_to_byte s (line_idx column_idx : nat) : outcome (option nat) :=
  range ←? line_to_range s line_idx;
  line ←? lift_opt (Source.get s range);
  let chars := drop column_idx line in
  eaten ← sub (str_len line) (str_len chars);
  b ← add (range_start range) eaten;
  Val (Some b).

(** Edit the source file by replacing the given range. *)
Definition edit s (replace : Range) (with_ : str) : outcome (Source.Repr * Range) :=
  let start_byte := range_start replace in
  start_utf16 ← byte_to_utf16 s start_byte ≫= unwrap;
  line ← byte_to_line s start_byte ≫= unwrap;
  text' ← replace_range (Source.repr_text s) replace with_;
  keep ← add line 1;
  let lines1 := truncate keep (Source.repr_lines s) in
  head ← str_index_to text' start_byte;
  let lines2 :=
    if ends_with head CR && starts_with with_ LF then pop lines1 else lines1 in
  tail ← str_index_from text' start_byte;
  more ← lines_from start_byte start_utf16 tail;
  let '(root', range) :=
    reparse (Source.repr_root s) text' replace (str_len with_) in
  Val (Source.mkRepr (Source.repr_id s) text' root' (lines2 ++ more), range).

End methods.
End Usize.

(** ** No addition overflows *)

Section fit.
Context `{Adder} `{Newlines} `{Parser}.
Implicit Types (s : Source.Repr) (text p q : str) (c : char).

(** Closes [fits m] from a hypothesis [fits n] with [m ≤ n] up to the
    lengths of concatenations. *)
Ltac solve_fits :=
  match goal with
  | Hf : fits ?n |- fits ?m =>
      apply (fits_le n m); [|exact Hf];
      rewrite ?str_len_app, ?str_len_utf16_app, ?str_len_cons, ?str_len_utf16_cons;
      simpl; lia
  end.

(** *** The line table *)

Lemma eat_until_loop_fits u cur text :
  fits (u + str_len_utf16 text) →
  Usize.eat_until_loop Usize.newline_pat u cur text
  = Val (Scanner.eat_until_loop Lines.newline_pat u cur text).
Proof.
  revert u cur. induction text as [|c text IH]; intros u cur Hf; simpl; [done|].
  unfold Usize.newline_pat, Lines.newline_pat.
  rewrite add_val by solve_fits. simpl.
  destruct (is_newline c); [done|]. apply IH. solve_fits.
Qed.

(** Where [eat_until] stops: the scanner has passed a prefix [p] of the
    text, and the closure has counted [p] and the newline it stopped at. *)
Lemma eat_until_newline u cur text :
  ∃ p, text = p ++ after (Scanner.eat_until_loop Lines.newline_pat u cur text).2
    ∧ cursor (Scanner.eat_until_loop Lines.newline_pat u cur text).2 = cur + str_len p
    ∧ (Scanner.eat_until_loop Lines.newline_pat u cur text).1
      = u + str_len_utf16 p
        + default 0 (len_utf16 <$>
            head (after (Scanner.eat_until_loop Lines.newline_pat u cur text).2)).
Proof.
  revert u cur. induction text as [|c text IH]; intros u cur; simpl.
  { exists []. rewrite str_len_nil, str_len_utf16_nil. simpl. auto with lia. }
  destruct (is_newline c); simpl.
  - exists []. rewrite str_len_nil, str_len_utf16_nil. simpl. auto with lia.
  - destruct (IH (u + len_utf16 c) (cur + len_utf8 c)) as (p & Hp & Hc & Hu).
    exists (c :: p). rewrite str_len_cons, str_len_utf16_cons.
    split_and!; [simpl; congruence|lia|lia].
Qed.

(** A call that yields a line leaves the sums of what is counted and what
    is left unchanged. *)
Lemma lines_from_next_state bo k u text ln sc' u' :
  lines_from_next bo (mkScanner k text, u) = (Some ln, (sc', u')) →
  cursor sc' + str_len (after sc') = k + str_len text
  ∧ u' + str_len_utf16 (after sc') = u + str_len_utf16 text.
Proof.
  unfold lines_from_next, Scanner.eat_until. simpl.
  destruct (eat_until_newline u k text) as (p & Hp & Hc & Hu).
  destruct (Scanner.eat_until_loop _ _ _ _) as [u1 [k1 r1]]. simpl in *. subst.
  rewrite str_len_app, str_len_utf16_app. unfold done_, eat, eat_if. simpl.
  destruct r1 as [|c [|d r2]]; simpl; repeat case_bool_decide; simplify_eq/=;
    intros; simplify_eq/=;
    rewrite ?str_len_cons, ?str_len_utf16_cons, ?str_len_nil, ?str_len_utf16_nil;
    autorewrite with rust_rw; simpl; try lia.
Qed.

Lemma lines_from_step_fits bo k u text :
  fits (bo + k + str_len text) → fits (u + str_len_utf16 text) →
  Usize.lines_from_step bo (mkScanner k text, u)
  = Val (lines_from_next bo (mkScanner k text, u)).
Proof.
  intros Hb Hu. unfold Usize.lines_from_step, lines_from_next, Usize.eat_until,
    Scanner.eat_until. simpl.
  rewrite eat_until_loop_fits by done. simpl.
  destruct (eat_until_newline u k text) as (p & Hp & Hc & Hu1).
  destruct (Scanner.eat_until_loop _ _ _ _) as [u1 [k1 r1]]. simpl in *. subst.
  rewrite str_len_app, str_len_utf16_app in *. unfold done_, eat, eat_if. simpl.
  destruct r1 as [|c [|d r2]]; simpl; [done|..]; repeat case_bool_decide; simplify_eq/=.
  all: rewrite ?str_len_cons, ?str_len_utf16_cons, ?str_len_nil, ?str_len_utf16_nil in *.
  all: autorewrite with rust_rw in *.
  all: rewrite ?add_val by solve_fits; simpl; rewrite ?add_val by solve_fits; done.
Qed.

Lemma lines_from_iter_fits bo st :
  fits (bo + cursor st.1 + str_len (after st.1)) →
  fits (st.2 + str_len_utf16 (after st.1)) →
  Usize.lines_from_iter bo st
  = Val (line_starts (bo + cursor st.1) st.2 (after st.1)).
Proof.
  funelim (Usize.lines_from_iter bo st); intros Hb Hu.
  all: destruct st as [[k text] u]; simpl in *.
  all: pose proof (lines_from_next_spec byte_offset k u text) as Hs.
  all: match goal with Heq : Usize.lines_from_step _ _ = _ |- _ =>
         pose proof Heq as Hn; rewrite lines_from_step_fits in Hn by done end.
  all: injection Hn as Hn || discriminate; rewrite Hn in Hs.
  - destruct st' as [sc' u']. apply lines_from_next_state in Hn as [Hb' Hu'].
    simpl in *.
    match goal with IH : _ → _ → Usize.lines_from_iter _ _ = _ |- _ =>
      rewrite Hs, IH; [done|solve_fits..] end.
  - by rewrite Hs.
Qed.

Lemma lines_from_fits b u text :
  fits (b + str_len text) → fits (u + str_len_utf16 text) →
  Usize.lines_from b u text = Val (lines_from b u text).
Proof.
  intros Hb Hu. unfold Usize.lines_from. rewrite lines_from_iter_fits; simpl.
  - unfold lines_from. by rewrite Nat.add_0_r, lines_from_iter_start.
  - solve_fits.
  - done.
Qed.

Lemma lines_fits text : small text → Usize.lines text = Val (lines text).
Proof.
  intros Hs. unfold Usize.lines, lines.
  rewrite lines_from_fits; [done|eapply small_fits; [done|]..]; simpl.
  - lia.
  - pose proof (str_len_utf16_le text). lia.
Qed.

(** The table of a text has at most one record more than the text has
    bytes. *)
Lemma lines_length_le text : length (lines text) ≤ S (str_len text).
Proof.
  rewrite lines_line_starts. simpl.
  pose proof (line_starts_length 0 0 text). pose proof (chars_count_le text). lia.
Qed.

Lemma new_fits id text : small text → Usize.new id text = Source.new id text.
Proof. intros Hs. unfold Usize.new, Source.new. by rewrite lines_fits. Qed.

Lemma replace_fits s text :
  small text → Usize.replace s text = Source.replace s text.
Proof. intros Hs. unfold Usize.replace, Source.replace. by rewrite lines_fits. Qed.

Lemma synthesized_fits text span :
  small text → Usize.synthesized text span = Val (Source.synthesized text span).
Proof. intros Hs. unfold Usize.synthesized. by rewrite lines_fits. Qed.

(** *** The queries *)

Lemma utf16_to_byte_loop_fits k base k0 i0 t :
  fits (k0 + str_len_utf16 t) → fits (base + i0 + str_len t) →
  Usize.utf16_to_byte_loop k base k0 (char_indices_from i0 t)
  = Val (Source.utf16_to_byte_loop k base k0 (char_indices_from i0 t)).
Proof.
  revert k0 i0. induction t as [|c t IH]; intros k0 i0 Hk Hb; simpl; [done|].
  case_decide; [by rewrite add_val by solve_fits|].
  rewrite add_val by solve_fits. simpl. apply IH; solve_fits.
Qed.

Section queries.
Context s (Hc : consistent s) (Hs : small (Source.repr_text s)).

(** The sum of the UTF-16 lengths of two adjacent parts of the text
    fits. *)
Lemma utf16_fits p m q :
  Source.repr_text s = p ++ m ++ q → fits (str_len_utf16 p + str_len_utf16 m).
Proof.
  intros Ht. eapply small_fits; [done|]. rewrite Ht, !str_len_app.
  pose proof (str_len_utf16_le p). pose proof (str_len_utf16_le m). lia.
Qed.

Lemma len_utf16_fits : Usize.len_utf16 s = Source.len_utf16 s.
Proof.
  unfold Usize.len_utf16, Source.len_utf16.
  destruct (list.last _) as [ln|] eqn:Hl; [|done]. simpl.
  rewrite last_lookup in Hl.
  destruct (consistent_line_at s _ ln Hc Hl) as (pl & rl & Ht & Hbl & Hul).
  rewrite Ht, Hbl, Hul, str_index_from_app. simpl.
  apply add_val, (utf16_fits pl rl []). by rewrite app_nil_r.
Qed.

(** The subtraction after a failed search has a difference that fits. *)
Lemma search_sub_fits (key : Line → nat) b i :
  sorted_keys key (Source.repr_lines s) → key (mkLine 0 0) = 0 →
  binary_search_by_key key (Source.repr_lines s) b = NotFound i →
  sub i 1 = checked_sub i 1.
Proof.
  intros Hsort Hk Hr. destruct (consistent_table_ok s Hc) as (Hh & _ & _).
  pose proof (binary_search_owner key _ b _ Hsort Hh) as Ho. rewrite Hk, Hr in Ho.
  destruct (Ho (Nat.le_0_l b)) as [Hi [(x & Hx%lookup_lt_Some & _) _]].
  rewrite Hc in Hx. pose proof (lines_length_le (Source.repr_text s)).
  rewrite sub_val, checked_sub_val; [done|lia|lia|].
  eapply small_fits; [done|lia].
Qed.

Lemma byte_to_line_fits b : Usize.byte_to_line s b = Source.byte_to_line s b.
Proof.
  unfold Usize.byte_to_line, Source.byte_to_line. case_decide; [|done].
  destruct (binary_search_by_key _ _ _) as [i|i] eqn:Hr; [done|].
  by rewrite (search_sub_fits byte_idx b i)
    by (done || apply (consistent_table_ok s Hc)).
Qed.

Lemma byte_to_column_fits b : Usize.byte_to_column s b = Source.byte_to_column s b.
Proof. unfold Usize.byte_to_column. by rewrite byte_to_line_fits. Qed.

Lemma byte_to_utf16_fits b : Usize.byte_to_utf16 s b = Source.byte_to_utf16 s b.
Proof.
  unfold Usize.byte_to_utf16, Source.byte_to_utf16. rewrite byte_to_line_fits.
  destruct (Source.byte_to_line s b) as [[i|]|]; simpl; [|done..].
  destruct (Source.repr_lines s !! i) as [ln|] eqn:Hln; simpl; [|done].
  destruct (str_get _ _) as [head|] eqn:Hg; simpl; [|done].
  apply str_get_spec in Hg as (p & q & Ht & Hp & _). simpl in Hp.
  destruct (consistent_line_at s i ln Hc Hln) as (pl & rl & Ht' & Hbl & ->).
  destruct (str_app_inj_len p (head ++ q) pl rl) as [-> _]; [congruence|lia|].
  by rewrite add_val by by eapply utf16_fits.
Qed.

Lemma utf16_to_byte_fits k : Usize.utf16_to_byte s k = Source.utf16_to_byte s k.
Proof.
  unfold Usize.utf16_to_byte, Source.utf16_to_byte.
  replace (match binary_search_by_key utf16_idx (Source.repr_lines s) k with
           | Found i => Val i
           | NotFound i => sub i 1
           end)
    with (match binary_search_by_key utf16_idx (Source.repr_lines s) k with
          | Found i => Val i
          | NotFound i => checked_sub i 1
          end).
  2:{ destruct (binary_search_by_key _ _ _) as [i|i] eqn:Hr; [done|].
      by rewrite (search_sub_fits utf16_idx k i)
        by (done || apply (consistent_table_ok s Hc)). }
  destruct (utf16_search_owner s k (consistent_table_ok s Hc))
    as (i & -> & [(ln & Hln & Hle) _]).
  simpl. rewrite Hln. simpl.
  destruct (consistent_line_at s i ln Hc Hln) as (pl & rl & Ht & Hbl & Hul).
  rewrite Ht, Hbl, Hul, str_index_from_app. simpl. unfold char_indices.
  rewrite utf16_to_byte_loop_fits; [done|..].
  - apply (utf16_fits pl rl []). by rewrite app_nil_r.
  - eapply small_fits; [done|]. rewrite Ht, str_len_app. lia.
Qed.

Lemma line_to_range_fits i :
  Usize.line_to_range s i = Val (Source.line_to_range s i).
Proof.
  unfold Usize.line_to_range, Source.line_to_range, Source.line_to_byte.
  destruct (Source.repr_lines s !! i) as [ln|] eqn:Hln; simpl; [|done].
  apply lookup_lt_Some in Hln. rewrite Hc in Hln.
  pose proof (lines_length_le (Source.repr_text s)).
  by rewrite add_val by (eapply small_fits; [done|lia]).
Qed.

Lemma line_column_to_byte_fits i col :
  Usize.line_column_to_byte s i col = Val (Source.line_column_to_byte s i col).
Proof.
  unfold Usize.line_column_to_byte, Source.line_column_to_byte.
  rewrite line_to_range_fits.
  destruct (Source.line_to_range s i) as [range|]; simpl; [|done].
  destruct (Source.get s range) as [line|] eqn:Hg; simpl; [|done].
  apply str_get_spec in Hg as (p & q & Ht & Hp & Hl). unfold Source.text in Ht.
  pose proof (sum_list_with_take_drop len_utf8 line col) as Hd.
  change (sum_list_with len_utf8) with str_len in Hd.
  assert (∀ n, n ≤ str_len p + str_len line → fits n) as Hfit.
  { intros n Hn. eapply small_fits; [done|]. rewrite Ht, !str_len_app. lia. }
  rewrite sub_val by (lia || apply Hfit; lia). simpl.
  rewrite add_val by (apply Hfit; lia). done.
Qed.

End queries.

(** *** The edit *)

(** The bytes of the text and of the replacement together bound every
    offset an edit computes. *)
Lemma edit_fits s range w :
  consistent s → small (Source.repr_text s ++ w) →
  Usize.edit s range w = Source.edit s range w.
Proof.
  intros Hc Hw. assert (small (Source.repr_text s)) as Hs.
  { revert Hw. unfold small. rewrite str_len_app. lia. }
  unfold Usize.edit, Source.edit.
  rewrite byte_to_utf16_fits, byte_to_line_fits by done.
  destruct (Source.byte_to_utf16 s _ ≫= unwrap) as [u|] eqn:Hu; simpl; [|done].
  destruct (Source.byte_to_line s _) as [[line|]|] eqn:Hl; simpl; [|done..].
  destruct (replace_range _ _ _) as [text'|] eqn:Hr; simpl; [|done].
  apply replace_range_spec in Hr as (p & m & q & Ht & Hp & Hm & ->).
  rewrite <- Hp in *.
  rewrite (byte_to_utf16_prefix s p (m ++ q)) in Hu by done. simpl in Hu.
  injection Hu as <-.
  apply byte_to_line_Some in Hl as [_ [(ln & Hln%lookup_lt_Some & _) _]]; [|done].
  rewrite Hc in Hln. pose proof (lines_length_le (Source.repr_text s)).
  rewrite add_val by (eapply small_fits; [exact Hs|lia]). simpl.
  rewrite str_index_to_app, str_index_from_app. simpl.
  rewrite lines_from_fits; [done|eapply small_fits; [exact Hw|]..].
  - rewrite Ht, !str_len_app. lia.
  - rewrite Ht, !str_len_app, str_len_utf16_app.
    pose proof (str_len_utf16_le p). pose proof (str_len_utf16_le w).
    pose proof (str_len_utf16_le q). lia.
Qed.

(** ** What is shown *)

(** C24. Building the line table of a text of at most [isize::MAX] bytes
    overflows no counter: in a build with overflow checks and in one
    without, [lines] over [usize] returns the table of the unbounded
    [lines], and so [new], [replace] and [synthesized] build what their
    unbounded models build. *)
Theorem lines_no_overflow text :
  small text →
  Usize.lines text = Val (lines text)
  ∧ (∀ id, Usize.new id text = Source.new id text)
  ∧ (∀ s, Usize.replace s text = Source.replace s text)
  ∧ (∀ span, Usize.synthesized text span = Val (Source.synthesized text span)).
Proof.
  intros Hs. split_and!; intros;
    auto using lines_fits, new_fits, replace_fits, synthesized_fits.
Qed.

(** C22. On a source whose table is the table of its text and whose text
    has at most [isize::MAX] bytes, no position query overflows and none
    subtracts below zero: in either build each query over [usize]
    returns what the unbounded query returns, for every argument,
    [usize::MAX] included. *)
Theorem queries_no_overflow s :
  consistent s → small (Source.repr_text s) →
  Usize.len_utf16 s = Source.len_utf16 s
  ∧ (∀ b, Usize.byte_to_utf16 s b = Source.byte_to_utf16 s b)
  ∧ (∀ b, Usize.byte_to_line s b = Source.byte_to_line s b)
  ∧ (∀ b, Usize.byte_to_column s b = Source.byte_to_column s b)
  ∧ (∀ k, Usize.utf16_to_byte s k = Source.utf16_to_byte s k)
  ∧ (∀ i, Usize.line_to_range s i = Val (Source.line_to_range s i))
  ∧ (∀ i col, Usize.line_column_to_byte s i col
              = Val (Source.line_column_to_byte s i col)).
Proof.
  intros Hc Hs. split_and!; intros;
    auto using len_utf16_fits, byte_to_utf16_fits, byte_to_line_fits,
      byte_to_column_fits, utf16_to_byte_fits, line_to_range_fits,
      line_column_to_byte_fits.
Qed.

(** C23. An edit overflows no counter when the text and the replacement
    together have at most [isize::MAX] bytes: in either build the edit
    over [usize] returns what the unbounded edit returns, and it panics
    exactly when its range is not a slice of the text, never on an
    overflow. *)
Theorem edit_no_overflow s range w :
  consistent s → small (Source.repr_text s ++ w) →
  Usize.edit s range w = Source.edit s range w
  ∧ (Usize.edit s range w = Panic ↔ str_get (Source.repr_text s) range = None).
Proof.
  intros Hc Hw. rewrite edit_fits by done. split; [done|].
  destruct (str_get _ range) as [m|] eqn:Hg.
  - apply str_get_spec in Hg as (p & q & Ht & Hp & Hm).
    destruct range as [a b]. simpl in *. subst a b.
    by rewrite (edit_spec s p m q w Hc Ht).
  - split; [done|intros _]. by apply edit_panic.
Qed.

End fit.

(** ** Examples *)

#[local] Existing Instance leaf_parser.

(** The two builds at a width of four bits. *)
Definition checked4 : @Adder usize4 := @checked usize4.
Definition wrapping4 : @Adder usize4 := @wrapping usize4.

(** At four bits a text of sixteen bytes overflows the counters of
    [lines]: fifteen letters and a line feed make the build with checks
    panic and the build without return a second record of offset zero,
    where the table has the record of offset sixteen.  A text of fifteen
    bytes overflows nothing, although it is longer than [isize::MAX]: the
    bound of the theorems is sufficient, not necessary. *)
Example lines_overflow :
  @Usize.lines usize4 checked4 spec_newlines (replicate 15 0x61%N ++ [LF]) = Panic
  ∧ @Usize.lines usize4 wrapping4 spec_newlines (replicate 15 0x61%N ++ [LF])
    = Val [mkLine 0 0; mkLine 0 0]
  ∧ lines (replicate 15 0x61%N ++ [LF]) = [mkLine 0 0; mkLine 16 16]
  ∧ @Usize.lines usize4 checked4 spec_newlines (replicate 15 0x61%N)
    = Val (lines (replicate 15 0x61%N))
  ∧ ¬ @small usize4 (replicate 15 0x61%N).
Proof. split_and!; [vm_compute; reflexivity..|by vm_compute]. Qed.

(** Fifteen line feeds at four bits: the table of sixteen lines is built
    without overflow, and [line_to_range] of the last line overflows on
    [line_idx + 1]: the build with checks panics, the build without wraps
    to line zero and returns the reversed range [15..0]. *)
Example line_to_range_overflow :
  let s := Source.synthesized (replicate 15 LF) (mkSpan FileId_detached 1) in
  @Usize.lines usize4 checked4 spec_newlines (replicate 15 LF)
  = Val (Source.repr_lines s)
  ∧ @Usize.line_to_range usize4 checked4 _ s 15 = Panic
  ∧ @Usize.line_to_range usize4 wrapping4 _ s 15 = Val (Some (mkRange 15 0))
  ∧ Source.line_to_range s 15 = Some (mkRange 15 15).
Proof. split_and!; vm_compute; reflexivity. Qed.

(** What the invariant rules out: the edit of ["\r\n"] that replaces the
    line feed by a line feed leaves a table without the record of offset
    zero, in either build, and on it the search of [byte_to_line] fails
    at zero and [i - 1] goes below zero.  The build with checks panics,
    as the unbounded model does; the build without answers with line
    [usize::MAX]. *)
Example byte_to_line_underflow :
  let s := Source.synthesized [CR; LF] (mkSpan FileId_detached 1) in
  let edited (build : @Adder usize4) :=
    @Usize.edit usize4 build _ _ s (mkRange 1 2) [LF] in
  (Source.repr_lines ∘ fst <$> edited wrapping4) = Val [mkLine 2 2]
  ∧ (Source.repr_lines ∘ fst <$> edited checked4) = Val [mkLine 2 2]
  ∧ (x ← edited checked4; @Usize.byte_to_line usize4 checked4 _ x.1 0) = Panic
  ∧ (x ← edited wrapping4; @Usize.byte_to_line usize4 wrapping4 _ x.1 0)
    = Val (Some 15).
Proof. split_and!; vm_compute; reflexivity. Qed.

(** At 64 bits the build without checks computes the table of the text
    of the unit tests, as the theorems say of every build. *)
Example lines_wrapping :
  @Usize.lines usize64 wrapping spec_newlines TEST = Val (lines TEST).
Proof. vm_compute. reflexivity. Qed.

Lemma lines_no_overflow_witness :
  Usize.lines TEST = Val (lines TEST)
  ∧ (∀ id, Usize.new id TEST = Source.new id TEST)
  ∧ (∀ s, Usize.replace s TEST = Source.replace s TEST)
  ∧ (∀ span, Usize.synthesized TEST span = Val (Source.synthesized TEST span)).
Proof. apply (lines_no_overflow TEST). by vm_compute. Defined.

Lemma queries_no_overflow_witness :
  Usize.len_utf16 test_source = Source.len_utf16 test_source
  ∧ (∀ b, Usize.byte_to_utf16 test_source b = Source.byte_to_utf16 test_source b)
  ∧ (∀ b, Usize.byte_to_line test_source b = Source.byte_to_line test_source b)
  ∧ (∀ b, Usize.byte_to_column test_source b
          = Source.byte_to_column test_source b)
  ∧ (∀ k, Usize.utf16_to_byte test_source k = Source.utf16_to_byte test_source k)
  ∧ (∀ i, Usize.line_to_range test_source i
          = Val (Source.line_to_range test_source i))
  ∧ (∀ i col, Usize.line_column_to_byte test_source i col
              = Val (Source.line_column_to_byte test_source i col)).
Proof.
  apply (queries_no_overflow test_source); [reflexivity|by vm_compute].
Defined.

Lemma edit_no_overflow_witness :
  Usize.edit crlf_source (mkRange 1 3) [LF; LF]
  = Source.edit crlf_source (mkRange 1 3) [LF; LF]
  ∧ (Usize.edit crlf_source (mkRange 1 3) [LF; LF] = Panic
     ↔ str_get (Source.repr_text crlf_source) (mkRange 1 3) = None).
Proof.
  apply (edit_no_overflow crlf_source (mkRange 1 3) [LF; LF]);
    [reflexivity|by vm_compute].
Defined.
