(* ===== verification/Sharing.v ===== *)
(** * Sources that share their state

    [Source] is [Arc<Repr>], cloned by copying the pointer, and [replace]
    and [edit] begin with [Arc::make_mut]: a handle that shares its state
    gets a copy of its own before anything is written.  This file models
    that: a store of cells holding a [Repr] each, variables of type
    [Source] bound to cells, the count of an [Arc] as the number of
    variables bound to its cell, and [new], [clone], [replace] and [edit]
    as programs on the store, statement by statement, so that the store a
    panic leaves is the store at the statement that panicked.

    The theorems say that a handle behaves as a value: what [edit] and
    [replace] compute through a handle is what [Source.edit] and
    [Source.replace] compute on the [Repr] it is bound to, and no other
    handle sees a change (copy on write).  An [edit] that panics has
    written nothing; a [replace] that panics has. *)

From stdpp Require Import gmap.
From S2P Require Import Prelude Unicode Lines Tree Source SourceSpec.

Module Shared.
Section shared.
Context `{Newlines} `{Parser}.

(** A value of type [Source]: the address of a cell.  A variable that
    holds one is a name. *)
Record Source : Type := Loc { loc_car : positive }.
Definition Var : Type := nat.

#[export] Instance Source_eq_dec : EqDecision Source.
Proof. solve_decision. Defined.

#[export] Instance Source_countable : Countable Source.
Proof. by apply (inj_countable' loc_car Loc); intros []. Defined.

#[export] Program Instance Source_infinite : Infinite Source :=
  inj_infinite Loc (λ l, Some (loc_car l)) _.
Next Obligation. done. Qed.

(** The cells, and the variables in scope. *)
Record Store : Type := mkStore {
  cells : gmap Source Source.Repr;
  vars : gmap Var Source;
}.

(** [Arc::strong_count]: the handles on a cell. *)
Definition strong_count (σ : Store) (l : Source) : nat :=
  size (filter (λ xl, xl.2 = l) (vars σ)).

(** What a variable holds, and the state behind it. *)
Definition read (σ : Store) (x : Var) : option Source.Repr :=
  l ← vars σ !! x; cells σ !! l.

(** ** Programs on the store *)

(** A program returns the store it leaves with its value or its panic. *)
Definition M (A : Type) : Type := Store → Store * outcome A.

#[export] Instance M_ret : MRet M := λ A a σ, (σ, Val a).

#[export] Instance M_bind : MBind M := λ A B k m σ,
  match m σ with
  | (σ', Val a) => k a σ'
  | (σ', Panic) => (σ', Panic)
  end.

(** A computation that does not touch the store. *)
Definition lift {A} (o : outcome A) : M A := λ σ, (σ, o).

(** [&*self.0] and a write to [*inner]. *)
Definition deref (x : Var) : M Source.Repr := λ σ, (σ, unwrap (read σ x)).

Definition modify (l : Source) (f : Source.Repr → Source.Repr) : M unit := λ σ,
  (mkStore (alter f l (cells σ)) (vars σ), Val ()).

Definition inner (l : Source) : M Source.Repr := λ σ, (σ, unwrap (cells σ !! l)).

(** The fields of [*inner], written one at a time. *)
Definition set_text (text : str) (r : Source.Repr) : Source.Repr :=
  Source.mkRepr (Source.repr_id r) text (Source.repr_root r) (Source.repr_lines r).

Definition set_lines (f : list Line → list Line) (r : Source.Repr) : Source.Repr :=
  Source.mkRepr (Source.repr_id r) (Source.repr_text r) (Source.repr_root r)
    (f (Source.repr_lines r)).

Definition set_root (root : SyntaxNode) (r : Source.Repr) : Source.Repr :=
  Source.mkRepr (Source.repr_id r) (Source.repr_text r) root (Source.repr_lines r).

(** The store in which [x] is bound to [l] and [l] holds [r]. *)
Definition write (σ : Store) (x : Var) (l : Source) (r : Source.Repr) : Store :=
  mkStore (<[l := r]> (cells σ)) (<[x := l]> (vars σ)).

(** [Arc::make_mut(&mut self.0)]: the cell of the variable if no other
    handle is on it, else a new cell with a copy, to which the variable is
    bound from then on. *)
Definition make_mut (x : Var) : M Source := λ σ,
  match vars σ !! x with
  | None => (σ, Panic)
  | Some l =>
      if decide (strong_count σ l = 1) then (σ, Val l)
      else
        match cells σ !! l with
        | None => (σ, Panic)
        | Some r =>
            let l' := fresh (dom (cells σ)) in (write σ x l' r, Val l')
        end
  end.

(** [let x = Source::new(id, text)]. *)
Definition new (x : Var) (id : FileId) (text : str) : M unit := λ σ,
  match Source.new id text with
  | Panic => (σ, Panic)
  | Val r => (write σ x (fresh (dom (cells σ))) r, Val ())
  end.

(** [let y = x.clone()]: the derived [Clone] copies the pointer. *)
Definition clone (x y : Var) : M unit := λ σ,
  match vars σ !! x with
  | None => (σ, Panic)
  | Some l => (mkStore (cells σ) (<[y := l]> (vars σ)), Val ())
  end.

(** [x.replace(text)]. *)
Definition replace (x : Var) (text : str) : M unit :=
  l ← make_mut x;
  modify l (set_text text);;
  modify l (set_lines (λ _, lines text));;
  inner_ ← inner l;
  root ← lift (unwrap (numberize (parse text) (Source.repr_id inner_) Span_FULL));
  modify l (set_root root).

(** [x.edit(replace, with)]. *)
Definition edit (x : Var) (replace : Range) (with_ : str) : M Range :=
  let start_byte := range_start replace in
  self ← deref x;
  start_utf16 ← lift (Source.byte_to_utf16 self start_byte ≫= unwrap);
  line ← lift (Source.byte_to_line self start_byte ≫= unwrap);
  l ← make_mut x;
  (* Update the text itself. *)
  inner_ ← inner l;
  text' ← lift (replace_range (Source.repr_text inner_) replace with_);
  modify l (set_text text');;
  (* Remove invalidated line starts. *)
  modify l (set_lines (truncate (line + 1)));;
  (* Handle adjoining of \r and \n. *)
  head ← lift (str_index_to text' start_byte);
  (if ends_with head CR && starts_with with_ LF
   then modify l (set_lines pop) else mret ());;
  (* Recalculate the line starts after the edit. *)
  tail ← lift (str_index_from text' start_byte);
  modify l (set_lines (λ ls, ls ++ lines_from start_byte start_utf16 tail));;
  (* Incrementally reparse the replaced range. *)
  inner_ ← inner l;
  let rr := reparse (Source.repr_root inner_) text' replace (str_len with_) in
  modify l (set_root rr.1);;
  mret rr.2.

(** ** Programs over several handles *)

(** The statements that create, copy and change sources. *)
Inductive Stmt : Type :=
| New (x : Var) (id : FileId) (text : str)
| Clone (x y : Var)
| Replace (x : Var) (text : str)
| Edit (x : Var) (replace : Range) (with_ : str).

(** What a statement returns: the reparsed range of an edit. *)
Definition exec (c : Stmt) : M (option Range) :=
  match c with
  | New x id text => new x id text;; mret None
  | Clone x y => clone x y;; mret None
  | Replace x text => replace x text;; mret None
  | Edit x range w => range' ← edit x range w; mret (Some range')
  end.

Fixpoint exec_all (cs : list Stmt) : M (list (option Range)) :=
  match cs with
  | [] => mret []
  | c :: cs' => a ← exec c; out ← exec_all cs'; mret (a :: out)
  end.

(** The same statements when a source is a value: a variable holds a
    [Repr], and a copy is a copy. *)
Notation "'Env'" := (gmap Var Source.Repr) (only parsing).

Definition step_val (ρ : Env) (c : Stmt) : outcome (Env * option Range) :=
  match c with
  | New x id text => r ← Source.new id text; Val (<[x := r]> ρ, None)
  | Clone x y => r ← unwrap (ρ !! x); Val (<[y := r]> ρ, None)
  | Replace x text =>
      r ← unwrap (ρ !! x); r' ← Source.replace r text; Val (<[x := r']> ρ, None)
  | Edit x range w =>
      r ← unwrap (ρ !! x); rr ← Source.edit r range w;
      Val (<[x := rr.1]> ρ, Some rr.2)
  end.

Fixpoint run_val (ρ : Env) (cs : list Stmt) : outcome (Env * list (option Range)) :=
  match cs with
  | [] => Val (ρ, [])
  | c :: cs' =>
      ρa ← step_val ρ c; ρout ← run_val ρa.1 cs'; Val (ρout.1, ρa.2 :: ρout.2)
  end.

(** What the variables of a store hold. *)
Definition env_of (σ : Store) : Env := omap (λ l, cells σ !! l) (vars σ).

(** ** What the theorems are about *)

(** Every variable is bound to a cell. *)
Definition wf (σ : Store) : Prop :=
  map_Forall (λ _ l, is_Some (cells σ !! l)) (vars σ).

(** No variable but [x] is bound to [l]. *)
Definition exclusive (σ : Store) (x : Var) (l : Source) : Prop :=
  ∀ y, vars σ !! y = Some l → y = x.

(** No variable but [x] sees a different state in [σ']. *)
Definition others_keep (x : Var) (σ σ' : Store) : Prop :=
  ∀ y, y ≠ x → read σ' y = read σ y.

(** The state [replace] leaves behind when numbering fails: the new
    text and its table, with the old tree. *)
Definition torn (r : Source.Repr) (text : str) : Source.Repr :=
  Source.mkRepr (Source.repr_id r) text (Source.repr_root r) (lines text).

(** A program run on [σ] through the handle [x] agrees with a method on
    values: the same value with the new state behind [x], or a panic with
    [kept] behind [x]; no other handle sees a change. *)
Definition agrees {A} (x : Var) (σ : Store) (kept : Source.Repr)
    (res : Store * outcome A) (v : outcome (Source.Repr * A)) : Prop :=
  match v with
  | Val (r', a) => res.2 = Val a ∧ read res.1 x = Some r'
  | Panic => res.2 = Panic ∧ read res.1 x = Some kept
  end ∧ others_keep x σ res.1 ∧ wf res.1.

(** A run on the store does what the run on values does: the same values
    and the same contents of the variables, or a panic. *)
Definition matches {A} (res : Store * outcome A) (v : outcome (Env * A)) : Prop :=
  match v with
  | Val (ρ, a) => res.2 = Val a ∧ env_of res.1 = ρ ∧ wf res.1
  | Panic => res.2 = Panic
  end.

(** ** The store *)

Lemma env_of_lookup σ x : env_of σ !! x = read σ x.
Proof. apply lookup_omap. Qed.

Lemma read_None σ x : wf σ → read σ x = None → vars σ !! x = None.
Proof.
  unfold read. intros Hwf Hr. destruct (vars σ !! x) as [l|] eqn:Hx; [|done].
  destruct (Hwf _ _ Hx) as [r Hl]. simpl in Hr. congruence.
Qed.

Lemma exclusive_count σ x l :
  strong_count σ l = 1 → vars σ !! x = Some l → exclusive σ x l.
Proof.
  unfold strong_count. intros Hn Hx y Hy.
  set (m := filter (λ xl, xl.2 = l) (vars σ)) in *.
  assert (m !! x = Some l ∧ m !! y = Some l) as [Hmx Hmy]
    by (split; by apply map_lookup_filter_Some).
  destruct (decide (y = x)) as [|Hne]; [done|].
  assert (size (delete x m) = 0) as Hz
    by (rewrite map_size_delete_Some by done; lia).
  apply map_size_empty_inv in Hz.
  assert (delete x m !! y = Some l) as Hd by (by rewrite lookup_delete_ne).
  by rewrite Hz, lookup_empty in Hd.
Qed.

Lemma exclusive_fresh σ x : wf σ → exclusive σ x (fresh (dom (cells σ))).
Proof.
  intros Hwf y Hy. destruct (Hwf _ _ Hy) as [r Hr].
  apply elem_of_dom_2 in Hr. by apply is_fresh in Hr.
Qed.

Lemma read_write σ x l r : read (write σ x l r) x = Some r.
Proof. unfold read, write. simpl. rewrite lookup_insert_eq. simpl. apply lookup_insert_eq. Qed.

Lemma others_keep_write σ x l r : exclusive σ x l → others_keep x σ (write σ x l r).
Proof.
  intros Hex y Hy. unfold read, write. simpl. rewrite lookup_insert_ne by done.
  destruct (vars σ !! y) as [l'|] eqn:Hl; [|done]. simpl.
  apply lookup_insert_ne. intros ->. by apply Hy, Hex.
Qed.

Lemma wf_write σ x l r : wf σ → wf (write σ x l r).
Proof.
  intros Hwf y l'. unfold write. simpl. intros Hy.
  destruct (decide (l = l')) as [->|]; [by rewrite lookup_insert_eq|].
  rewrite lookup_insert_ne by done.
  apply lookup_insert_Some in Hy as [[_ ?]|[_ Hy]]; [done|by eapply Hwf].
Qed.

Lemma write_write σ x l r r' : write (write σ x l r) x l r' = write σ x l r'.
Proof. unfold write. simpl. by rewrite !insert_insert_eq. Qed.

(** ** The statements of a method *)

Lemma make_mut_write σ x r :
  wf σ → read σ x = Some r →
  ∃ l, make_mut x σ = (write σ x l r, Val l) ∧ exclusive σ x l.
Proof.
  unfold read, make_mut. intros Hwf Hr.
  destruct (vars σ !! x) as [l|] eqn:Hx; [|done]. simpl in Hr. rewrite Hr.
  case_decide.
  - exists l. split; [|by apply exclusive_count].
    unfold write. rewrite !insert_id by done. by destruct σ.
  - eexists. split; [done|by apply exclusive_fresh].
Qed.

Lemma modify_write σ x l r f :
  modify l f (write σ x l r) = (write σ x l (f r), Val ()).
Proof. unfold modify, write. simpl. by rewrite alter_insert_eq. Qed.

Lemma inner_write σ x l r : inner l (write σ x l r) = (write σ x l r, Val r).
Proof. unfold inner, write. simpl. by rewrite lookup_insert_eq. Qed.

Lemma bind_run {A B} (m : M A) (k : A → M B) σ σ' a :
  m σ = (σ', Val a) → (m ≫= k) σ = k a σ'.
Proof. unfold mbind, M_bind. by intros ->. Qed.

Lemma bind_panic {A B} (m : M A) (k : A → M B) σ σ' :
  m σ = (σ', Panic) → (m ≫= k) σ = (σ', Panic).
Proof. unfold mbind, M_bind. by intros ->. Qed.

(** ** Agreement *)

Lemma run_lift {A B} (a : A) (k : A → M B) σ : (lift (Val a) ≫= k) σ = k a σ.
Proof. done. Qed.

Lemma run_lift_panic {A B} (k : A → M B) σ : (lift Panic ≫= k) σ = (σ, Panic).
Proof. done. Qed.

Lemma run_ret {A} (a : A) σ : mret (M:=M) a σ = (σ, Val a).
Proof. done. Qed.

Lemma run_ret_bind {A B} (a : A) (k : A → M B) σ : (mret a ≫= k) σ = k a σ.
Proof. done. Qed.

Lemma run_deref {B} σ x r (k : Source.Repr → M B) :
  read σ x = Some r → (deref x ≫= k) σ = k r σ.
Proof. intros Hr. apply bind_run. unfold deref. by rewrite Hr. Qed.

Lemma run_modify {B} σ x l r f (k : () → M B) :
  (modify l f ≫= k) (write σ x l r) = k () (write σ x l (f r)).
Proof. apply bind_run, modify_write. Qed.

Lemma run_inner {B} σ x l r (k : Source.Repr → M B) :
  (inner l ≫= k) (write σ x l r) = k r (write σ x l r).
Proof. apply bind_run, inner_write. Qed.

Create Rewrite HintDb store.
#[local] Hint Rewrite @run_lift @run_lift_panic @run_ret @run_ret_bind
  @run_modify @run_inner @modify_write : store.

#[local] Arguments M_bind : simpl never.

(** ** Agreement *)

Lemma agrees_unchanged {A} σ x r :
  wf σ → read σ x = Some r → agrees (A:=A) x σ r (σ, Panic) Panic.
Proof. by repeat split. Qed.

Lemma agrees_panic {A} σ x l r :
  wf σ → exclusive σ x l → agrees (A:=A) x σ r (write σ x l r, Panic) Panic.
Proof.
  repeat split; [apply read_write|by apply others_keep_write|by apply wf_write].
Qed.

Lemma agrees_val {A} σ x l kept r' (a : A) :
  wf σ → exclusive σ x l → agrees x σ kept (write σ x l r', Val a) (Val (r', a)).
Proof.
  repeat split; [apply read_write|by apply others_keep_write|by apply wf_write].
Qed.

(** What [agrees] says of the variables as a whole. *)
Lemma agrees_env {A} σ x kept (res : Store * outcome A) r' a :
  agrees x σ kept res (Val (r', a)) → env_of res.1 = <[x := r']> (env_of σ).
Proof.
  intros [[_ Hx] [Hy _]]. apply map_eq. intros y. rewrite env_of_lookup.
  destruct (decide (y = x)) as [->|Hne]; [by rewrite lookup_insert_eq|].
  by rewrite lookup_insert_ne, env_of_lookup, Hy.
Qed.

Lemma env_of_write σ x l r :
  exclusive σ x l → env_of (write σ x l r) = <[x := r]> (env_of σ).
Proof.
  intros Hex. apply map_eq. intros y. rewrite env_of_lookup.
  destruct (decide (y = x)) as [->|Hne];
    [by rewrite lookup_insert_eq, read_write|].
  by rewrite lookup_insert_ne, env_of_lookup, others_keep_write.
Qed.

(** ** The methods through a handle *)

Lemma edit_agrees σ x r range w :
  wf σ → read σ x = Some r →
  agrees x σ r (edit x range w σ) (Source.edit r range w).
Proof.
  intros Hwf Hr. unfold edit, Source.edit. rewrite (run_deref _ _ _ _ Hr).
  destruct (Source.byte_to_utf16 r _ ≫= unwrap) as [u|]; simpl;
    autorewrite with store; [|by apply agrees_unchanged].
  destruct (Source.byte_to_line r _ ≫= unwrap) as [ln|]; simpl;
    autorewrite with store; [|by apply agrees_unchanged].
  destruct (make_mut_write σ x r Hwf Hr) as (l & Hm & Hex).
  rewrite (bind_run _ _ _ _ _ Hm). autorewrite with store.
  destruct (replace_range _ _ _) as [t'|] eqn:Ht; simpl;
    autorewrite with store; [|by apply agrees_panic].
  apply replace_range_spec in Ht as (p & m & q & _ & Hp & _ & ->).
  rewrite <- Hp, str_index_to_app, str_index_from_app. simpl.
  autorewrite with store.
  destruct (ends_with p CR && starts_with w LF); autorewrite with store;
    simpl; destruct (reparse _ _ _ _); by apply agrees_val.
Qed.

Lemma replace_agrees σ x r text :
  wf σ → read σ x = Some r →
  agrees x σ (torn r text) (replace x text σ)
    (r' ← Source.replace r text; Val (r', ())).
Proof.
  intros Hwf Hr. unfold replace, Source.replace.
  destruct (make_mut_write σ x r Hwf Hr) as (l & Hm & Hex).
  rewrite (bind_run _ _ _ _ _ Hm). autorewrite with store. simpl.
  destruct (numberize _ _ _) as [root|]; simpl; autorewrite with store.
  - by apply agrees_val.
  - by apply agrees_panic.
Qed.

(** A method called on a variable that holds nothing panics. *)
Lemma make_mut_unbound σ x : vars σ !! x = None → make_mut x σ = (σ, Panic).
Proof. unfold make_mut. by intros ->. Qed.

Lemma edit_unbound σ x range w :
  read σ x = None → (edit x range w σ).2 = Panic.
Proof. intros Hr. unfold edit, mbind, M_bind, deref. by rewrite Hr. Qed.

Lemma replace_unbound σ x text :
  wf σ → read σ x = None → (replace x text σ).2 = Panic.
Proof.
  intros Hwf Hr. unfold replace.
  by erewrite bind_panic by by apply make_mut_unbound, read_None.
Qed.

(** [new] binds its variable to a cell of its own. *)
Lemma new_matches σ x id text :
  wf σ →
  matches (new x id text σ) (r ← Source.new id text; Val (<[x := r]> (env_of σ), ())).
Proof.
  intros Hwf. unfold new. destruct (Source.new id text) as [r|]; [|done].
  repeat split; [|by apply wf_write]. by apply env_of_write, exclusive_fresh.
Qed.

(** [clone] binds its variable to the cell of the other. *)
Lemma clone_matches σ x y :
  wf σ →
  matches (clone x y σ) (r ← unwrap (env_of σ !! x); Val (<[y := r]> (env_of σ), ())).
Proof.
  intros Hwf. rewrite env_of_lookup. unfold clone, read.
  destruct (vars σ !! x) as [l|] eqn:Hx; [|done].
  destruct (Hwf _ _ Hx) as [r Hl]. simpl. rewrite Hl. repeat split.
  - simpl. unfold env_of. simpl. by apply omap_insert_Some.
  - by apply map_Forall_insert_2.
Qed.

Lemma clone_count σ x y l :
  vars σ !! x = Some l → vars σ !! y = None →
  strong_count (clone x y σ).1 l = S (strong_count σ l).
Proof.
  intros Hx Hy. unfold clone, strong_count. rewrite Hx. simpl.
  rewrite map_filter_insert_True by done.
  by rewrite map_size_insert_None by by rewrite map_lookup_filter_None; left.
Qed.

(** ** Runs *)

Lemma matches_bind {A B} (m : M A) (k : A → M B) σ v (kv : Env → A → outcome (Env * B)) :
  matches (m σ) v →
  (∀ σ' a, wf σ' → matches (k a σ') (kv (env_of σ') a)) →
  matches ((m ≫= k) σ) (ρa ← v; kv ρa.1 ρa.2).
Proof.
  intros Hm Hk. unfold mbind at 1, M_bind.
  destruct v as [[ρ a]|], (m σ) as [σ' [a'|]]; simpl in *; try done.
  - destruct Hm as ([= ->] & <- & Hwf). by apply Hk.
  - by destruct Hm.
Qed.

Lemma matches_fmap {A B} (m : M A) σ v (f : A → B) :
  matches (m σ) v →
  matches ((m ≫= λ a, mret (f a)) σ) (ρa ← v; Val (ρa.1, f ρa.2)).
Proof. intros Hm. by apply (matches_bind _ _ _ _ (λ ρ a, Val (ρ, f a))). Qed.

Lemma matches_panic {A B} (m : M A) (k : A → M B) σ :
  (m σ).2 = Panic → matches ((m ≫= k) σ) Panic.
Proof. unfold mbind, M_bind. destruct (m σ) as [σ' o]. simpl. by intros ->. Qed.

Lemma agrees_matches {A} σ x kept (res : Store * outcome A) v :
  agrees x σ kept res v →
  matches res (ra ← v; Val (<[x := ra.1]> (env_of σ), ra.2)).
Proof.
  intros Ha. destruct v as [[r' a]|]; [|by destruct Ha as [[? _] _]].
  apply agrees_env in Ha as He. by destruct Ha as [[? _] [_ ?]].
Qed.

Lemma exec_matches σ c : wf σ → matches (exec c σ) (step_val (env_of σ) c).
Proof.
  intros Hwf. destruct c as [x id text|x y|x text|x range w]; simpl.
  - pose proof (matches_fmap _ _ _ (λ _, @None Range) (new_matches σ x id text Hwf)) as Hm.
    by destruct (Source.new id text).
  - pose proof (matches_fmap _ _ _ (λ _, @None Range) (clone_matches σ x y Hwf)) as Hm.
    by destruct (env_of σ !! x).
  - rewrite env_of_lookup. destruct (read σ x) as [r|] eqn:Hr; simpl;
      [|by apply matches_panic, replace_unbound].
    pose proof (matches_fmap _ _ _ (λ _, @None Range)
      (agrees_matches _ _ _ _ _ (replace_agrees σ x r text Hwf Hr))) as Hm.
    by destruct (Source.replace r text).
  - rewrite env_of_lookup. destruct (read σ x) as [r|] eqn:Hr; simpl;
      [|by apply matches_panic, edit_unbound].
    pose proof (matches_fmap _ _ _ Some
      (agrees_matches _ _ _ _ _ (edit_agrees σ x r range w Hwf Hr))) as Hm.
    by destruct (Source.edit r range w) as [[r' rg]|].
Qed.

Lemma exec_all_matches σ cs :
  wf σ → matches (exec_all cs σ) (run_val (env_of σ) cs).
Proof.
  revert σ. induction cs as [|c cs IH]; intros σ Hwf; [done|]. simpl.
  apply (matches_bind _ _ _ _ (λ ρ a, ρout ← run_val ρ cs; Val (ρout.1, a :: ρout.2)));
    [by apply exec_matches|].
  intros σ' a Hwf'. by apply matches_fmap, IH.
Qed.

(** C12. Handles are values.  A program of [new], [clone], [replace] and
    [edit] statements run on the store, where a clone shares its cell and
    [make_mut] copies it on the first write, returns what the same
    program returns when every variable holds a [Repr] of its own, and
    leaves in every variable what that program leaves; when one panics so
    does the other. *)
Theorem handles_are_values σ cs :
  wf σ →
  match run_val (env_of σ) cs with
  | Val (ρ, out) => ∃ σ', exec_all cs σ = (σ', Val out) ∧ env_of σ' = ρ ∧ wf σ'
  | Panic => ∃ σ', exec_all cs σ = (σ', Panic)
  end.
Proof.
  intros Hm%(exec_all_matches _ cs). destruct (exec_all cs σ) as [σ' o].
  destruct (run_val _ _) as [[ρ out]|]; simpl in *.
  - destruct Hm as (-> & <- & Hwf). by exists σ'.
  - subst. by exists σ'.
Qed.

(** C13. Copy on write.  An edit through a handle is not seen through any
    other handle, whether it returns or panics; when it returns, the
    handle holds what [Source.edit] returns on the state it held; when it
    panics, the handle holds the state it held: nothing was written. *)
Theorem edit_isolated σ x r range w :
  wf σ → read σ x = Some r →
  let res := edit x range w σ in
  (∀ y, y ≠ x → read res.1 y = read σ y) ∧
  match res.2 with
  | Val range' =>
      ∃ r', Source.edit r range w = Val (r', range') ∧ read res.1 x = Some r'
  | Panic => Source.edit r range w = Panic ∧ read res.1 x = Some r
  end.
Proof.
  intros Hwf Hr. destruct (edit_agrees σ x r range w Hwf Hr) as [Hv [Hy _]].
  split; [done|]. simpl.
  destruct (Source.edit r range w) as [[r' rg]|], Hv as [-> Hx]; eauto.
Qed.

(** C31. [replace] writes before it checks.  When the tree of the new text
    cannot be numbered, [replace] panics after the text and the line
    table were written and before the tree is: the handle is left with
    the new text and the old tree.  No other handle sees it. *)
Theorem replace_panic_torn σ x r text :
  wf σ → read σ x = Some r →
  numberize (parse text) (Source.repr_id r) Span_FULL = None →
  let res := replace x text σ in
  res.2 = Panic ∧ read res.1 x = Some (torn r text) ∧
  Source.replace r text = Panic ∧ ∀ y, y ≠ x → read res.1 y = read σ y.
Proof.
  intros Hwf Hr Hn. destruct (replace_agrees σ x r text Hwf Hr) as [Hv [Hy _]].
  unfold Source.replace in *. rewrite Hn in *. by destruct Hv.
Qed.

End shared.

(** ** Examples *)

(** Two handles on one cell that holds [r]. *)
Definition two_handles `{Parser} (r : Source.Repr) : Store :=
  write (write (mkStore ∅ ∅) 0 (Loc 1) r) 1 (Loc 1) r.

(** A parser whose trees cannot be numbered. *)
Definition unnumberable_parser : Parser := {|
  SyntaxNode := Leaf;
  SyntaxError := Empty_set;
  Markup := Leaf;
  LinkedNode := Leaf;
  parse text := mkLeaf text (mkSpan FileId_detached 1);
  numberize _ _ _ := None;
  synthesize l span := mkLeaf (leaf_text l) span;
  reparse := leaf_reparse;
  errors _ := [];
  cast_markup l := Some l;
  linked_find l span := if decide (leaf_span l = span) then Some l else None;
|}.

Lemma handles_are_values_witness :
  match run_val (H0:=leaf_parser) (env_of (mkStore ∅ ∅))
          [New 0 FileId_detached TEST; Clone 0 1; Edit 0 (mkRange 7 8) [LF];
           Replace 1 [CR; LF]] with
  | Val (ρ, out) =>
      ∃ σ', exec_all (H0:=leaf_parser)
              [New 0 FileId_detached TEST; Clone 0 1; Edit 0 (mkRange 7 8) [LF];
               Replace 1 [CR; LF]] (mkStore ∅ ∅) = (σ', Val out)
            ∧ env_of σ' = ρ ∧ wf σ'
  | Panic => ∃ σ', exec_all (H0:=leaf_parser)
              [New 0 FileId_detached TEST; Clone 0 1; Edit 0 (mkRange 7 8) [LF];
               Replace 1 [CR; LF]] (mkStore ∅ ∅) = (σ', Panic)
  end.
Proof. apply (handles_are_values (H0:=leaf_parser)), map_Forall_empty. Defined.

(** The source of the tests, for that parser. *)
Definition unnumbered_source : Source.Repr (H0:=unnumberable_parser) :=
  Source.synthesized (H0:=unnumberable_parser) TEST (mkSpan FileId_detached 1).

Lemma two_handles_wf `{Parser} r : wf (two_handles r).
Proof. apply wf_write, wf_write, map_Forall_empty. Qed.

Lemma edit_isolated_witness :
  let res := edit 0 (mkRange 7 8) [LF] (two_handles test_source) in
  (∀ y, y ≠ 0 → read res.1 y = read (two_handles test_source) y) ∧
  match res.2 with
  | Val range' =>
      ∃ r', Source.edit test_source (mkRange 7 8) [LF] = Val (r', range')
            ∧ read res.1 0 = Some r'
  | Panic => Source.edit test_source (mkRange 7 8) [LF] = Panic
             ∧ read res.1 0 = Some test_source
  end.
Proof.
  apply (edit_isolated (two_handles test_source) 0 test_source);
    [apply two_handles_wf|reflexivity].
Defined.

Lemma replace_panic_torn_witness :
  let res := replace 0 [CR; LF] (two_handles unnumbered_source) in
  res.2 = Panic ∧
  read res.1 0 = Some (torn unnumbered_source [CR; LF]) ∧
  Source.replace unnumbered_source [CR; LF] = Panic ∧
  ∀ y, y ≠ 0 → read res.1 y = read (two_handles unnumbered_source) y.
Proof.
  apply (replace_panic_torn (two_handles unnumbered_source) 0 unnumbered_source);
    [apply two_handles_wf|reflexivity|reflexivity].
Defined.

End Shared.
