(* ===== verification/Snapshot.v ===== *)
(** * The snapshot: text, table and tree together

    What [Source] promises about its tree, proved against the contract of
    the boundary ([ParserLaws]) and for every parser that keeps it: the
    tree of a source is the tree of the text of the source, spans apart,
    and is numbered for its file, as its line table is the table of its
    text.  This is the invariant [snapshot_ok].  [Source::new] and [Source::replace]
    establish it; [Source::edit] keeps it when the table is repaired and
    the new text can be numbered; so does every run of such changes.  On
    a snapshot a lookup by span answers exactly for the spans of the
    tree, and never for a span of another file. *)

From stdpp Require Import relations.
From S2P Require Import Prelude Unicode Lines Tree Syntax Source SourceSpec Edit.

Section snapshot.
Context `{Newlines} `{ParserLaws}.
Implicit Types (s : Source.Repr) (p m q w : str).

(** The tree of the text can be numbered for the file. *)
Definition numberable (id : FileId) (text : str) : Prop :=
  is_Some (numberize (parse text) id Span_FULL).

(** The representations agree: the table is the table of the text, and
    the tree is the tree of the text, spans apart, numbered for the
    file. *)
Definition snapshot_ok s : Prop :=
  consistent s
  ∧ (∀ sp, synthesize (Source.repr_root s) sp
           = synthesize (parse (Source.repr_text s)) sp)
  ∧ numbered (Source.repr_id s) (Source.repr_root s).

(** One change of a source: an edit of a slice that leaves the table
    repaired and a text that can be numbered, or a replacement. *)
Inductive change : Source.Repr → Source.Repr → Prop :=
| change_edit s p m q w s' range' :
    Source.repr_text s = p ++ m ++ q →
    edit_repairs p m q w = true →
    numberable (Source.repr_id s) (p ++ w ++ q) →
    Source.edit s (mkRange (str_len p) (str_len p + str_len m)) w = Val (s', range') →
    change s s'
| change_replace s text s' :
    Source.replace s text = Val s' → change s s'.

(** ** Construction *)

Lemma new_Val id text s :
  Source.new id text = Val s ↔
  ∃ root, numberize (parse text) id Span_FULL = Some root
          ∧ s = Source.mkRepr id text root (lines text).
Proof.
  unfold Source.new. destruct (numberize _ _ _) as [root|]; simpl.
  - split; [intros [= <-]; by exists root|by intros (? & [= <-] & ->)].
  - split; [done|by intros (? & ? & _)].
Qed.

(** The tree of a snapshot spans the text and is markup. *)
Lemma snapshot_text s :
  snapshot_ok s → node_text (Source.repr_root s) = Source.repr_text s.
Proof.
  intros (_ & Hs & _).
  rewrite (synthesize_eq_text _ _ _ (Hs (mkSpan FileId_detached 0))).
  apply parse_text.
Qed.

Lemma snapshot_markup s :
  snapshot_ok s → is_Some (cast_markup (Source.repr_root s)).
Proof.
  intros (_ & Hs & _).
  apply (synthesize_eq_markup _ _ _ (Hs (mkSpan FileId_detached 0))), parse_markup.
Qed.

Lemma numbered_snapshot id text root :
  numberize (parse text) id Span_FULL = Some root →
  snapshot_ok (Source.mkRepr id text root (lines text)).
Proof.
  intros Hn. split_and!; simpl; [done| |by eapply numberize_numbered].
  by eapply numberize_synthesize.
Qed.

Lemma replace_snapshot s text s' :
  Source.replace s text = Val s' →
  snapshot_ok s' ∧ Source.repr_text s' = text
  ∧ Source.repr_id s' = Source.repr_id s.
Proof.
  rewrite replace_new. intros (root & Hn & ->)%new_Val.
  split; [by apply numbered_snapshot|done].
Qed.

(** ** Edits *)

(** The tree of a snapshot whose text is [p ++ m ++ q] is a tree the
    reparser answers for. *)
Lemma snapshot_slice s p m q :
  snapshot_ok s → Source.repr_text s = p ++ m ++ q →
  numbered (Source.repr_id s) (Source.repr_root s)
  ∧ node_text (Source.repr_root s) = p ++ m ++ q.
Proof. intros Hok <-. split; [apply Hok|by apply snapshot_text]. Qed.

Lemma edit_value_snapshot s p m q w :
  snapshot_ok s → Source.repr_text s = p ++ m ++ q →
  edit_repairs p m q w = true →
  numberable (Source.repr_id s) (p ++ w ++ q) →
  snapshot_ok (edit_value s p m q w).1.
Proof.
  intros Hok Ht Hr Hnum. destruct (snapshot_slice s p m q Hok Ht) as [Hn Hnt].
  split_and!; simpl.
  - by apply edit_lines_consistent.
  - by apply (reparse_parse _ (Source.repr_id s) p m q w).
  - by apply (reparse_numbered _ (Source.repr_id s) p m q w).
Qed.

Lemma change_snapshot s s' :
  snapshot_ok s → change s s' →
  snapshot_ok s' ∧ Source.repr_id s' = Source.repr_id s.
Proof.
  intros Hok Hch. destruct Hch as [s p m q w s' rg Ht Hr Hn Hed|s text s' Hrep].
  - rewrite (edit_spec _ p m q w (proj1 Hok) Ht) in Hed. injection Hed as <- _.
    split; [by apply edit_value_snapshot|done].
  - by destruct (replace_snapshot _ _ _ Hrep) as (? & _ & ?).
Qed.

(** ** Lookup *)

Lemma snapshot_ids s :
  snapshot_ok s →
  Forall (λ sp, span_id sp = Source.repr_id s) (node_spans (Source.root s)).
Proof. intros (_ & _ & Hn). by eapply numbered_ids. Qed.

(** ** The theorems *)

(** C17. Construction.  [new] returns exactly when the tree of the text
    can be numbered, and then the source has the identity and the text it
    was given, its table is the table of the text, its tree spans the
    text, and every node has a span of its own, of that file, with a
    number of [Span::FULL]. *)
Theorem new_snapshot id text :
  match Source.new id text with
  | Val s =>
      Source.repr_id s = id ∧ Source.repr_text s = text ∧ snapshot_ok s
      ∧ NoDup (node_spans (Source.root s))
      ∧ Forall (λ sp, span_id sp = id
                      ∧ (Span_FULL.1 ≤ span_number sp < Span_FULL.2)%N)
          (node_spans (Source.root s))
  | Panic => ¬ numberable id text
  end.
Proof.
  destruct (Source.new id text) as [s|] eqn:Hs.
  - apply new_Val in Hs as (root & Hn & ->).
    pose proof (numbered_snapshot _ _ _ Hn) as Hok.
    split_and!; [done..|by eapply numbered_NoDup, numberize_numbered|].
    apply list.Forall_and. split; [by apply (snapshot_ids _ Hok)|].
    apply (numberize_within _ _ _ _ Hn).
  - apply new_panic in Hs. unfold numberable. rewrite Hs. by intros [? ?].
Qed.

(** C10. The guarantee of an edit.  An edit of a slice of a snapshot, when
    the table is repaired and the new text can be numbered, returns a
    snapshot of the new text: the table is the table of the new text,
    the tree is the tree of the new text, numbered for the file, and the
    identity is the old one.  The range returned lies in the new text
    and holds the replacement. *)
Theorem edit_snapshot s p m q w :
  snapshot_ok s → Source.repr_text s = p ++ m ++ q →
  edit_repairs p m q w = true →
  numberable (Source.repr_id s) (p ++ w ++ q) →
  ∃ s' range',
    Source.edit s (mkRange (str_len p) (str_len p + str_len m)) w = Val (s', range')
    ∧ snapshot_ok s'
    ∧ Source.repr_text s' = p ++ w ++ q
    ∧ Source.repr_id s' = Source.repr_id s
    ∧ range_start range' ≤ str_len p
    ∧ str_len p + str_len w ≤ range_end range' ≤ str_len (p ++ w ++ q).
Proof.
  intros Hok Ht Hr Hn. destruct (snapshot_slice s p m q Hok Ht) as [Hnum Hnt].
  eexists _, _. split; [apply edit_spec; [apply Hok|done]|].
  split_and!; [by apply edit_value_snapshot|done|done|..];
    by apply (reparse_range _ (Source.repr_id s) p m q w).
Qed.

(** C18. The snapshot invariant.  After any number of changes (edits that
    leave the table repaired and a text that can be numbered,
    replacements) a snapshot is a snapshot, of the same file. *)
Theorem changes_snapshot s s' :
  snapshot_ok s → rtc change s s' →
  snapshot_ok s' ∧ Source.repr_id s' = Source.repr_id s.
Proof.
  intros Hok Hr. induction Hr as [s|s1 s2 s3 Hch _ IH]; [done|].
  destruct (change_snapshot s1 s2 Hok Hch) as [Hok2 Hid].
  rewrite <- Hid. by apply IH.
Qed.

(** Lookup by identity.  On a snapshot [find] answers exactly for the
    spans of the nodes of the tree, and for no span of another file. *)
Theorem find_snapshot s sp :
  snapshot_ok s →
  (is_Some (Source.find s sp) ↔ sp ∈ node_spans (Source.root s))
  ∧ (span_id sp ≠ Source.id s → Source.find s sp = None).
Proof.
  intros Hok. assert (is_Some (Source.find s sp) ↔ sp ∈ node_spans (Source.root s))
    as Hiff by (eapply find_numbered, Hok).
  split; [done|]. intros Hid. apply eq_None_not_Some. rewrite Hiff.
  intros Hsp. eapply Hid, (proj1 (list.Forall_forall _ _) (snapshot_ids s Hok)), Hsp.
Qed.

(** C29. The typed tree.  On a snapshot [ast] never panics: it returns the
    errors of the tree when there are any, and the markup otherwise. *)
Theorem ast_snapshot s :
  snapshot_ok s →
  match Source.ast s with
  | Val (Source.Ok m) =>
      errors (Source.root s) = [] ∧ cast_markup (Source.root s) = Some m
  | Val (Source.Err errs) => errs = errors (Source.root s) ∧ errs ≠ []
  | Panic => False
  end.
Proof.
  intros [m Hm]%snapshot_markup. unfold Source.ast, Source.root.
  destruct (errors _) eqn:He; [|done]. by rewrite Hm.
Qed.

(** A synthesized source has the table of its text, a tree that spans
    the text, and one span on every node. *)
Theorem synthesized_snapshot text sp :
  let s := Source.synthesized text sp in
  consistent s ∧ node_text (Source.root s) = text
  ∧ Forall (λ sp', sp' = sp) (node_spans (Source.root s)).
Proof.
  split_and!; [done| |apply synthesize_spans].
  simpl. by rewrite synthesize_text, parse_text.
Qed.

(** An edit does not ask where a source comes from: a synthesized source
    is edited as any other, and the reparser is called on the tree that
    has one span everywhere. *)
Theorem synthesized_edit p m q w sp :
  ∃ s' range',
    Source.edit (Source.synthesized (p ++ m ++ q) sp)
      (mkRange (str_len p) (str_len p + str_len m)) w = Val (s', range')
    ∧ Source.repr_text s' = p ++ w ++ q
    ∧ (Source.repr_root s', range')
      = reparse_edit (synthesize (parse (p ++ m ++ q)) sp) p m q w.
Proof.
  eexists _, _. split; [by apply edit_spec|]. split; [done|].
  unfold reparse_edit. simpl. by destruct (reparse _ _ _ _).
Qed.

End snapshot.

(** ** Sources over trees *)

#[local] Existing Instance Syntax.tree_parser.
#[local] Existing Instance Syntax.tree_laws.

Section trees.
Context `{Newlines} `{Syntax.Reparser}.

(** C28. Construction over trees.  With the trees of [Syntax], [new]
    panics exactly when the tree of the text has more nodes than
    [Span::FULL] has numbers.  Otherwise it returns a snapshot: the
    spans of the tree, in pre-order, are the file with the numbers 2, 3,
    4 and so on, the tree spans the text, and [find] returns the first
    node with the span it is given, which is the only one. *)
Theorem new_tree id text :
  match Source.new id text with
  | Val s =>
      snapshot_ok s
      ∧ Syntax.spans (Source.root s)
        = Syntax.span_seq id 2 (Syntax.descendants (Syntax.grammar_parse text))
      ∧ Syntax.text (Source.root s) = text
      ∧ ∀ sp, Source.find s sp = Syntax.find_ref (Source.root s) sp
  | Panic =>
      (2 ^ 48 < 2 + N.of_nat (Syntax.descendants (Syntax.grammar_parse text)))%N
  end.
Proof.
  unfold Source.new. cbn [numberize parse Syntax.tree_parser].
  pose proof (Syntax.numberize_preorder (Syntax.grammar_parse text) id 2 (2 ^ 48))
    as Hn.
  change Span_FULL with (2, 2 ^ 48)%N.
  destruct (Syntax.numberize _ _ _) as [root|] eqn:Hr; simpl; [|done].
  destruct Hn as (_ & Hs & _). pose proof (numbered_snapshot id text root Hr) as Hok.
  apply Syntax.numberize_Some in Hr as [_ ->].
  split_and!; [done|done|by rewrite Syntax.text_number, Syntax.grammar_parse_text|].
  intros sp. apply (Syntax.find_numbered id), Syntax.numbered_number.
Qed.

End trees.

(** ** The theorems on trees of characters *)

#[local] Existing Instance Syntax.char_grammar.
#[local] Existing Instance Syntax.full_reparser.

(** The source [new] builds from the text of the unit tests, with the
    grammar that has a leaf for every character. *)
Definition tree_source : Source.Repr :=
  Source.mkRepr (FileId_of 1) TEST
    (Syntax.number (FileId_of 1) 2 (Syntax.char_parse TEST)
       : @SyntaxNode Syntax.tree_parser)
    (lines TEST).

Lemma tree_source_ok : snapshot_ok tree_source.
Proof.
  split_and!; [reflexivity| |by exists 2%N].
  intros sp. apply Syntax.synthesize_number.
Qed.

Lemma ast_snapshot_witness :
  match Source.ast tree_source with
  | Val (Source.Ok m) =>
      errors (Source.root tree_source) = []
      ∧ cast_markup (Source.root tree_source) = Some m
  | Val (Source.Err errs) => errs = errors (Source.root tree_source) ∧ errs ≠ []
  | Panic => False
  end.
Proof. apply ast_snapshot, tree_source_ok. Defined.

Lemma edit_snapshot_witness :
  ∃ s' range',
    Source.edit tree_source
      (mkRange (str_len [0xE4; 0x09]%N) (str_len [0xE4; 0x09]%N + str_len [0x63]%N))
      [CR] = Val (s', range')
    ∧ snapshot_ok s'
    ∧ Source.repr_text s' = [0xE4; 0x09]%N ++ [CR] ++ drop 3 TEST
    ∧ Source.repr_id s' = Source.repr_id tree_source
    ∧ range_start range' ≤ str_len [0xE4; 0x09]%N
    ∧ str_len [0xE4; 0x09]%N + str_len [CR] ≤ range_end range'
      ≤ str_len ([0xE4; 0x09]%N ++ [CR] ++ drop 3 TEST).
Proof.
  apply (edit_snapshot tree_source [0xE4; 0x09]%N [0x63]%N (drop 3 TEST) [CR]);
    [apply tree_source_ok|reflexivity|reflexivity|by eexists].
Defined.

Lemma changes_snapshot_witness :
  snapshot_ok (edit_value tree_source [0xE4; 0x09]%N [0x63]%N (drop 3 TEST) [CR]).1
  ∧ Source.repr_id
      (edit_value tree_source [0xE4; 0x09]%N [0x63]%N (drop 3 TEST) [CR]).1
    = Source.repr_id tree_source.
Proof.
  apply (changes_snapshot tree_source); [apply tree_source_ok|].
  apply rtc_once.
  eapply (change_edit tree_source [0xE4; 0x09]%N [0x63]%N (drop 3 TEST) [CR]);
    [reflexivity|reflexivity|by eexists|].
  by apply edit_spec.
Defined.

Lemma find_snapshot_witness :
  (is_Some (Source.find tree_source (mkSpan (FileId_of 1) 9))
   ↔ mkSpan (FileId_of 1) 9 ∈ node_spans (Source.root tree_source))
  ∧ (span_id (mkSpan (FileId_of 1) 9) ≠ Source.id tree_source →
     Source.find tree_source (mkSpan (FileId_of 1) 9) = None).
Proof. apply (find_snapshot tree_source), tree_source_ok. Defined.
