(* ===== verification/Handles.v ===== *)
(** * Every handle holds a snapshot

    The composition of [Sharing] and [Snapshot]: in a program over
    handles that share their state, where every edit leaves its table
    repaired and a text that can be numbered, every handle holds a
    snapshot before and after every statement: a text with its own table
    and its own tree, whatever was done through the other handles. *)

From stdpp Require Import gmap.
From S2P Require Import Prelude Unicode Lines Tree Syntax Source SourceSpec Edit.
From S2P Require Import Snapshot Sharing.

Section handles.
Context `{Newlines} `{ParserLaws}.

(** Every variable holds a snapshot. *)
Definition env_ok (ρ : gmap Shared.Var Source.Repr) : Prop :=
  map_Forall (λ _ r, snapshot_ok r) ρ.

(** An edit of the program replaces a slice of the text of its handle,
    leaves the table repaired and a text that can be numbered. *)
Definition stmt_ok (ρ : gmap Shared.Var Source.Repr) (c : Shared.Stmt) : Prop :=
  match c with
  | Shared.Edit x range w =>
      ∀ r, ρ !! x = Some r →
        ∃ p m q, Source.repr_text r = p ++ m ++ q
                 ∧ range = mkRange (str_len p) (str_len p + str_len m)
                 ∧ edit_repairs p m q w = true
                 ∧ numberable (Source.repr_id r) (p ++ w ++ q)
  | _ => True
  end.

(** Every statement of the program is such, where it runs. *)
Fixpoint run_ok (ρ : gmap Shared.Var Source.Repr) (cs : list Shared.Stmt) : Prop :=
  match cs with
  | [] => True
  | c :: cs' =>
      stmt_ok ρ c
      ∧ match Shared.step_val ρ c with
        | Val ρa => run_ok ρa.1 cs'
        | Panic => True
        end
  end.

Lemma step_val_ok ρ c ρ' a :
  env_ok ρ → stmt_ok ρ c → Shared.step_val ρ c = Val (ρ', a) → env_ok ρ'.
Proof.
  intros Hρ Hc Hs. destruct c as [x id text|x y|x text|x range w]; simpl in *.
  - destruct (Source.new id text) as [r|] eqn:Hr; simplify_eq/=.
    apply new_Val in Hr as (root & Hn & ->).
    by apply map_Forall_insert_2; [apply numbered_snapshot|].
  - destruct (ρ !! x) as [r|] eqn:Hx; simplify_eq/=.
    apply map_Forall_insert_2; [|done]. by apply (Hρ x).
  - destruct (ρ !! x) as [r|] eqn:Hx; simplify_eq/=.
    destruct (Source.replace r text) as [r'|] eqn:Hr; simplify_eq/=.
    apply map_Forall_insert_2; [|done]. by apply replace_snapshot in Hr as [? _].
  - destruct (ρ !! x) as [r|] eqn:Hx; simplify_eq/=.
    destruct (Hc r eq_refl) as (p & m & q & Ht & -> & Hr & Hn).
    rewrite (edit_spec r p m q w) in Hs by (done || apply (Hρ x r Hx)).
    simplify_eq/=. apply map_Forall_insert_2; [|done].
    apply edit_value_snapshot; [by apply (Hρ x)|done..].
Qed.

Lemma run_val_ok ρ cs ρ' out :
  env_ok ρ → run_ok ρ cs → Shared.run_val ρ cs = Val (ρ', out) → env_ok ρ'.
Proof.
  revert ρ out. induction cs as [|c cs IH]; intros ρ out Hρ Hok Hrun; simpl in *.
  { by simplify_eq. }
  destruct Hok as [Hc Hrest].
  destruct (Shared.step_val ρ c) as [[ρ1 a]|] eqn:Hs; simplify_eq/=.
  destruct (Shared.run_val ρ1 cs) as [[ρ2 out2]|] eqn:Hr; simplify_eq/=.
  eapply IH; [by eapply step_val_ok|done..].
Qed.

(** C14. Every handle holds a snapshot.  When every variable of the store
    holds a snapshot and the edits of a program are changes, then after
    the program every variable holds a snapshot: no handle is ever left
    with a text that its table or its tree does not fit, whatever the
    sharing between them was. *)
Theorem handles_hold_snapshots σ cs :
  Shared.wf σ → env_ok (Shared.env_of σ) → run_ok (Shared.env_of σ) cs →
  match Shared.exec_all cs σ with
  | (σ', Val _) => ∀ x r, Shared.read σ' x = Some r → snapshot_ok r
  | (_, Panic) => Shared.run_val (Shared.env_of σ) cs = Panic
  end.
Proof.
  intros Hwf Hρ Hok. pose proof (Shared.exec_all_matches σ cs Hwf) as Hm.
  destruct (Shared.exec_all cs σ) as [σ' [out|]],
    (Shared.run_val _ cs) as [[ρ' out']|] eqn:Hrun; simpl in *;
    try done; try (by destruct Hm).
  destruct Hm as (_ & <- & _). intros x r Hx.
  rewrite <- Shared.env_of_lookup in Hx.
  by eapply (run_val_ok _ _ _ _ Hρ Hok Hrun).
Qed.

End handles.

(** ** On trees of characters *)

#[local] Existing Instance Syntax.char_grammar.
#[local] Existing Instance Syntax.full_reparser.
#[local] Existing Instance Syntax.tree_parser.
#[local] Existing Instance Syntax.tree_laws.

(** Two handles on the source of the tests; the first is edited. *)
Definition example_program : list Shared.Stmt :=
  [Shared.Clone 0 1; Shared.Edit 0 (mkRange 3 4) [CR]; Shared.Replace 1 [CR; LF]].

Definition example_store : Shared.Store :=
  Shared.write (Shared.mkStore ∅ ∅) 0 (Shared.Loc 1) tree_source.

Lemma example_env : Shared.env_of example_store = <[0 := tree_source]> ∅.
Proof.
  unfold example_store. rewrite Shared.env_of_write; [done|].
  intros y Hy. simpl in Hy. by rewrite lookup_empty in Hy.
Qed.

Lemma handles_hold_snapshots_witness :
  match Shared.exec_all example_program example_store with
  | (σ', Val _) => ∀ x r, Shared.read σ' x = Some r → snapshot_ok r
  | (_, Panic) =>
      Shared.run_val (Shared.env_of example_store) example_program = Panic
  end.
Proof.
  apply handles_hold_snapshots.
  - apply Shared.wf_write, map_Forall_empty.
  - rewrite example_env.
    apply map_Forall_insert_2; [apply tree_source_ok|apply map_Forall_empty].
  - rewrite example_env. split; [done|].
    cbn [Shared.step_val]. rewrite lookup_insert_eq. split.
    + intros r. cbn [fst]. rewrite lookup_insert_ne, lookup_insert_eq by done.
      intros [= <-].
      by exists [0xE4; 0x09]%N, [0x63]%N, (drop 3 TEST); split_and!; [..|eexists].
    + cbn [Shared.step_val fst mbind outcome_bind unwrap].
      rewrite lookup_insert_ne, lookup_insert_eq by done.
      cbn [mbind outcome_bind unwrap].
      rewrite (edit_spec tree_source [0xE4; 0x09]%N [0x63]%N (drop 3 TEST) [CR])
        by done.
      split; [done|]. by destruct (Shared.step_val _ _).
Defined.
