(* ===== verification/Refine.v ===== *)
(** * The document a source file implements

    A source file keeps a table of line starts beside its text so that the
    position queries need not scan the text.  This file states what the
    table buys and what it must not change: the abstract document [Doc.t]
    is the identity, the text and the tree alone, every position query of
    it is computed from the text, and an edit of it is the replacement of a
    range and the reparse.  [serve] dispatches a request to the method of
    [impl Source] of that name, [Doc.serve] to the operation of the
    document; [abs] forgets the table.  The refinement theorems say that a
    consistent source answers every request as its document does, panics
    included, and that it stays consistent and in step with the document
    over any run of requests whose edits leave the table repaired
    ([safe]). *)

From S2P Require Import Prelude Unicode Search Scanner Lines Tree Source.
From S2P Require Import SourceSpec Edit.

(** ** Requests and answers *)

(** One request per public method of [impl Source]. *)
Inductive Request : Type :=
| Root | Ast | Id | Text
| Get (range : Range)
| Replace (text : str)
| LineToByte (line_idx : nat)
| ByteToLine (byte_idx : nat)
| ByteToUtf16 (byte_idx : nat)
| ByteToColumn (byte_idx : nat)
| Utf16ToByte (utf16_idx : nat)
| LineToRange (line_idx : nat)
| LineColumnToByte (line_idx column_idx : nat)
| LenBytes | LenUtf16 | LenLines
| Find (span : Span)
| Edit (replace : Range) (with_ : str).

Section answers.
Context `{Newlines} `{Parser}.

(** What a method returns to its caller. *)
Inductive Answer : Type :=
| ANode (root : SyntaxNode)
| AAst (ast : Source.SourceResult)
| AId (id : FileId)
| AText (text : str)
| ASlice (slice : option str)
| ADone
| AIndex (idx : option nat)
| ARange (range : option Range)
| ALen (len : nat)
| AFound (node : option LinkedNode)
| AReparsed (range : Range).

(** A run of requests, each served in the state the one before it left;
    the run panics when a request of it does. *)
Fixpoint run {St : Type} (serve : St → Request → outcome (St * Answer))
    (s : St) (requests : list Request) : outcome (St * list Answer) :=
  match requests with
  | [] => Val (s, [])
  | r :: requests' =>
      sa ← serve s r;
      sas ← run serve sa.1 requests';
      Val (sas.1, sa.2 :: sas.2)
  end.

(** The source file serving a request. *)
Definition serve (s : Source.Repr) (r : Request) : outcome (Source.Repr * Answer) :=
  match r with
  | Root => Val (s, ANode (Source.root s))
  | Ast => a ← Source.ast s; Val (s, AAst a)
  | Id => Val (s, AId (Source.id s))
  | Text => Val (s, AText (Source.text s))
  | Get range => Val (s, ASlice (Source.get s range))
  | Replace text => s' ← Source.replace s text; Val (s', ADone)
  | LineToByte i => Val (s, AIndex (Source.line_to_byte s i))
  | ByteToLine b => o ← Source.byte_to_line s b; Val (s, AIndex o)
  | ByteToUtf16 b => o ← Source.byte_to_utf16 s b; Val (s, AIndex o)
  | ByteToColumn b => o ← Source.byte_to_column s b; Val (s, AIndex o)
  | Utf16ToByte k => o ← Source.utf16_to_byte s k; Val (s, AIndex o)
  | LineToRange i => Val (s, ARange (Source.line_to_range s i))
  | LineColumnToByte l c => Val (s, AIndex (Source.line_column_to_byte s l c))
  | LenBytes => Val (s, ALen (Source.len_bytes s))
  | LenUtf16 => n ← Source.len_utf16 s; Val (s, ALen n)
  | LenLines => Val (s, ALen (Source.len_lines s))
  | Find span => Val (s, AFound (Source.find s span))
  | Edit range w => sr ← Source.edit s range w; Val (sr.1, AReparsed sr.2)
  end.

End answers.

(** ** The abstract document *)

Module Doc.
Section doc.
Context `{Newlines} `{Parser}.

(** The state: no line table. *)
Record t : Type := mk { id : FileId; text : str; root : SyntaxNode }.

(** The positions at which the lines of a text start: the start of the
    text, and the end of every line break. *)
Definition starts (text : str) : list Line := mkLine 0 0 :: line_starts 0 0 text.

Definition len_lines (text : str) : nat := length (starts text).

Definition line_to_byte (text : str) (i : nat) : option nat :=
  byte_idx <$> starts text !! i.

(** The line of a byte index is the number of line breaks that end at or
    before it. *)
Definition byte_to_line (text : str) (b : nat) : option nat :=
  if decide (b ≤ str_len text)
  then Some (length (filter (λ ln, byte_idx ln ≤ b) (line_starts 0 0 text)))
  else None.

(** The UTF-16 offset of a byte index is the UTF-16 length of the prefix
    that ends there. *)
Definition byte_to_utf16 (text : str) (b : nat) : option nat :=
  (λ pr, str_len_utf16 pr.1) <$> split_at_byte text b.

(** The column is the number of characters from the start of the line. *)
Definition byte_to_column (text : str) (b : nat) : option nat :=
  line ← byte_to_line text b;
  start ← line_to_byte text line;
  head ← str_get text (mkRange start b);
  Some (chars_count head).

Definition line_to_range (text : str) (i : nat) : option Range :=
  start ← line_to_byte text i;
  Some (mkRange start (default (str_len text) (line_to_byte text (i + 1)))).

(** The byte index of a line and column is the start of the line plus the
    bytes of the first [c] characters of it. *)
Definition line_column_to_byte (text : str) (l c : nat) : option nat :=
  range ← line_to_range text l;
  line ← str_get text range;
  Some (range_start range + str_len (take c line)).

Definition ast (d : t) : outcome Source.SourceResult :=
  match errors (root d) with
  | [] => m ← unwrap (cast_markup (root d)); Val (Source.Ok m)
  | errs => Val (Source.Err errs)
  end.

(** Replacing the text parses and numbers the new text. *)
Definition replace (d : t) (text' : str) : outcome t :=
  root' ← unwrap (numberize (parse text') (id d) Span_FULL);
  Val (mk (id d) text' root').

(** An edit replaces the range of the text and reparses. *)
Definition edit (d : t) (range : Range) (w : str) : outcome (t * Range) :=
  text' ← replace_range (text d) range w;
  let rr := reparse (root d) text' range (str_len w) in
  Val (mk (id d) text' rr.1, rr.2).

(** The document serving a request. *)
Definition serve (d : t) (r : Request) : outcome (t * Answer) :=
  match r with
  | Root => Val (d, ANode (root d))
  | Ast => a ← ast d; Val (d, AAst a)
  | Id => Val (d, AId (id d))
  | Text => Val (d, AText (text d))
  | Get range => Val (d, ASlice (str_get (text d) range))
  | Replace text' => d' ← replace d text'; Val (d', ADone)
  | LineToByte i => Val (d, AIndex (line_to_byte (text d) i))
  | ByteToLine b => Val (d, AIndex (byte_to_line (text d) b))
  | ByteToUtf16 b => Val (d, AIndex (byte_to_utf16 (text d) b))
  | ByteToColumn b => Val (d, AIndex (byte_to_column (text d) b))
  | Utf16ToByte k => Val (d, AIndex (utf16_to_byte_ref (text d) k))
  | LineToRange i => Val (d, ARange (line_to_range (text d) i))
  | LineColumnToByte l c => Val (d, AIndex (line_column_to_byte (text d) l c))
  | LenBytes => Val (d, ALen (str_len (text d)))
  | LenUtf16 => Val (d, ALen (str_len_utf16 (text d)))
  | LenLines => Val (d, ALen (len_lines (text d)))
  | Find span => Val (d, AFound (linked_find (root d) span))
  | Edit range w => dr ← edit d range w; Val (dr.1, AReparsed dr.2)
  end.

End doc.
End Doc.

(** ** The refinement relation *)

Section refinement.
Context `{Newlines} `{Parser}.
Implicit Types (s : Source.Repr) (d : Doc.t) (r : Request).

(** The document of a source: the source without its table. *)
Definition abs s : Doc.t :=
  Doc.mk (Source.repr_id s) (Source.repr_text s) (Source.repr_root s).

(** A source implements a document when it is consistent and the document
    is its own. *)
Definition refines s d : Prop := consistent s ∧ abs s = d.

(** Two outcomes agree: both panic, or both return, related values. *)
Definition outcome_rel {A B} (R : A → B → Prop) (x : outcome A) (y : outcome B)
    : Prop :=
  match x, y with
  | Val a, Val b => R a b
  | Panic, Panic => True
  | _, _ => False
  end.

(** The states are related and the answers equal. *)
Definition in_step {X} (sa : Source.Repr * X) (da : Doc.t * X) : Prop :=
  refines sa.1 da.1 ∧ sa.2 = da.2.

(** The three parts a range cuts a text into, when it is a slice of it. *)
Definition split_range (text : str) (range : Range) : option (str * str * str) :=
  if decide (range_start range ≤ range_end range) then
    '(p, t) ← split_at_byte text (range_start range);
    '(m, q) ← split_at_byte t (range_end range - range_start range);
    Some (p, m, q)
  else None.

(** A request is safe on a text unless it is an edit of a slice that the
    repair of the table does not cover. *)
Definition safe (text : str) r : bool :=
  match r with
  | Edit range w =>
      match split_range text range with
      | Some (p, m, q) => edit_repairs p m q w
      | None => true
      end
  | _ => true
  end.

(** Every request of a run is safe on the text it meets. *)
Fixpoint all_safe d (requests : list Request) : bool :=
  match requests with
  | [] => true
  | r :: requests' =>
      safe (Doc.text d) r
      && match Doc.serve d r with
         | Val da => all_safe da.1 requests'
         | Panic => true
         end
  end.

End refinement.

(** ** Each method against the document *)

Section refinement_facts.
Context `{Newlines} `{Parser}.
Implicit Types (s : Source.Repr) (d : Doc.t) (r : Request).

Lemma refines_abs s : consistent s → refines s (abs s).
Proof. by split. Qed.

Lemma line_to_byte_refines s i :
  consistent s →
  Source.line_to_byte s i = Doc.line_to_byte (Source.repr_text s) i.
Proof.
  intros Hc. unfold Source.line_to_byte, Doc.line_to_byte, Doc.starts.
  by rewrite Hc, lines_line_starts.
Qed.

(** The binary search counts the line breaks up to the byte index. *)
Lemma byte_to_line_refines s b :
  consistent s →
  Source.byte_to_line s b = Val (Doc.byte_to_line (Source.repr_text s) b).
Proof.
  intros Hc. pose proof (consistent_table_ok s Hc) as Hok.
  unfold Doc.byte_to_line. case_decide as Hb.
  - destruct (byte_to_line_owner s b Hok Hb) as (i & -> & Ho).
    apply owner_count in Ho; [|apply Hok].
    rewrite Hc, lines_line_starts, filter_cons_True in Ho by (simpl; lia).
    simpl in Ho. by simplify_eq.
  - apply byte_to_line_out_of_bounds. lia.
Qed.

Lemma byte_to_column_refines s b :
  consistent s →
  Source.byte_to_column s b = Val (Doc.byte_to_column (Source.repr_text s) b).
Proof.
  intros Hc.
  unfold Source.byte_to_column, Doc.byte_to_column, Source.get, Source.text.
  rewrite byte_to_line_refines by done.
  destruct (Doc.byte_to_line _ b) as [line|]; simpl; [|done].
  rewrite line_to_byte_refines by done.
  destruct (Doc.line_to_byte _ line) as [start|]; simpl; [|done].
  by destruct (str_get _ _).
Qed.

Lemma line_to_range_refines s i :
  consistent s →
  Source.line_to_range s i = Doc.line_to_range (Source.repr_text s) i.
Proof.
  intros Hc. unfold Source.line_to_range, Doc.line_to_range.
  by rewrite !line_to_byte_refines.
Qed.

Lemma line_column_to_byte_refines s l c :
  consistent s →
  Source.line_column_to_byte s l c
  = Doc.line_column_to_byte (Source.repr_text s) l c.
Proof.
  intros Hc. unfold Source.line_column_to_byte, Doc.line_column_to_byte,
    Source.get, Source.text.
  rewrite line_to_range_refines by done.
  destruct (Doc.line_to_range _ l) as [range|]; simpl; [|done].
  destruct (str_get _ range) as [line|]; simpl; [|done].
  do 2 f_equal. rewrite <- (take_drop c line) at 1. rewrite str_len_app. lia.
Qed.

(** ** Edits and replacements *)

Lemma split_range_Some text range p m q :
  split_range text range = Some (p, m, q) →
  text = p ++ m ++ q ∧ range = mkRange (str_len p) (str_len p + str_len m).
Proof.
  unfold split_range. destruct range as [a b]. simpl. case_decide; [|done].
  destruct (split_at_byte text a) as [[p' t]|] eqn:Hp; [|done]. simpl.
  destruct (split_at_byte t (b - a)) as [[m' q']|] eqn:Hm; [|done]. simpl.
  intros [= -> -> ->].
  apply split_at_byte_Some in Hp as [-> Hp], Hm as [-> Hm].
  split; [done|]. f_equal; lia.
Qed.

Lemma split_range_None text range :
  split_range text range = None → str_get text range = None.
Proof.
  unfold split_range, str_get. case_decide; [|done].
  destruct (split_at_byte text _) as [[p t]|]; [|done]. simpl.
  by destruct (split_at_byte t _) as [[m q]|].
Qed.

Lemma edit_refines s range w :
  consistent s → safe (Source.repr_text s) (Edit range w) = true →
  outcome_rel in_step (Source.edit s range w) (Doc.edit (abs s) range w).
Proof.
  intros Hc Hsafe. unfold safe in Hsafe. unfold Doc.edit. simpl.
  destruct (split_range _ range) as [[[p m] q]|] eqn:Hsp.
  - apply split_range_Some in Hsp as [Ht ->].
    rewrite (edit_spec s p m q w Hc Ht), Ht, replace_range_app. simpl.
    split; [|done]. split; [|done]. by apply edit_lines_consistent.
  - apply split_range_None in Hsp.
    rewrite edit_panic by done.
    by rewrite (proj2 (replace_range_panic _ _ w) Hsp).
Qed.

Lemma replace_refines s text :
  outcome_rel refines (Source.replace s text) (Doc.replace (abs s) text).
Proof.
  unfold Source.replace, Doc.replace. simpl.
  by destruct (numberize _ _ _).
Qed.

(** ** One request, and runs of requests *)

(** Served by a consistent source and by its document, a safe request
    gives the same answer and leaves the two in step, or panics in both. *)
Lemma serve_refines s d r :
  refines s d → safe (Doc.text d) r = true →
  outcome_rel in_step (serve s r) (Doc.serve d r).
Proof.
  intros [Hc <-] Hsafe. destruct r; simpl;
    rewrite ?byte_to_line_refines, ?byte_to_utf16_spec, ?byte_to_column_refines,
      ?utf16_to_byte_ref_eq, ?len_utf16_spec by done;
    try (by repeat split; rewrite
      ?line_to_byte_refines, ?line_to_range_refines,
      ?line_column_to_byte_refines, ?len_lines_spec by done).
  - unfold Source.ast, Doc.ast, Source.root. simpl.
    destruct (errors _); [|by repeat split].
    by destruct (cast_markup _); repeat split.
  - pose proof (replace_refines s text) as Hr.
    by destruct (Source.replace s text), (Doc.replace _ text).
  - pose proof (edit_refines s replace with_ Hc Hsafe) as He.
    destruct (Source.edit s _ _) as [[s' rg]|], (Doc.edit _ _ _) as [[d' rg']|];
      try done.
    destruct He as [Hr Hrg]. simpl in *. by subst.
Qed.

(** C11. A source file refines its document: over any run of requests
    whose edits leave the table repaired, a consistent source and the
    document without a table give the same answers, request by request,
    panic at the same request if at all, and end in step, the source
    consistent and its text, identity and tree those of the document. *)
Theorem source_refines_doc s d requests :
  refines s d → all_safe d requests = true →
  outcome_rel in_step (run serve s requests) (run Doc.serve d requests).
Proof.
  revert s d. induction requests as [|r requests IH]; intros s d Hr Hsafe; simpl.
  { by split. }
  simpl in Hsafe. apply andb_prop in Hsafe as [Hs Hrest].
  pose proof (serve_refines s d r Hr Hs) as Hstep.
  destruct (serve s r) as [[s1 a]|], (Doc.serve d r) as [[d1 a']|]; try done.
  destruct Hstep as [Hr1 Ha]. simpl in *. subst a'.
  specialize (IH s1 d1 Hr1 Hrest).
  destruct (run serve s1 requests) as [[s2 l]|],
    (run Doc.serve d1 requests) as [[d2 l']|]; try done.
  destruct IH as [Hr2 Hl]. simpl in *. by subst.
Qed.

End refinement_facts.

(** ** The refinement on the text of the unit tests *)

#[local] Existing Instance leaf_parser.

(** Queries, an edit, queries on the edited text, a replacement. *)
Definition test_requests : list Request :=
  [ByteToLine 9; Utf16ToByte 7; Edit (mkRange 12 13) [CR; LF]; LenLines;
   LineColumnToByte 2 1; ByteToUtf16 11; Replace [CR]; LineToRange 1; LenUtf16].

Lemma source_refines_doc_witness :
  outcome_rel in_step (run serve test_source test_requests)
    (run Doc.serve (abs test_source) test_requests).
Proof.
  apply (source_refines_doc test_source (abs test_source) test_requests);
    [by split | vm_compute; reflexivity].
Defined.
