(* ===== verification/Protocol.v ===== *)
(** * The protocol of a source file

    What a client of a source file can rely on, request by request: the
    type of every answer ([answer_ok]: the right kind of answer, present
    exactly when the request is in range, every byte index a character
    boundary of the text, every line index a line of it), that a run of
    requests on a consistent source is answered to its end ([defined]
    says which requests a document can answer), and that consistency can
    always be had again by replacing the text, whatever edits came
    before. *)

From stdpp Require Import relations.
From S2P Require Import Prelude Unicode Search Scanner Lines Tree Source.
From S2P Require Import SourceSpec Edit Refine.

Section protocol.
Context `{Newlines} `{Parser}.
Implicit Types (s : Source.Repr) (d : Doc.t) (r : Request) (text : str).

(** ** The type of an answer *)

(** An optional answer is present exactly when [defined], and then
    [good]. *)
Definition checks {A} (o : option A) (defined : bool) (good : A → bool) : bool :=
  match o with
  | Some a => defined && good a
  | None => negb defined
  end.

(** Whether [a] is an answer of the type of [r] on a document with this
    text: of the kind the method returns, present when the request is in
    range, and a position of the text. *)
Definition answer_ok text r (a : Answer) : bool :=
  let in_text b := bool_decide (b ≤ str_len text) in
  let is_line i := bool_decide (i < Doc.len_lines text) in
  match r, a with
  | Root, ANode _ | Ast, AAst _ | Id, AId _ | Find _, AFound _
  | Replace _, ADone | Edit _ _, AReparsed _ => true
  | Text, AText t => bool_decide (t = text)
  | Get range, ASlice o =>
      checks o (bool_decide (range_start range ≤ range_end range)
                && is_char_boundary text (range_start range)
                && is_char_boundary text (range_end range))
        (λ m, bool_decide (str_len m = range_end range - range_start range))
  | LineToByte i, AIndex o => checks o (is_line i) (is_char_boundary text)
  | ByteToLine b, AIndex o => checks o (in_text b) is_line
  | ByteToUtf16 b, AIndex o =>
      checks o (is_char_boundary text b)
        (λ u, bool_decide (u ≤ b) && bool_decide (u ≤ str_len_utf16 text))
  | ByteToColumn b, AIndex o =>
      checks o (is_char_boundary text b) (λ c, bool_decide (c ≤ b))
  | Utf16ToByte k, AIndex o =>
      match o with
      | Some b => is_char_boundary text b && bool_decide (k ≤ str_len_utf16 text)
      | None => bool_decide (str_len_utf16 text ≤ k + 1)
      end
  | LineToRange i, ARange o =>
      checks o (is_line i) (λ range, bool_decide (is_Some (str_get text range)))
  | LineColumnToByte l c, AIndex o => checks o (is_line l) (is_char_boundary text)
  | LenBytes, ALen n => bool_decide (n = str_len text)
  | LenUtf16, ALen n => bool_decide (n = str_len_utf16 text)
  | LenLines, ALen n => bool_decide (0 < n ≤ S (chars_count text))
  | _, _ => false
  end.

(** ** Progress *)

(** Whether the document answers the request: the tree casts to markup,
    the new text can be numbered, the range of an edit is a slice. *)
Definition defined d r : bool :=
  match r with
  | Ast => bool_decide (no_panic (Doc.ast d))
  | Replace text => bool_decide (no_panic (Doc.replace d text))
  | Edit range w => bool_decide (is_Some (str_get (Doc.text d) range))
  | _ => true
  end.

(** Every request of a run is defined and safe on the document it meets. *)
Fixpoint all_defined d (requests : list Request) : bool :=
  match requests with
  | [] => true
  | r :: requests' =>
      defined d r && safe (Doc.text d) r
      && match Doc.serve d r with
         | Val da => all_defined da.1 requests'
         | Panic => true
         end
  end.

(** ** Recovery *)

(** One request served, whatever it is: unsafe edits included. *)
Inductive step : Source.Repr → Source.Repr → Prop :=
| step_serve s r s' a : serve s r = Val (s', a) → step s s'.

End protocol.

(** ** Every answer has its type *)

Section typing.
Context `{Newlines} `{Parser}.
Implicit Types (s : Source.Repr) (d : Doc.t) (r : Request) (text : str).

Lemma checks_intro {A} (o : option A) defined good :
  (is_Some o ↔ defined = true) → (∀ a, o = Some a → good a = true) →
  checks o defined good = true.
Proof.
  intros Hd Hg. destruct o as [a|]; simpl.
  - rewrite (Hg a eq_refl), (proj1 Hd) by eauto. done.
  - destruct defined; [|done]. by destruct (proj2 Hd eq_refl).
Qed.

Lemma len_lines_doc s :
  consistent s → Doc.len_lines (Source.repr_text s) = length (Source.repr_lines s).
Proof.
  intros Hc. unfold Doc.len_lines, Doc.starts. by rewrite Hc, lines_line_starts.
Qed.

Lemma boundary_prefix (p r : str) : is_char_boundary (p ++ r) (str_len p) = true.
Proof. apply is_char_boundary_spec. by exists p, r. Qed.

Lemma line_to_byte_ok s i :
  consistent s →
  answer_ok (Source.repr_text s) (LineToByte i) (AIndex (Source.line_to_byte s i))
  = true.
Proof.
  intros Hc. unfold answer_ok, Source.line_to_byte. apply checks_intro.
  - rewrite fmap_is_Some, bool_decide_eq_true, len_lines_doc by done.
    apply lookup_lt_is_Some.
  - intros b (ln & Hl & ->)%fmap_Some.
    destruct (consistent_line_at s i ln Hc Hl) as (p & r & -> & -> & _).
    apply boundary_prefix.
Qed.

Lemma byte_to_line_ok text b :
  answer_ok text (ByteToLine b) (AIndex (Doc.byte_to_line text b)) = true.
Proof.
  unfold answer_ok, Doc.byte_to_line, Doc.len_lines, Doc.starts.
  case_decide; simpl.
  - rewrite !bool_decide_eq_true_2; [done| |done].
    pose proof (length_filter (λ ln, byte_idx ln ≤ b) (line_starts 0 0 text)). lia.
  - by rewrite bool_decide_eq_false_2.
Qed.

Lemma byte_to_utf16_ok text b :
  answer_ok text (ByteToUtf16 b) (AIndex (Doc.byte_to_utf16 text b)) = true.
Proof.
  unfold answer_ok, Doc.byte_to_utf16, is_char_boundary.
  destruct (split_at_byte text b) as [[p r]|] eqn:Hs; simpl; [|done].
  apply split_at_byte_Some in Hs as [-> <-].
  pose proof (str_len_utf16_le p).
  rewrite !bool_decide_eq_true_2; [done|rewrite str_len_utf16_app; lia|done].
Qed.

Lemma byte_to_column_ok s b o :
  consistent s → Source.byte_to_column s b = Val o →
  answer_ok (Source.repr_text s) (ByteToColumn b) (AIndex o) = true.
Proof.
  intros Hc Hcol. unfold answer_ok, is_char_boundary.
  destruct (decide (b ≤ str_len (Source.repr_text s))) as [Hb|Hb].
  - destruct (byte_to_line_prefix s b Hc Hb)
      as (i & ln & pl & rl & Hi & _ & Hln & Ht & Hbl & _ & Hle).
    rewrite (byte_to_column_at s b i ln pl rl) in Hcol by done.
    injection Hcol as <-. rewrite Ht, split_at_byte_app_r by done.
    destruct (split_at_byte rl _) as [[m r]|] eqn:Hs; simpl; [|done].
    apply split_at_byte_Some in Hs as [_ Hm]. pose proof (chars_count_le m).
    apply bool_decide_eq_true_2. lia.
  - unfold Source.byte_to_column in Hcol.
    rewrite byte_to_line_out_of_bounds in Hcol by lia. injection Hcol as <-.
    by rewrite split_at_byte_gt by lia.
Qed.

Lemma utf16_to_byte_ok text k :
  answer_ok text (Utf16ToByte k) (AIndex (utf16_to_byte_ref text k)) = true.
Proof.
  unfold answer_ok. destruct (utf16_to_byte_ref text k) as [b|] eqn:Hr.
  - apply utf16_to_byte_ref_spec in Hr as (p & r & -> & <- & Hk).
    rewrite boundary_prefix. apply bool_decide_eq_true_2.
    destruct Hk as [<-|(_ & p' & c & -> & <- & Hc2)];
      autorewrite with rust_rw; simpl; lia.
  - apply bool_decide_eq_true_2.
    destruct (utf16_position text k)
      as [(p & r & -> & <-)|[(p & c & [|d r] & -> & <- & Hc2)|Hgt]]; [| | |lia].
    + by rewrite utf16_to_byte_ref_prefix in Hr.
    + autorewrite with rust_rw. simpl. lia.
    + by rewrite utf16_to_byte_ref_inside in Hr.
Qed.

Lemma get_ok s range :
  answer_ok (Source.repr_text s) (Get range) (ASlice (Source.get s range)) = true.
Proof.
  unfold answer_ok, Source.get, Source.text. apply checks_intro.
  - rewrite str_get_is_Some, !andb_true_iff, bool_decide_eq_true. tauto.
  - intros m (p & q & _ & Hp & Hm)%str_get_spec. apply bool_decide_eq_true_2. lia.
Qed.

(** A line of the table is a slice of the text; past the table there is
    no range. *)
Lemma line_to_range_cases s i :
  consistent s →
  (i < Doc.len_lines (Source.repr_text s)
   ∧ ∃ pl mid rest, Source.repr_text s = pl ++ mid ++ rest
       ∧ Source.line_to_range s i
         = Some (mkRange (str_len pl) (str_len pl + str_len mid)))
  ∨ (¬ i < Doc.len_lines (Source.repr_text s) ∧ Source.line_to_range s i = None).
Proof.
  intros Hc. rewrite len_lines_doc by done.
  destruct (Source.repr_lines s !! i) as [ln|] eqn:Hln.
  - left. split; [by eapply lookup_lt_Some|].
    destruct (consistent_line_at s i ln Hc Hln) as (pl & rl & Ht & Hb & _).
    destruct (line_to_range_spec s i ln pl rl Hc Hln Ht Hb)
      as (mid & rest & -> & Hr & _).
    by exists pl, mid, rest.
  - right. apply lookup_ge_None in Hln as Hge. split; [lia|].
    unfold Source.line_to_range, Source.line_to_byte. by rewrite Hln.
Qed.

Lemma line_to_range_ok s i :
  consistent s →
  answer_ok (Source.repr_text s) (LineToRange i) (ARange (Source.line_to_range s i))
  = true.
Proof.
  intros Hc. unfold answer_ok.
  destruct (line_to_range_cases s i Hc)
    as [(Hi & pl & mid & rest & Ht & ->)|[Hi ->]]; simpl.
  - rewrite !bool_decide_eq_true_2; [done| |done].
    rewrite Ht. eexists. apply str_get_app.
  - by rewrite bool_decide_eq_false_2.
Qed.

Lemma line_column_to_byte_ok s l c :
  consistent s →
  answer_ok (Source.repr_text s) (LineColumnToByte l c)
    (AIndex (Source.line_column_to_byte s l c)) = true.
Proof.
  intros Hc. unfold answer_ok, Source.line_column_to_byte, Source.get, Source.text.
  destruct (line_to_range_cases s l Hc)
    as [(Hi & pl & mid & rest & Ht & ->)|[Hi ->]]; simpl.
  - rewrite bool_decide_eq_true_2 by done. rewrite Ht, str_get_app. simpl.
    apply is_char_boundary_spec. exists (pl ++ take c mid), (drop c mid ++ rest).
    rewrite <- app_assoc, (app_assoc (take c mid)), take_drop. split; [done|].
    rewrite <- (take_drop c mid) at 2. autorewrite with rust_rw. lia.
  - by rewrite bool_decide_eq_false_2.
Qed.

Lemma len_lines_ok s :
  consistent s →
  answer_ok (Source.repr_text s) LenLines (ALen (Source.len_lines s)) = true.
Proof.
  intros Hc. unfold answer_ok. rewrite len_lines_spec by done.
  pose proof (line_starts_length 0 0 (Source.repr_text s)).
  apply bool_decide_eq_true_2. lia.
Qed.

(** C15. Every answer of a consistent source has the type of its request:
    it is of the kind the method returns; an optional answer is present
    exactly when the request is in range (a line of the table, a byte
    index up to the length of the text, a character boundary); every byte
    index returned is a character boundary of the text, every line index a
    line of the table, every range a slice. *)
Theorem serve_well_typed s r s' a :
  consistent s → serve s r = Val (s', a) →
  answer_ok (Source.repr_text s) r a = true.
Proof.
  intros Hc Hs. destruct r; simpl in Hs;
    rewrite ?byte_to_line_refines, ?byte_to_utf16_spec, ?utf16_to_byte_ref_eq,
      ?len_utf16_spec in Hs by done;
    repeat match type of Hs with
    | context [mbind _ ?m] => destruct m eqn:?; simpl in Hs; [|done]
    end;
    injection Hs as <- <-; simplify_eq;
    first [ done | by apply bool_decide_eq_true_2
          | by auto using line_to_byte_ok, byte_to_line_ok, byte_to_utf16_ok,
              byte_to_column_ok, utf16_to_byte_ok, get_ok, line_to_range_ok,
              line_column_to_byte_ok, len_lines_ok ].
Qed.

End typing.

(** ** Progress and recovery *)

Section progress.
Context `{Newlines} `{Parser}.
Implicit Types (s : Source.Repr) (d : Doc.t) (r : Request) (text : str).

(** The document answers every request that is defined on it. *)
Lemma doc_serve_defined d r : defined d r = true → no_panic (Doc.serve d r).
Proof.
  destruct r; simpl; try done; intros Hd%bool_decide_eq_true.
  - by destruct (Doc.ast d).
  - by destruct (Doc.replace d text).
  - unfold Doc.edit. destruct Hd as [m Hm].
    destruct (replace_range _ _ _) eqn:Hr; [done|].
    apply replace_range_panic in Hr. congruence.
Qed.

(** An edit keeps the identity of the source, consistent or not. *)
Lemma edit_id s range w s' range' :
  Source.edit s range w = Val (s', range') → Source.repr_id s' = Source.repr_id s.
Proof.
  unfold Source.edit. intros Hed.
  repeat match type of Hed with
  | context [mbind _ ?m] => destruct m eqn:?; simpl in Hed; [|done]
  end.
  destruct (reparse _ _ _ _). by simplify_eq.
Qed.

Lemma step_id s s' : step s s' → Source.repr_id s' = Source.repr_id s.
Proof.
  intros [s1 r s2 a Hs]. destruct r; simpl in Hs;
    try (by repeat match type of Hs with
            | context [mbind _ ?m] => destruct m eqn:?; simpl in Hs; [|done]
            end; simplify_eq).
  - unfold Source.replace in Hs. destruct (numberize _ _ _); by simplify_eq/=.
  - destruct (Source.edit s1 _ _) as [[s3 rg]|] eqn:He; [|done].
    simpl in Hs. simplify_eq. by eapply edit_id.
Qed.

Lemma steps_id s0 s : rtc step s0 s → Source.repr_id s = Source.repr_id s0.
Proof.
  induction 1 as [|s1 s2 s3 Hs _ IH]; [done|]. rewrite IH. by apply step_id.
Qed.

(** C16. Every request of a run is answered: on a consistent source, a run
    of requests that are defined and safe on the documents they meet
    returns, with one answer for each request, and leaves a consistent
    source.  No position query, and no edit or replacement that the
    document accepts, stops the run. *)
Theorem run_answered s requests :
  consistent s → all_defined (abs s) requests = true →
  ∃ s' answers,
    run serve s requests = Val (s', answers)
    ∧ length answers = length requests ∧ consistent s'.
Proof.
  revert s. induction requests as [|r requests IH]; intros s Hc Hd; simpl in *.
  { by exists s, []. }
  apply andb_prop in Hd as [[Hdef Hsafe]%andb_prop Hrest].
  pose proof (serve_refines s (abs s) r (refines_abs s Hc) Hsafe) as Hstep.
  pose proof (doc_serve_defined _ _ Hdef) as Hnp.
  destruct (serve s r) as [[s1 a]|], (Doc.serve (abs s) r) as [[d1 a']|]; try done.
  destruct Hstep as [[Hc1 Hd1] _]. simpl in *. subst d1.
  destruct (IH s1 Hc1 Hrest) as (s' & answers & -> & Hlen & Hc').
  exists s', (a :: answers). simpl. by rewrite Hlen.
Qed.

(** Consistency can always be had again: from every source that any
    requests have led to, edits that broke the table included, one
    replacement of the text by a text that can be numbered leads to a
    consistent source with that text and the identity the source started
    with. *)
Theorem consistency_recoverable s0 s text :
  rtc step s0 s →
  is_Some (numberize (parse text) (Source.repr_id s0) Span_FULL) →
  ∃ s', step s s' ∧ consistent s' ∧ Source.repr_text s' = text
        ∧ Source.repr_id s' = Source.repr_id s0.
Proof.
  intros Hid%steps_id [root' Hn].
  exists (Source.mkRepr (Source.repr_id s0) text root' (lines text)).
  split_and!; try done.
  apply (step_serve s (Replace text) _ ADone). simpl.
  unfold Source.replace. by rewrite Hid, Hn.
Qed.

End progress.

(** ** The theorems on concrete sources *)

#[local] Existing Instance leaf_parser.

(** The source an edit between a carriage return and its line feed
    leaves: its table lacks a record. *)
Definition broken_source : Source.Repr :=
  (edit_value crlf_source [0x61; CR]%N [LF] [0x62]%N [LF]).1.

Lemma serve_well_typed_witness :
  answer_ok (Source.repr_text test_source) (LineColumnToByte 1 2) (AIndex (Some 12))
  = true.
Proof. apply (serve_well_typed test_source _ test_source); reflexivity. Defined.

Lemma run_answered_witness :
  ∃ s' answers,
    run serve test_source
      [ByteToLine 9; Edit (mkRange 0 2) [0x78]%N; LineToByte 1; LenUtf16]
    = Val (s', answers)
    ∧ length answers = 4 ∧ consistent s'.
Proof.
  apply (run_answered test_source
           [ByteToLine 9; Edit (mkRange 0 2) [0x78]%N; LineToByte 1; LenUtf16]);
    [reflexivity | vm_compute; reflexivity].
Defined.

Lemma consistency_recoverable_witness :
  ∃ s', step broken_source s' ∧ consistent s' ∧ Source.repr_text s' = TEST
        ∧ Source.repr_id s' = Source.repr_id crlf_source.
Proof.
  apply (consistency_recoverable crlf_source broken_source TEST); [|by eexists].
  apply rtc_once. eapply (step_serve _ (Edit (mkRange 2 3) [LF])). simpl.
  by rewrite (edit_spec crlf_source [0x61; CR]%N [LF] [0x62]%N [LF]).
Defined.
