(* ===== verification/Tests.v ===== *)
(** * The unit tests of [source.rs]

    The module [tests] of [source.rs], test by test: every test function is
    a computation that panics when an assertion fails, run on the parser
    for examples ([leaf_parser]; the tests look at the text and the line
    table only).  Each test of the source passes on the model. *)

From stdpp Require Import strings.
From S2P Require Import Prelude Unicode Search Scanner Lines Tree Source.

#[local] Existing Instance leaf_parser.
#[local] Open Scope N_scope.

(** [assert_eq!]: panics unless the two values are equal. *)
Definition assert_eq {A} `{EqDecision A} (a b : A) : outcome unit :=
  if decide (a = b) then Val () else Panic.

(** A string literal without escapes, as its characters. *)
Definition lit (s : string) : str :=
  (λ a, Ascii.N_of_ascii a) <$> String.list_ascii_of_string s.

Definition test_source_file_new : outcome unit :=
  source ← Source.detached TEST;
  assert_eq (Source.repr_lines source)
    [mkLine 0 0; mkLine 7 6; mkLine 15 12; mkLine 18 15].

Definition test_source_file_pos_to_line : outcome unit :=
  source ← Source.detached TEST;
  (Source.byte_to_line source 0 ≫= λ r, assert_eq r (Some 0%nat));;
  (Source.byte_to_line source 2 ≫= λ r, assert_eq r (Some 0%nat));;
  (Source.byte_to_line source 6 ≫= λ r, assert_eq r (Some 0%nat));;
  (Source.byte_to_line source 7 ≫= λ r, assert_eq r (Some 1%nat));;
  (Source.byte_to_line source 8 ≫= λ r, assert_eq r (Some 1%nat));;
  (Source.byte_to_line source 12 ≫= λ r, assert_eq r (Some 1%nat));;
  (Source.byte_to_line source 21 ≫= λ r, assert_eq r (Some 3%nat));;
  (Source.byte_to_line source 22 ≫= λ r, assert_eq r None).

Definition test_source_file_pos_to_column : outcome unit :=
  source ← Source.detached TEST;
  (Source.byte_to_column source 0 ≫= λ r, assert_eq r (Some 0%nat));;
  (Source.byte_to_column source 2 ≫= λ r, assert_eq r (Some 1%nat));;
  (Source.byte_to_column source 6 ≫= λ r, assert_eq r (Some 5%nat));;
  (Source.byte_to_column source 7 ≫= λ r, assert_eq r (Some 0%nat));;
  (Source.byte_to_column source 8 ≫= λ r, assert_eq r (Some 1%nat));;
  (Source.byte_to_column source 12 ≫= λ r, assert_eq r (Some 2%nat)).

(** [roundtrip] of [test_source_file_utf16]. *)
Definition roundtrip_utf16 (source : Source.Repr) (byte_idx utf16_idx : nat) :
    outcome unit :=
  middle ← Source.byte_to_utf16 source byte_idx ≫= unwrap;
  result ← Source.utf16_to_byte source middle ≫= unwrap;
  assert_eq middle utf16_idx;;
  assert_eq result byte_idx.

Definition test_source_file_utf16 : outcome unit :=
  source ← Source.detached TEST;
  roundtrip_utf16 source 0 0;;
  roundtrip_utf16 source 2 1;;
  roundtrip_utf16 source 3 2;;
  roundtrip_utf16 source 8 7;;
  roundtrip_utf16 source 12 9;;
  roundtrip_utf16 source 21 18;;
  (Source.byte_to_utf16 source 22 ≫= λ r, assert_eq r None);;
  (Source.utf16_to_byte source 19 ≫= λ r, assert_eq r None).

(** [roundtrip] of [test_source_file_roundtrip]. *)
Definition roundtrip_line_column (source : Source.Repr) (byte_idx : nat) :
    outcome unit :=
  line ← Source.byte_to_line source byte_idx ≫= unwrap;
  column ← Source.byte_to_column source byte_idx ≫= unwrap;
  result ← unwrap (Source.line_column_to_byte source line column);
  assert_eq result byte_idx.

Definition test_source_file_roundtrip : outcome unit :=
  source ← Source.detached TEST;
  roundtrip_line_column source 0;;
  roundtrip_line_column source 7;;
  roundtrip_line_column source 12;;
  roundtrip_line_column source 21.

(** [test] of [test_source_file_edit]: the text and the line table after
    the edit are those of a source built from the expected text. *)
Definition test_edit (prev : str) (range : Range) (with_ after : str) : outcome unit :=
  source ← Source.detached prev;
  result ← Source.detached after;
  '(source', _) ← Source.edit source range with_;
  assert_eq (Source.text source') (Source.text result);;
  assert_eq (Source.repr_lines source') (Source.repr_lines result).

Definition test_source_file_edit : outcome unit :=
  (* Test inserting at the beginning. *)
  test_edit (lit "abc" ++ [LF]) (mkRange 0 0) (lit "hi" ++ [LF])
    (lit "hi" ++ [LF] ++ lit "abc" ++ [LF]);;
  test_edit ([LF] ++ lit "abc") (mkRange 0 0) (lit "hi" ++ [CR])
    (lit "hi" ++ [CR; LF] ++ lit "abc");;
  (* Test editing in the middle. *)
  test_edit TEST (mkRange 4 16) [0x274C]
    ([0xE4; 0x09] ++ lit "c" ++ [0x274C] ++ lit "i" ++ [CR] ++ lit "jkl");;
  (* Test appending. *)
  test_edit (lit "abc" ++ [LF] ++ lit "def") (mkRange 7 7) (lit "hi")
    (lit "abc" ++ [LF] ++ lit "defhi");;
  test_edit (lit "abc" ++ [LF] ++ lit "def" ++ [LF]) (mkRange 8 8) (lit "hi")
    (lit "abc" ++ [LF] ++ lit "def" ++ [LF] ++ lit "hi");;
  (* Test appending with adjoining \r and \n. *)
  test_edit (lit "abc" ++ [LF] ++ lit "def" ++ [CR]) (mkRange 8 8)
    ([LF] ++ lit "ghi")
    (lit "abc" ++ [LF] ++ lit "def" ++ [CR; LF] ++ lit "ghi");;
  (* Test removing everything. *)
  test_edit TEST (mkRange 0 21) [] [].

(** ** The tests pass *)

(** The tests of the position queries pass: the table of the test
    text has the four records [test_source_file_new] expects, and the
    lines, columns, UTF-16 round trips and line and column round trips
    are those the other four tests assert. *)
Theorem position_tests_pass :
  test_source_file_new = Val ()
  ∧ test_source_file_pos_to_line = Val ()
  ∧ test_source_file_pos_to_column = Val ()
  ∧ test_source_file_utf16 = Val ()
  ∧ test_source_file_roundtrip = Val ().
Proof. split_and!; vm_compute; reflexivity. Qed.

(** [test_source_file_edit] passes: on the seven edits of the test,
    one of which joins a carriage return and a line feed, the edited
    source has the text and the table of a source built from the result. *)
Theorem test_source_file_edit_passes : test_source_file_edit = Val ().
Proof. vm_compute. reflexivity. Qed.
