(* ===== verification/Equation.v ===== *)
(** * Mathematical formulas: the module and the equation element

    [math/mod.rs]: the function [module], which fills the scope of the
    math module, and the element [EquationElem] with its implementations
    of [Synthesize], [Count], [LocalName], [Refable] and [Outlinable].
    Scopes are finite maps from names to values; in a deduplicating scope
    defining a name twice panics.  Content, numberings, the style chain and
    the counters belong to other crates: they are the operations of the
    class [Typesetter], and every theorem holds for every instance.  A
    field of an element is set or unset; reading a field looks at the
    element, then at the style chain, then takes the default.  Functions
    that take [&mut Vt] return the new [Vt] with their result. *)

From stdpp Require Import strings gmap.
From S2P Require Import Prelude.

Module Math.

(** ** Scopes and the module *)

Section scope.
Context {Value : Type}.

(** [Scope]: the bindings, and whether duplicate definitions panic. *)
Record Scope : Type := mkScope {
  scope_map : gmap string Value;
  scope_deduplicate : bool;
}.

(** [Scope::deduplicating()]. *)
Definition deduplicating : Scope := mkScope ∅ true.

(** [Scope::define(name, value)]. *)
Definition define (s : Scope) (name : string) (v : Value) : outcome Scope :=
  if scope_deduplicate s && bool_decide (is_Some (scope_map s !! name)) then Panic
  else Val (mkScope (<[name := v]> (scope_map s)) (scope_deduplicate s)).

(** A run of [define]s, in order. *)
Fixpoint define_all (s : Scope) (defs : list (string * Value)) : outcome Scope :=
  match defs with
  | [] => Val s
  | (name, v) :: defs' => s' ← define s name v; define_all s' defs'
  end.

(** [Module]: a name and a scope. *)
Record Module : Type := mkModule { module_name : string; module_scope : Scope }.

(** [Module::new(name)]. *)
Definition Module_new (name : string) : Module := mkModule name (mkScope ∅ false).

(** [Module::with_scope(scope)]. *)
Definition with_scope (m : Module) (scope : Scope) : Module :=
  mkModule (module_name m) scope.

End scope.
Arguments Scope : clear implicits.
Arguments Module : clear implicits.

(** What [module] binds names to: the function of an element, a native
    function, or a symbol. *)
Inductive Value {Symbol : Type} : Type :=
| ElemFunc (elem : string)
| NativeFunc (func : string)
| SymbolValue (symbol : Symbol).
Arguments Value : clear implicits.

Section module.
Context {Symbol : Type}.
(** What [op::define] and [spacing::define] define, and the table
    [symbols::SYM]. *)
Context (op_defs spacing_defs : list (string * Value Symbol)).
Context (SYM : list (string * Symbol)).

(** The definitions [module] writes out, in the order of the source. *)
Definition math_defs : list (string * Value Symbol) :=
  [ ("equation", ElemFunc "EquationElem");
    ("text", ElemFunc "TextElem");
    (* Grouping. *)
    ("lr", ElemFunc "LrElem");
    ("abs", NativeFunc "abs_func");
    ("norm", NativeFunc "norm_func");
    ("floor", NativeFunc "floor_func");
    ("ceil", NativeFunc "ceil_func");
    ("round", NativeFunc "round_func");
    (* Attachments and accents. *)
    ("attach", ElemFunc "AttachElem");
    ("scripts", ElemFunc "ScriptsElem");
    ("limits", ElemFunc "LimitsElem");
    ("accent", ElemFunc "AccentElem");
    ("underline", ElemFunc "UnderlineElem");
    ("overline", ElemFunc "OverlineElem");
    ("underbrace", ElemFunc "UnderbraceElem");
    ("overbrace", ElemFunc "OverbraceElem");
    ("underbracket", ElemFunc "UnderbracketElem");
    ("overbracket", ElemFunc "OverbracketElem");
    ("cancel", ElemFunc "CancelElem");
    (* Fractions and matrix-likes. *)
    ("frac", ElemFunc "FracElem");
    ("binom", ElemFunc "BinomElem");
    ("vec", ElemFunc "VecElem");
    ("mat", ElemFunc "MatElem");
    ("cases", ElemFunc "CasesElem");
    (* Roots. *)
    ("sqrt", NativeFunc "sqrt_func");
    ("root", ElemFunc "RootElem");
    (* Styles. *)
    ("upright", NativeFunc "upright_func");
    ("bold", NativeFunc "bold_func");
    ("italic", NativeFunc "italic_func");
    ("serif", NativeFunc "serif_func");
    ("sans", NativeFunc "sans_func");
    ("cal", NativeFunc "cal_func");
    ("frak", NativeFunc "frak_func");
    ("mono", NativeFunc "mono_func");
    ("bb", NativeFunc "bb_func");
    ("display", NativeFunc "display_func");
    ("inline", NativeFunc "inline_func");
    ("script", NativeFunc "script_func");
    ("sscript", NativeFunc "sscript_func");
    ("class", ElemFunc "ClassElem");
    (* Text operators. *)
    ("op", ElemFunc "OpElem") ].

(** Create a module with all math definitions. *)
Definition module : outcome (Module (Value Symbol)) :=
  math ← define_all deduplicating math_defs;
  math ← define_all math op_defs;
  (* Spacings. *)
  math ← define_all math spacing_defs;
  (* Symbols. *)
  math ← define_all math (prod_map id SymbolValue <$> SYM);
  Val (with_scope (Module_new "math") math).

(** Everything [module] defines, in order. *)
Definition all_defs : list (string * Value Symbol) :=
  math_defs ++ op_defs ++ spacing_defs ++ (prod_map id SymbolValue <$> SYM).

End module.

(** ** The equation element *)

(** [Smart<T>]. *)
Inductive Smart (T : Type) : Type :=
| Auto
| Custom (t : T).
Arguments Auto {T}.
Arguments Custom {T} t.

(** [SourceResult<T>]. *)
Inductive SourceResult (E T : Type) : Type :=
| Ok (t : T)
| Err (e : E).
Arguments Ok {E T} t.
Arguments Err {E T} e.

(** [Lang]: the languages [local_name] names, and any other. *)
Inductive Lang : Type :=
| ALBANIAN | ARABIC | BOKMAL | CHINESE | CZECH | DANISH | DUTCH | ENGLISH
| FILIPINO | FRENCH | GERMAN | ITALIAN | JAPANESE | NYNORSK | POLISH
| PORTUGUESE | RUSSIAN | SLOVENIAN | SPANISH | SWEDISH | TURKISH | UKRAINIAN
| VIETNAMESE | OTHER.

#[export] Instance Lang_eq_dec : EqDecision Lang.
Proof. solve_decision. Defined.

(** [Region]: a region code. *)
Definition Region : Type := string.

(** [util::option_eq]: whether the option holds this string. *)
Definition option_eq (left : option Region) (other : string) : bool :=
  bool_decide (left = Some other).

(** The no-break space, U+00A0, in UTF-8. *)
Definition NBSP : string :=
  String (Ascii.ascii_of_nat 194) (String (Ascii.ascii_of_nat 160) EmptyString).

(** [CounterUpdate]. *)
Inductive CounterUpdate : Type :=
| Step (level : positive).

(** The operations of the other crates that the equation element calls. *)
Class Typesetter : Type := {
  Content : Type;
  Numbering : Type;
  SupplementFunc : Type;
  Vt : Type;
  Location : Type;
  Errors : Type;
  Counter : Type;
  CounterState : Type;
  (** [Content::empty()], [Content::is_empty], [TextElem::packed] and the
      [+] of contents. *)
  content_empty : Content;
  content_is_empty : Content → bool;
  text_packed : string → Content;
  content_add : Content → Content → Content;
  (** [Counter::of(EquationElem::func())]. *)
  counter_of_equation : Counter;
  (** [Counter::at(vt, location)] and [CounterState::display(vt, numbering)]. *)
  counter_at : Counter → Vt → Location → Vt * SourceResult Errors CounterState;
  counter_display : CounterState → Vt → Numbering → Vt * SourceResult Errors Content;
}.

Section equation.
Context `{Typesetter}.

(** [Supplement]. *)
Inductive Supplement : Type :=
| Supplement_Content (content : Content)
| Supplement_Func (func : SupplementFunc).

(** [EquationElem]: each field is set on the element or not; the body is
    required.  [location] is the location the element was given, if any. *)
Record EquationElem : Type := mkEquationElem {
  field_block : option bool;
  field_numbering : option (option Numbering);
  field_supplement : option (Smart (option Supplement));
  body : Content;
  location : option Location;
}.

(** [StyleChain]: what the style chain holds for the fields of an equation,
    and the language and region of the text. *)
Record StyleChain : Type := mkStyleChain {
  style_block : option bool;
  style_numbering : option (option Numbering);
  style_supplement : option (Smart (option Supplement));
  style_lang : Lang;
  style_region : option Region;
}.

(** [StyleChain::default()]: the empty chain. *)
Definition StyleChain_default : StyleChain :=
  mkStyleChain None None None ENGLISH None.

(** The field accessors: the element, then the chain, then the default. *)
Definition block (e : EquationElem) (styles : StyleChain) : bool :=
  default (default false (style_block styles)) (field_block e).

Definition numbering (e : EquationElem) (styles : StyleChain) : option Numbering :=
  default (default None (style_numbering styles)) (field_numbering e).

Definition supplement (e : EquationElem) (styles : StyleChain)
    : Smart (option Supplement) :=
  default (default Auto (style_supplement styles)) (field_supplement e).

Definition push_block (e : EquationElem) (b : bool) : EquationElem :=
  mkEquationElem (Some b) (field_numbering e) (field_supplement e) (body e) (location e).

Definition push_numbering (e : EquationElem) (n : option Numbering) : EquationElem :=
  mkEquationElem (field_block e) (Some n) (field_supplement e) (body e) (location e).

Definition push_supplement (e : EquationElem) (s : Smart (option Supplement))
    : EquationElem :=
  mkEquationElem (field_block e) (field_numbering e) (Some s) (body e) (location e).

(** [impl LocalName for EquationElem]. *)
Definition local_name (lang : Lang) (region : option Region) : string :=
  match lang with
  | ALBANIAN => "Ekuacion"
  | ARABIC => "معادلة"
  | BOKMAL => "Ligning"
  | CHINESE => if option_eq region "TW" then "方程式" else "等式"
  | CZECH => "Rovnice"
  | DANISH => "Ligning"
  | DUTCH => "Vergelijking"
  | FILIPINO => "Ekwasyon"
  | FRENCH => "Équation"
  | GERMAN => "Gleichung"
  | ITALIAN => "Equazione"
  | NYNORSK => "Likning"
  | POLISH => "Równanie"
  | PORTUGUESE => "Equação"
  | RUSSIAN => "Уравнение"
  | SLOVENIAN => "Enačba"
  | SPANISH => "Ecuación"
  | SWEDISH => "Ekvation"
  | TURKISH => "Denklem"
  | UKRAINIAN => "Рівняння"
  | VIETNAMESE => "Phương trình"
  | JAPANESE => "式"
  | ENGLISH | OTHER => "Equation"
  end.

(** [LocalName::local_name_in(styles)]. *)
Definition local_name_in (styles : StyleChain) : string :=
  local_name (style_lang styles) (style_region styles).

(** [impl Synthesize for EquationElem].  [resolve] is
    [Supplement::resolve(vt, [self.clone()])]. *)
Definition synthesize
    (resolve : Supplement → Vt → list EquationElem → Vt * SourceResult Errors Content)
    (e : EquationElem) (vt : Vt) (styles : StyleChain)
    : Vt * SourceResult Errors EquationElem :=
  (* Resolve the supplement. *)
  let '(vt, supplement_) :=
    match supplement e styles with
    | Auto => (vt, Ok (text_packed (local_name_in styles)))
    | Custom None => (vt, Ok content_empty)
    | Custom (Some s) => resolve s vt [e]
    end in
  match supplement_ with
  | Err errs => (vt, Err errs)
  | Ok supplement_ =>
      let e := push_block e (block e styles) in
      let e := push_numbering e (numbering e styles) in
      let e := push_supplement e (Custom (Some (Supplement_Content supplement_))) in
      (vt, Ok e)
  end.

(** [impl Count for EquationElem]. *)
Definition update (e : EquationElem) : option CounterUpdate :=
  bool_then (block e StyleChain_default
             && bool_decide (is_Some (numbering e StyleChain_default)))
    (Step 1).

(** [impl Refable for EquationElem]: [supplement], [counter] and
    [numbering]. *)
Definition refable_supplement (e : EquationElem) : Content :=
  (* After synthesis, this should always be custom content. *)
  match supplement e StyleChain_default with
  | Custom (Some (Supplement_Content content)) => content
  | _ => content_empty
  end.

Definition refable_counter (e : EquationElem) : Counter := counter_of_equation.

Definition refable_numbering (e : EquationElem) : option Numbering :=
  numbering e StyleChain_default.

(** [impl Outlinable for EquationElem]. *)
Definition outline (e : EquationElem) (vt : Vt)
    : outcome (Vt * SourceResult Errors (option Content)) :=
  match numbering e StyleChain_default with
  | None => Val (vt, Ok None)
  | Some numbering_ =>
      (* After synthesis, this should always be custom content. *)
      let supplement_ :=
        match supplement e StyleChain_default with
        | Custom (Some (Supplement_Content content)) => content
        | _ => content_empty
        end in
      let supplement_ :=
        if negb (content_is_empty supplement_)
        then content_add supplement_ (text_packed NBSP)
        else supplement_ in
      loc ← unwrap (location e);
      let '(vt, state) := counter_at (refable_counter e) vt loc in
      match state with
      | Err errs => Val (vt, Err errs)
      | Ok state =>
          let '(vt, numbers) := counter_display state vt numbering_ in
          match numbers with
          | Err errs => Val (vt, Err errs)
          | Ok numbers => Val (vt, Ok (Some (content_add supplement_ numbers)))
          end
      end
  end.

End equation.

(** ** Scopes: what a run of definitions leaves *)

Section scope_facts.
Context {Value : Type}.
Implicit Types (s : Scope Value) (l : list (string * Value)).

Lemma define_fresh s name v :
  scope_map s !! name = None →
  define s name v = Val (mkScope (<[name := v]> (scope_map s)) (scope_deduplicate s)).
Proof.
  intros Hn. unfold define. rewrite Hn, bool_decide_eq_false_2, andb_false_r; [done|].
  by intros [? ?].
Qed.

Lemma define_bound s name v :
  scope_deduplicate s = true → is_Some (scope_map s !! name) →
  define s name v = Panic.
Proof. intros Hd Hn. unfold define. by rewrite Hd, bool_decide_eq_true_2. Qed.

Lemma define_all_app s l1 l2 :
  define_all s (l1 ++ l2) = s' ← define_all s l1; define_all s' l2.
Proof.
  revert s. induction l1 as [|[n v] l1 IH]; intros s; simpl; [done|].
  destruct (define s n v); simpl; [apply IH|done].
Qed.

(** Names that are fresh and pairwise distinct are all defined. *)
Lemma define_all_val s l :
  scope_deduplicate s = true →
  NoDup l.*1 → (∀ n, n ∈ l.*1 → scope_map s !! n = None) →
  define_all s l = Val (mkScope (list_to_map l ∪ scope_map s) true).
Proof.
  revert s. induction l as [|[n v] l IH]; intros [m d] Hd Hnd Hfresh;
    simpl in *; subst d.
  - by rewrite (left_id_L ∅ (∪)).
  - pose proof (NoDup_cons_1_1 _ _ Hnd) as Hn. apply NoDup_cons_1_2 in Hnd.
    rewrite define_fresh by (apply Hfresh, elem_of_cons; by left). simpl.
    rewrite IH; simpl; [|done..|].
    + do 2 f_equal. rewrite <- insert_union_l, <- insert_union_r; [done|].
      by apply not_elem_of_list_to_map_1.
    + intros x Hx. rewrite lookup_insert_ne by (by intros ->).
      apply Hfresh, elem_of_cons. by right.
Qed.

(** A deduplicating scope panics on the first name that is bound already
    or defined twice. *)
Lemma define_all_panic s l :
  scope_deduplicate s = true →
  ¬ (NoDup l.*1 ∧ ∀ n, n ∈ l.*1 → scope_map s !! n = None) →
  define_all s l = Panic.
Proof.
  revert s. induction l as [|[n v] l IH]; intros [m d] Hd Hbad;
    simpl in *; subst d.
  - destruct Hbad. split; [constructor|]. by intros n ?%elem_of_nil.
  - destruct (m !! n) as [x|] eqn:Hn.
    + by rewrite define_bound by (simpl; eauto).
    + rewrite define_fresh by done. simpl. apply IH; [done|]. simpl.
      intros [Hnd Hfresh]. apply Hbad. split.
      * constructor; [|done]. intros Hin. specialize (Hfresh n Hin).
        by rewrite lookup_insert_eq in Hfresh.
      * intros x [->|Hx]%elem_of_cons; [done|].
        specialize (Hfresh x Hx).
        by apply lookup_insert_None in Hfresh as [? _].
Qed.

End scope_facts.

(** ** The module *)

Section module_facts.
Context {Symbol : Type}.
Context (op_defs spacing_defs : list (string * Value Symbol)).
Context (SYM : list (string * Symbol)).

Lemma module_define_all :
  module op_defs spacing_defs SYM
  = math ← define_all deduplicating (all_defs op_defs spacing_defs SYM);
    Val (with_scope (Module_new "math") math).
Proof.
  unfold module, all_defs. rewrite define_all_app.
  destruct (define_all _ math_defs) as [s1|]; simpl; [|done].
  rewrite define_all_app.
  destruct (define_all s1 op_defs) as [s2|]; simpl; [|done].
  rewrite define_all_app.
  by destruct (define_all s2 spacing_defs) as [s3|].
Qed.

(** When the names [module] defines are pairwise distinct, [module]
    returns the module ["math"] whose scope binds every name to its
    value, and nothing else. *)
Lemma module_val :
  NoDup (all_defs op_defs spacing_defs SYM).*1 →
  module op_defs spacing_defs SYM
  = Val (mkModule "math"
           (mkScope (list_to_map (all_defs op_defs spacing_defs SYM)) true)).
Proof.
  rewrite module_define_all. generalize (all_defs op_defs spacing_defs SYM).
  intros defs Hnd. rewrite define_all_val by done.
  unfold deduplicating, with_scope. simpl. by rewrite (right_id_L ∅ (∪)).
Qed.

(** When two of the names [module] defines are equal, the deduplicating
    scope panics: [module] returns exactly when the names are pairwise
    distinct. *)
Lemma module_panics_iff :
  module op_defs spacing_defs SYM = Panic
  ↔ ¬ NoDup (all_defs op_defs spacing_defs SYM).*1.
Proof.
  rewrite module_define_all. generalize (all_defs op_defs spacing_defs SYM).
  intros defs. split.
  - intros Hp Hnd. by rewrite define_all_val in Hp.
  - intros Hnd. rewrite define_all_panic; [done..|]. by intros [? _].
Qed.

(** C38. What [module] returns.  When the names it defines (those it
    writes out, those of [op::define] and [spacing::define], and the
    symbols) are pairwise distinct it returns the module ["math"] whose
    scope binds every name to its value, and nothing else; when two of
    them are equal the deduplicating scope panics. *)
Theorem module_spec :
  match module op_defs spacing_defs SYM with
  | Val m =>
      NoDup (all_defs op_defs spacing_defs SYM).*1
      ∧ m = mkModule "math"
              (mkScope (list_to_map (all_defs op_defs spacing_defs SYM)) true)
  | Panic => ¬ NoDup (all_defs op_defs spacing_defs SYM).*1
  end.
Proof.
  destruct (decide (NoDup (all_defs op_defs spacing_defs SYM).*1)) as [Hnd|Hnd].
  - by rewrite module_val.
  - by rewrite (proj2 module_panics_iff).
Qed.

End module_facts.

(** The names [module] writes out are pairwise distinct: none of its
    own definitions makes the deduplicating scope panic. *)
Theorem math_defs_distinct (Symbol : Type) : NoDup (@math_defs Symbol).*1.
Proof. apply (bool_decide_unpack _). vm_compute. exact I. Qed.

(** ** The equation element *)

Section equation_facts.
Context `{Typesetter}.
Implicit Types (e : EquationElem) (styles : StyleChain).

(** What a successful [synthesize] returns. *)
Lemma synthesize_ok resolve e vt styles vt' e' :
  synthesize resolve e vt styles = (vt', Ok e') →
  ∃ c, e' = mkEquationElem (Some (block e styles)) (Some (numbering e styles))
              (Some (Custom (Some (Supplement_Content c)))) (body e) (location e).
Proof.
  unfold synthesize.
  destruct (supplement e styles) as [|[s|]]; [| destruct (resolve s vt [e]) as [vt1 [c|errs]] |];
    intros; simplify_eq; eauto.
Qed.

(** Synthesis materialises the fields: after it the equation reads
    its block flag and its numbering from itself, whatever the style chain,
    with the values the chain gave at synthesis; its supplement is content,
    the one [Refable::supplement] returns; its body is unchanged. *)
Theorem synthesize_materializes resolve e vt styles vt' e' styles' :
  synthesize resolve e vt styles = (vt', Ok e') →
  block e' styles' = block e styles
  ∧ numbering e' styles' = numbering e styles
  ∧ supplement e' styles' = Custom (Some (Supplement_Content (refable_supplement e')))
  ∧ body e' = body e.
Proof. by intros (c & ->)%synthesize_ok. Qed.

(** A synthesized equation steps the equation counter by one exactly
    when it is a block equation with a numbering. *)
Theorem update_after_synthesize resolve e vt styles vt' e' :
  synthesize resolve e vt styles = (vt', Ok e') →
  update e' = Some (Step 1)
  ↔ block e styles = true ∧ is_Some (numbering e styles).
Proof.
  intros (c & ->)%synthesize_ok. unfold update, block, numbering. simpl.
  destruct (default _ (field_block e)); simpl; [|naive_solver].
  unfold bool_then. case_bool_decide; naive_solver.
Qed.

(** [outline] returns no entry exactly for an equation without a
    numbering, and it panics exactly for one that has a numbering and no
    location. *)
Theorem outline_none_panic_iff e vt :
  (outline e vt = Val (vt, Ok None) ↔ refable_numbering e = None)
  ∧ (outline e vt = Panic ↔ is_Some (refable_numbering e) ∧ location e = None).
Proof.
  unfold outline, refable_numbering.
  destruct (numbering e StyleChain_default) as [n|]; [|naive_solver].
  destruct (location e) as [loc|]; simpl; [|naive_solver].
  destruct (counter_at _ _ _) as [vt1 [st|errs]]; [|naive_solver].
  destruct (counter_display _ _ _) as [vt2 [c|errs]]; naive_solver.
Qed.

(** The name of equations depends on the region only for Chinese. *)
Theorem local_name_region lang r1 r2 :
  lang ≠ CHINESE → local_name lang r1 = local_name lang r2.
Proof. by destruct lang. Qed.

End equation_facts.

(** ** The theorems on concrete inputs *)

(** A typesetter whose content is text: a counter displays as the
    numbering pattern it is given. *)
Definition text_typesetter : Typesetter := {|
  Content := string;
  Numbering := string;
  SupplementFunc := unit;
  Vt := nat;
  Location := nat;
  Errors := string;
  Counter := unit;
  CounterState := nat;
  content_empty := "";
  content_is_empty c := bool_decide (c = "");
  text_packed s := s;
  content_add := String.append;
  counter_of_equation := ();
  counter_at _ vt loc := (S vt, Ok loc);
  counter_display _ vt numbering := (S vt, Ok numbering);
|}.

#[local] Existing Instance text_typesetter.

(** An equation with no field set, under a style chain that makes
    equations numbered blocks of a German text. *)
Definition bare_equation : EquationElem := mkEquationElem None None None "x" (Some 3).

Definition german_numbered : StyleChain :=
  mkStyleChain (Some true) (Some (Some "(1)")) None GERMAN None.

Definition synthesized_equation : EquationElem :=
  mkEquationElem (Some true) (Some (Some "(1)"))
    (Some (Custom (Some (Supplement_Content "Gleichung")))) "x" (Some 3).

Lemma module_val_witness :
  module [("sin", NativeFunc "sin")] [("thin", NativeFunc "thin")] [("alpha", 945)]
  = Val (mkModule "math"
           (mkScope (list_to_map (all_defs [("sin", NativeFunc "sin")]
                                    [("thin", NativeFunc "thin")] [("alpha", 945)]))
              true)).
Proof.
  apply (module_val [("sin", NativeFunc "sin")] [("thin", NativeFunc "thin")]
           [("alpha", 945)]).
  apply (bool_decide_unpack _). vm_compute. exact I.
Defined.

Lemma synthesize_materializes_witness :
  block synthesized_equation StyleChain_default = block bare_equation german_numbered
  ∧ numbering synthesized_equation StyleChain_default
    = numbering bare_equation german_numbered
  ∧ supplement synthesized_equation StyleChain_default
    = Custom (Some (Supplement_Content (refable_supplement synthesized_equation)))
  ∧ body synthesized_equation = body bare_equation.
Proof.
  apply (synthesize_materializes (λ _ vt _, (vt, Ok content_empty)) bare_equation 0
           german_numbered 0 synthesized_equation StyleChain_default).
  reflexivity.
Defined.

Lemma update_after_synthesize_witness :
  update synthesized_equation = Some (Step 1)
  ↔ block bare_equation german_numbered = true
    ∧ is_Some (numbering bare_equation german_numbered).
Proof.
  apply (update_after_synthesize (λ _ vt _, (vt, Ok content_empty)) bare_equation 0
           german_numbered 0 synthesized_equation).
  reflexivity.
Defined.

Lemma local_name_region_witness :
  local_name GERMAN None = local_name GERMAN (Some "TW").
Proof. apply (local_name_region GERMAN None (Some "TW")). discriminate. Defined.

End Math.
