(* ===== verification/Geometry.v ===== *)
(** * Lengths, points and frames

    The part of the geometry and of the document model that the layout of
    an equation computes with: absolute lengths, points, sizes, alignment
    and [Frame] with the methods [EquationElem::layout] calls on it
    ([resize], [translate], [push_frame], [meta] and the accessors).
    This code is not in the two source files; it is modelled from the
    library as the layout uses it.

    A length is a rational number: the arithmetic of the layout (sums,
    differences, halves, maxima) is exact on them, and rounding, NaN and
    the infinities of floating point are not modelled; the one place where
    the layout asks whether a length is finite, the width of the region,
    has the type [Extent], and the question is a match on it.  Two lengths are the same when they are equal
    as rationals ([==]); points, sizes and placed items inherit that
    equivalence ([≡]), and the operations respect it. *)

From Stdlib Require Import QArith Qminmax Lqa.
From stdpp Require Import strings.
From S2P Require Import Prelude.

#[local] Open Scope Q_scope.

(** ** Lengths *)

(** [Abs]: an absolute length. *)
Definition Abs : Type := Q.

(** The extent of a region: a length, or [Abs::inf()]. *)
Inductive Extent : Type :=
| Finite (a : Abs)
| Infinite.

(** [Point] and [Size]. *)
Record Point : Type := mkPoint { point_x : Abs; point_y : Abs }.
Record Size : Type := mkSize { size_x : Abs; size_y : Abs }.

Definition Point_zero : Point := mkPoint 0 0.

(** [Point::with_y]. *)
Definition Point_with_y (y : Abs) : Point := mkPoint 0 y.

Definition point_add (p q : Point) : Point :=
  mkPoint (point_x p + point_x q) (point_y p + point_y q).

Definition point_is_zero (p : Point) : bool :=
  Qeq_bool (point_x p) 0 && Qeq_bool (point_y p) 0.

Definition size_eqb (a b : Size) : bool :=
  Qeq_bool (size_x a) (size_x b) && Qeq_bool (size_y a) (size_y b).

(** [Align], and [Align::position]: where to put something in a free
    extent. *)
Inductive Align : Type :=
| Left | Center | Right | Top | Horizon | Bottom.

Definition position (a : Align) (extent : Abs) : Abs :=
  match a with
  | Left | Top => 0
  | Center | Horizon => extent / 2
  | Right | Bottom => extent
  end.

(** [Align::CENTER_HORIZON]. *)
Definition CENTER_HORIZON : Align * Align := (Center, Horizon).

(** ** The equivalence of lengths, points and sizes *)

#[export] Instance Q_equiv : Equiv Q := Qeq.
#[export] Instance point_equiv : Equiv Point := λ p q,
  point_x p == point_x q ∧ point_y p == point_y q.
#[export] Instance size_equiv : Equiv Size := λ a b,
  size_x a == size_x b ∧ size_y a == size_y b.

(** ** Frames *)

Module Frame.

(** [Meta]: the metadata of a frame. *)
Inductive Meta : Type :=
| Link (dest : nat)
| Elem (content : nat)
| Hide.

(** [FrameItem], over the type of frames. *)
Inductive Item (F : Type) : Type :=
| Group (frame : F)
| Text (text : string)
| Shape (shape : nat)
| Image (image : nat) (size : Size)
| MetaItem (meta : Meta) (size : Size).
Arguments Group {F} frame.
Arguments Text {F} text.
Arguments Shape {F} shape.
Arguments Image {F} image size.
Arguments MetaItem {F} meta size.

(** [Frame]: a size, a baseline if one was set, and the items with their
    positions. *)
Inductive t : Type :=
  mk { size : Size; baseline_opt : option Abs; items : list (Point * Item t) }.

Definition is_empty (f : t) : bool :=
  match items f with
  | [] => true
  | _ => false
  end.

Definition width (f : t) : Abs := size_x (size f).
Definition height (f : t) : Abs := size_y (size f).

(** [Frame::baseline]: the baseline, or the bottom of the frame. *)
Definition baseline (f : t) : Abs := default (height f) (baseline_opt f).

Definition ascent (f : t) : Abs := baseline f.
Definition descent (f : t) : Abs := height f - baseline f.

(** [*frame.size_mut() = size]. *)
Definition set_size (f : t) (size : Size) : t := mk size (baseline_opt f) (items f).

Definition layer (f : t) : nat := length (items f).

Definition push (f : t) (pos : Point) (item : Item t) : t :=
  mk (size f) (baseline_opt f) (items f ++ [(pos, item)]).

Definition prepend (f : t) (pos : Point) (item : Item t) : t :=
  mk (size f) (baseline_opt f) ((pos, item) :: items f).

Definition clear (f : t) : t := mk (size f) (baseline_opt f) [].

(** Move an item by an offset. *)
Definition move (offset : Point) (pi : Point * Item t) : Point * Item t :=
  (point_add pi.1 offset, pi.2).

(** [Frame::translate]. *)
Definition translate (f : t) (offset : Point) : t :=
  if negb (point_is_zero offset) then
    mk (size f) ((λ b, b + point_y offset) <$> baseline_opt f)
      (move offset <$> items f)
  else f.

(** The offset by which [resize] moves the content. *)
Definition resize_offset (f : t) (target : Size) (aligns : Align * Align) : Point :=
  mkPoint (position aligns.1 (size_x target - width f))
          (position aligns.2 (size_y target - height f)).

(** [Frame::resize]: the new size, the content aligned in it. *)
Definition resize (f : t) (target : Size) (aligns : Align * Align) : t :=
  if negb (size_eqb (size f) target) then
    let offset := resize_offset f target aligns in
    translate (set_size f target) offset
  else f.

(** [Frame::should_inline] and [Frame::inline]: the items of a small
    frame are added to the items of the frame it is pushed to. *)
Definition should_inline (f frame : t) : bool :=
  is_empty f || bool_decide (length (items frame) ≤ 5)%nat.

Definition inline (f frame : t) (layer : nat) (pos : Point) : t :=
  if point_is_zero pos && is_empty f then
    mk (size f) (baseline_opt f) (items frame)
  else
    let moved :=
      if point_is_zero pos then items frame else move pos <$> items frame in
    mk (size f) (baseline_opt f)
      (take layer (items f) ++ moved ++ drop layer (items f)).

(** [Frame::push_frame]. *)
Definition push_frame (f : t) (pos : Point) (frame : t) : t :=
  if should_inline f frame then inline f frame (layer f) pos
  else push f pos (Group frame).

(** The loop of [Frame::meta] over the metadata of the styles. *)
Fixpoint meta_loop (f : t) (metas : list Meta) : t :=
  match metas with
  | [] => f
  | Hide :: _ => clear f
  | m :: metas' => meta_loop (prepend f Point_zero (MetaItem m (size f))) metas'
  end.

(** [Frame::meta], given [MetaElem::data_in(styles)]. *)
Definition meta (f : t) (metas : list Meta) (force : bool) : t :=
  if force || negb (is_empty f) then meta_loop f metas else f.

(** ** What a frame shows *)

(** An item that is not a group. *)
Inductive Prim : Type :=
| PText (text : string)
| PShape (shape : nat)
| PImage (image : nat) (size : Size)
| PMeta (meta : Meta) (size : Size).

(** Move a placed item by an offset. *)
Definition shift (offset : Point) (pp : Point * Prim) : Point * Prim :=
  (point_add pp.1 offset, pp.2).

(** The items of one placed item, groups opened. *)
Definition flatten_item (flatten : t → list (Point * Prim))
    (pi : Point * Item t) : list (Point * Prim) :=
  match pi.2 with
  | Group frame => shift pi.1 <$> flatten frame
  | Text text => [(pi.1, PText text)]
  | Shape shape => [(pi.1, PShape shape)]
  | Image image size => [(pi.1, PImage image size)]
  | MetaItem meta size => [(pi.1, PMeta meta size)]
  end.

(** Every item a frame shows, with its position in the frame. *)
Fixpoint flatten (f : t) : list (Point * Prim) :=
  match f with
  | mk _ _ its =>
      (fix go (l : list (Point * Item t)) : list (Point * Prim) :=
         match l with
         | [] => []
         | pi :: l' => flatten_item flatten pi ++ go l'
         end) its
  end.

End Frame.

(** ** The equivalences *)

#[export] Instance Q_equivalence : Equivalence (≡@{Q}) := Q_Setoid.

#[export] Instance point_equivalence : Equivalence (≡@{Point}).
Proof.
  split.
  - by intros p; split.
  - by intros p q [Hx Hy]; split.
  - intros p q r [Hx Hy] [Hx' Hy']. split; by etrans.
Qed.

#[export] Instance size_equivalence : Equivalence (≡@{Size}).
Proof.
  split.
  - by intros p; split.
  - by intros p q [Hx Hy]; split.
  - intros p q r [Hx Hy] [Hx' Hy']. split; by etrans.
Qed.

#[export] Instance prim_equiv : Equiv Frame.Prim := eq.

(** Solves a goal on points and lengths by linear arithmetic on their
    coordinates. *)
Ltac geom :=
  repeat match goal with
  | p : Point |- _ => destruct p
  | H : @equiv Point _ _ _ |- _ => destruct H
  | H : @equiv Q _ _ _ |- _ => unfold equiv, Q_equiv in H
  end;
  unfold equiv, point_equiv, size_equiv, Q_equiv, point_add, Point_zero,
    Point_with_y, Frame.resize_offset, Frame.width, Frame.height,
    CENTER_HORIZON, position, Qdiv in *;
  cbn [point_x point_y size_x size_y fst snd] in *;
  change (/ 2) with (1 # 2) in *; repeat split; try lra.

#[export] Instance point_add_proper : Proper ((≡) ==> (≡) ==> (≡)) point_add.
Proof. intros p p' Hp q q' Hq. geom. Qed.

Lemma point_add_assoc p q r :
  point_add (point_add p q) r ≡ point_add p (point_add q r).
Proof. geom. Qed.

Lemma point_add_comm p q : point_add p q ≡ point_add q p.
Proof. geom. Qed.

Lemma point_is_zero_spec p : point_is_zero p = true ↔ p ≡ Point_zero.
Proof.
  unfold point_is_zero. rewrite andb_true_iff, !Qeq_bool_iff. by destruct p.
Qed.

Lemma point_add_zero p z : z ≡ Point_zero → point_add p z ≡ p.
Proof. intros Hz. geom. Qed.

Lemma size_eqb_spec a b : size_eqb a b = true ↔ a ≡ b.
Proof. unfold size_eqb. by rewrite andb_true_iff, !Qeq_bool_iff. Qed.

(** ** What the operations on frames do to what a frame shows *)

Section frame_facts.
Import Frame.
Implicit Types (f g : Frame.t) (p q off : Point) (l : list (Point * Prim)).

#[export] Instance shift_proper : Proper ((≡) ==> (≡) ==> (≡)) shift.
Proof.
  intros p p' Hp [q x] [q' x'] [Hq Hx]. split; simpl in *; [|done].
  by rewrite Hp, Hq.
Qed.

Lemma shift_shift p q x : shift q (shift p x) ≡ shift (point_add p q) x.
Proof. destruct x as [r y]. split; simpl; [|done]. apply point_add_assoc. Qed.

Lemma shift_zero z x : z ≡ Point_zero → shift z x ≡ x.
Proof. intros Hz. destruct x as [r y]. split; simpl; [|done]. by apply point_add_zero. Qed.

Lemma fmap_shift_shift p q l :
  shift q <$> (shift p <$> l) ≡ shift (point_add p q) <$> l.
Proof.
  rewrite <- list_fmap_compose. apply list_fmap_equiv_ext.
  intros i x _. apply shift_shift.
Qed.

Lemma fmap_shift_zero z l : z ≡ Point_zero → shift z <$> l ≡ l.
Proof.
  intros Hz. rewrite <- (list_fmap_id l) at 2. apply list_fmap_equiv_ext.
  intros i x _. by apply shift_zero.
Qed.

(** The items of a frame are those of its items, in order. *)
Lemma flatten_items f : flatten f = items f ≫= flatten_item flatten.
Proof.
  destruct f as [sz b its]. simpl.
  induction its as [|pi its IH]; [done|]. by rewrite bind_cons, IH.
Qed.

#[local] Arguments flatten : simpl never.

Lemma flatten_item_move off pi :
  flatten_item flatten (move off pi) ≡ shift off <$> flatten_item flatten pi.
Proof.
  destruct pi as [p [g|s|n|n sz|m sz]]; try done.
  unfold flatten_item. simpl. symmetry.
  rewrite fmap_shift_shift. done.
Qed.

Lemma flatten_moved off (its : list (Point * Item t)) :
  (move off <$> its) ≫= flatten_item flatten
  ≡ shift off <$> (its ≫= flatten_item flatten).
Proof.
  induction its as [|pi its IH]; [done|].
  rewrite fmap_cons, !bind_cons, fmap_app. by rewrite flatten_item_move, IH.
Qed.

Lemma flatten_translate f off :
  flatten (translate f off) ≡ shift off <$> flatten f.
Proof.
  unfold translate. destruct (point_is_zero off) eqn:Hz; simpl.
  - symmetry. apply fmap_shift_zero. by apply point_is_zero_spec.
  - rewrite !flatten_items. simpl. apply flatten_moved.
Qed.

Lemma flatten_set_size f sz : flatten (set_size f sz) = flatten f.
Proof. by rewrite !flatten_items. Qed.

Lemma size_translate f off : size (translate f off) = size f.
Proof. unfold translate. by destruct (point_is_zero off). Qed.

(** A frame with a baseline keeps one, moved with the content. *)
Lemma baseline_translate f off b :
  baseline_opt f = Some b →
  ∃ b', baseline_opt (translate f off) = Some b' ∧ b' == b + point_y off.
Proof.
  intros Hb. unfold translate. destruct (point_is_zero off) eqn:Hz; simpl.
  - apply point_is_zero_spec in Hz. exists b. split; [done|]. geom.
  - rewrite Hb. simpl. by eexists.
Qed.

Lemma baseline_translate_None f off :
  baseline_opt f = None → baseline_opt (translate f off) = None.
Proof.
  intros Hb. unfold translate. destruct (point_is_zero off); simpl; [done|].
  by rewrite Hb.
Qed.

Lemma resize_offset_zero f target aligns :
  size f ≡ target → resize_offset f target aligns ≡ Point_zero.
Proof.
  intros [Hx Hy]. unfold resize_offset, width, height.
  destruct aligns as [[] []]; geom.
Qed.

Lemma size_resize f target aligns : size (resize f target aligns) ≡ target.
Proof.
  unfold resize. destruct (size_eqb (size f) target) eqn:He; simpl.
  - by apply size_eqb_spec.
  - by rewrite size_translate.
Qed.

Lemma flatten_resize f target aligns :
  flatten (resize f target aligns)
  ≡ shift (resize_offset f target aligns) <$> flatten f.
Proof.
  unfold resize. destruct (size_eqb (size f) target) eqn:He; simpl.
  - symmetry. apply fmap_shift_zero, resize_offset_zero. by apply size_eqb_spec.
  - rewrite flatten_translate. by rewrite !flatten_items.
Qed.

Lemma baseline_resize f target aligns b :
  baseline_opt f = Some b →
  ∃ b', baseline_opt (resize f target aligns) = Some b'
        ∧ b' == b + point_y (resize_offset f target aligns).
Proof.
  intros Hb. unfold resize. destruct (size_eqb (size f) target) eqn:He; simpl.
  - apply size_eqb_spec in He. exists b. split; [done|].
    destruct (resize_offset_zero f target aligns He) as [_ Hy]. rewrite Hy.
    simpl. lra.
  - by apply (baseline_translate (set_size f target)).
Qed.

(** Pushing a frame shows its items after those of the frame, moved to
    the position, whether they are inlined or kept as a group. *)
Lemma flatten_push_frame f pos g :
  flatten (push_frame f pos g) ≡ flatten f ++ (shift pos <$> flatten g).
Proof.
  unfold push_frame, inline, push, layer.
  rewrite (take_ge (items f)), drop_all, app_nil_r by done.
  destruct (should_inline f g); [destruct (point_is_zero pos) eqn:Hz; simpl|].
  - apply point_is_zero_spec in Hz. rewrite (fmap_shift_zero pos) by done.
    unfold is_empty. destruct (items f) eqn:Hf;
      rewrite (flatten_items (mk _ _ _)), (flatten_items f), Hf; simpl.
    + by rewrite <- flatten_items.
    + by rewrite bind_app, <- (flatten_items g), app_assoc.
  - rewrite (flatten_items (mk _ _ _)), (flatten_items f). simpl.
    by rewrite bind_app, flatten_moved, <- !flatten_items.
  - rewrite (flatten_items (mk _ _ _)), (flatten_items f). simpl.
    rewrite bind_app. f_equiv. simpl. by rewrite app_nil_r.
Qed.

Lemma size_push_frame f pos g : size (push_frame f pos g) = size f.
Proof.
  unfold push_frame, inline. destruct (should_inline f g); [|done].
  by destruct (point_is_zero pos && is_empty f).
Qed.

Lemma baseline_push_frame f pos g :
  baseline_opt (push_frame f pos g) = baseline_opt f.
Proof.
  unfold push_frame, inline. destruct (should_inline f g); [|done].
  by destruct (point_is_zero pos && is_empty f).
Qed.

(** Metadata changes neither the size nor the baseline of a frame. *)
Lemma meta_loop_size f metas :
  size (meta_loop f metas) = size f
  ∧ baseline_opt (meta_loop f metas) = baseline_opt f.
Proof.
  revert f. induction metas as [|m metas IH]; intros f; [done|].
  destruct m; simpl; try done; by destruct (IH (prepend f Point_zero
    (MetaItem ltac:(first [exact (Link dest) | exact (Elem content)]) (size f)))).
Qed.

Lemma size_meta f metas force : size (meta f metas force) = size f.
Proof.
  unfold meta. destruct (force || negb (is_empty f)); [|done].
  apply meta_loop_size.
Qed.

Lemma baseline_meta f metas force :
  baseline_opt (meta f metas force) = baseline_opt f.
Proof.
  unfold meta. destruct (force || negb (is_empty f)); [|done].
  apply meta_loop_size.
Qed.

(** A frame whose styles hide it shows nothing. *)
Lemma meta_loop_hide f metas : Hide ∈ metas → items (meta_loop f metas) = [].
Proof.
  revert f. induction metas as [|m metas IH]; intros f Hin.
  - by apply elem_of_nil in Hin.
  - destruct m; simpl; try done;
      apply elem_of_cons in Hin as [?|Hin]; try done; by apply IH.
Qed.

End frame_facts.
