(* ===== verification/EquationLayout.v ===== *)
(** * Showing and laying out an equation

    [impl Show], [impl Finalize] and [impl Layout for EquationElem] of
    [math/mod.rs].  The layout looks for a font with math tables among the
    families of the style chain, lays the body out as a frame, and then
    either places the number of a numbered block equation beside it or
    fits an inline equation to the text around it; the frames and the
    arithmetic on them are those of [Geometry].  What belongs to other
    crates (the world and its fonts, the style chain of the text, the
    layout of the body and of the counter, the constructors of content) is
    an operation of the class [Layouter].  Functions that take [&mut Vt]
    return the new [Vt] with their result. *)

From Stdlib Require Import QArith Qminmax Lqa.
From stdpp Require Import strings.
From S2P Require Import Prelude Equation Geometry.

Module Layout.
Import Math.

(** [Regions]: the size of the first region, the full height, and whether
    to expand on each axis. *)
Record Regions : Type := mkRegions {
  regions_size : Extent * Extent;
  regions_full : Extent;
  regions_expand : bool * bool;
}.

(** [Regions::one] and [Regions::base]. *)
Definition Regions_one (size : Extent * Extent) (expand : bool * bool) : Regions :=
  mkRegions size size.2 expand.

Definition regions_base (regions : Regions) : Extent * Extent :=
  ((regions_size regions).1, regions_full regions).

(** [FontWeight::from_number]: the weight, clamped to the weights there
    are. *)
Definition FontWeight_from_number (weight : nat) : nat :=
  (weight `max` 100) `min` 900.

(** The style properties [finalize] sets. *)
Inductive Style {FontFamily : Type} : Type :=
| set_weight (weight : nat)
| set_font (font : list FontFamily).
Arguments Style : clear implicits.

(** What the equation element calls in other crates. *)
Class Layouter `{Typesetter} : Type := {
  Font : Type;
  FontId : Type;
  FontFamily : Type;
  FontVariant : Type;
  MathTable : Type;
  MathConstants : Type;
  Guard : Type;
  ElemSpan : Type;
  Fragment : Type;
  (** [Content::pack], [guarded], [aligned] and [styled];
      [Guard::Base(EquationElem::func())]; [FontFamily::new]. *)
  pack : EquationElem → Content;
  guarded : Content → Guard → Content;
  aligned : Content → option Align * option Align → Content;
  styled : Content → Style FontFamily → Content;
  Guard_Base_equation : Guard;
  FontFamily_new : string → FontFamily;
  (** [self.span()] and the error [bail!] builds. *)
  span : EquationElem → ElemSpan;
  error : ElemSpan → string → Errors;
  (** The style chain of the text: [families], [variant],
      [TextElem::dir_in(styles).is_positive()], [ParElem::leading_in],
      the text edges resolved with the metrics of a font, the size of an
      em, and [MetaElem::data_in]. *)
  families : StyleChain → list FontFamily;
  variant : StyleChain → FontVariant;
  dir_is_positive : StyleChain → bool;
  leading_in : StyleChain → Abs;
  top_edge_in : StyleChain → Font → Abs;
  bottom_edge_in : StyleChain → Font → Abs;
  em_size : StyleChain → Abs;
  meta_in : StyleChain → list Frame.Meta;
  (** The world: [world.book().select], [world.font] and the tables of a
      font. *)
  book_select : Vt → FontFamily → FontVariant → option FontId;
  world_font : Vt → FontId → option Font;
  font_math : Font → option MathTable;
  math_constants : MathTable → option MathConstants;
  (** [MathContext::new(vt, styles, regions, &font, block)] followed by
      [ctx.layout_frame(self)], and
      [Counter::of(..).display(Some(numbering), false).layout(vt, styles,
      pod)?.into_frame()]. *)
  layout_frame :
    Vt → StyleChain → Regions → Font → bool → EquationElem →
    Vt * SourceResult Errors Frame.t;
  counter_layout :
    Vt → Numbering → StyleChain → Regions → Vt * SourceResult Errors Frame.t;
  (** [Fragment::frame]. *)
  Fragment_frame : Frame.t → Fragment;
}.

Section layout.
Context `{Layouter}.
#[local] Open Scope Q_scope.

(** [impl Show for EquationElem]. *)
Definition show (e : EquationElem) (vt : Vt) (styles : StyleChain)
    : SourceResult Errors Content :=
  let realized := guarded (pack e) Guard_Base_equation in
  let realized :=
    if block e styles then aligned realized (Some Center, None) else realized in
  Ok realized.

(** [impl Finalize for EquationElem]. *)
Definition finalize (e : EquationElem) (realized : Content) (styles : StyleChain)
    : Content :=
  styled
    (styled realized (set_weight (FontWeight_from_number 450)))
    (set_font [FontFamily_new "New Computer Modern Math"]).

(** The gutter between an equation and its number, in em. *)
Definition NUMBER_GUTTER : Q := 1 # 2.

(** [Em::resolve]. *)
Definition em_resolve (em : Q) (styles : StyleChain) : Abs := em * em_size styles.

(** The closure of [find_map]: the font of a family, if the world has it
    and it has math constants. *)
Definition math_font (vt : Vt) (styles : StyleChain) (family : FontFamily)
    : option Font :=
  id ← book_select vt family (variant styles);
  font ← world_font vt id;
  _ ← font_math font ≫= math_constants;
  Some font.

(** Find a math font. *)
Definition find_math_font (vt : Vt) (styles : StyleChain) : option Font :=
  find_map (math_font vt styles) (families styles).

(** The frame of a numbered block equation: the frame of the body resized
    to the width of the region, or to its own width and that of the
    number and the gutter on both sides, and the number pushed at the end
    of the line. *)
Definition number_width (frame counter : Frame.t) (styles : StyleChain)
    (regions : Regions) : Abs :=
  match (regions_size regions).1 with
  | Finite x => x
  | Infinite =>
      Frame.width frame
      + 2 * (Frame.width counter + em_resolve NUMBER_GUTTER styles)
  end.

Definition number_height (frame counter : Frame.t) : Abs :=
  Qmax (Frame.height frame) (Frame.height counter).

(** Where the number goes in the resized frame: at the end of the line in
    the direction of the text, half way down. *)
Definition number_pos (frame counter : Frame.t) (styles : StyleChain) : Point :=
  let x :=
    if dir_is_positive styles then Frame.width frame - Frame.width counter
    else 0 in
  let y := (Frame.height frame - Frame.height counter) / 2 in
  mkPoint x y.

Definition place_number (frame counter : Frame.t) (styles : StyleChain)
    (regions : Regions) : Frame.t :=
  let width := number_width frame counter styles regions in
  let height := number_height frame counter in
  let frame := Frame.resize frame (mkSize width height) CENTER_HORIZON in
  Frame.push_frame frame (number_pos frame counter styles) counter.

(** The frame of an inline equation: between the edges of the text, or
    those of the frame less the slack. *)
Definition fit_inline (frame : Frame.t) (styles : StyleChain) (font : Font)
    : Frame.t :=
  let slack := leading_in styles * (7 # 10) in
  let top_edge := top_edge_in styles font in
  let bottom_edge := - bottom_edge_in styles font in
  let ascent := Qmax top_edge (Frame.ascent frame - slack) in
  let descent := Qmax bottom_edge (Frame.descent frame - slack) in
  let frame := Frame.translate frame (Point_with_y (ascent - Frame.baseline frame)) in
  Frame.set_size frame (mkSize (Frame.width frame) (ascent + descent)).

(** [impl Layout for EquationElem]. *)
Definition layout (e : EquationElem) (vt : Vt) (styles : StyleChain)
    (regions : Regions) : Vt * SourceResult Errors Fragment :=
  let block_ := block e styles in
  (* Find a math font. *)
  match find_math_font vt styles with
  | None => (vt, Err (error (span e) "current font does not support math"))
  | Some font =>
      let '(vt, frame) := layout_frame vt styles regions font block_ e in
      match frame with
      | Err errs => (vt, Err errs)
      | Ok frame =>
          let '(vt, frame) :=
            if block_ then
              match numbering e styles with
              | Some numbering_ =>
                  let pod := Regions_one (regions_base regions) (false, false) in
                  let '(vt, counter) := counter_layout vt numbering_ styles pod in
                  match counter with
                  | Err errs => (vt, Err errs)
                  | Ok counter => (vt, Ok (place_number frame counter styles regions))
                  end
              | None => (vt, Ok frame)
              end
            else (vt, Ok (fit_inline frame styles font)) in
          match frame with
          | Err errs => (vt, Err errs)
          | Ok frame =>
              (* Apply metadata. *)
              (vt, Ok (Fragment_frame (Frame.meta frame (meta_in styles) false)))
          end
      end
  end.

End layout.

(** ** The font *)

Section layout_facts.
Context `{Layouter}.
#[local] Open Scope Q_scope.
Implicit Types (frame counter : Frame.t) (styles : StyleChain) (regions : Regions).

(** The math font is the font of the first family of the style chain
    that the font book knows in the variant of the text, that the world
    can load, and that has a math table with constants; families before
    it that lack any of these are passed over. *)
Theorem find_math_font_first vt styles font :
  find_math_font vt styles = Some font ↔
  ∃ l1 family l2 id table constants,
    families styles = l1 ++ family :: l2
    ∧ Forall (λ family', math_font vt styles family' = None) l1
    ∧ book_select vt family (variant styles) = Some id
    ∧ world_font vt id = Some font
    ∧ font_math font = Some table ∧ math_constants table = Some constants.
Proof.
  unfold find_math_font. rewrite find_map_Some. split.
  - intros (l1 & family & l2 & Hl & Hn & Hf). unfold math_font in Hf.
    simplify_option_eq. by eexists l1, family, l2, _, _, _.
  - intros (l1 & family & l2 & id & table & c & Hl & Hn & Hs & Hw & Hm & Hc).
    exists l1, family, l2. split_and!; [done..|]. unfold math_font.
    by simplify_option_eq.
Qed.

(** When no family of the style chain has a math font the layout
    fails with the error that the current font does not support math, at
    the span of the equation, before anything is laid out. *)
Theorem layout_no_math_font e vt styles regions :
  Forall (λ family, math_font vt styles family = None) (families styles) →
  layout e vt styles regions
  = (vt, Err (error (span e) "current font does not support math")).
Proof. intros Hn%find_map_None. unfold layout, find_math_font. by rewrite Hn. Qed.

(** ** The number of a block equation *)

(** The frame of a numbered equation shows the body, centred, and then
    the number at its position. *)
Lemma place_number_flatten frame counter styles regions :
  let target :=
    mkSize (number_width frame counter styles regions)
      (number_height frame counter) in
  Frame.size (place_number frame counter styles regions) ≡ target
  ∧ Frame.flatten (place_number frame counter styles regions)
    ≡ (Frame.shift (Frame.resize_offset frame target CENTER_HORIZON)
         <$> Frame.flatten frame)
      ++ (Frame.shift
            (number_pos (Frame.resize frame target CENTER_HORIZON) counter styles)
          <$> Frame.flatten counter).
Proof.
  intros target. unfold place_number.
  rewrite size_push_frame, flatten_push_frame, flatten_resize.
  split; [apply size_resize|done].
Qed.

(** The position of the number in a frame of a known size. *)
Lemma number_pos_resized frame counter styles target :
  number_pos (Frame.resize frame target CENTER_HORIZON) counter styles
  ≡ mkPoint
      (if dir_is_positive styles then size_x target - Frame.width counter else 0)
      ((size_y target - Frame.height counter) / 2).
Proof.
  destruct (size_resize frame target CENTER_HORIZON) as [Hx Hy].
  unfold number_pos, Frame.width, Frame.height.
  destruct (dir_is_positive styles); geom.
Qed.

(** C32. The frame of a numbered block equation has the width of the
    region, or, in a region of infinite width, the width of the body and
    of the number and the gutter on both sides; its height is the larger
    of the two heights.  It shows the body centred on both axes and then
    the number, flush with the end of the line in the direction of the
    text and centred vertically. *)
Theorem place_number_shows frame counter styles regions :
  let W := number_width frame counter styles regions in
  let H := number_height frame counter in
  Frame.size (place_number frame counter styles regions) ≡ mkSize W H
  ∧ Frame.flatten (place_number frame counter styles regions)
    ≡ (Frame.shift (mkPoint ((W - Frame.width frame) / 2)
                            ((H - Frame.height frame) / 2))
         <$> Frame.flatten frame)
      ++ (Frame.shift
            (mkPoint (if dir_is_positive styles then W - Frame.width counter else 0)
                     ((H - Frame.height counter) / 2))
          <$> Frame.flatten counter).
Proof.
  intros W H'. destruct (place_number_flatten frame counter styles regions)
    as [Hs Hf]. split; [done|]. rewrite Hf.
  f_equiv; apply list_fmap_equiv_ext; intros i x _; f_equiv;
    [by split|apply number_pos_resized].
Qed.

(** C34. In a region of infinite width the number never touches the
    equation: with a font size that is not negative, the gutter lies
    between the body and the number, on the side of the number that the
    direction of the text gives. *)
Theorem number_clear_of_equation frame counter styles regions :
  (regions_size regions).1 = Infinite → 0 <= em_size styles →
  let target :=
    mkSize (number_width frame counter styles regions)
      (number_height frame counter) in
  let off := Frame.resize_offset frame target CENTER_HORIZON in
  let pos := number_pos (Frame.resize frame target CENTER_HORIZON) counter styles in
  if dir_is_positive styles
  then point_x off + Frame.width frame + em_resolve NUMBER_GUTTER styles
       <= point_x pos
  else point_x pos + Frame.width counter + em_resolve NUMBER_GUTTER styles
       <= point_x off.
Proof.
  intros Hinf Hem target off pos.
  destruct (number_pos_resized frame counter styles target) as [Hx _].
  subst off pos target. cbn [point_x point_y size_x size_y] in *.
  unfold number_width, em_resolve, NUMBER_GUTTER in *. rewrite Hinf in *.
  destruct (dir_is_positive styles); rewrite Hx; geom.
Qed.

(** C33. In a region of finite width the gutter is not used: the number
    is put at the end of the region whatever the width of the equation,
    and when the region is narrower than the body and twice the number,
    the number overlaps the body. *)
Theorem number_overlaps_in_narrow_region frame counter styles regions W :
  (regions_size regions).1 = Finite W → dir_is_positive styles = true →
  0 <= Frame.width frame → 0 < W →
  W < Frame.width frame + 2 * Frame.width counter →
  let target :=
    mkSize (number_width frame counter styles regions)
      (number_height frame counter) in
  let off := Frame.resize_offset frame target CENTER_HORIZON in
  let pos := number_pos (Frame.resize frame target CENTER_HORIZON) counter styles in
  point_x pos < point_x off + Frame.width frame
  ∧ point_x off < point_x pos + Frame.width counter.
Proof.
  intros Hfin Hdir Hw HW Hnarrow target off pos.
  destruct (number_pos_resized frame counter styles target) as [Hx _].
  subst off pos target. cbn [point_x point_y size_x size_y] in *.
  unfold number_width in *. rewrite Hfin, Hdir in *. rewrite Hx. geom.
Qed.

(** The body and the number both lie within the height of the frame
    of a numbered equation, and their middles are at the same height. *)
Theorem number_within_height frame counter styles regions :
  let target :=
    mkSize (number_width frame counter styles regions)
      (number_height frame counter) in
  let off := Frame.resize_offset frame target CENTER_HORIZON in
  let pos := number_pos (Frame.resize frame target CENTER_HORIZON) counter styles in
  0 <= point_y off ∧ point_y off + Frame.height frame <= size_y target
  ∧ 0 <= point_y pos ∧ point_y pos + Frame.height counter <= size_y target
  ∧ point_y off + Frame.height frame / 2 == point_y pos + Frame.height counter / 2.
Proof.
  intros target off pos.
  destruct (number_pos_resized frame counter styles target) as [_ Hy].
  subst off pos target. cbn [point_x point_y size_x size_y] in *. rewrite !Hy. unfold number_height.
  pose proof (Q.le_max_l (Frame.height frame) (Frame.height counter)).
  pose proof (Q.le_max_r (Frame.height frame) (Frame.height counter)).
  geom.
Qed.

(** ** An inline equation *)

(** C35. An inline equation whose frame has a baseline is fitted between
    the edges of the text: its ascent is the top edge of the font, or the
    ascent of the body less the slack of the leading when that is
    larger, and its descent likewise; the body is moved down by the
    change of the ascent and keeps its width. *)
Theorem fit_inline_edges frame styles font b :
  Frame.baseline_opt frame = Some b →
  let slack := leading_in styles * (7 # 10) in
  let ascent := Qmax (top_edge_in styles font) (b - slack) in
  let descent :=
    Qmax (- bottom_edge_in styles font) (Frame.height frame - b - slack) in
  let fitted := fit_inline frame styles font in
  Frame.ascent fitted == ascent ∧ Frame.descent fitted == descent
  ∧ Frame.width fitted == Frame.width frame
  ∧ Frame.flatten fitted
    ≡ Frame.shift (Point_with_y (ascent - b)) <$> Frame.flatten frame
  ∧ top_edge_in styles font <= Frame.ascent fitted
  ∧ - bottom_edge_in styles font <= Frame.descent fitted.
Proof.
  intros Hb slack ascent descent fitted.
  assert (Frame.ascent fitted == ascent ∧ Frame.descent fitted == descent)
    as [Ha Hd].
  { subst fitted. unfold fit_inline, Frame.ascent, Frame.descent, Frame.baseline,
      Frame.height. rewrite Hb. simpl. fold slack ascent.
    destruct (baseline_translate frame (Point_with_y (ascent - b)) b Hb)
      as (b' & -> & Hb'). simpl in *. subst descent. unfold Frame.height.
    split; lra. }
  split_and!; try done.
  - subst fitted. unfold fit_inline, Frame.width. simpl.
    by rewrite size_translate.
  - subst fitted. unfold fit_inline. rewrite flatten_set_size, flatten_translate.
    unfold Frame.ascent, Frame.baseline. by rewrite Hb.
  - rewrite Ha. apply Q.le_max_l.
  - rewrite Hd. apply Q.le_max_l.
Qed.

(** ** Metadata *)

(** An equation that the styles hide is laid out, its number
    included, and shows nothing: the frame the layout returns has no
    items. *)
Theorem layout_hidden e vt styles regions vt' fragment :
  Frame.Hide ∈ meta_in styles →
  layout e vt styles regions = (vt', Ok fragment) →
  ∃ frame, fragment = Fragment_frame frame ∧ Frame.items frame = [].
Proof.
  intros Hh. unfold layout. destruct (find_math_font vt styles); [|done].
  destruct (layout_frame _ _ _ _ _ _) as [vt1 [frame|]]; [|done].
  set (hidden fr := Frame.meta fr (meta_in styles) false).
  assert (∀ fr, Frame.items (hidden fr) = []) as Hitems.
  { intros fr. unfold hidden, Frame.meta, Frame.is_empty.
    destruct (Frame.items fr) eqn:Hf; simpl; [done|]. by apply meta_loop_hide. }
  destruct (block e styles); [destruct (numbering e styles)|];
    try destruct (counter_layout _ _ _ _) as [vt2 [counter|]];
    intros Heq;
    first [done | injection Heq as <- <-; eexists; split; [done|apply Hitems]].
Qed.

(** A numbered block equation fills its region: in a region of finite
    width the frame the layout returns is as wide as the region, whatever
    the widths of the body and of the number, and at least as high as
    both. *)
Theorem layout_numbered_fills_region e vt styles regions W vt' fragment :
  block e styles = true → is_Some (numbering e styles) →
  (regions_size regions).1 = Finite W →
  layout e vt styles regions = (vt', Ok fragment) →
  ∃ font vt1 body vt2 counter frame,
    find_math_font vt styles = Some font
    ∧ layout_frame vt styles regions font true e = (vt1, Ok body)
    ∧ (∃ n pod, counter_layout vt1 n styles pod = (vt2, Ok counter))
    ∧ vt' = vt2 ∧ fragment = Fragment_frame frame
    ∧ Frame.width frame == W
    ∧ Frame.height body <= Frame.height frame
    ∧ Frame.height counter <= Frame.height frame.
Proof.
  intros Hb [n Hn] HW. unfold layout. rewrite Hb, Hn.
  destruct (find_math_font vt styles) as [font|]; [|done].
  destruct (layout_frame _ _ _ _ _ _) as [vt1 [body|]] eqn:Hbody; [|done].
  destruct (counter_layout _ _ _ _) as [vt2 [counter|]] eqn:Hc; [|done].
  intros [= <- <-]. eexists font, vt1, body, vt2, counter, _.
  destruct (place_number_flatten body counter styles regions) as [[Hx Hy] _].
  split_and!; try done; [by eauto|..];
    unfold Frame.width, Frame.height; rewrite size_meta;
    [rewrite Hx|rewrite Hy; apply Q.le_max_l|rewrite Hy; apply Q.le_max_r].
  unfold number_width. by rewrite HW.
Qed.

End layout_facts.

(** ** The theorems on concrete equations *)

(** A world with two families, of which the second has a math font; the
    body of an equation is a frame of 8 by 4 with its baseline at 3, its
    number a frame of 3 by 2; text is hidden in the region ["hidden"] and
    runs from right to left in Arabic. *)
Definition content_text (c : @Content text_typesetter) : string := c.
Definition numbering_text (n : @Numbering text_typesetter) : string := n.
Definition message_error (message : string) : @Errors text_typesetter := message.

Definition toy_layouter : @Layouter text_typesetter := {|
  Font := nat;
  FontId := nat;
  FontFamily := string;
  FontVariant := unit;
  MathTable := bool;
  MathConstants := unit;
  Guard := unit;
  ElemSpan := nat;
  Fragment := Frame.t;
  pack e := body e;
  guarded c _ := c;
  aligned c _ := c;
  styled c _ := c;
  Guard_Base_equation := ();
  FontFamily_new name := name;
  span _ := 0%nat;
  error _ message := message_error message;
  families styles :=
    if option_eq (style_region styles) "plain" then ["serif"]
    else ["serif"; "math"];
  variant _ := ();
  dir_is_positive styles := negb (bool_decide (style_lang styles = ARABIC));
  leading_in _ := 1%Q;
  top_edge_in _ _ := 7%Q;
  bottom_edge_in _ _ := (-2)%Q;
  em_size _ := 10%Q;
  meta_in styles :=
    if option_eq (style_region styles) "hidden" then [Frame.Hide] else [];
  book_select _ family _ :=
    if bool_decide (family = "math") then Some 2%nat
    else if bool_decide (family = "serif") then Some 1%nat else None;
  world_font _ id := Some id;
  font_math font := Some (bool_decide (2 ≤ font)%nat);
  math_constants table := if table then Some () else None;
  layout_frame vt _ _ _ _ e :=
    (S vt, Ok (Frame.mk (mkSize 8 4)%Q (Some 3%Q)
                 [(Point_zero, Frame.Text (content_text (body e)))]));
  counter_layout vt numbering_ _ _ :=
    (S vt, Ok (Frame.mk (mkSize 3 2)%Q (Some 2%Q)
                 [(Point_zero, Frame.Text (numbering_text numbering_))]));
  Fragment_frame frame := frame;
|}.

#[local] Existing Instance text_typesetter.
#[local] Existing Instance toy_layouter.
#[local] Open Scope Q_scope.

Definition toy_body : Frame.t :=
  Frame.mk (mkSize 8 4) (Some 3) [(Point_zero, Frame.Text "x")].

Definition toy_number : Frame.t :=
  Frame.mk (mkSize 3 2) (Some 2) [(Point_zero, Frame.Text "(1)")].

(** Style chains: numbered blocks, without a math font, hidden. *)
Definition numbered : StyleChain :=
  mkStyleChain (Some true) (Some (Some "(1)")) None ENGLISH None.

Definition plain : StyleChain :=
  mkStyleChain (Some true) (Some (Some "(1)")) None ENGLISH (Some "plain").

Definition hidden : StyleChain :=
  mkStyleChain (Some true) (Some (Some "(1)")) None ENGLISH (Some "hidden").

Definition toy_font : @Font text_typesetter toy_layouter := 2%nat.

Definition wide : Regions := mkRegions (Infinite, Infinite) Infinite (false, false).
Definition narrow : Regions :=
  mkRegions (Finite 10, Infinite) Infinite (false, false).

(** What the layout returns for a hidden numbered equation. *)
Definition hidden_fragment : @Fragment text_typesetter toy_layouter :=
  Frame.meta (place_number toy_body toy_number hidden wide) (meta_in hidden) false.

(** What it returns for a numbered equation in a region of width 10. *)
Definition narrow_fragment : @Fragment text_typesetter toy_layouter :=
  Frame.meta (place_number toy_body toy_number numbered narrow)
    (meta_in numbered) false.

Lemma layout_no_math_font_witness :
  layout bare_equation 0%nat plain wide
  = (0%nat, Err (error (span bare_equation) "current font does not support math")).
Proof. apply (layout_no_math_font bare_equation 0%nat plain wide). by repeat constructor. Defined.

Lemma number_clear_of_equation_witness :
  let target :=
    mkSize (number_width toy_body toy_number numbered wide)
      (number_height toy_body toy_number) in
  let off := Frame.resize_offset toy_body target CENTER_HORIZON in
  let pos :=
    number_pos (Frame.resize toy_body target CENTER_HORIZON) toy_number numbered in
  if dir_is_positive numbered
  then point_x off + Frame.width toy_body + em_resolve NUMBER_GUTTER numbered
       <= point_x pos
  else point_x pos + Frame.width toy_number + em_resolve NUMBER_GUTTER numbered
       <= point_x off.
Proof.
  apply (number_clear_of_equation toy_body toy_number numbered wide);
    [reflexivity | by vm_compute].
Defined.

Lemma number_overlaps_in_narrow_region_witness :
  let target :=
    mkSize (number_width toy_body toy_number numbered narrow)
      (number_height toy_body toy_number) in
  let off := Frame.resize_offset toy_body target CENTER_HORIZON in
  let pos :=
    number_pos (Frame.resize toy_body target CENTER_HORIZON) toy_number numbered in
  point_x pos < point_x off + Frame.width toy_body
  ∧ point_x off < point_x pos + Frame.width toy_number.
Proof.
  apply (number_overlaps_in_narrow_region toy_body toy_number numbered narrow 10);
    first [reflexivity | by vm_compute].
Defined.

Lemma fit_inline_edges_witness :
  let slack := leading_in numbered * (7 # 10) in
  let ascent := Qmax (top_edge_in numbered toy_font) (3 - slack) in
  let descent :=
    Qmax (- bottom_edge_in numbered toy_font) (Frame.height toy_body - 3 - slack) in
  let fitted := fit_inline toy_body numbered toy_font in
  Frame.ascent fitted == ascent ∧ Frame.descent fitted == descent
  ∧ Frame.width fitted == Frame.width toy_body
  ∧ Frame.flatten fitted
    ≡ Frame.shift (Point_with_y (ascent - 3)) <$> Frame.flatten toy_body
  ∧ top_edge_in numbered toy_font <= Frame.ascent fitted
  ∧ - bottom_edge_in numbered toy_font <= Frame.descent fitted.
Proof. apply (fit_inline_edges toy_body numbered toy_font 3). reflexivity. Defined.

Lemma layout_hidden_witness :
  ∃ frame, hidden_fragment = Fragment_frame frame ∧ Frame.items frame = [].
Proof.
  apply (layout_hidden bare_equation 0%nat hidden wide 2%nat hidden_fragment);
    [by left | reflexivity].
Defined.

Lemma layout_numbered_fills_region_witness :
  ∃ font vt1 body vt2 counter frame,
    find_math_font 0%nat numbered = Some font
    ∧ layout_frame 0%nat numbered narrow font true bare_equation = (vt1, Ok body)
    ∧ (∃ n pod, counter_layout vt1 n numbered pod = (vt2, Ok counter))
    ∧ 2%nat = vt2
    ∧ narrow_fragment = Fragment_frame frame
    ∧ Frame.width frame == 10
    ∧ Frame.height body <= Frame.height frame
    ∧ Frame.height counter <= Frame.height frame.
Proof.
  apply (layout_numbered_fills_region bare_equation 0%nat numbered narrow 10 2%nat
           narrow_fragment);
    [reflexivity | by eexists | reflexivity | reflexivity].
Defined.

End Layout.
