(* ===== verification/MathLayout.v ===== *)
(** * Laying out content in math

    [impl LayoutMath for EquationElem] and [impl LayoutMath for Content] of
    [math/mod.rs]: the dispatch on the kind of a piece of content, with the
    math context threaded through it.  The context is a record of the
    fields the function touches ([local], [size], [fragments]) and of the
    outer style chain; what the function calls on it (realization, layout
    of text and of arbitrary content, the math elements of the other
    files) are the operations of the class [MathEngine], each returning the
    new context with its result.

    The function recurses into realized content, which a show rule may
    produce without bound, so it is defined with fuel: [None] means the
    fuel ran out.  [layout_math_total] shows that content on which no show
    rule fires is laid out with fuel proportional to its size, and
    [layout_math_fuel_mono] that more fuel never changes a result. *)

From S2P Require Import Prelude.

Module MathLayout.

(** [SourceResult<T>]. *)
Inductive SourceResult (E T : Type) : Type :=
| Ok (t : T)
| Err (e : E).
Arguments Ok {E T} t.
Arguments Err {E T} e.

(** The types of the other files and crates. *)
Class MathTypes : Type := {
  Styles : Type;
  Fonts : Type;
  Fonts_eq_dec :: EqDecision Fonts;
  Abs : Type;
  Frame : Type;
  Fragment : Type;
  TextElem : Type;
  MathElem : Type;
  OtherElem : Type;
  Errors : Type;
  Ratio : Type;
  Length : Type;
  Fr : Type;
  Rest : Type;
}.

Section content.
Context `{MathTypes}.

(** [Rel<Length>] and [Spacing]. *)
Record Rel : Type := mkRel { rel : Ratio; abs : Length }.

Inductive Spacing : Type :=
| Spacing_Rel (r : Rel)
| Spacing_Fr (fr : Fr).

(** [Content], by the kinds [layout_math] tells apart: an equation, a
    sequence, styled content, a space, a line break, horizontal spacing,
    text, another element that implements [LayoutMath], anything else. *)
Inductive Content : Type :=
| Equation (body : Content)
| Sequence (children : list Content)
| Styled (elem : Content) (styles : Styles)
| SpaceElem
| LinebreakElem
| HElem (amount : Spacing)
| Text (elem : TextElem)
| Math (elem : MathElem)
| Other (elem : OtherElem).

(** [MathContext]: the outer style chain, the local styles, the font size,
    the fragments pushed so far, and the rest of the context. *)
Record MathContext : Type := mkMathContext {
  outer : list Styles;
  local : Styles;
  size : Abs;
  fragments : list Fragment;
  rest : Rest;
}.

(** [MathContext::styles]: the outer chain with the local styles in
    front. *)
Definition styles (ctx : MathContext) : list Styles := local ctx :: outer ctx.

(** [MathContext::push]. *)
Definition push (ctx : MathContext) (fragment : Fragment) : MathContext :=
  mkMathContext (outer ctx) (local ctx) (size ctx) (fragments ctx ++ [fragment])
    (rest ctx).

Definition set_local (ctx : MathContext) (l : Styles) : MathContext :=
  mkMathContext (outer ctx) l (size ctx) (fragments ctx) (rest ctx).

Definition set_size (ctx : MathContext) (s : Abs) : MathContext :=
  mkMathContext (outer ctx) (local ctx) s (fragments ctx) (rest ctx).

(** What a call of [layout_math] gives: nothing when the fuel ran out,
    else the context it leaves and [Ok(())] or the errors. *)
Definition result : Type := option (MathContext * SourceResult Errors unit).

(** [trait LayoutMath]: the type of [layout_math], a function of the
    content and of the context it changes. *)
Definition LayoutMath : Type := Content → MathContext → result.

End content.

(** What [layout_math] calls. *)
Class MathEngine `{MathTypes} : Type := {
  (** [MathContext::realize], [layout_content] and [layout_text]. *)
  realize : MathContext → Content → MathContext * SourceResult Errors (option Content);
  layout_content : MathContext → Content → MathContext * SourceResult Errors Frame;
  layout_text : MathContext → TextElem → MathContext * SourceResult Errors Fragment;
  (** [layout_math] of the elements of the other files. *)
  math_elem_layout : MathElem → MathContext → MathContext * SourceResult Errors unit;
  (** [BehavedBuilder]: the children left after pushing them all. *)
  behaved : list Content → list Content;
  (** [Styles::apply], [TextElem::font_in] and [TextElem::size_in]. *)
  styles_apply : Styles → Styles → Styles;
  font_in : list Styles → Fonts;
  size_in : list Styles → Abs;
  (** The fragments. *)
  MathFragment_Space : Abs → Fragment;
  MathFragment_Linebreak : Fragment;
  MathFragment_Spacing : Abs → Fragment;
  (** [FrameFragment::new(ctx, frame).with_spaced(true)]. *)
  FrameFragment_spaced : MathContext → Frame → Fragment;
  (** [ctx.space_width.scaled(ctx)] and [scaled!(ctx, axis_height)]. *)
  space_width_scaled : MathContext → Abs;
  axis_height_scaled : MathContext → Abs;
  (** [Ratio::is_zero] and [Length::resolve]. *)
  ratio_is_zero : Ratio → bool;
  length_resolve : Length → list Styles → Abs;
  (** Frames: [has_baseline], [height], [set_baseline], and
      [height / 2.0 + axis]. *)
  frame_has_baseline : Frame → bool;
  frame_height : Frame → Abs;
  frame_set_baseline : Frame → Abs → Frame;
  half_plus : Abs → Abs → Abs;
}.

Section layout.
Context `{MathEngine}.

(** The loop over the children of a sequence: it stops at the first
    error. *)
Definition layout_children (layout : LayoutMath)
    : list Content → MathContext → result :=
  fix go (children : list Content) (ctx : MathContext) : result :=
    match children with
    | [] => Some (ctx, Ok ())
    | child :: children' =>
        match layout child ctx with
        | Some (ctx, Ok _) => go children' ctx
        | r => r
        end
    end.

(** The branch of styled content whose font is the font in use. *)
Definition layout_styled (layout : LayoutMath)
    (elem : Content) (styles_ : Styles) (ctx : MathContext) : result :=
  let prev_map := local ctx in
  let ctx := set_local ctx styles_ in
  let prev_size := size ctx in
  let ctx := set_local ctx (styles_apply (local ctx) prev_map) in
  let ctx := set_size ctx (size_in (styles ctx)) in
  match layout elem ctx with
  | Some (ctx, Ok _) =>
      let ctx := set_size ctx prev_size in
      let ctx := set_local ctx prev_map in
      Some (ctx, Ok ())
  | r => r
  end.

(** The branches for content that is not an equation and that no show
    rule realizes. *)
Definition layout_kind (layout : LayoutMath) : LayoutMath := λ c ctx,
  match c with
  | Equation body => layout body ctx
  | Sequence children => layout_children layout (behaved children) ctx
  | Styled elem styles_ =>
      if decide (font_in (styles_ :: styles ctx) ≠ font_in (styles ctx)) then
        let '(ctx, frame) := layout_content ctx c in
        match frame with
        | Err e => Some (ctx, Err e)
        | Ok frame => Some (push ctx (FrameFragment_spaced ctx frame), Ok ())
        end
      else layout_styled layout elem styles_ ctx
  | SpaceElem => Some (push ctx (MathFragment_Space (space_width_scaled ctx)), Ok ())
  | LinebreakElem => Some (push ctx MathFragment_Linebreak, Ok ())
  | HElem amount =>
      match amount with
      | Spacing_Rel r =>
          if ratio_is_zero (rel r)
          then Some (push ctx (MathFragment_Spacing (length_resolve (abs r) (styles ctx))),
                     Ok ())
          else Some (ctx, Ok ())
      | Spacing_Fr _ => Some (ctx, Ok ())
      end
  | Text elem =>
      let '(ctx, fragment) := layout_text ctx elem in
      match fragment with
      | Err e => Some (ctx, Err e)
      | Ok fragment => Some (push ctx fragment, Ok ())
      end
  | Math elem => Some (math_elem_layout elem ctx)
  | Other _ =>
      let '(ctx, frame) := layout_content ctx c in
      match frame with
      | Err e => Some (ctx, Err e)
      | Ok frame =>
          let frame :=
            if negb (frame_has_baseline frame)
            then frame_set_baseline frame
                   (half_plus (frame_height frame) (axis_height_scaled ctx))
            else frame in
          Some (push ctx (FrameFragment_spaced ctx frame), Ok ())
      end
  end.

(** [<Content as LayoutMath>::layout_math], with fuel for the calls on
    realized content and on children.  A nested equation lays out its body
    directly ([<EquationElem as LayoutMath>::layout_math]) before any show
    rule is tried. *)
Fixpoint layout_math (fuel : nat) : LayoutMath := λ c ctx,
  match fuel with
  | 0 => None
  | S fuel =>
      match c with
      | Equation body => layout_math fuel body ctx
      | _ =>
          let '(ctx, realized) := realize ctx c in
          match realized with
          | Err e => Some (ctx, Err e)
          | Ok (Some realized) => layout_math fuel realized ctx
          | Ok None => layout_kind (layout_math fuel) c ctx
          end
      end
  end.

(** The size of content: the number of its nodes. *)
Fixpoint content_size (c : Content) : nat :=
  match c with
  | Equation body => S (content_size body)
  | Sequence children => S (sum_list_with content_size children)
  | Styled elem _ => S (content_size elem)
  | _ => 1
  end.

(** ** What the theorems assume of the engine *)

(** Two contexts with the same styles and font size. *)
Definition same_styles (ctx ctx' : MathContext) : Prop :=
  outer ctx' = outer ctx ∧ local ctx' = local ctx ∧ size ctx' = size ctx.

(** The operations of the engine leave the styles and the font size as
    they found them. *)
Definition engine_keeps_styles : Prop :=
  (∀ ctx c, same_styles ctx (realize ctx c).1)
  ∧ (∀ ctx c, same_styles ctx (layout_content ctx c).1)
  ∧ (∀ ctx t, same_styles ctx (layout_text ctx t).1)
  ∧ (∀ e ctx, same_styles ctx (math_elem_layout e ctx).1).

(** No show rule applies: realization changes nothing. *)
Definition no_show_rule : Prop := ∀ ctx c, realize ctx c = (ctx, Ok None).

(** The builder keeps only children it was given. *)
Definition behaved_sub : Prop := ∀ children, behaved children ⊆ children.

(** A layout function that restores the styles when it succeeds. *)
Definition restoring (layout : Content → MathContext → result) : Prop :=
  ∀ c ctx ctx', layout c ctx = Some (ctx', Ok ()) → same_styles ctx ctx'.

(** [g] answers what [f] answers. *)
Definition extends (f g : Content → MathContext → result) : Prop :=
  ∀ c ctx r, f c ctx = Some r → g c ctx = Some r.

End layout.

Section layout_facts.
Context `{MathEngine}.
Implicit Types (c : Content) (ctx : MathContext).

#[local] Instance same_styles_refl : Reflexive same_styles.
Proof. by intros ctx. Qed.

#[local] Instance same_styles_trans : Transitive same_styles.
Proof.
  intros c1 c2 c3 (Ho & Hl & Hs) (Ho' & Hl' & Hs'). unfold same_styles.
  by rewrite Ho', Hl', Hs'.
Qed.

Lemma same_styles_push ctx f : same_styles ctx (push ctx f).
Proof. done. Qed.

Lemma same_styles_styles ctx ctx' : same_styles ctx ctx' → styles ctx' = styles ctx.
Proof. intros (Ho & Hl & _). unfold styles. by rewrite Ho, Hl. Qed.

(** ** The styles are restored *)

Lemma layout_children_restoring layout children ctx ctx' :
  restoring layout →
  layout_children layout children ctx = Some (ctx', Ok ()) → same_styles ctx ctx'.
Proof.
  intros Hl. revert ctx. induction children as [|c cs IH]; intros ctx; simpl.
  { by intros [= ->]. }
  destruct (layout c ctx) as [[ctx1 [[]|e]]|] eqn:Hc; [|done..].
  intros Hcs. etrans; [by eapply Hl|by apply IH].
Qed.

Lemma layout_styled_restoring layout elem st ctx ctx' :
  restoring layout →
  layout_styled layout elem st ctx = Some (ctx', Ok ()) → same_styles ctx ctx'.
Proof.
  intros Hl. unfold layout_styled.
  destruct (layout elem _) as [[ctx1 [[]|e]]|] eqn:Hc; [|done..].
  intros [= <-]. apply Hl in Hc as (Ho & _ & _). by split_and!.
Qed.

Lemma layout_kind_restoring layout :
  engine_keeps_styles → restoring layout → restoring (layout_kind layout).
Proof.
  intros (_ & Hlc & Hlt & Hme) Hl c ctx ctx'. destruct c; simpl.
  - apply Hl.
  - by apply layout_children_restoring.
  - case_decide; [|by apply layout_styled_restoring].
    pose proof (Hlc ctx (Styled c styles0)) as Hk.
    destruct (layout_content _ _) as [ctx1 [f|e]]; [|done].
    intros [= <-]. by etrans; [exact Hk|].
  - by intros [= <-].
  - by intros [= <-].
  - destruct amount as [r|fr]; [destruct (ratio_is_zero _)|]; by intros [= <-].
  - pose proof (Hlt ctx elem) as Hk.
    destruct (layout_text _ _) as [ctx1 [f|e]]; [|done].
    intros [= <-]. by etrans; [exact Hk|].
  - pose proof (Hme elem ctx) as Hk. intros [= Heq]. by rewrite Heq in Hk.
  - pose proof (Hlc ctx (Other elem)) as Hk.
    destruct (layout_content _ _) as [ctx1 [f|e]]; [|done].
    intros [= <-]. by etrans; [exact Hk|].
Qed.

Lemma layout_math_restoring fuel :
  engine_keeps_styles → restoring (layout_math fuel).
Proof.
  intros Hk. induction fuel as [|fuel IH]; intros c ctx ctx'; [done|].
  assert (∀ c, (let '(ctx1, realized) := realize ctx c in
                match realized with
                | Err e => Some (ctx1, Err e)
                | Ok (Some realized) => layout_math fuel realized ctx1
                | Ok None => layout_kind (layout_math fuel) c ctx1
                end) = Some (ctx', Ok ()) → same_styles ctx ctx') as Hreal.
  { intros c0. pose proof (proj1 Hk ctx c0) as Hr.
    destruct (realize ctx c0) as [ctx1 [[c1|]|e]]; [| |done]; intros Hl;
      (etrans; [exact Hr|]); [by eapply IH|by eapply layout_kind_restoring]. }
  destruct c; simpl; first [apply IH|apply Hreal].
Qed.

(** C39. When the operations of the engine leave the styles alone, a
    successful [layout_math] does too: the local styles and the font size
    that the branch of styled content replaces are back when it returns
    [Ok], however deep the styled content nests. *)
Theorem layout_math_restores fuel c ctx ctx' :
  engine_keeps_styles →
  layout_math fuel c ctx = Some (ctx', Ok ()) →
  outer ctx' = outer ctx ∧ local ctx' = local ctx ∧ size ctx' = size ctx.
Proof. intros Hk Hl. by eapply layout_math_restoring. Qed.

(** C30. The styles are not restored on the error path: when the text
    inside styled content fails to lay out, [layout_math] returns the
    error with the context as the text layout left it, whose local styles
    are the styles of the styled content applied on the previous ones. *)
Theorem layout_math_styled_error fuel t st ctx ctx' e :
  engine_keeps_styles → no_show_rule →
  font_in (st :: styles ctx) = font_in (styles ctx) →
  layout_text (set_size (set_local ctx (styles_apply st (local ctx)))
                 (size_in (styles_apply st (local ctx) :: outer ctx))) t
  = (ctx', Err e) →
  layout_math (S (S fuel)) (Styled (Text t) st) ctx = Some (ctx', Err e)
  ∧ local ctx' = styles_apply st (local ctx).
Proof.
  intros (_ & _ & Hlt & _) Hns Hfont Ht.
  match type of Ht with layout_text ?c _ = _ => pose proof (Hlt c t) as Hk end.
  rewrite Ht in Hk. destruct Hk as (_ & Hl & _).
  split; [|exact Hl]. simpl. rewrite Hns. simpl.
  rewrite decide_False by (intros Hne; by apply Hne).
  unfold layout_styled. rewrite Hns. simpl.
  unfold set_size, set_local, styles in *. simpl in *. by rewrite Ht.
Qed.

(** ** Fuel *)

Lemma content_size_pos c : 0 < content_size c.
Proof. destruct c; simpl; lia. Qed.

Lemma layout_children_total layout children ctx :
  (∀ c ctx, c ∈ children → is_Some (layout c ctx)) →
  is_Some (layout_children layout children ctx).
Proof.
  revert ctx. induction children as [|c cs IH]; intros ctx Hl; simpl; [done|].
  destruct (Hl c ctx) as [[ctx1 [[]|e]] ->]; [by left| |done].
  apply IH. intros c' ctx' Hin. apply Hl. by right.
Qed.

Lemma layout_kind_total layout c ctx :
  behaved_sub →
  (∀ c' ctx', content_size c' < content_size c → is_Some (layout c' ctx')) →
  is_Some (layout_kind layout c ctx).
Proof.
  intros Hb Hl. destruct c; simpl in *.
  - apply Hl. lia.
  - apply layout_children_total. intros c' ctx' Hin%Hb. apply Hl.
    pose proof (sum_list_with_in _ content_size _ Hin). lia.
  - case_decide; [by destruct (layout_content _ _) as [? [?|?]]|].
    unfold layout_styled.
    match goal with
    | |- context [layout c ?x] =>
        by destruct (Hl c x) as [[ctx1 [[]|e]] ->]; [lia|..]
    end.
  - done.
  - done.
  - by destruct amount as [r|fr]; [destruct (ratio_is_zero _)|].
  - by destruct (layout_text _ _) as [? [?|?]].
  - done.
  - by destruct (layout_content _ _) as [? [?|?]].
Qed.

(** C40. [layout_math] terminates on content that no show rule rewrites:
    with as much fuel as the content has nodes it returns, with [Ok] or
    with the errors of the engine. *)
Theorem layout_math_total fuel c ctx :
  no_show_rule → behaved_sub →
  content_size c ≤ fuel → is_Some (layout_math fuel c ctx).
Proof.
  intros Hns Hb. revert c ctx. induction fuel as [|fuel IH]; intros c ctx Hsz.
  { pose proof (content_size_pos c). lia. }
  assert (is_Some (layout_kind (layout_math fuel) c ctx)) as Hkind.
  { apply layout_kind_total; [done|]. intros c' ctx' Hlt. apply IH. lia. }
  destruct c; simpl in *; by rewrite ?Hns.
Qed.

Lemma layout_children_extends f g children ctx r :
  extends f g →
  layout_children f children ctx = Some r → layout_children g children ctx = Some r.
Proof.
  intros Hfg. revert ctx. induction children as [|c cs IH]; intros ctx; simpl; [done|].
  destruct (f c ctx) as [[ctx1 [[]|e]]|] eqn:Hc; [|by rewrite (Hfg _ _ _ Hc)..|done].
  rewrite (Hfg _ _ _ Hc). apply IH.
Qed.

Lemma layout_kind_extends f g : extends f g → extends (layout_kind f) (layout_kind g).
Proof.
  intros Hfg c ctx r. destruct c; simpl; try done.
  - apply Hfg.
  - by apply layout_children_extends.
  - case_decide; [done|]. unfold layout_styled.
    destruct (f c _) as [[ctx1 [[]|e]]|] eqn:Hc; [| |done];
      by rewrite (Hfg _ _ _ Hc).
Qed.

(** More fuel never changes a result. *)
Lemma layout_math_fuel_mono fuel fuel' :
  fuel ≤ fuel' → extends (layout_math fuel) (layout_math fuel').
Proof.
  revert fuel'. induction fuel as [|fuel IH]; intros [|fuel'] Hle c ctx r;
    [done|done|lia|].
  assert (extends (layout_math fuel) (layout_math fuel')) as Hext by (apply IH; lia).
  destruct c; cbn [layout_math]; try apply Hext;
    destruct (realize ctx _) as [ctx1 [[c1|]|e]]; try done;
    first [apply Hext | by apply layout_kind_extends].
Qed.

End layout_facts.

(** ** The theorems on a concrete engine *)

(** An engine on numbers: a style is a number, applying styles adds them,
    the size is the length of the chain, text lays out unless it is
    [false], and no show rule applies. *)
#[local] Instance toy_types : MathTypes := {|
  Styles := nat; Fonts := nat; Abs := nat; Frame := nat; Fragment := nat;
  TextElem := bool; MathElem := unit; OtherElem := unit; Errors := unit;
  Ratio := nat; Length := nat; Fr := unit; Rest := unit;
|}.

#[local] Instance toy_engine : MathEngine := {|
  realize ctx c := (ctx, Ok None);
  layout_content ctx c := (ctx, Ok 7);
  layout_text ctx (t : TextElem) := (ctx, if t then Ok 1 else Err ());
  math_elem_layout e ctx := (ctx, Ok ());
  behaved children := children;
  styles_apply (a b : Styles) := a + b;
  font_in chain := 0;
  size_in chain := length chain;
  MathFragment_Space w := w;
  MathFragment_Linebreak := 2;
  MathFragment_Spacing a := a;
  FrameFragment_spaced ctx frame := frame;
  space_width_scaled ctx := 3;
  axis_height_scaled ctx := 4;
  ratio_is_zero (r : Ratio) := bool_decide (r = 0);
  length_resolve (l : Length) chain := l;
  frame_has_baseline frame := true;
  frame_height (frame : Frame) := frame;
  frame_set_baseline frame a := frame;
  half_plus (a b : Abs) := a + b;
|}.

Lemma toy_engine_keeps_styles : engine_keeps_styles.
Proof. by repeat split. Defined.

Definition toy_ctx : MathContext := mkMathContext [] 1 10 [] ().

(** Styled content holding a text and a space, and styled content holding
    a text that fails to lay out. *)
Definition toy_styled : Content :=
  Styled (Sequence [Text (true : @TextElem toy_types); SpaceElem]) 5.

Definition toy_failing : Content := Styled (Text (false : @TextElem toy_types)) 5.

Lemma layout_math_restores_witness :
  outer (mkMathContext [] 1 10 [1; 3] ()) = outer toy_ctx
  ∧ local (mkMathContext [] 1 10 [1; 3] ()) = local toy_ctx
  ∧ size (mkMathContext [] 1 10 [1; 3] ()) = size toy_ctx.
Proof.
  apply (layout_math_restores 4 toy_styled toy_ctx);
    [exact toy_engine_keeps_styles | reflexivity].
Defined.

Lemma layout_math_styled_error_witness :
  layout_math 2 toy_failing toy_ctx = Some (mkMathContext [] 6 1 [] (), Err ())
  ∧ local (mkMathContext [] 6 1 [] ()) = styles_apply 5 (local toy_ctx).
Proof.
  apply (layout_math_styled_error 0 (false : @TextElem toy_types) 5 toy_ctx);
    [exact toy_engine_keeps_styles | done..].
Defined.

Lemma layout_math_total_witness : is_Some (layout_math 4 toy_styled toy_ctx).
Proof.
  apply (layout_math_total 4 toy_styled toy_ctx);
    [done | by intros l | simpl; lia].
Defined.

End MathLayout.
